(** * Schema-to-type-model compiler of propulsionworks/cloudformation

    A shallow embedding of the build library (type-nodes.ts, object.ts,
    schema-paths.ts, resource-builder.ts, resource-type-simplifier.ts,
    code-generator.ts) and of the definition-emitting loop of
    build/generate.ts, followed by the properties proved about them. *)

From Stdlib Require Import List String Ascii ZArith Bool Arith Lia.
Import ListNotations.
Open Scope string_scope.
Open Scope list_scope.

Set Implicit Arguments.
Set Warnings "-register-all".
Set Warnings "-automation".


(* ===================================================================== *)
(** ** JavaScript values as the code sees them *)
(* ===================================================================== *)

Module Js.

(** lib/json.ts: [JsonPrimitive]. Numbers are the integer literals that
    occur in schemas (bounds, enum members). *)
Inductive JsonPrimitive : Type :=
| JNull
| JBool (b : bool)
| JNum (n : Z)
| JStr (s : string).

(** lib/json.ts: [JsonValue]. An object keeps its keys in insertion order,
    which is the order [Object.entries] and [Object.keys] report for keys
    that are not array indices. *)
Inductive json : Type :=
| JPrim (p : JsonPrimitive)
| JArr (items : list json)
| JObj (fields : list (string * json)).

Definition obj := list (string * json).

(** [a === b] on primitives. *)
Definition prim_eqb (a b : JsonPrimitive) : bool :=
  match a, b with
  | JNull, JNull => true
  | JBool x, JBool y => Bool.eqb x y
  | JNum x, JNum y => Z.eqb x y
  | JStr x, JStr y => String.eqb x y
  | _, _ => false
  end.

(** [a === b] on values read out of two different schema fragments:
    primitives compare by value, arrays and objects by identity, and two
    fragments never share an array or an object. *)
Definition strict_eqb (a b : json) : bool :=
  match a, b with
  | JPrim x, JPrim y => prim_eqb x y
  | _, _ => false
  end.

Section Assoc.
Variable V : Type.

(** [o[key]] on own keys. *)
Fixpoint get (key : string) (o : list (string * V)) : option V :=
  match o with
  | [] => None
  | (k, v) :: rest => if String.eqb k key then Some v else get key rest
  end.

(** [o[key] = v]: an existing key keeps its position, a new key goes last. *)
Fixpoint set (key : string) (v : V) (o : list (string * V)) : list (string * V) :=
  match o with
  | [] => [(key, v)]
  | (k, w) :: rest =>
      if String.eqb k key then (k, v) :: rest else (k, w) :: set key v rest
  end.

(** [delete o[key]]. *)
Fixpoint remove (key : string) (o : list (string * V)) : list (string * V) :=
  match o with
  | [] => []
  | (k, w) :: rest =>
      if String.eqb k key then remove key rest else (k, w) :: remove key rest
  end.

Definition has (key : string) (o : list (string * V)) : bool :=
  match get key o with Some _ => true | None => false end.

Definition keys (o : list (string * V)) : list string := map fst o.
Definition values (o : list (string * V)) : list V := map snd o.

(** [Object.fromEntries]: later entries overwrite earlier ones. *)
Definition fromEntries (entries : list (string * V)) : list (string * V) :=
  fold_left (fun acc kv => set (fst kv) (snd kv) acc) entries [].

End Assoc.

(** The names every plain object inherits from [Object.prototype]; the [in]
    operator answers true for them as well as for own keys. *)
Definition ObjectPrototypeKeys : list string :=
  [ "constructor"; "__defineGetter__"; "__defineSetter__"; "hasOwnProperty";
    "__lookupGetter__"; "__lookupSetter__"; "isPrototypeOf";
    "propertyIsEnumerable"; "toString"; "valueOf"; "__proto__";
    "toLocaleString" ].

Definition mem (x : string) (l : list string) : bool :=
  existsb (String.eqb x) l.

Definition inherited (key : string) : bool := mem key ObjectPrototypeKeys.

(** [key in o] for a plain object [o]. *)
Definition js_in (V : Type) (key : string) (o : list (string * V)) : bool :=
  has key o || inherited key.

Section Every.
Variable A : Type.
Variable f : A -> nat -> bool.

(** [xs.every((x, i) => f(x, i))], with the index counted from [i]. *)
Fixpoint every_from (i : nat) (xs : list A) : bool :=
  match xs with
  | [] => true
  | x :: rest => f x i && every_from (S i) rest
  end.

End Every.

Definition every (A : Type) (f : A -> nat -> bool) (xs : list A) : bool :=
  every_from f 0 xs.

End Js.

(* ===================================================================== *)
(** ** Strings, and the functions of node:path the code calls *)
(* ===================================================================== *)

Module Str.

Definition slash : ascii := "/"%char.

(** The text [s] between double quotes, as a template literal writes it. *)
Definition quoted (s : string) : string :=
  let mark := String (ascii_of_nat 34) EmptyString in
  (mark ++ s ++ mark)%string.

Definition chars (s : string) : list ascii := list_ascii_of_string s.
Definition unchars (l : list ascii) : string := string_of_list_ascii l.

(** [s.split(sep)] for a one-character separator, on characters. The
    accumulator holds the current piece reversed. *)
Fixpoint splitChars (sep : ascii) (cur : list ascii) (l : list ascii)
  : list (list ascii) :=
  match l with
  | [] => [rev cur]
  | c :: rest =>
      if Ascii.eqb c sep then rev cur :: splitChars sep [] rest
      else splitChars sep (c :: cur) rest
  end.

Definition split (sep : ascii) (s : string) : list string :=
  map unchars (splitChars sep [] (chars s)).

(** [parts.join(sep)]. *)
Fixpoint join (sep : string) (parts : list string) : string :=
  match parts with
  | [] => ""
  | [p] => p
  | p :: rest => (p ++ sep ++ join sep rest)%string
  end.

Definition startsWith (s prefix : string) : bool := String.prefix prefix s.

(** [s.slice(n)]. *)
Definition sliceFrom (n : nat) (s : string) : string :=
  String.substring n (String.length s - n) s.

Definition endsWith (s suffix : string) : bool :=
  let n := String.length s in
  let m := String.length suffix in
  Nat.leb m n && String.eqb (sliceFrom (n - m) s) suffix.

(** [s.includes(c)] for a one-character needle. *)
Definition includesChar (c : ascii) (s : string) : bool :=
  existsb (Ascii.eqb c) (chars s).

(** [s.replaceAll(c, "")] for a one-character needle. *)
Definition removeChar (c : ascii) (s : string) : string :=
  unchars (filter (fun x => negb (Ascii.eqb x c)) (chars s)).

Definition isDigit (c : ascii) : bool :=
  let n := nat_of_ascii c in Nat.leb 48 n && Nat.leb n 57.

(** [/^\d+$/] *)
Definition allDigits (s : string) : bool :=
  negb (String.eqb s "") && forallb isDigit (chars s).

(** [normalizeString] of node:path: ["."] and empty segments vanish, [".."]
    removes the segment before it, or stays when there is none to remove
    and the path is relative. [acc] is the stack of kept segments, last
    first. *)
Fixpoint normalizeSegments (allowAboveRoot : bool) (acc : list string)
  (segments : list string) : list string :=
  match segments with
  | [] => rev acc
  | seg :: rest =>
      if String.eqb seg "" || String.eqb seg "." then
        normalizeSegments allowAboveRoot acc rest
      else if String.eqb seg ".." then
        match acc with
        | [] =>
            normalizeSegments allowAboveRoot
              (if allowAboveRoot then [".."] else []) rest
        | top :: below =>
            if String.eqb top ".." then
              normalizeSegments allowAboveRoot (".." :: acc) rest
            else normalizeSegments allowAboveRoot below rest
        end
      else normalizeSegments allowAboveRoot (seg :: acc) rest
  end.

(** [posix.normalize]. *)
Definition normalize (path : string) : string :=
  if String.eqb path "" then "." else
  let isAbsolute := startsWith path "/" in
  let trailingSeparator := endsWith path "/" in
  let body := join "/" (normalizeSegments (negb isAbsolute) [] (split slash path)) in
  if String.eqb body "" then
    if isAbsolute then "/" else if trailingSeparator then "./" else "."
  else
    let body' := if trailingSeparator then (body ++ "/")%string else body in
    if isAbsolute then ("/" ++ body')%string else body'.

(** [posix.join(...args)]. *)
Definition posixJoin (args : list string) : string :=
  match filter (fun a => negb (String.eqb a "")) args with
  | [] => "."
  | kept => normalize (join "/" kept)
  end.

(** The backwards scan of [posix.dirname]: the index of the separator that
    ends the directory part, looking at indices from the last down to 1. *)
Fixpoint dirnameEnd (matchedSlash : bool) (rest : list (nat * ascii))
  : option nat :=
  match rest with
  | [] => None
  | (i, c) :: before =>
      if Nat.eqb i 0 then None
      else if Ascii.eqb c slash then
        if matchedSlash then dirnameEnd true before else Some i
      else dirnameEnd false before
  end.

Definition indexedRev (s : string) : list (nat * ascii) :=
  rev (combine (seq 0 (String.length s)) (chars s)).

(** [posix.dirname]. *)
Definition dirname (path : string) : string :=
  if String.eqb path "" then "." else
  let hasRoot := startsWith path "/" in
  match dirnameEnd true (indexedRev path) with
  | None => if hasRoot then "/" else "."
  | Some e =>
      if hasRoot && Nat.eqb e 1 then "//" else String.substring 0 e path
  end.

(** The backwards scan of [posix.basename]: [(start, end)] of the last
    segment, [end] being [None] while no character of it was seen. *)
Fixpoint basenameScan (matchedSlash : bool) (e : option nat)
  (rest : list (nat * ascii)) : nat * option nat :=
  match rest with
  | [] => (0, e)
  | (i, c) :: before =>
      if Ascii.eqb c slash then
        if matchedSlash then basenameScan true e before else (S i, e)
      else
        match e with
        | None => basenameScan false (Some (S i)) before
        | Some _ => basenameScan matchedSlash e before
        end
  end.

(** [posix.basename] without a suffix argument. *)
Definition basename (path : string) : string :=
  match basenameScan true None (indexedRev path) with
  | (_, None) => ""
  | (start, Some e) => String.substring start (e - start) path
  end.

End Str.

(* ===================================================================== *)
(** ** build-lib/type-nodes.ts *)
(* ===================================================================== *)

Module TypeNodes.
Import Js.

(** [ImportedName] and [IndexedName] are objects: [===] compares them by
    identity, which the field [oid] stands for. *)
Inductive SymbolName : Type :=
| NameString (s : string)
| NameImport (oid : nat) (moduleName name : string) (typeOnly : bool)
| NameIndexed (oid : nat) (name : SymbolName) (indexes : list string).

Definition name_eqb (a b : SymbolName) : bool :=
  match a, b with
  | NameString x, NameString y => String.eqb x y
  | NameImport i _ _ _, NameImport j _ _ _ => Nat.eqb i j
  | NameImport i _ _ _, NameIndexed j _ _ => Nat.eqb i j
  | NameIndexed i _ _, NameImport j _ _ _ => Nat.eqb i j
  | NameIndexed i _ _, NameIndexed j _ _ => Nat.eqb i j
  | _, _ => false
  end.

(** [TypeDocumentation]: a bag of optional fields, kept as the object the
    builder assembles. *)
Definition TypeDocumentation := obj.

Inductive PrimitiveKind : Type :=
| KBoolean | KInteger | KNull | KNumber | KString.

(** [PropertyInfo], over the type of its [type] field. *)
Record PropertyInfoOf (T : Type) : Type := mkPropertyInfo {
  documentation : option TypeDocumentation;
  isAttribute : option bool;
  readOnly : option bool;
  type : T
}.

(** [Type]: the tagged union of the IR. [ItemInfo] of an array is its
    optional documentation and its type. *)
Inductive TypeNode : Type :=
| TAny (id : string)
| TArray (id : string) (itemsDoc : option TypeDocumentation) (items : TypeNode)
| TConst (id : string) (value : JsonPrimitive)
| TEnum (id : string) (values : list JsonPrimitive)
| TObject (id : string) (properties : list (string * PropertyInfoOf TypeNode))
    (required : list string)
| TPrimitive (kind : PrimitiveKind) (id : string)
| TRecord (id : string) (value : TypeNode)
| TReference (id : string) (name : SymbolName)
| TUnion (id : string) (items : list TypeNode)
| TUnknown (id : string).

Definition PropertyInfo := PropertyInfoOf TypeNode.

Record TypeDefinition : Type := mkTypeDefinition {
  defDocumentation : option TypeDocumentation;
  defType : TypeNode
}.

Record ResourceType : Type := mkResourceType {
  typeName : string;
  attributes : option TypeDefinition;
  definitions : list (string * TypeDefinition);
  properties : TypeDefinition
}.

(** The [type] tag of a node. *)
Inductive Tag : Type :=
| TagAny | TagArray | TagBoolean | TagConst | TagEnum | TagInteger | TagNull
| TagNumber | TagObject | TagRecord | TagReference | TagString | TagUnion
| TagUnknown.

Definition tag_of_kind (k : PrimitiveKind) : Tag :=
  match k with
  | KBoolean => TagBoolean
  | KInteger => TagInteger
  | KNull => TagNull
  | KNumber => TagNumber
  | KString => TagString
  end.

Definition tag (t : TypeNode) : Tag :=
  match t with
  | TAny _ => TagAny
  | TArray _ _ _ => TagArray
  | TConst _ _ => TagConst
  | TEnum _ _ => TagEnum
  | TObject _ _ _ => TagObject
  | TPrimitive k _ => tag_of_kind k
  | TRecord _ _ => TagRecord
  | TReference _ _ => TagReference
  | TUnion _ _ => TagUnion
  | TUnknown _ => TagUnknown
  end.

Definition tag_eqb (a b : Tag) : bool :=
  match a, b with
  | TagAny, TagAny | TagArray, TagArray | TagBoolean, TagBoolean
  | TagConst, TagConst | TagEnum, TagEnum | TagInteger, TagInteger
  | TagNull, TagNull | TagNumber, TagNumber | TagObject, TagObject
  | TagRecord, TagRecord | TagReference, TagReference | TagString, TagString
  | TagUnion, TagUnion | TagUnknown, TagUnknown => true
  | _, _ => false
  end.

Definition node_id (t : TypeNode) : string :=
  match t with
  | TAny i | TArray i _ _ | TConst i _ | TEnum i _ | TObject i _ _
  | TPrimitive _ i | TRecord i _ | TReference i _ | TUnion i _
  | TUnknown i => i
  end.

Definition isPrimitiveTypeNode (node : TypeNode) : bool :=
  match node with
  | TPrimitive KBoolean _ | TPrimitive KInteger _ | TPrimitive KNumber _
  | TPrimitive KString _ => true
  | _ => false
  end.

(** [isSameType]. The opening test [a === b] is an identity test; a node is
    the same type as itself by the structural comparison too
    ([isSameType_refl] below), so it changes no answer. *)
Fixpoint isSameType (a b : TypeNode) {struct a} : bool :=
  match a, b with
  | TArray _ _ ia, TArray _ _ ib => isSameType ia ib
  | TConst _ va, TConst _ vb => prim_eqb va vb
  | TEnum _ va, TEnum _ vb =>
      Nat.eqb (List.length va) (List.length vb) &&
      every (fun value i =>
               match nth_error vb i with
               | Some w => prim_eqb w value
               | None => false
               end) va
  | TObject _ aProps aReq, TObject _ bProps bReq =>
      Nat.eqb (List.length aReq) (List.length bReq) &&
      Nat.eqb (List.length aProps) (List.length bProps) &&
      every (fun x i =>
               match nth_error bReq i with
               | Some y => String.eqb y x
               | None => false
               end) aReq &&
      every (fun entry i =>
               match nth_error bProps i with
               | Some other =>
                   String.eqb (fst other) (fst entry) &&
                   isSameType (type (snd entry)) (type (snd other))
               | None => false
               end) aProps
  | TRecord _ va, TRecord _ vb => isSameType va vb
  | TReference _ na, TReference _ nb => name_eqb na nb
  | TUnion _ ia, TUnion _ ib =>
      Nat.eqb (List.length ia) (List.length ib) &&
      every (fun item i =>
               match nth_error ib i with
               | Some other => isSameType item other
               | None => false
               end) ia
  | _, _ => tag_eqb (tag a) (tag b)
  end.

(** The [while (working.length > 0)] loop of [simplifyUnionType]; [None]
    when [fuel] iterations were not enough. *)
Fixpoint simplifyLoop (fuel : nat) (items working : list TypeNode)
  : option (list TypeNode) :=
  match working with
  | [] => Some items
  | current :: rest =>
      match fuel with
      | O => None
      | S fuel' =>
          match current with
          | TUnion _ members => simplifyLoop fuel' items (members ++ rest)
          | _ =>
              if existsb (fun x => isSameType x current) items
              then simplifyLoop fuel' items rest
              else simplifyLoop fuel' (items ++ [current]) rest
          end
      end
  end.

(** The three-way exit of [simplifyUnionType]. *)
Definition collapse (id : string) (items : list TypeNode) : TypeNode :=
  match items with
  | [] => TUnknown id
  | [only] => only
  | _ => TUnion id items
  end.

Definition simplifyUnionTypeFuel (fuel : nat) (id : string)
  (members : list TypeNode) : option TypeNode :=
  match simplifyLoop fuel [] members with
  | Some items => Some (collapse id items)
  | None => None
  end.

(** Number of nodes of the union tree hanging under a node: every loop
    iteration removes one of them from [working]. *)
Fixpoint unionSize (t : TypeNode) : nat :=
  match t with
  | TUnion _ members => S (fold_right (fun m n => unionSize m + n) 0 members)
  | _ => 1
  end.

Definition workSize (working : list TypeNode) : nat :=
  fold_right (fun m n => unionSize m + n) 0 working.

(** [simplifyUnionType(type)] for [type = { type: "union", id, items }]: the
    loop is given as many iterations as [working] has nodes, which is
    enough ([simplifyLoop_enough]). *)
Definition simplifyUnionType (id : string) (members : list TypeNode)
  : option TypeNode :=
  simplifyUnionTypeFuel (workSize members) id members.

End TypeNodes.

(* ===================================================================== *)
(** ** build-lib/object.ts *)
(* ===================================================================== *)

Module ObjectUtil.
Import Js.

(** [objects.pop()]: the last element and what stays in the array. *)
Definition pop (A : Type) (l : list A) : option (A * list A) :=
  match rev l with
  | [] => None
  | last :: before => Some (last, rev before)
  end.

(** [assign(target, ...objects)]. A field whose value is [undefined] is
    one the object does not hold. [target[key] = value] is the write of an
    own key, which is what the code does for every key but [__proto__]:
    that one is assigned through the accessor of [Object.prototype] and
    gives [target] no key. Objects with an own key [__proto__] are
    outside the model. *)
Definition assign (target : obj) (objects : list obj) : obj :=
  fold_left
    (fun target o => fold_left (fun t kv => set (fst kv) (snd kv) t) o target)
    objects target.

Section MergeObjectsWith.
Variable S : Type.
(** [mergeValues(a, b, key)], together with what it does to the state it
    closes over. *)
Variable mergeValues : json -> json -> string -> S -> json * S.

(** The body of the inner [for] of [mergeObjectsWith], for a [key] that is
    no name inherited from [Object.prototype]: there
    [result[key] === undefined] is a test on own keys and
    [result[key] = value] the write of one. For an inherited name the code
    reads the inherited member and merges with it, and for [__proto__] it
    stores nothing: objects with such keys are outside the model. The
    schema keywords merged by the builder are no such names. *)
Definition mergeEntry (acc : obj * S) (entry : string * json) : obj * S :=
  let '(result, st) := acc in
  let '(key, value) := entry in
  match get key result with
  | None => (set key value result, st)
  | Some existing =>
      let '(merged, st') := mergeValues existing value key st in
      (set key merged result, st')
  end.

(** [mergeObjectsWith(objects, mergeValues)]; [None] is the failed
    [assert(first, "expected non-empty array of objects")]. *)
Definition mergeObjectsWith (objects : list obj) (st : S) : option (obj * S) :=
  match pop objects with
  | None => None
  | Some (first, others) =>
      Some (fold_left (fun acc object => fold_left mergeEntry object acc)
              others (first, st))
  end.

End MergeObjectsWith.

(** A [boolean | key[] | undefined] option of [MergeObjectsOptions]. *)
Inductive KeyChoice : Type :=
| ChoiceUndefined
| ChoiceBool (b : bool)
| ChoiceKeys (keys : list string).

Record MergeObjectsOptions : Type := mkMergeObjectsOptions {
  mergeArrayValues : KeyChoice;
  overwriteValues : KeyChoice;
  uniqueArrayValues : bool
}.

Definition defaultMergeOptions : MergeObjectsOptions :=
  mkMergeObjectsOptions ChoiceUndefined ChoiceUndefined false.

Record MergeObjectsResult : Type := mkMergeObjectsResult {
  conflicts : option (list string);
  value : obj
}.

Definition isArray (v : json) : bool :=
  match v with JArr _ => true | _ => false end.

(** [[...new Set(result)]]: a primitive equal to an earlier member is
    dropped; arrays and objects are members by identity and all stay. *)
Fixpoint uniqueValues (seen : list json) (l : list json) : list json :=
  match l with
  | [] => []
  | x :: rest =>
      if existsb (fun y => strict_eqb y x) seen then uniqueValues seen rest
      else x :: uniqueValues (seen ++ [x]) rest
  end.

(** The callback [mergeObjects] hands to [mergeObjectsWith]; the state is
    the [conflicts] array it pushes to. *)
Definition mergeValue (options : MergeObjectsOptions) (a b : json)
  (key : string) (conflicts : list string) : json * list string :=
  let mergeArrays :=
    match mergeArrayValues options with
    | ChoiceKeys keys => mem key keys
    | ChoiceBool m => m && isArray a && isArray b
    | ChoiceUndefined => false
    end in
  if mergeArrays then
    let result :=
      match a, b with
      | JArr x, JArr y => x ++ y
      | JArr x, _ => x ++ [b]
      | _, JArr y => a :: y
      | _, _ => [a; b]
      end in
    (JArr (if uniqueArrayValues options then uniqueValues [] result else result),
     conflicts)
  else if match overwriteValues options with
          | ChoiceBool true => true
          | ChoiceKeys keys => mem key keys
          | _ => false
          end
  then (b, conflicts)
  else if strict_eqb a b then (a, conflicts)
  else (a, conflicts ++ [key]).

(** [mergeObjects(objects, options)]. *)
Definition mergeObjects (objects : list obj) (options : MergeObjectsOptions)
  : option MergeObjectsResult :=
  match mergeObjectsWith (mergeValue options) objects [] with
  | None => None
  | Some (value, conflicts) =>
      Some (match conflicts with
            | [] => mkMergeObjectsResult None value
            | _ => mkMergeObjectsResult (Some conflicts) value
            end)
  end.

(** [pick(object, keys)]. *)
Definition pick (object : obj) (keys : list string) : obj :=
  fold_left
    (fun result key =>
       match get key object with
       | Some value => set key value result
       | None => result
       end) keys [].

(** [splitPick(object, keys)]. As in [assign], [target[key] = value] is
    the write of an own key, which leaves out an [object] with an own key
    [__proto__]. *)
Definition splitPick (object : obj) (keys : list string) : obj * obj :=
  fold_left
    (fun acc kv =>
       let '(picked, rest) := acc in
       if mem (fst kv) keys then (set (fst kv) (snd kv) picked, rest)
       else (picked, set (fst kv) (snd kv) rest))
    object ([], []).

End ObjectUtil.

(* ===================================================================== *)
(** ** build-lib/schema-paths.ts and build-lib/extra-attributes.ts *)
(* ===================================================================== *)

Module SchemaPaths.
Import Js Str.

(** The inner [for (;;)] of [getBreadcrumbs]: the parents of [current],
    nearest first, up to [/properties]. Every round shortens the path, so
    as many rounds as the path has characters are enough. *)
Fixpoint parentsOf (fuel : nat) (current : string) : list string :=
  match fuel with
  | O => []
  | S fuel' =>
      let next := dirname current in
      if String.eqb next "/properties" || String.eqb next current then []
      else if negb (String.eqb (basename next) "*")
      then next :: parentsOf fuel' next
      else parentsOf fuel' next
  end.

(** [new Set(xs)] as the list of its members in insertion order. *)
Fixpoint unique (seen : list string) (xs : list string) : list string :=
  match xs with
  | [] => []
  | x :: rest =>
      if mem x seen then unique seen rest else x :: unique (x :: seen) rest
  end.

Definition depth (path : string) : nat := List.length (split slash path).

(** One step of a stable sort that puts deeper paths first. *)
Fixpoint insertByDepth (x : string) (sorted : list string) : list string :=
  match sorted with
  | [] => [x]
  | y :: rest =>
      if Nat.ltb (depth y) (depth x) then x :: y :: rest
      else y :: insertByDepth x rest
  end.

Definition sortDeepestFirst (xs : list string) : list string :=
  fold_left (fun sorted x => insertByDepth x sorted) xs [].

(** [getBreadcrumbs(paths)] *)
Definition getBreadcrumbs (paths : list string) : list string :=
  let breadcrumbs :=
    flat_map (fun path => parentsOf (S (String.length path)) path) paths in
  let kept := filter (fun b => negb (mem b paths)) (unique [] breadcrumbs) in
  sortDeepestFirst kept.

Definition ExtraAttributes : list (string * list string) :=
  [
    ("AWS::Amplify::Branch", ["BranchName"]);
    ("AWS::Amplify::Domain",
      ["DomainName"; "AutoSubDomainCreationPatterns"; "AutoSubDomainIAMRole"; "EnableAutoSubDomain"]);
    ("AWS::AppMesh::GatewayRoute",
      ["GatewayRouteName"; "MeshName"; "MeshOwner"; "VirtualGatewayName"]);
    ("AWS::AppMesh::Mesh", ["MeshName"]);
    ("AWS::AppMesh::Route",
      ["MeshName"; "MeshOwner"; "RouteName"; "VirtualRouterName"]);
    ("AWS::AppMesh::VirtualGateway",
      ["MeshName"; "MeshOwner"; "VirtualGatewayName"]);
    ("AWS::AppMesh::VirtualNode",
      ["MeshName"; "MeshOwner"; "VirtualNodeName"]);
    ("AWS::AppMesh::VirtualRouter",
      ["MeshName"; "MeshOwner"; "VirtualRouterName"]);
    ("AWS::AppMesh::VirtualService",
      ["MeshName"; "MeshOwner"; "VirtualServiceName"]);
    ("AWS::AppSync::DataSource", ["Name"]);
    ("AWS::AppSync::DomainName", ["DomainName"]);
    ("AWS::AppSync::FunctionConfiguration", ["DataSourceName"; "Name"]);
    ("AWS::AppSync::Resolver", ["FieldName"; "TypeName"]);
    ("AWS::Backup::BackupSelection", ["BackupPlanId"]);
    ("AWS::Backup::BackupVault", ["BackupVaultName"]);
    ("AWS::Cloud9::EnvironmentEC2", ["Name"]);
    ("AWS::CloudWatch::InsightRule", ["RuleName"]);
    ("AWS::CodeArtifact::Repository", ["DomainName"]);
    ("AWS::DocDB::DBCluster", ["Port"]);
    ("AWS::EC2::CapacityReservation",
      ["AvailabilityZone"; "InstanceType"; "Tenancy"]);
    ("AWS::EC2::Instance", ["AvailabilityZone"]);
    ("AWS::EC2::SecurityGroup", ["VpcId"]);
    ("AWS::EC2::Subnet",
      ["AvailabilityZone"; "AvailabilityZoneId"; "CidrBlock"; "VpcId"; "OutpostArn"]);
    ("AWS::EC2::VPC", ["CidrBlock"]);
    ("AWS::EFS::MountTarget", ["IpAddress"]);
    ("AWS::EKS::Nodegroup", ["ClusterName"; "NodegroupName"]);
    ("AWS::ElasticLoadBalancingV2::LoadBalancer", ["SecurityGroups"]);
    ("AWS::Events::EventBus", ["Name"]);
    ("AWS::EventSchemas::Registry", ["RegistryName"]);
    ("AWS::EventSchemas::Schema", ["SchemaName"]);
    ("AWS::GameLift::GameSessionQueue", ["Name"]);
    ("AWS::GameLift::MatchmakingConfiguration", ["Name"]);
    ("AWS::GameLift::MatchmakingRuleSet", ["Name"]);
    ("AWS::Grafana::Workspace", ["GrafanaVersion"]);
    ("AWS::Greengrass::ConnectorDefinition", ["Name"]);
    ("AWS::Greengrass::CoreDefinition", ["Name"]);
    ("AWS::Greengrass::DeviceDefinition", ["Name"]);
    ("AWS::Greengrass::FunctionDefinition", ["Name"]);
    ("AWS::Greengrass::Group", ["Name"; "RoleArn"]);
    ("AWS::Greengrass::LoggerDefinition", ["Name"]);
    ("AWS::Greengrass::ResourceDefinition", ["Name"]);
    ("AWS::Greengrass::SubscriptionDefinition", ["Name"]);
    ("AWS::ImageBuilder::Component", ["Name"]);
    ("AWS::ImageBuilder::ContainerRecipe", ["Name"]);
    ("AWS::ImageBuilder::DistributionConfiguration", ["Name"]);
    ("AWS::ImageBuilder::ImagePipeline", ["Name"]);
    ("AWS::ImageBuilder::ImageRecipe", ["Name"]);
    ("AWS::ImageBuilder::InfrastructureConfiguration", ["Name"]);
    ("AWS::Kinesis::StreamConsumer", ["ConsumerName"; "StreamARN"]);
    ("AWS::ManagedBlockchain::Member", ["NetworkId"]);
    ("AWS::ManagedBlockchain::Node", ["MemberId"; "NetworkId"]);
    ("AWS::MediaConvert::JobTemplate", ["Name"]);
    ("AWS::MediaConvert::Preset", ["Name"]);
    ("AWS::MediaConvert::Queue", ["Name"]);
    ("AWS::MediaLive::Input", ["Destinations"; "Sources"]);
    ("AWS::Neptune::DBCluster", ["Port"]);
    ("AWS::OpsWorks::Instance", ["AvailabilityZone"]);
    ("AWS::OpsWorks::UserProfile", ["SshUsername"]);
    ("AWS::RDS::DBInstance", ["DBSystemId"]);
    ("AWS::RDS::DBParameterGroup", ["DBParameterGroupName"]);
    ("AWS::RoboMaker::RobotApplication", ["CurrentRevisionId"]);
    ("AWS::RoboMaker::SimulationApplication", ["CurrentRevisionId"]);
    ("AWS::Route53Resolver::ResolverEndpoint", ["Name"; "Direction"]);
    ("AWS::Route53Resolver::ResolverRule",
      ["DomainName"; "Name"; "ResolverEndpointId"; "TargetIps"]);
    ("AWS::Route53Resolver::ResolverRuleAssociation",
      ["Name"; "ResolverRuleId"; "VPCId"]);
    ("AWS::S3::AccessPoint", ["Name"]);
    ("AWS::SageMaker::CodeRepository", ["CodeRepositoryName"]);
    ("AWS::SageMaker::Endpoint", ["EndpointName"]);
    ("AWS::SageMaker::EndpointConfig", ["EndpointConfigName"]);
    ("AWS::SageMaker::Model", ["ModelName"]);
    ("AWS::SageMaker::NotebookInstance", ["NotebookInstanceName"]);
    ("AWS::SageMaker::NotebookInstanceLifecycleConfig",
      ["NotebookInstanceLifecycleConfigName"]);
    ("AWS::SageMaker::Workteam", ["WorkteamName"]);
    ("AWS::ServiceDiscovery::Service", ["Name"]);
    ("AWS::SNS::Topic", ["TopicName"]);
    ("AWS::SQS::Queue", ["QueueName"]);
    ("AWS::SSM::Parameter", ["Type"; "Value"]);
    ("AWS::StepFunctions::Activity", ["Name"]);
    ("AWS::Transfer::User", ["ServerId"; "UserName"])
  ].

End SchemaPaths.

(* ===================================================================== *)
(** ** Outcomes of a call, warnings, and the builder's state *)
(* ===================================================================== *)

Module Run.
Import Js TypeNodes.

(** How a call ends: it returns, it throws, the model's fuel ran out before
    it ended, or the input lies outside what the model covers (a value of a
    shape the declared TypeScript types exclude). *)
Inductive Result (A : Type) : Type :=
| Ok (a : A)
| Throw (message : string)
| OutOfFuel
| Unmodelled.

Arguments Ok {A} a.
Arguments Throw {A} message.
Arguments OutOfFuel {A}.
Arguments Unmodelled {A}.

(** One call of [ResourceBuilder.#warn]: the full reference, the format and
    the remaining arguments. *)
Record WarnCall : Type := mkWarnCall {
  warnLocation : string;
  warnFormat : string;
  warnArgs : list json
}.

(** [ResourceDocumenter]: each method may be missing. *)
Record ResourceDocumenter : Type := mkResourceDocumenter {
  getAttributeDocs : option (string -> option string -> option TypeDocumentation);
  getDefinitionDocs :
    option (string -> string -> option string -> option TypeDocumentation);
  getResourceDocs : option (string -> option string -> option TypeDocumentation)
}.

(** [options.documenter ?? {}] *)
Definition noDocumenter : ResourceDocumenter :=
  mkResourceDocumenter None None None.

(** What the walking functions of a [ResourceBuilder] read and write: the
    private fields [#ignoreExtraKeyLocations] and [#problems], and the
    module-level table [RelevantKeys], whose arrays [#warnExtraKeys] pushes
    to. [problems] is what the reporter has received, [None] when the field
    holds no reporter. [warnCalls] records every call of [#warn]. *)
Record Diag : Type := mkDiag {
  ignoreExtraKeyLocations : list string;
  problems : option (list WarnCall);
  relevantKeys : Tag -> list string;
  warnCalls : list WarnCall
}.

(** The whole state of a [ResourceBuilder]: [#root], which only [build]
    and the classification of attributes write, and the rest. *)
Record State : Type := mkState {
  root : ResourceType;
  diag : Diag
}.

(** A computation that reads and writes a state of type [St]. *)
Definition ST (St A : Type) : Type := St -> Result (A * St).

(** The computations of a [ResourceBuilder], and those of them that leave
    [#root] alone. *)
Definition M (A : Type) : Type := ST State A.
Definition W (A : Type) : Type := ST Diag A.

Definition liftW (A : Type) (w : W A) : M A :=
  fun st =>
    match w (diag st) with
    | Ok (a, d) => Ok (a, mkState (root st) d)
    | Throw msg => Throw msg
    | OutOfFuel => OutOfFuel
    | Unmodelled => Unmodelled
    end.

Section StateMonad.
Variable St : Type.

Definition ret (A : Type) (a : A) : ST St A := fun st => Ok (a, st).

Definition bind (A B : Type) (m : ST St A) (k : A -> ST St B) : ST St B :=
  fun st =>
    match m st with
    | Ok (a, st') => k a st'
    | Throw msg => Throw msg
    | OutOfFuel => OutOfFuel
    | Unmodelled => Unmodelled
    end.

Definition throw (A : Type) (message : string) : ST St A :=
  fun _ => Throw message.
Definition outOfFuel (A : Type) : ST St A := fun _ => OutOfFuel.
Definition unmodelled (A : Type) : ST St A := fun _ => Unmodelled.
Definition getState : ST St St := fun st => Ok (st, st).
Definition putState (st : St) : ST St unit := fun _ => Ok (tt, st).

(** [assert(cond, message)] *)
Definition assert (cond : bool) (message : string) : ST St unit :=
  if cond then ret tt else throw unit message.

Definition liftR (A : Type) (r : Result A) : ST St A :=
  fun st =>
    match r with
    | Ok a => Ok (a, st)
    | Throw msg => Throw msg
    | OutOfFuel => OutOfFuel
    | Unmodelled => Unmodelled
    end.

End StateMonad.

Arguments ret {St A} a.
Arguments bind {St A B} m k.
Arguments throw {St} A message.
Arguments outOfFuel {St} A.
Arguments unmodelled {St} A.
Arguments getState {St}.
Arguments putState {St} st.
Arguments assert {St} cond message.
Arguments liftR {St A} r.

Declare Scope run_scope.
Delimit Scope run_scope with run.
Notation "x <- m ;; k" := (bind m (fun x => k))
  (at level 61, m at next level, right associativity) : run_scope.
Notation "m ;;; k" := (bind m (fun _ => k))
  (at level 61, right associativity) : run_scope.

Open Scope run_scope.

Section Loops.
Variable St : Type.

(** [xs.map(f)] for an effectful [f], left to right. *)
Fixpoint mapM (A B : Type) (f : A -> ST St B) (xs : list A) : ST St (list B) :=
  match xs with
  | [] => ret []
  | x :: rest =>
      y <- f x ;;
      ys <- mapM f rest ;;
      ret (y :: ys)
  end.

(** [for (const x of xs) body(x)] *)
Fixpoint forEach (A : Type) (body : A -> ST St unit) (xs : list A) : ST St unit :=
  match xs with
  | [] => ret tt
  | x :: rest => body x ;;; forEach body rest
  end.

(** As [mapM], the callback also receiving the index. *)
Fixpoint mapMi (A B : Type) (f : A -> nat -> ST St B) (i : nat) (xs : list A)
  : ST St (list B) :=
  match xs with
  | [] => ret []
  | x :: rest =>
      y <- f x i ;;
      ys <- mapMi f (S i) rest ;;
      ret (y :: ys)
  end.

End Loops.

(** [xs.every(f)] for an [f] that may not return; stops at the first
    [false]. *)
Fixpoint everyR (A : Type) (f : A -> Result bool) (xs : list A) : Result bool :=
  match xs with
  | [] => Ok true
  | x :: rest =>
      match f x with
      | Ok true => everyR f rest
      | other => other
      end
  end.

End Run.

(* ===================================================================== *)
(** ** build-lib/resource-builder.ts: merging and documentation *)
(* ===================================================================== *)

Module Builder.
Import Js Str TypeNodes ObjectUtil Run.

Definition IgnorableKeys : list string := ["dependencies"].

Definition SchemaDocumentationKeys : list string :=
  [ "$comment"; "default"; "description"; "examples"; "exclusiveMaximum";
    "exclusiveMinimum"; "format"; "insertionOrder"; "maximum"; "maxItems";
    "maxLength"; "maxProperties"; "minimum"; "minItems"; "minLength";
    "minProperties"; "multipleOf"; "pattern"; "relationshipRef"; "title";
    "uniqueItems" ].

(** The table [RelevantKeys] as the module sets it up. *)
Definition RelevantKeys (t : Tag) : list string :=
  match t with
  | TagAny => []
  | TagArray =>
      [ "arrayType"; "insertionOrder"; "items"; "maxItems"; "maxLength";
        "minItems"; "minLength"; "type"; "uniqueItems" ]
  | TagBoolean => ["type"]
  | TagConst => ["const"; "type"]
  | TagEnum => ["enum"; "type"]
  | TagInteger => ["maximum"; "minimum"; "type"]
  | TagNull => ["type"]
  | TagNumber => ["maximum"; "minimum"; "type"]
  | TagObject =>
      [ "additionalProperties"; "anyOf"; "oneOf"; "properties"; "required";
        "type" ]
  | TagRecord => ["additionalProperties"; "patternProperties"; "type"]
  | TagReference => ["$ref"]
  | TagString => ["format"; "maxLength"; "minLength"; "pattern"; "type"]
  | TagUnion => ["anyOf"; "oneOf"]
  | TagUnknown => []
  end.

Definition tagName (t : Tag) : string :=
  match t with
  | TagAny => "any" | TagArray => "array" | TagBoolean => "boolean"
  | TagConst => "const" | TagEnum => "enum" | TagInteger => "integer"
  | TagNull => "null" | TagNumber => "number" | TagObject => "object"
  | TagRecord => "record" | TagReference => "reference"
  | TagString => "string" | TagUnion => "union" | TagUnknown => "unknown"
  end.

Definition jstr (s : string) : json := JPrim (JStr s).

(** JavaScript truthiness of a value that is present. *)
Definition truthy (v : json) : bool :=
  match v with
  | JPrim JNull => false
  | JPrim (JBool b) => b
  | JPrim (JNum n) => negb (Z.eqb n 0)
  | JPrim (JStr s) => negb (String.eqb s "")
  | _ => true
  end.

(** [v === "text"] *)
Definition isStr (v : option json) (text : string) : bool :=
  match v with
  | Some (JPrim (JStr s)) => String.eqb s text
  | _ => false
  end.

Definition digitChar (n : nat) : ascii := ascii_of_nat (48 + n).

Fixpoint natDigits (fuel n : nat) (acc : list ascii) : list ascii :=
  match fuel with
  | O => acc
  | S fuel' =>
      let acc' := digitChar (n mod 10) :: acc in
      if Nat.ltb n 10 then acc' else natDigits fuel' (n / 10) acc'
  end.

(** [`${i}`] for an array index. *)
Definition natToString (n : nat) : string := unchars (natDigits (S n) n []).

(** The own enumerable entries of an array: its indices. *)
Definition arrayEntries (items : list json) : obj :=
  combine (map natToString (seq 0 (List.length items))) items.

(** A value used where the code expects a schema object. An array is read
    through its index keys; reading a field of [null] throws; the other
    primitives are not schemas the model covers. *)
Definition asSchema (v : json) : W obj :=
  match v with
  | JObj fields => ret fields
  | JArr items => ret (arrayEntries items)
  | JPrim JNull => throw obj "TypeError: Cannot read properties of null"
  | JPrim _ => unmodelled obj
  end.

Section WithResource.
(** [#resourceSchema] and [#documenter]. *)
Variable resourceSchema : obj.
Variable documenter : ResourceDocumenter.

Definition schemaTypeName : string :=
  match get "typeName" resourceSchema with
  | Some (JPrim (JStr s)) => s
  | _ => ""
  end.

(** [#warn(location, format, ...args)]: [this.#problems?.warn(...)]. *)
Definition warn (location format : string) (args : list json) : W unit :=
  fun st =>
    let call := mkWarnCall (schemaTypeName ++ location)%string format args in
    Ok (tt, mkDiag (ignoreExtraKeyLocations st)
              (option_map (fun received => received ++ [call]) (problems st))
              (relevantKeys st) (warnCalls st ++ [call])).

(** [#mergeSchemas(objects, options, location)] *)
Definition mergeSchemas (objects : list obj) (options : MergeObjectsOptions)
  (location : string) : W obj :=
  match mergeObjects objects options with
  | None => throw obj "expected non-empty array of objects"
  | Some result =>
      match conflicts result with
      | Some (key :: keys) =>
          warn location "found conflicts while merging schemas for keys"
            [JArr (map jstr (key :: keys))] ;;;
          ret (value result)
      | _ => ret (value result)
      end
  end.

Definition allOfOptions : MergeObjectsOptions :=
  mkMergeObjectsOptions (ChoiceKeys ["required"]) ChoiceUndefined true.

(** [#mergeAllOf(schema, location)] *)
Definition mergeAllOf (schema : obj) (location : string) : W obj :=
  match get "allOf" schema with
  | None => ret schema
  | Some (JArr allOf) =>
      fragments <- mapM asSchema allOf ;;
      mergeSchemas (remove "allOf" schema :: fragments) allOfOptions location
  | Some _ => unmodelled obj
  end.

Record ParsePathResult : Type := mkParsePathResult {
  definitionName : option string;
  propertyName : option string
}.

Definition isCombinator (s : string) : bool :=
  String.eqb s "allOf" || String.eqb s "anyOf" || String.eqb s "oneOf".

(** The repeated group [(?:\/(?:allOf|anyOf|oneOf)\/\d+)*] on segments. *)
Fixpoint skipCombinators (fuel : nat) (segments : list string) : list string :=
  match fuel, segments with
  | S fuel', c :: d :: rest =>
      if isCombinator c && allDigits d then skipCombinators fuel' rest
      else segments
  | _, _ => segments
  end.

(** The closing group [(?:\/properties\/(?<propertyName>[^/]+))?$]. *)
Definition parseTail (definitionName : option string) (segments : list string)
  : ParsePathResult :=
  match segments with
  | [] => mkParsePathResult definitionName None
  | [p; name] =>
      if String.eqb p "properties" && negb (String.eqb name "")
      then mkParsePathResult definitionName (Some name)
      else mkParsePathResult None None
  | _ => mkParsePathResult None None
  end.

(** [parsePath(path)]: the regular expression read on the segments between
    the slashes. *)
Definition parsePath (path : string) : ParsePathResult :=
  match split slash path with
  | "" :: d :: name :: rest =>
      if String.eqb d "definitions" && negb (String.eqb name "")
      then parseTail (Some name) (skipCombinators (List.length rest) rest)
      else parseTail None (d :: name :: rest)
  | "" :: rest => parseTail None rest
  | _ => mkParsePathResult None None
  end.

Record ExtractDocumentationResult : Type := mkExtractDocumentationResult {
  resDocumentation : option TypeDocumentation;
  resType : option obj
}.

(** [documentation.to = documentation.from; delete documentation.from] *)
Definition renameField (from to : string) (o : obj) : obj :=
  match get from o with
  | Some v => remove from (set to v o)
  | None => o
  end.

Definition docMergeOptions : MergeObjectsOptions :=
  mkMergeObjectsOptions
    (ChoiceKeys ["examples"; "format"; "pattern"; "relationshipRef"])
    ChoiceUndefined false.

Definition nonEmpty (o : obj) : option obj :=
  match o with [] => None | _ => Some o end.

(** [#extractDocumentation(schema, location)] *)
Fixpoint extractDocumentation (fuel : nat) (schema : obj) (location : string)
  : W ExtractDocumentationResult :=
  match fuel with
  | O => outOfFuel _
  | S fuel' =>
      merged <- mergeAllOf schema location ;;
      let '(documentation0, type0) := splitPick merged SchemaDocumentationKeys in
      let documentation :=
        if isStr (get "type" type0) "array"
        then renameField "minLength" "minItems"
               (renameField "maxLength" "maxItems" documentation0)
        else documentation0 in
      (* the [if (type.anyOf)] and [if (type.oneOf)] blocks *)
      let absorb (key : string) (acc : obj * list TypeDocumentation)
        : W (obj * list TypeDocumentation) :=
        let '(type, union) := acc in
        match get key type with
        | None => ret acc
        | Some v =>
            if truthy v then
              match v with
              | JArr branches =>
                  childResults <-
                    mapM (fun x => s <- asSchema x ;;
                                   extractDocumentation fuel' s location)
                         branches ;;
                  if existsb (fun x => match resType x with
                                       | Some _ => true | None => false end)
                       childResults
                  then ret acc
                  else ret (remove key type,
                            union ++ flat_map
                              (fun x => match resDocumentation x with
                                        | Some d => [d] | None => [] end)
                              childResults)
              | _ => unmodelled _
              end
            else ret acc
        end in
      acc1 <- absorb "anyOf" (type0, []) ;;
      acc2 <- absorb "oneOf" acc1 ;;
      let '(type, union) := acc2 in
      mergedDocs <- mergeSchemas (documentation :: union) docMergeOptions
                      location ;;
      let parsed := parsePath location in
      let extraDocs :=
        match definitionName parsed with
        | Some name =>
            match getDefinitionDocs documenter with
            | Some f => f schemaTypeName name (propertyName parsed)
            | None => None
            end
        | None =>
            if String.eqb location "/" ||
               match propertyName parsed with Some _ => true | None => false end
            then match getResourceDocs documenter with
                 | Some f => f schemaTypeName (propertyName parsed)
                 | None => None
                 end
            else None
        end in
      let mergedDocs' :=
        match extraDocs with
        | Some extra => assign mergedDocs [extra]
        | None => mergedDocs
        end in
      ret (mkExtractDocumentationResult (nonEmpty mergedDocs') (nonEmpty type))
  end.

(** *** Walking a schema into a type *)

Definition setRelevantKeys (t : Tag) (allowed : list string) : W unit :=
  fun st =>
    Ok (tt, mkDiag (ignoreExtraKeyLocations st) (problems st)
              (fun t' => if tag_eqb t' t then allowed else relevantKeys st t')
              (warnCalls st)).

Definition setIgnored (locations : list string) : W unit :=
  fun st =>
    Ok (tt, mkDiag locations (problems st) (relevantKeys st) (warnCalls st)).

(** [schema.required?.length === 0] *)
Definition hasEmptyRequired (schema : obj) : bool :=
  match get "required" schema with
  | Some (JArr []) => true
  | Some (JPrim (JStr s)) => String.eqb s ""
  | _ => false
  end.

Definition isTag (type : Tag + list Tag) (t : Tag) : bool :=
  match type with inl t' => tag_eqb t' t | inr _ => false end.

(** [#warnExtraKeys(schema, type, location)]. For a single [type],
    [allowed] is the array stored in [RelevantKeys] itself, so what is
    pushed to it stays in the table. *)
Definition warnExtraKeys (schema : obj) (type : Tag + list Tag)
  (location : string) : W unit :=
  st <- getState ;;
  if mem location (ignoreExtraKeyLocations st) then ret tt else
  let allowed :=
    match type with
    | inl t => relevantKeys st t
    | inr ts => flat_map (relevantKeys st) ts
    end
    ++ IgnorableKeys ++ SchemaDocumentationKeys
    ++ (if isTag type TagReference then ["type"] else [])
    ++ (match get "additionalProperties" schema with
        | Some (JPrim (JBool false)) => ["additionalProperties"]
        | _ => []
        end)
    ++ (if isTag type TagRecord && hasEmptyRequired schema
        then ["required"] else []) in
  match type with
  | inl t => setRelevantKeys t allowed
  | inr _ => ret tt
  end ;;;
  match filter (fun x => negb (mem x allowed)) (keys schema) with
  | [] => ret tt
  | extraKeys =>
      warn location "ignored extra keys %O for type %O"
        [ JArr (map jstr extraKeys);
          match type with
          | inl t => jstr (tagName t)
          | inr ts => JArr (map (fun t => jstr (tagName t)) ts)
          end;
          JObj schema ]
  end.

Definition isObjectSchema (schema : obj) : bool :=
  (isStr (get "type" schema) "object" || negb (has "type" schema)) &&
  has "properties" schema.

Definition isJsonPrimitive (v : json) : bool :=
  match v with JPrim _ => true | _ => false end.

Definition isRecordSchema (schema : obj) : bool :=
  (isStr (get "type" schema) "object" && negb (has "properties" schema)) ||
  (negb (has "type" schema) && has "patternProperties" schema).

Definition isStringSchema (schema : obj) : bool :=
  isStr (get "type" schema) "string" ||
  (negb (has "type" schema) && (has "format" schema || has "pattern" schema)).

(** A field used in a condition: present and truthy. *)
Definition truthyField (key : string) (schema : obj) : option json :=
  match get key schema with
  | Some v => if truthy v then Some v else None
  | None => None
  end.

(** [Object.entries(v)] where the code expects an object. *)
Definition entriesOf (v : json) : W obj :=
  match v with
  | JObj fields => ret fields
  | JArr items => ret (arrayEntries items)
  | JPrim _ => unmodelled obj
  end.

(** [schema.required ?? []], a list of names. *)
Definition requiredOf (schema : obj) : W (list string) :=
  match get "required" schema with
  | None | Some (JPrim JNull) => ret []
  | Some (JArr names) =>
      mapM (fun v => match v with
                     | JPrim (JStr s) => ret s
                     | _ => unmodelled string
                     end) names
  | Some _ => unmodelled _
  end.

Definition hexDigit (n : nat) : ascii :=
  if Nat.ltb n 10 then ascii_of_nat (48 + n) else ascii_of_nat (55 + n).

Definition isUnreserved (c : ascii) : bool :=
  let n := nat_of_ascii c in
  (Nat.leb 65 n && Nat.leb n 90) || (Nat.leb 97 n && Nat.leb n 122) ||
  (Nat.leb 48 n && Nat.leb n 57) ||
  existsb (Ascii.eqb c) (chars "-_.!~*'()").

(** [encodeURIComponent] on the bytes of a string. *)
Definition encodeURIComponent (s : string) : string :=
  unchars (flat_map
             (fun c => if isUnreserved c then [c]
                       else let n := nat_of_ascii c in
                            ["%"%char; hexDigit (n / 16); hexDigit (n mod 16)])
             (chars s)).

(** [simplifyUnionType({ type: "union", id, items })] *)
Definition simplifyUnion (id : string) (items : list TypeNode) : W TypeNode :=
  match simplifyUnionType id items with
  | Some t => ret t
  | None => outOfFuel _
  end.

(** [/^#\/definitions\/([^/]+)$/.exec(ref)] *)
Definition matchDefinitionRef (ref : string) : option string :=
  if startsWith ref "#/definitions/" then
    let name := sliceFrom 14 ref in
    if String.eqb name "" || includesChar slash name then None else Some name
  else None.

(** How the [for] loop of [#walkRefType] over the segments of a reference
    ends: at a value; at a segment the value reached does not have; at a
    primitive, on which [in] throws; or at a member that an object or an
    array has without it being part of the document (an inherited method,
    an array's [length]), which the model does not follow. *)
Inductive Resolution : Type :=
| Resolved (v : json)
| Missing
| InOnPrimitive
| NotInDocument.

Fixpoint resolvePointer (resolved : json) (parts : list string) : Resolution :=
  match parts with
  | [] => Resolved resolved
  | part :: rest =>
      match resolved with
      | JObj fields =>
          match get part fields with
          | Some v => resolvePointer v rest
          | None => if inherited part then NotInDocument else Missing
          end
      | JArr items =>
          match get part (arrayEntries items) with
          | Some v => resolvePointer v rest
          | None => NotInDocument
          end
      | JPrim _ => InOnPrimitive
      end
  end.

(** The two entry points the walking functions call themselves through. *)
Record Walkers : Type := mkWalkers {
  walkTypeW : obj -> string -> W TypeNode;
  walkObjectTypeW : obj -> string -> W TypeNode
}.

Section Walk.
Variable w : Walkers.
(** Fuel handed to [extractDocumentation]. *)
Variable fuel : nat.

(** [#walkRefType(schema, location)] *)
Definition walkRefType (schema : obj) (location : string) : W TypeNode :=
  match get "$ref" schema with
  | Some (JPrim (JStr ref)) =>
      assert (negb (String.eqb ref "")) "expected a ref schema" ;;;
      warnExtraKeys schema (inl TagReference) location ;;;
      match matchDefinitionRef ref with
      | Some name => ret (TReference location (NameString name))
      | None =>
          if negb (startsWith ref "#/") then
            warn location "invalid reference" [jstr ref] ;;;
            ret (TUnknown location)
          else
            match resolvePointer (JObj resourceSchema)
                    (split slash (sliceFrom 2 ref)) with
            | Resolved v =>
                target <- asSchema v ;;
                walkTypeW w target (sliceFrom 1 ref)
            | Missing =>
                warn location "invalid reference" [jstr ref] ;;;
                ret (TUnknown location)
            | InOnPrimitive =>
                throw _ "TypeError: Cannot use 'in' operator"
            | NotInDocument => unmodelled _
            end
      end
  | Some v =>
      if truthy v then unmodelled _ else throw _ "expected a ref schema"
  | None => throw _ "expected a ref schema"
  end.

(** [#walkArrayType(schema, location)] *)
Definition walkArrayType (schema : obj) (location : string) : W TypeNode :=
  assert (isStr (get "type" schema) "array") "expected array schema" ;;;
  warnExtraKeys schema (inl TagArray) location ;;;
  let itemsLocation := posixJoin [location; "items"] in
  match truthyField "items" schema with
  | Some items =>
      itemSchema <- asSchema items ;;
      r <- extractDocumentation fuel itemSchema itemsLocation ;;
      t <- walkTypeW w (match resType r with Some t => t | None => [] end)
             itemsLocation ;;
      ret (TArray location
             (Some (match resDocumentation r with Some d => d | None => [] end))
             t)
  | None => ret (TArray location None (TAny itemsLocation))
  end.

(** [#walkBooleanType(schema, location)] *)
Definition walkBooleanType (schema : obj) (location : string) : W TypeNode :=
  assert (isStr (get "type" schema) "boolean") "expected boolean schema" ;;;
  warnExtraKeys schema (inl TagBoolean) location ;;;
  ret (TPrimitive KBoolean location).

(** [#walkConstType(schema, location)] *)
Definition walkConstType (schema : obj) (location : string) : W TypeNode :=
  match get "const" schema with
  | Some (JPrim p) =>
      warnExtraKeys schema (inl TagConst) location ;;;
      ret (TConst location p)
  | _ => throw _ "expected const schema with primitive value"
  end.

(** [#walkEnumType(schema, location)] *)
Definition walkEnumType (schema : obj) (location : string) : W TypeNode :=
  match get "enum" schema with
  | Some (JArr members) =>
      assert (forallb isJsonPrimitive members)
        "expected enum schema with primitive values" ;;;
      warnExtraKeys schema (inl TagEnum) location ;;;
      ret (TEnum location
             (flat_map (fun v => match v with JPrim p => [p] | _ => [] end)
                members))
  | _ => throw _ "expected enum schema with primitive values"
  end.

(** [#walkMultiType(schema, location)] *)
Definition walkMultiType (schema : obj) (location : string) : W TypeNode :=
  match get "type" schema with
  | Some (JArr []) | None => throw _ "expected a non-empty array for type"
  | Some (JArr [only]) => walkTypeW w (set "type" only schema) location
  | Some (JArr types) =>
      st <- getState ;;
      setIgnored (if mem location (ignoreExtraKeyLocations st)
                  then ignoreExtraKeyLocations st
                  else ignoreExtraKeyLocations st ++ [location]) ;;;
      items <- mapM (fun type => walkTypeW w (set "type" type schema) location)
                 types ;;
      st' <- getState ;;
      setIgnored (filter (fun l => negb (String.eqb l location))
                    (ignoreExtraKeyLocations st')) ;;;
      warnExtraKeys schema (inr (map tag items)) location ;;;
      simplifyUnion location items
  | Some _ => throw _ "expected a non-empty array for type"
  end.

(** [#walkNullType(schema, location)] *)
Definition walkNullType (schema : obj) (location : string) : W TypeNode :=
  assert (isStr (get "type" schema) "null") "expected null schema" ;;;
  warnExtraKeys schema (inl TagNull) location ;;;
  ret (TPrimitive KNull location).

(** [#walkNumberType(schema, location)] *)
Definition walkNumberType (schema : obj) (location : string) : W TypeNode :=
  if isStr (get "type" schema) "integer" then
    warnExtraKeys schema (inl TagInteger) location ;;;
    ret (TPrimitive KInteger location)
  else if isStr (get "type" schema) "number" then
    warnExtraKeys schema (inl TagNumber) location ;;;
    ret (TPrimitive KNumber location)
  else throw _ "expected integer or number schema".

(** [#walkStringType(schema, location)] *)
Definition walkStringType (schema : obj) (location : string) : W TypeNode :=
  assert (isStr (get "type" schema) "string" || negb (has "type" schema))
    "expected a string schema" ;;;
  warnExtraKeys schema (inl TagString) location ;;;
  ret (TPrimitive KString location).

(** [#walkProperty(propertySchema, location)] *)
Definition walkProperty (propertySchema : json) (location : string)
  : W PropertyInfo :=
  schema <- asSchema propertySchema ;;
  r <- extractDocumentation fuel schema location ;;
  t <- walkTypeW w (match resType r with Some t => t | None => [] end)
         location ;;
  ret (mkPropertyInfo
         (Some (match resDocumentation r with Some d => d | None => [] end))
         None None t).

(** [#walkDefinition(schema, location)] *)
Definition walkDefinition (definition : json) (location : string)
  : W TypeDefinition :=
  schema <- asSchema definition ;;
  r <- extractDocumentation fuel schema location ;;
  t <- walkTypeW w (match resType r with Some t => t | None => [] end)
         location ;;
  ret (mkTypeDefinition
         (Some (match resDocumentation r with Some d => d | None => [] end)) t).

(** [#walkRecordType(schema, location)] *)
Definition walkRecordType (schema : obj) (location : string) : W TypeNode :=
  assert (isRecordSchema schema) "expected record type" ;;;
  warnExtraKeys schema (inl TagRecord) location ;;;
  assert (match truthyField "additionalProperties" schema with
          | Some _ => false | None => true end)
    "unexpected additionalProperties" ;;;
  let propLocation := posixJoin [location; "patternProperties"] in
  match truthyField "patternProperties" schema with
  | None => ret (TRecord location (TAny propLocation))
  | Some patternProperties =>
      properties <- entriesOf patternProperties ;;
      types <- mapM (fun entry =>
                       patternSchema <- asSchema (snd entry) ;;
                       walkTypeW w patternSchema
                         (posixJoin [propLocation;
                                     encodeURIComponent (fst entry)]))
                 properties ;;
      value <- simplifyUnion propLocation types ;;
      ret (TRecord location value)
  end.

(** The [anyOf] and [oneOf] branches of [#walkObjectType]. *)
Definition walkObjectBranches (key : string) (branches : json) (schema : obj)
  (location : string) : W TypeNode :=
  match branches with
  | JArr items =>
      let rest := remove key schema in
      types <- mapM (fun item =>
                       fragment <- asSchema item ;;
                       merged <- mergeSchemas [rest; fragment] allOfOptions
                                   location ;;
                       walkObjectTypeW w merged location)
                 items ;;
      simplifyUnion location types
  | _ => unmodelled _
  end.

(** [#walkObjectType(schema, location)] *)
Definition walkObjectType (schema : obj) (location : string) : W TypeNode :=
  assert (negb (has "type" schema) || isStr (get "type" schema) "object")
    "expected object schema" ;;;
  match truthyField "allOf" schema with
  | Some _ =>
      merged <- mergeAllOf schema location ;;
      walkObjectTypeW w merged location
  | None =>
  match get "anyOf" schema with
  | Some anyOf => walkObjectBranches "anyOf" anyOf schema location
  | None =>
  match get "oneOf" schema with
  | Some oneOf => walkObjectBranches "oneOf" oneOf schema location
  | None =>
  match truthyField "properties" schema with
  | None => walkRecordType schema location
  | Some propertiesValue =>
      warnExtraKeys schema (inl TagObject) location ;;;
      required <- requiredOf schema ;;
      properties <- entriesOf propertiesValue ;;
      walked <- mapM (fun entry =>
                        info <- walkProperty (snd entry)
                                  (posixJoin [location; "properties";
                                              fst entry]) ;;
                        ret (fst entry, info))
                  properties ;;
      ret (TObject location (fromEntries walked) required)
  end end end end.

(** The branches of one combinator in [#walkUnion]. *)
Definition walkUnionBranches (key : string) (schema : obj) (location : string)
  : W (list TypeNode) :=
  match truthyField key schema with
  | None => ret []
  | Some (JArr branches) =>
      mapMi (fun branch i =>
               branchSchema <- asSchema branch ;;
               walkTypeW w branchSchema
                 (posixJoin [location; key; natToString i]))
        0 branches
  | Some _ => unmodelled _
  end.

(** [#walkUnion(schema, location)] *)
Definition walkUnion (schema : obj) (location : string) : W TypeNode :=
  warnExtraKeys schema (inl TagUnion) location ;;;
  fromAnyOf <- walkUnionBranches "anyOf" schema location ;;
  fromOneOf <- walkUnionBranches "oneOf" schema location ;;
  match fromAnyOf ++ fromOneOf with
  | [first] => ret first
  | items => simplifyUnion location items
  end.

(** The test that opens [#walkType] for [anyOf] and for [oneOf]: the schema
    has just the combinator and a [type] every branch repeats. *)
Definition repeatsRootType (key : string) (schema : obj) : W bool :=
  match get key schema with
  | Some branches =>
      if Nat.eqb (List.length (keys schema)) 2 then
        match truthyField "type" schema with
        | Some type =>
            match branches with
            | JArr items =>
                answers <-
                  mapM (fun x =>
                          match x with
                          | JObj fields =>
                              ret (match get "type" fields with
                                   | Some t => strict_eqb t type
                                   | None => false
                                   end)
                          | JArr _ => ret false
                          | JPrim JNull =>
                              throw bool
                                "TypeError: Cannot read properties of null"
                          | JPrim _ => ret false
                          end) items ;;
                ret (forallb (fun b => b) answers)
            | _ => unmodelled _
            end
        | None => ret false
        end
      else ret false
  | None => ret false
  end.

(** [#walkType(schema, location)] *)
Definition walkType (schema : obj) (location : string) : W TypeNode :=
  match schema with
  | [] => ret (TAny location)
  | _ =>
  viaAnyOf <- repeatsRootType "anyOf" schema ;;
  if viaAnyOf then walkTypeW w (remove "type" schema) location else
  viaOneOf <- repeatsRootType "oneOf" schema ;;
  if viaOneOf then walkTypeW w (remove "type" schema) location else
  if has "$ref" schema then walkRefType schema location else
  if has "const" schema then walkConstType schema location else
  if has "enum" schema then walkEnumType schema location else
  if isStr (get "type" schema) "array" then walkArrayType schema location else
  if match get "type" schema with Some (JArr _) => true | _ => false end
  then walkMultiType schema location else
  if isStr (get "type" schema) "boolean" then walkBooleanType schema location
  else
  if isStr (get "type" schema) "integer" || isStr (get "type" schema) "number"
  then walkNumberType schema location else
  if isStr (get "type" schema) "null" then walkNullType schema location else
  if isStringSchema schema then walkStringType schema location else
  if isObjectSchema schema || isRecordSchema schema
  then walkObjectTypeW w schema location else
  if has "anyOf" schema || has "oneOf" schema then walkUnion schema location
  else
    warn location "unknown schema type" [JObj schema] ;;;
    ret (TUnknown location)
  end.

End Walk.

(** Tying the knot: with [fuel] units, [#walkType] and [#walkObjectType]
    may call themselves to a depth of [fuel]. *)
Fixpoint walkers (fuel : nat) : Walkers :=
  match fuel with
  | O => mkWalkers (fun _ _ => outOfFuel _) (fun _ _ => outOfFuel _)
  | S fuel' =>
      mkWalkers (walkType (walkers fuel') fuel')
                (walkObjectType (walkers fuel') fuel')
  end.

(** *** Nodes of the graph under construction

    Property flags are set in place on nodes that several paths can reach
    (a definition is shared by every reference to it), so a node is named
    by where it sits: in the properties tree or in a definition, and the
    steps down from there. Two mentions of a node are the same object
    exactly when they name the same place. *)

Inductive Step : Type :=
| AtProp (name : string)   (* the type of a property of an object *)
| AtItems                  (* the item type of an array *)
| AtValue                  (* the value type of a record *)
| AtMember (i : nat).      (* a member of a union *)

Inductive Origin : Type :=
| InProperties
| InDefinition (name : string).

Definition Loc : Type := Origin * list Step.

(** A [PropertyInfo] object: the object node that owns it and its key. *)
Record PropRef : Type := mkPropRef {
  owner : Loc;
  key : string
}.

Definition step_eqb (a b : Step) : bool :=
  match a, b with
  | AtProp x, AtProp y => String.eqb x y
  | AtItems, AtItems => true
  | AtValue, AtValue => true
  | AtMember i, AtMember j => Nat.eqb i j
  | _, _ => false
  end.

Fixpoint steps_eqb (a b : list Step) : bool :=
  match a, b with
  | [], [] => true
  | x :: a', y :: b' => step_eqb x y && steps_eqb a' b'
  | _, _ => false
  end.

Definition origin_eqb (a b : Origin) : bool :=
  match a, b with
  | InProperties, InProperties => true
  | InDefinition x, InDefinition y => String.eqb x y
  | _, _ => false
  end.

Definition loc_eqb (a b : Loc) : bool :=
  origin_eqb (fst a) (fst b) && steps_eqb (snd a) (snd b).

Definition below (loc : Loc) (s : Step) : Loc := (fst loc, snd loc ++ [s]).

(** The location of [prop.type]. *)
Definition typeLoc (p : PropRef) : Loc := below (owner p) (AtProp (key p)).

(** Apply [f] to the value stored under the first [key]. *)
Fixpoint alter (V : Type) (f : V -> V) (key : string) (o : list (string * V))
  : list (string * V) :=
  match o with
  | [] => []
  | (k, v) :: rest =>
      if String.eqb k key then (k, f v) :: rest else (k, v) :: alter f key rest
  end.

Fixpoint alterNth (A : Type) (f : A -> A) (i : nat) (l : list A) : list A :=
  match l, i with
  | [], _ => []
  | x :: rest, O => f x :: rest
  | x :: rest, S i' => x :: alterNth f i' rest
  end.

Definition withType (t : TypeNode) (p : PropertyInfo) : PropertyInfo :=
  mkPropertyInfo (documentation p) (isAttribute p) (readOnly p) t.

Fixpoint getNode (steps : list Step) (t : TypeNode) : option TypeNode :=
  match steps with
  | [] => Some t
  | s :: rest =>
      match s, t with
      | AtProp name, TObject _ props _ =>
          match get name props with
          | Some p => getNode rest (type p)
          | None => None
          end
      | AtItems, TArray _ _ items => getNode rest items
      | AtValue, TRecord _ value => getNode rest value
      | AtMember i, TUnion _ members =>
          match nth_error members i with
          | Some m => getNode rest m
          | None => None
          end
      | _, _ => None
      end
  end.

(** Replace the node at [steps] by [f] of it. *)
Fixpoint updateNode (f : TypeNode -> TypeNode) (steps : list Step)
  (t : TypeNode) : TypeNode :=
  match steps with
  | [] => f t
  | s :: rest =>
      match s, t with
      | AtProp name, TObject id props req =>
          TObject id
            (alter (fun p => withType (updateNode f rest (type p)) p) name props)
            req
      | AtItems, TArray id doc items => TArray id doc (updateNode f rest items)
      | AtValue, TRecord id value => TRecord id (updateNode f rest value)
      | AtMember i, TUnion id members =>
          TUnion id (alterNth (updateNode f rest) i members)
      | _, _ => t
      end
  end.

Definition lookupDefinition (r : ResourceType) (name : string)
  : option TypeDefinition :=
  get name (definitions r).

Definition originType (r : ResourceType) (o : Origin) : option TypeNode :=
  match o with
  | InProperties => Some (defType (properties r))
  | InDefinition name => option_map defType (lookupDefinition r name)
  end.

Definition nodeAt (r : ResourceType) (loc : Loc) : option TypeNode :=
  match originType r (fst loc) with
  | Some t => getNode (snd loc) t
  | None => None
  end.

Definition withDefType (t : TypeNode) (d : TypeDefinition) : TypeDefinition :=
  mkTypeDefinition (defDocumentation d) t.

Definition updateAt (f : TypeNode -> TypeNode) (loc : Loc) (r : ResourceType)
  : ResourceType :=
  match fst loc with
  | InProperties =>
      mkResourceType (typeName r) (attributes r) (definitions r)
        (withDefType (updateNode f (snd loc) (defType (properties r)))
           (properties r))
  | InDefinition name =>
      mkResourceType (typeName r) (attributes r)
        (alter (fun d => withDefType (updateNode f (snd loc) (defType d)) d)
           name (definitions r))
        (properties r)
  end.

Definition propertiesOf (t : TypeNode) : list (string * PropertyInfo) :=
  match t with TObject _ props _ => props | _ => [] end.

Definition propAt (r : ResourceType) (p : PropRef) : option PropertyInfo :=
  match nodeAt r (owner p) with
  | Some (TObject _ props _) => get (key p) props
  | _ => None
  end.

Definition updateProp (f : PropertyInfo -> PropertyInfo) (p : PropRef)
  (r : ResourceType) : ResourceType :=
  updateAt (fun node =>
              match node with
              | TObject id props req => TObject id (alter f (key p) props) req
              | _ => node
              end) (owner p) r.

Inductive Flag : Type := FlagIsAttribute | FlagReadOnly.

(** [property[flag] = value] *)
Definition setFlag (flag : Flag) (value : bool) (p : PropertyInfo)
  : PropertyInfo :=
  match flag with
  | FlagIsAttribute =>
      mkPropertyInfo (documentation p) (Some value) (readOnly p) (type p)
  | FlagReadOnly =>
      mkPropertyInfo (documentation p) (isAttribute p) (Some value) (type p)
  end.

(** A flag read as a condition. *)
Definition isTrue (flag : option bool) : bool :=
  match flag with Some true => true | _ => false end.

Definition getRoot : M ResourceType := fun st => Ok (root st, st).

Definition modifyRoot (f : ResourceType -> ResourceType) : M unit :=
  fun st => Ok (tt, mkState (f (root st)) (diag st)).

(** The node a location names; the locations the builder follows always
    name one. *)
Definition nodeAtM (loc : Loc) : M TypeNode :=
  r <- getRoot ;;
  match nodeAt r loc with
  | Some node => ret node
  | None => unmodelled _
  end.

(** *** Attribute and read-only classification *)

(** [this.#root.definitions[name]]. A name that is no definition but that
    every object inherits is outside the model. *)
Definition definitionOf (r : ResourceType) (name : string)
  : Result (option TypeDefinition) :=
  match lookupDefinition r name with
  | Some d => Ok (Some d)
  | None => if inherited name then Unmodelled else Ok None
  end.

(** [node.properties[part] = prop; delete node.properties[mangledName]],
    [prop] being [node.properties[mangledName]]. *)
Definition mangleRename (part mangledName : string) (node : TypeNode)
  : TypeNode :=
  match node with
  | TObject id props req =>
      match get mangledName props with
      | Some prop => TObject id (remove mangledName (set part prop props)) req
      | None => node
      end
  | _ => node
  end.

(** [#findProperty(path, mangle, root)] from the node at [loc] on, [parts]
    being the segments still to follow. *)
Fixpoint findProperty (fuel : nat) (mangle : bool) (loc : Loc)
  (parts : list string) : M (list PropRef) :=
  match fuel with
  | O => outOfFuel _
  | S fuel' =>
      match parts with
      | [] => ret []
      | part :: rest =>
          assert (negb (String.eqb part "")) "assert(part)" ;;;
          node <- nodeAtM loc ;;
          match node with
          | TReference _ (NameString name) =>
              r <- getRoot ;;
              target <- liftR (definitionOf r name) ;;
              match target with
              | None => throw _ "unexpected definition not found"
              | Some _ => findProperty fuel' mangle (InDefinition name, []) parts
              end
          | TUnion _ items =>
              results <-
                mapMi (fun _ i =>
                         findProperty fuel' mangle (below loc (AtMember i)) parts)
                  0 items ;;
              ret (List.concat results)
          | TArray _ _ _ =>
              if String.eqb part "*"
              then findProperty fuel' mangle (below loc AtItems) rest
              else ret []
          | TObject id props req =>
              if String.eqb part "*" then ret [] else
              present <-
                match get part props with
                | Some _ => ret true
                | None =>
                    if inherited part then unmodelled _ else
                    if mangle then
                      let mangledName := removeChar "."%char part in
                      match get mangledName props with
                      | Some _ =>
                          modifyRoot
                            (updateAt (mangleRename part mangledName) loc) ;;;
                          ret true
                      | None =>
                          if inherited mangledName then unmodelled _
                          else ret false
                      end
                    else ret false
                end ;;
              if present then
                match rest with
                | [] => ret [mkPropRef loc part]
                | _ => findProperty fuel' mangle (below loc (AtProp part)) rest
                end
              else ret []
          | _ => ret []
          end
      end
  end.

(** [#findProperty(path, mangle)] without a [root]. *)
Definition findPropertyPath (fuel : nat) (path : string) (mangle : bool)
  : M (list PropRef) :=
  if startsWith path "/properties/"
  then findProperty fuel mangle (InProperties, [])
         (split slash (sliceFrom 12 path))
  else ret [].

(** [#isValidAttributeType(type)] *)
Fixpoint isValidAttributeType (fuel : nat) (r : ResourceType) (type : TypeNode)
  : Result bool :=
  match fuel with
  | O => OutOfFuel
  | S fuel' =>
      match type with
      | TArray _ _ items => isValidAttributeType fuel' r items
      | TReference _ (NameString name) =>
          match definitionOf r name with
          | Ok (Some target) => isValidAttributeType fuel' r (defType target)
          | Ok None => Ok false
          | Throw msg => Throw msg
          | OutOfFuel => OutOfFuel
          | Unmodelled => Unmodelled
          end
      | TReference _ _ => Ok false
      | TUnion _ items => everyR (isValidAttributeType fuel' r) items
      | TObject _ _ _ | TRecord _ _ => Ok false
      | _ => Ok true
      end
  end.

(** The recursion [#allReadOnlyChildren] and [#anyAttributeChildren] share;
    [atObject] is what each answers on an object node. *)
Fixpoint childrenCheck (atObject : list PropertyInfo -> bool) (fuel : nat)
  (r : ResourceType) (node : TypeNode) : Result bool :=
  match fuel with
  | O => OutOfFuel
  | S fuel' =>
      match node with
      | TArray _ _ items => childrenCheck atObject fuel' r items
      | TObject _ props _ => Ok (atObject (values props))
      | TReference _ (NameString name) =>
          match definitionOf r name with
          | Ok (Some target) => childrenCheck atObject fuel' r (defType target)
          | Ok None => Throw "unexpected invalid reference name"
          | Throw msg => Throw msg
          | OutOfFuel => OutOfFuel
          | Unmodelled => Unmodelled
          end
      | TUnion _ items => everyR (childrenCheck atObject fuel' r) items
      | _ => Ok false
      end
  end.

(** [#allReadOnlyChildren(node)] *)
Definition allReadOnlyChildren : nat -> ResourceType -> TypeNode -> Result bool :=
  childrenCheck (forallb (fun x : PropertyInfo => isTrue (readOnly x))).

(** [#anyAttributeChildren(node)] *)
Definition anyAttributeChildren : nat -> ResourceType -> TypeNode -> Result bool :=
  childrenCheck (existsb (fun x : PropertyInfo => isTrue (isAttribute x))).

(** [#markChildren(type, flag, value, maxDepth, depth, stack)], [type]
    being the node at [loc]. *)
Fixpoint markChildren (fuel : nat) (loc : Loc) (flag : Flag) (value : bool)
  (maxDepth : option nat) (depth : nat) (stack : list Loc) : M unit :=
  match fuel with
  | O => outOfFuel _
  | S fuel' =>
      if existsb (loc_eqb loc) stack then ret tt else
      node <- nodeAtM loc ;;
      match node with
      | TObject _ props _ =>
          forEach
            (fun name =>
               modifyRoot (updateProp (setFlag flag value) (mkPropRef loc name)) ;;;
               if match maxDepth with
                  | None => true
                  | Some m => Nat.ltb depth m
                  end
               then markChildren fuel' (below loc (AtProp name)) flag value
                      maxDepth (S depth) (stack ++ [loc])
               else ret tt)
            (keys props)
      | TArray _ _ _ =>
          markChildren fuel' (below loc AtItems) flag value maxDepth depth
            (stack ++ [loc])
      | TRecord _ _ =>
          markChildren fuel' (below loc AtValue) flag value maxDepth depth
            (stack ++ [loc])
      | TReference _ (NameString name) =>
          r <- getRoot ;;
          def <- liftR (definitionOf r name) ;;
          match def with
          | Some _ =>
              markChildren fuel' (InDefinition name, []) flag value maxDepth
                depth (stack ++ [loc])
          | None => ret tt
          end
      | TUnion _ items =>
          forEach
            (fun i =>
               markChildren fuel' (below loc (AtMember i)) flag value maxDepth
                 depth (stack ++ [loc]))
            (seq 0 (List.length items))
      | _ => ret tt
      end
  end.

Definition propAtM (p : PropRef) : M PropertyInfo :=
  r <- getRoot ;;
  match propAt r p with
  | Some info => ret info
  | None => unmodelled _
  end.

(** [!hasWildcardPath && this.#isValidAttributeType(prop.type)] *)
Definition eligible (fuel : nat) (hasWildcardPath : bool) (p : PropRef)
  : M bool :=
  if hasWildcardPath then ret false else
  info <- propAtM p ;;
  r <- getRoot ;;
  liftR (isValidAttributeType fuel r (type info)).

(** The closing block of [#addAttribute]: create [attributes] when it is
    missing, store the entry, push the name to [required]. *)
Definition addAttributeEntry (name : string) (entry : PropertyInfo)
  (r : ResourceType) : ResourceType :=
  let current :=
    match attributes r with
    | Some a => a
    | None =>
        mkTypeDefinition
          (match getAttributeDocs documenter with
           | Some f => f schemaTypeName None
           | None => None
           end)
          (TObject "/attributes" [] [])
    end in
  mkResourceType (typeName r)
    (Some (mkTypeDefinition (defDocumentation current)
             (match defType current with
              | TObject id props req =>
                  TObject id (set name entry props) (req ++ [name])
              | other => other
              end)))
    (definitions r) (properties r).

(** [#addAttribute(path, readOnly)] *)
Definition addAttribute (fuel : nat) (path : string) (readOnly : bool)
  : M unit :=
  props <- findPropertyPath fuel path (startsWith schemaTypeName "AWS::") ;;
  match props with
  | [] => liftW (warn "/readOnlyProperties" "bad reference %O" [jstr path])
  | prop :: _ =>
      let hasWildcardPath := includesChar "*"%char path in
      forEach
        (fun p =>
           valid <- eligible fuel hasWildcardPath p ;;
           (if valid then
              modifyRoot (updateProp (setFlag FlagIsAttribute true) p) ;;;
              markChildren fuel (typeLoc p) FlagIsAttribute true None 1 []
            else ret tt) ;;;
           if readOnly
           then modifyRoot (updateProp (setFlag FlagReadOnly true) p)
           else ret tt)
        props ;;;
      first <- propAtM prop ;;
      infos <- mapM propAtM props ;;
      (if forallb (fun x : PropertyInfo => isSameType (type first) (type x)) infos
       then ret tt
       else liftW (warn "/readOnlyProperties"
                     "attribute has multiple possible types" [jstr path])) ;;;
      assert (startsWith path "/properties/")
        "assert(path.startsWith('/properties/'))" ;;;
      let name := join "." (split slash (sliceFrom 12 path)) in
      let documentation :=
        let own := match documentation first with Some d => d | None => [] end in
        match getAttributeDocs documenter with
        | Some f =>
            match f schemaTypeName (Some name) with
            | Some extraDocs => assign own [extraDocs]
            | None => own
            end
        | None => own
        end in
      valid <- eligible fuel hasWildcardPath prop ;;
      if valid then
        modifyRoot
          (addAttributeEntry name
             (mkPropertyInfo (Some documentation) (Some true) None (type first)))
      else ret tt
  end.

(** The body of the breadcrumb loop of [#analyzePaths] for one property. *)
Definition promote (fuel : nat) (p : PropRef) : M unit :=
  info <- propAtM p ;;
  r <- getRoot ;;
  allReadOnly <- liftR (allReadOnlyChildren fuel r (type info)) ;;
  (if allReadOnly then
     modifyRoot (updateProp (setFlag FlagReadOnly true) p) ;;;
     markChildren fuel (typeLoc p) FlagReadOnly false (Some 1) 1 []
   else ret tt) ;;;
  info' <- propAtM p ;;
  r' <- getRoot ;;
  anyAttribute <- liftR (anyAttributeChildren fuel r' (type info')) ;;
  if anyAttribute
  then modifyRoot (updateProp (setFlag FlagIsAttribute true) p)
  else ret tt.

(** [this.#resourceSchema.readOnlyProperties], a list of paths. *)
Definition readOnlyPropertiesOf : M (option (list string)) :=
  match truthyField "readOnlyProperties" resourceSchema with
  | None => ret None
  | Some (JArr paths) =>
      names <- mapM (fun v => match v with
                              | JPrim (JStr s) => ret s
                              | _ => unmodelled string
                              end) paths ;;
      ret (Some names)
  | Some _ => unmodelled _
  end.

(** [#analyzePaths()] *)
Definition analyzePaths (fuel : nat) : M unit :=
  paths <- readOnlyPropertiesOf ;;
  match paths with
  | None => ret tt
  | Some readOnlyProperties =>
      forEach (fun path => addAttribute fuel path true) readOnlyProperties ;;;
      forEach
        (fun path =>
           props <- findPropertyPath fuel path false ;;
           forEach (promote fuel) props)
        (SchemaPaths.getBreadcrumbs readOnlyProperties)
  end.

Definition rootKeys : list string :=
  ["allOf"; "anyOf"; "oneOf"; "properties"; "required"].

Definition setRootProperties (d : TypeDefinition) : M unit :=
  modifyRoot (fun r =>
                mkResourceType (typeName r) (attributes r) (definitions r) d).

(** [this.#root.definitions[definitionName] = ...], the write of an own
    key: so for every name but [__proto__], which the assignment hands to
    the accessor of [Object.prototype] and stores under no key. *)
Definition setDefinition (name : string) (d : TypeDefinition) : M unit :=
  modifyRoot (fun r =>
                mkResourceType (typeName r) (attributes r)
                  (set name d (definitions r)) (properties r)).

(** [build()], run on the state the constructor leaves. *)
Definition buildM (fuel : nat) : M ResourceType :=
  let rootSchema := pick resourceSchema rootKeys in
  r <- liftW (extractDocumentation fuel rootSchema "/") ;;
  match resType r with
  | None =>
      throw _ ("expected type to have a value for resource "
               ++ Str.quoted schemaTypeName)%string
  | Some type =>
      t <- liftW (walkTypeW (walkers fuel) type "/") ;;
      setRootProperties (mkTypeDefinition (resDocumentation r) t) ;;;
      match truthyField "definitions" resourceSchema with
      | Some definitionsValue =>
          entries <- liftW (entriesOf definitionsValue) ;;
          forEach
            (fun entry =>
               d <- liftW (walkDefinition (walkers fuel) fuel (snd entry)
                             ("/definitions/" ++ fst entry)%string) ;;
               setDefinition (fst entry) d)
            entries
      | None => ret tt
      end ;;;
      analyzePaths fuel ;;;
      match get schemaTypeName SchemaPaths.ExtraAttributes with
      | Some names =>
          forEach
            (fun name => addAttribute fuel ("/properties/" ++ name)%string false)
            names
      | None => if inherited schemaTypeName then unmodelled _ else ret tt
      end ;;;
      getRoot
  end.

(** The state a new [ResourceBuilder] starts from. The constructor stores
    the schema and the documenter and sets [#root]; it does not store
    [options.problems], so [#problems] holds no reporter. [table] is
    [RelevantKeys] as earlier builds have left it. *)
Definition initialState (table : Tag -> list string) : State :=
  mkState
    (mkResourceType schemaTypeName None []
       (mkTypeDefinition None (TUnknown "/")))
    (mkDiag [] None table []).

(** [new ResourceBuilder(resourceSchema, options).build()] *)
Definition build (fuel : nat) (table : Tag -> list string)
  : Result (ResourceType * State) :=
  match get "typeName" resourceSchema with
  | Some (JPrim (JStr _)) => buildM fuel (initialState table)
  | _ => Unmodelled
  end.

End WithResource.

End Builder.

(* ===================================================================== *)
(** ** build-lib/resource-type-simplifier.ts *)
(* ===================================================================== *)

Module Simplifier.
Import Js Str TypeNodes Run Builder.

Inductive ResourceTypeSimplifierMode : Type :=
| ModeAttributes
| ModeModel
| ModeResource.

(** [xs.map(f)] for an [f] that may not return. *)
Fixpoint mapR (A B : Type) (f : A -> Result B) (xs : list A) : Result (list B) :=
  match xs with
  | [] => Ok []
  | x :: rest =>
      match f x with
      | Ok y =>
          match mapR f rest with
          | Ok ys => Ok (y :: ys)
          | Throw msg => Throw msg
          | OutOfFuel => OutOfFuel
          | Unmodelled => Unmodelled
          end
      | Throw msg => Throw msg
      | OutOfFuel => OutOfFuel
      | Unmodelled => Unmodelled
      end
  end.

Section WithSimplifier.
(** The fields of a [ResourceTypeSimplifier]. *)
Variable resource : ResourceType.
Variable mode : ResourceTypeSimplifierMode.
Variable tagType : option SymbolName.

(** [target.properties[name]?.type.type === "string"] *)
Definition isStringProperty (name : string)
  (props : list (string * PropertyInfo)) : bool :=
  match get name props with
  | Some p => tag_eqb (tag (type p)) TagString
  | None => false
  end.

(** [isTagObject(target)] *)
Definition isTagObject (target : TypeNode) : bool :=
  match target with
  | TObject _ props _ =>
      Nat.eqb (List.length (keys props)) 2 &&
      isStringProperty "Key" props && isStringProperty "Value" props
  | _ => false
  end.

(** [shouldInline(target)] *)
Definition shouldInline (target : TypeNode) : bool :=
  negb (tag_eqb (tag target) TagEnum) &&
  (negb (tag_eqb (tag target) TagObject) ||
   match mode with ModeAttributes => true | _ => false end) &&
  negb (tag_eqb (tag target) TagUnion).

(** [/Tags?$/.test(name)] *)
Definition endsInTag (name : string) : bool :=
  endsWith name "Tag" || endsWith name "Tags".

(** [simplifyType(node)]; [fuel] bounds the depth of its recursion. *)
Fixpoint simplifyType (fuel : nat) (node : TypeNode) : Result TypeNode :=
  match fuel with
  | O => OutOfFuel
  | S fuel' =>
      match node with
      | TObject id props req =>
          match mode with
          | ModeModel => Ok node
          | ModeAttributes =>
              let properties :=
                fromEntries
                  (filter (fun e : string * PropertyInfo =>
                             isTrue (isAttribute (snd e))) props) in
              Ok (TObject id properties (keys properties))
          | ModeResource =>
              let properties :=
                fromEntries
                  (filter (fun e : string * PropertyInfo =>
                             negb (isTrue (readOnly (snd e)))) props) in
              Ok (TObject id properties
                    (filter (fun x => js_in x properties) req))
          end
      | TReference id (NameString name) =>
          match definitionOf resource name with
          | Ok (Some def) =>
              let target := defType def in
              match tagType with
              | Some tag =>
                  if endsInTag name && isTagObject target
                  then Ok (TReference id tag)
                  else if shouldInline target then simplifyType fuel' target
                  else Ok node
              | None =>
                  if shouldInline target then simplifyType fuel' target
                  else Ok node
              end
          | Ok None => Ok node
          | Throw msg => Throw msg
          | OutOfFuel => OutOfFuel
          | Unmodelled => Unmodelled
          end
      | TUnion id items =>
          match mapR (simplifyType fuel') items with
          | Ok simplified =>
              match simplifyUnionType id simplified with
              | Some t => Ok t
              | None => OutOfFuel
              end
          | Throw msg => Throw msg
          | OutOfFuel => OutOfFuel
          | Unmodelled => Unmodelled
          end
      | _ => Ok node
      end
  end.

End WithSimplifier.

End Simplifier.

(* ===================================================================== *)
(** ** build-lib/code-generator.ts and build-lib/case.ts *)
(* ===================================================================== *)

Module CodeGenerator.
Import Js Str TypeNodes Run.

(** [asciiCompare(a, b)] *)
Definition asciiCompare (a b : string) : Z :=
  if String.eqb a b then 0%Z else if String.ltb a b then (-1)%Z else 1%Z.

(** The part of the TypeScript syntax tree the generator builds. *)
Inductive Keyword : Type :=
| AnyKeyword | UnknownKeyword | UndefinedKeyword | BooleanKeyword
| NumberKeyword | StringKeyword | NeverKeyword.

Inductive Literal : Type :=
| NullLiteral
| TrueLiteral
| FalseLiteral
| NumericLiteral (n : Z)
| StringLiteral (s : string).

Inductive PropertyName : Type :=
| Identifier (text : string)
| StringLiteralName (text : string).

(** A property signature, over the type of its type node. [sigDocs] is the
    documentation its leading comment is rendered from; the text of the
    comment is not modelled. *)
Record PropertySignatureOf (T : Type) : Type := mkPropertySignature {
  sigName : PropertyName;
  sigQuestionToken : bool;
  sigType : T;
  sigDocs : option TypeDocumentation
}.

Inductive TypeNodeTs : Type :=
| KeywordType (k : Keyword)
| ArrayTypeNode (element : TypeNodeTs)
| LiteralTypeNode (l : Literal)
| UnionTypeNode (types : list TypeNodeTs)
| TypeLiteralNode (members : list (PropertySignatureOf TypeNodeTs))
| TypeReferenceNode (name : string) (typeArguments : option (list TypeNodeTs))
| IndexedAccessTypeNode (object : TypeNodeTs) (index : string).

Inductive Statement : Type :=
| TypeAliasDeclaration (name : string) (type : TypeNodeTs)
    (docs : option TypeDocumentation).

(** [shouldAddUndefined(node)] *)
Fixpoint shouldAddUndefined (node : TypeNodeTs) : bool :=
  match node with
  | KeywordType AnyKeyword | KeywordType UnknownKeyword
  | KeywordType UndefinedKeyword => false
  | UnionTypeNode types => forallb shouldAddUndefined types
  | _ => true
  end.

Definition isIdentStart (c : ascii) : bool :=
  let n := nat_of_ascii c in
  (Nat.leb 65 n && Nat.leb n 90) || (Nat.leb 97 n && Nat.leb n 122) ||
  Nat.eqb n 95.

Definition isIdentPart (c : ascii) : bool := isIdentStart c || isDigit c.

(** [quoteName(name)] *)
Definition quoteName (name : string) : PropertyName :=
  match chars name with
  | c :: rest =>
      if isIdentStart c && forallb isIdentPart rest
      then Identifier name else StringLiteralName name
  | [] => StringLiteralName name
  end.

(** [generateLiteral(value)] on a primitive. *)
Definition generateLiteral (value : JsonPrimitive) : Literal :=
  match value with
  | JNull => NullLiteral
  | JBool true => TrueLiteral
  | JBool false => FalseLiteral
  | JNum n => NumericLiteral n
  | JStr s => StringLiteral s
  end.

(** Structural equality of values, documentation and nodes. *)
Fixpoint json_eqb (a b : json) : bool :=
  match a, b with
  | JPrim x, JPrim y => prim_eqb x y
  | JArr xs, JArr ys =>
      (fix go (xs ys : list json) : bool :=
         match xs, ys with
         | [], [] => true
         | x :: xs', y :: ys' => json_eqb x y && go xs' ys'
         | _, _ => false
         end) xs ys
  | JObj xs, JObj ys =>
      (fix go (xs ys : list (string * json)) : bool :=
         match xs, ys with
         | [], [] => true
         | (k, x) :: xs', (l, y) :: ys' =>
             String.eqb k l && json_eqb x y && go xs' ys'
         | _, _ => false
         end) xs ys
  | _, _ => false
  end.

Definition option_eqb (A : Type) (eqb : A -> A -> bool) (a b : option A) : bool :=
  match a, b with
  | Some x, Some y => eqb x y
  | None, None => true
  | _, _ => false
  end.

Fixpoint list_eqb (A : Type) (eqb : A -> A -> bool) (a b : list A) : bool :=
  match a, b with
  | [], [] => true
  | x :: a', y :: b' => eqb x y && list_eqb eqb a' b'
  | _, _ => false
  end.

Definition doc_eqb (a b : option TypeDocumentation) : bool :=
  option_eqb (fun x y => json_eqb (JObj x) (JObj y)) a b.

Fixpoint symbol_eqb (a b : SymbolName) : bool :=
  match a, b with
  | NameString x, NameString y => String.eqb x y
  | NameImport i m n t, NameImport j m' n' t' =>
      Nat.eqb i j && String.eqb m m' && String.eqb n n' && Bool.eqb t t'
  | NameIndexed i n xs, NameIndexed j n' ys =>
      Nat.eqb i j && symbol_eqb n n' && list_eqb String.eqb xs ys
  | _, _ => false
  end.

Definition kind_eqb (a b : PrimitiveKind) : bool :=
  tag_eqb (tag_of_kind a) (tag_of_kind b).

Fixpoint node_eqb (a b : TypeNode) : bool :=
  match a, b with
  | TAny i, TAny j => String.eqb i j
  | TArray i d x, TArray j e y => String.eqb i j && doc_eqb d e && node_eqb x y
  | TConst i v, TConst j w => String.eqb i j && prim_eqb v w
  | TEnum i vs, TEnum j ws => String.eqb i j && list_eqb prim_eqb vs ws
  | TObject i ps rs, TObject j qs ss =>
      String.eqb i j && list_eqb String.eqb rs ss &&
      (fix go (ps qs : list (string * PropertyInfo)) : bool :=
         match ps, qs with
         | [], [] => true
         | (k, p) :: ps', (l, q) :: qs' =>
             String.eqb k l &&
             doc_eqb (documentation p) (documentation q) &&
             option_eqb Bool.eqb (isAttribute p) (isAttribute q) &&
             option_eqb Bool.eqb (readOnly p) (readOnly q) &&
             node_eqb (type p) (type q) && go ps' qs'
         | _, _ => false
         end) ps qs
  | TPrimitive k i, TPrimitive l j => kind_eqb k l && String.eqb i j
  | TRecord i x, TRecord j y => String.eqb i j && node_eqb x y
  | TReference i n, TReference j m => String.eqb i j && symbol_eqb n m
  | TUnion i xs, TUnion j ys =>
      String.eqb i j &&
      (fix go (xs ys : list TypeNode) : bool :=
         match xs, ys with
         | [], [] => true
         | x :: xs', y :: ys' => node_eqb x y && go xs' ys'
         | _, _ => false
         end) xs ys
  | TUnknown i, TUnknown j => String.eqb i j
  | _, _ => false
  end.

(** [CodeGeneratorOptions] with the defaults of the constructor filled
    in. [simplifier] is the [simplifyType] method of the simplifier, if
    there is one; [sortProperties] is [None] for [false]. *)
Record CodeGeneratorOptions : Type := mkCodeGeneratorOptions {
  anyType : Keyword;
  exactOptionalPropertyTypes : bool;
  noDocumentation : bool;
  simplifier : option (TypeNode -> Result TypeNode);
  sortProperties :
    option (string * PropertyInfo -> string * PropertyInfo -> Z);
  wellKnownTypes : list (string * SymbolName)
}.

Definition defaultPropertySort (a b : string * PropertyInfo) : Z :=
  asciiCompare (fst a) (fst b).

(** The fields of a [CodeGenerator] that change while it runs. The source
    searches [#stack] for the node object itself; here a node is found on
    the stack when an equal node is there. *)
Record GenState : Type := mkGenState {
  referencedNames : list SymbolName;
  stack : list TypeNode
}.

Definition G (A : Type) : Type := ST GenState A.

(** [referencedNames.has(name)] *)
Definition hasName (name : SymbolName) (names : list SymbolName) : bool :=
  existsb (name_eqb name) names.

(** [this.#referencedNames.add(name)] *)
Definition addReferenced (name : SymbolName) : G unit :=
  fun st =>
    Ok (tt, mkGenState
              (if hasName name (referencedNames st) then referencedNames st
               else referencedNames st ++ [name])
              (stack st)).

Definition pushStack (node : TypeNode) : G unit :=
  fun st => Ok (tt, mkGenState (referencedNames st) (stack st ++ [node])).

(** The [finally] block of [generateType]. *)
Definition popStack (node : TypeNode) : G unit :=
  fun st =>
    match rev (stack st) with
    | top :: below =>
        if node_eqb top node
        then Ok (tt, mkGenState (referencedNames st) (rev below))
        else Throw "Expected values to be strictly equal"
    | [] => Throw "Expected values to be strictly equal"
    end.

(** [entries.sort(compare)]: a stable sort. *)
Fixpoint insertSorted (A : Type) (compare : A -> A -> Z) (x : A)
  (sorted : list A) : list A :=
  match sorted with
  | [] => [x]
  | y :: rest =>
      if Z.ltb 0 (compare y x) then x :: y :: rest
      else y :: insertSorted compare x rest
  end.

Definition sortBy (A : Type) (compare : A -> A -> Z) (xs : list A) : list A :=
  fold_left (fun sorted x => insertSorted compare x sorted) xs [].

(** [createTypeReference(name, typeArguments)] *)
Fixpoint createTypeReference (name : SymbolName)
  (typeArguments : option (list TypeNodeTs)) : G TypeNodeTs :=
  addReferenced name ;;;
  match name with
  | NameString text => ret (TypeReferenceNode text typeArguments)
  | NameImport _ _ imported _ => ret (TypeReferenceNode imported typeArguments)
  | NameIndexed _ inner indexes =>
      t <- createTypeReference inner typeArguments ;;
      ret (fold_left IndexedAccessTypeNode indexes t)
  end.

Section Generate.
Variable options : CodeGeneratorOptions.
(** [this.generateType], for the calls the functions below make. *)
Variable generateTypeRec : TypeNode -> G TypeNodeTs.

(** [generatePrimitiveType(node)] *)
Definition generatePrimitiveType (kind : PrimitiveKind) : TypeNodeTs :=
  match kind with
  | KBoolean => KeywordType BooleanKeyword
  | KInteger => KeywordType NumberKeyword
  | KNumber => KeywordType NumberKeyword
  | KNull => LiteralTypeNode NullLiteral
  | KString => KeywordType StringKeyword
  end.

(** [generateEnumType(node)] *)
Definition generateEnumType (values : list JsonPrimitive) : TypeNodeTs :=
  UnionTypeNode (map (fun v => LiteralTypeNode (generateLiteral v)) values).

(** [node.documentation?.wellKnownType] looked up in [#wellKnownTypes]. *)
Definition wellKnownName (info : PropertyInfo) : option SymbolName :=
  match documentation info with
  | Some docs =>
      match get "wellKnownType" docs with
      | Some (JPrim (JStr marker)) =>
          if String.eqb marker "" then None
          else get marker (wellKnownTypes options)
      | _ => None
      end
  | None => None
  end.

(** [generateOptionalPropertyType(node, required)] *)
Definition generateOptionalPropertyType (info : PropertyInfo) (required : bool)
  : G TypeNodeTs :=
  t <- match wellKnownName info with
       | Some name => createTypeReference name None
       | None => generateTypeRec (type info)
       end ;;
  if required || negb (exactOptionalPropertyTypes options) ||
     negb (shouldAddUndefined t)
  then ret t
  else match t with
       | UnionTypeNode types =>
           ret (UnionTypeNode (types ++ [KeywordType UndefinedKeyword]))
       | _ => ret (UnionTypeNode [t; KeywordType UndefinedKeyword])
       end.

(** [generateObjectType(node)] *)
Definition generateObjectType (props : list (string * PropertyInfo))
  (required : list string) : G TypeNodeTs :=
  match props with
  | [] =>
      ret (TypeReferenceNode "Record"
             (Some [KeywordType StringKeyword; KeywordType NeverKeyword]))
  | _ =>
      let propertyEntries :=
        match sortProperties options with
        | Some compare => sortBy compare props
        | None => props
        end in
      members <-
        mapM (fun entry : string * PropertyInfo =>
                let isRequired := mem (fst entry) required in
                t <- generateOptionalPropertyType (snd entry) isRequired ;;
                ret (mkPropertySignature (quoteName (fst entry))
                       (negb isRequired) t
                       (if noDocumentation options then None
                        else documentation (snd entry))))
          propertyEntries ;;
      ret (TypeLiteralNode members)
  end.

(** The [try] block of [generateType]. A [null] node is no primitive
    for [isPrimitiveTypeNode] and has no branch of its own, so it ends in
    the closing [assert(false, ...)]. *)
Definition generateNode (node : TypeNode) : G TypeNodeTs :=
  match node with
  | TPrimitive KNull _ => throw _ ("unknown node type " ++ Str.quoted "null")%string
  | TPrimitive kind _ => ret (generatePrimitiveType kind)
  | TAny _ | TUnknown _ => ret (KeywordType (anyType options))
  | TArray _ _ items =>
      element <- generateTypeRec items ;;
      ret (ArrayTypeNode element)
  | TConst _ value => ret (LiteralTypeNode (generateLiteral value))
  | TEnum _ values => ret (generateEnumType values)
  | TObject _ props required => generateObjectType props required
  | TRecord _ value =>
      t <- generateTypeRec value ;;
      ret (TypeReferenceNode "Record" (Some [KeywordType StringKeyword; t]))
  | TReference _ name => createTypeReference name None
  | TUnion _ items =>
      types <- mapM generateTypeRec items ;;
      ret (UnionTypeNode types)
  end.

End Generate.

(** [generateType(node)]; [fuel] bounds the depth of its recursion. *)
Fixpoint generateType (options : CodeGeneratorOptions) (fuel : nat)
  (node : TypeNode) : G TypeNodeTs :=
  match fuel with
  | O => outOfFuel _
  | S fuel' =>
      st <- getState ;;
      simplified <-
        match simplifier options with
        | Some simplifyType =>
            if negb (existsb (node_eqb node) (stack st))
            then liftR (simplifyType node)
            else ret node
        | None => ret node
        end ;;
      pushStack simplified ;;;
      result <- generateNode options (generateType options fuel') simplified ;;
      popStack simplified ;;;
      ret result
  end.

(** [generateTypeDefinition(name, definition)] *)
Definition generateTypeDefinition (options : CodeGeneratorOptions) (fuel : nat)
  (name : string) (definition : TypeDefinition) : G Statement :=
  t <- generateType options fuel (defType definition) ;;
  ret (TypeAliasDeclaration name t
         (if noDocumentation options then None
          else defDocumentation definition)).

End CodeGenerator.

(* ===================================================================== *)
(** ** build/generate.ts: emitting the definitions that are referenced *)
(* ===================================================================== *)

Module Generate.
Import Js TypeNodes Run CodeGenerator.

Section EmitLoop.
(** [code.generateTypeDefinition] *)
Variable generate : string -> TypeDefinition -> G Statement.
(** [Object.entries(resource.definitions)] *)
Variable table : list (string * TypeDefinition).

(** The body of the [for] loop; the accumulator is [definitions] and
    [thisPass]. *)
Definition passStep (acc : list (string * Statement) * nat)
  (entry : string * TypeDefinition) : G (list (string * Statement) * nat) :=
  let '(definitions, thisPass) := acc in
  let alreadyGenerated :=
    existsb (fun existing : string * Statement =>
               String.eqb (fst existing) (fst entry)) definitions in
  st <- getState ;;
  if hasName (NameString (fst entry)) (referencedNames st) &&
     negb alreadyGenerated
  then
    statement <- generate (fst entry) (snd entry) ;;
    ret (definitions ++ [(fst entry, statement)], S thisPass)
  else ret acc.

Fixpoint passOver (entries : list (string * TypeDefinition))
  (acc : list (string * Statement) * nat) : G (list (string * Statement) * nat) :=
  match entries with
  | [] => ret acc
  | entry :: rest =>
      acc' <- passStep acc entry ;;
      passOver rest acc'
  end.

(** One round of the [do ... while]: [thisPass = 0] and the [for] loop. *)
Definition onePass (definitions : list (string * Statement))
  : G (list (string * Statement) * nat) :=
  passOver table (definitions, 0).

(** The [do ... while (thisPass > 0)] loop, given [passes] rounds. *)
Fixpoint emitLoop (passes : nat) (definitions : list (string * Statement))
  : G (list (string * Statement)) :=
  match passes with
  | O => outOfFuel _
  | S passes' =>
      r <- onePass definitions ;;
      if Nat.ltb 0 (snd r) then emitLoop passes' (fst r) else ret (fst r)
  end.

(** The loop as [main] runs it, from [definitions = []]. A round that is
    not the last adds a definition of the table that was not there, so
    one round more than the table has entries is enough. *)
Definition emitDefinitions : G (list (string * Statement)) :=
  emitLoop (S (List.length table)) [].

End EmitLoop.

End Generate.

(* ===================================================================== *)
(** ** build-lib/problems.ts (src/build-lib/aws-documenter.ts): the console reporter *)
(* ===================================================================== *)

Module Problems.
Import Js.

(** The fields of a [ConsoleProblemReporter]: the set [#reported], in the
    order its members were added, and the lines written with
    [console.error]. *)
Record Console : Type := mkConsole {
  reported : list string;
  written : list string
}.

Definition newConsole : Console := mkConsole [] [].

(** [#report(message)] *)
Definition report (message : string) (c : Console) : Console :=
  if mem message (reported c) then c
  else mkConsole (reported c ++ [message]) (written c ++ [message]).

Inductive Severity : Type := SeverityError | SeverityWarn.

Section Reporter.
(** The text [format(`${chalk.red("error")} ${chalk.gray(location)}`,
    ...args)] and its [warn] counterpart: what [node:util] and [chalk]
    make of a location and the arguments. *)
Variable Args : Type.
Variable render : Severity -> string -> Args -> string.

(** [error(location, ...args)] *)
Definition error (location : string) (args : Args) (c : Console) : Console :=
  report (render SeverityError location args) c.

(** [warn(location, ...args)] *)
Definition warn (location : string) (args : Args) (c : Console) : Console :=
  report (render SeverityWarn location args) c.

(** A run of calls of [error] and [warn]. *)
Definition call (c : Console) (x : Severity * string * Args) : Console :=
  match fst (fst x) with
  | SeverityError => error (snd (fst x)) (snd x) c
  | SeverityWarn => warn (snd (fst x)) (snd x) c
  end.

Definition calls (xs : list (Severity * string * Args)) : Console :=
  fold_left call xs newConsole.

End Reporter.

End Problems.

(* ===================================================================== *)
(** ** lib/intrinsics.ts (src/unnamed/part_002): [joinStr] *)
(* ===================================================================== *)

Module Intrinsics.
Import Js.

(** The loop of [joinStr]: [literals.entries()] from index [i] on. A
    literal that is the empty string is falsy and is left out. *)
Fixpoint joinParts (i : nat) (literals : list string) (values : list json)
  : list json :=
  match literals with
  | [] => []
  | literal :: rest =>
      (if String.eqb literal "" then [] else [JPrim (JStr literal)]) ++
      (match nth_error values i with
       | Some value => [value]
       | None => []
       end) ++
      joinParts (S i) rest values
  end.

(** [Fn.Join(delimiter, listOfValues)] *)
Definition Join (delimiter : string) (listOfValues : list json) : json :=
  JObj [("Fn::Join", JArr [JPrim (JStr delimiter); JArr listOfValues])].

(** [joinStr(literals, ...values)] *)
Definition joinStr (literals : list string) (values : list json) : json :=
  Join "" (joinParts 0 literals values).

End Intrinsics.

(* ===================================================================== *)
(** ** lib/builder.ts: [TemplateBuilder] *)
(* ===================================================================== *)

Module TemplateBuilder.
Import Js Str ObjectUtil.

(** How the walk of [#set] below an object ends: the object as the walk
    leaves it and whether the leaf was stored or found to be there; or the
    [TypeError] of [in] applied to a primitive; or a walk through an array
    or through a member that an object inherits, which is not modelled. *)
Inductive Outcome : Type :=
| Stored (node : json)
| Found (node : json)
| InOnPrimitive
| NotModelled.

(** Put back [child], the object under [key], which the walk has written
    to. *)
Definition under (key : string) (fields : list (string * json))
  (o : Outcome) : Outcome :=
  match o with
  | Stored child => Stored (JObj (set key child fields))
  | Found child => Found (JObj (set key child fields))
  | other => other
  end.

(** The [for] loop of [#set] and what follows it, from the object [o] on. *)
Fixpoint setIn (parents : list string) (leaf : string) (value : json)
  (o : json) : Outcome :=
  match o with
  | JObj fields =>
      match parents with
      | [] =>
          if js_in leaf fields then Found o
          else Stored (JObj (set leaf value fields))
      | key :: rest =>
          match get key fields with
          | Some child => under key fields (setIn rest leaf value child)
          | None =>
              if inherited key then NotModelled
              else under key fields (setIn rest leaf value (JObj []))
          end
      end
  | JPrim _ => InOnPrimitive
  | JArr _ => NotModelled
  end.

(** What a call of [#set] leaves: the template, and how the call ended. *)
Inductive SetResult : Type :=
| SetOk (template : json)
| AssertionError (message : string)
| DuplicateTemplateEntityError (sectionName name : string) (template : json)
| TypeError
| Unmodelled.

(** [#set(keys, value)] on the template [template]. On a duplicate, the
    error is built from [keys[0]] and [keys.slice(1).join(".")]. *)
Definition setKeys (keys : list string) (value : json) (template : json)
  : SetResult :=
  match pop keys with
  | Some (leaf, parents) =>
      if negb (String.eqb leaf "") && Nat.ltb 0 (List.length parents) then
        match setIn parents leaf value template with
        | Stored template' => SetOk template'
        | Found template' =>
            DuplicateTemplateEntityError (hd "" keys) (join "." (tl keys))
              template'
        | InOnPrimitive => TypeError
        | NotModelled => Unmodelled
        end
      else AssertionError "keys should have at least two elements"
  | None => AssertionError "keys should have at least two elements"
  end.

(** [#addSection(sectionName, name, definition)] *)
Definition addSection (sectionName name : string) (definition : json)
  (template : json) : SetResult :=
  setKeys [sectionName; name] definition template.

(** [new TemplateBuilder()]: [template ?? { Resources: {} }] *)
Definition newTemplate : json := JObj [("Resources", JObj [])].

Definition addCondition : string -> json -> json -> SetResult :=
  addSection "Conditions".
Definition addOutput : string -> json -> json -> SetResult :=
  addSection "Outputs".
Definition addParameter : string -> json -> json -> SetResult :=
  addSection "Parameters".
Definition addRule : string -> json -> json -> SetResult :=
  addSection "Rules".

(** [{ Type: type, Properties: properties, ...options }] *)
Definition resourceDefinition (type : string) (properties : json)
  (options : option obj) : json :=
  JObj (fold_left (fun o kv => set (fst kv) (snd kv) o)
          (match options with Some o => o | None => [] end)
          [("Type", JPrim (JStr type)); ("Properties", properties)]).

(** [addResource(name, type, properties, options)] *)
Definition addResource (name type : string) (properties : json)
  (options : option obj) (template : json) : SetResult :=
  addSection "Resources" name (resourceDefinition type properties options)
    template.

(** [typeof v === "object"]: objects, arrays and [null]. *)
Definition typeofObject (v : json) : bool :=
  match v with
  | JObj _ | JArr _ | JPrim JNull => true
  | _ => false
  end.

(** [addMapping(name, topLevel, secondLevel, value)]; an argument left out
    is [None]. The keys are strings, and the [value] of the last form is
    one that JSON has. *)
Definition addMapping (name : string) (topLevel : json)
  (secondLevel value : option json) (template : json) : SetResult :=
  if typeofObject topLevel then addSection "Mappings" name topLevel template
  else
    match topLevel with
    | JPrim (JStr top) =>
        match secondLevel with
        | Some second =>
            if typeofObject second
            then setKeys ["Mappings"; name; top] second template
            else
              match second, value with
              | JPrim (JStr ""), _ => AssertionError "false == true"
              | JPrim (JStr s), Some v =>
                  setKeys ["Mappings"; name; top; s] v template
              | _, _ => Unmodelled
              end
        | None => AssertionError "false == true"
        end
    | _ => Unmodelled
    end.

(** The value at the end of a chain of own keys. *)
Fixpoint getPath (keys : list string) (o : json) : option json :=
  match keys with
  | [] => Some o
  | key :: rest =>
      match o with
      | JObj fields =>
          match get key fields with
          | Some child => getPath rest child
          | None => None
          end
      | _ => None
      end
  end.

End TemplateBuilder.

(* ===================================================================== *)
(** ** What union simplification computes, stated on lists *)
(* ===================================================================== *)

Module UnionSpec.
Import Js TypeNodes.

Definition isUnion (t : TypeNode) : bool :=
  match t with TUnion _ _ => true | _ => false end.

(** The members of a union tree that are not unions, left to right. *)
Fixpoint leaves (t : TypeNode) : list TypeNode :=
  match t with
  | TUnion _ members => flat_map leaves members
  | _ => [t]
  end.

Definition flatten (working : list TypeNode) : list TypeNode :=
  flat_map leaves working.

(** One visit of a non-union member: kept unless an earlier kept member is
    the same type. *)
Definition push (items : list TypeNode) (current : TypeNode) : list TypeNode :=
  if existsb (fun x => isSameType x current) items
  then items else items ++ [current].

Definition dedupInto (items working : list TypeNode) : list TypeNode :=
  fold_left push working items.

Definition dedup (working : list TypeNode) : list TypeNode :=
  dedupInto [] working.

(** No member is the same type as a later one. *)
Fixpoint NoSame (l : list TypeNode) : Prop :=
  match l with
  | [] => True
  | x :: rest => Forall (fun y => isSameType x y = false) rest /\ NoSame rest
  end.

(** [l] is [big] with some members left out, order kept. *)
Inductive Subseq : list TypeNode -> list TypeNode -> Prop :=
| Subseq_nil : Subseq [] []
| Subseq_skip : forall x l big, Subseq l big -> Subseq l (x :: big)
| Subseq_keep : forall x l big, Subseq l big -> Subseq (x :: l) (x :: big).

End UnionSpec.

(* ===================================================================== *)
(** ** References that lead nowhere *)
(* ===================================================================== *)

Module RefSpec.
Import Js Builder.

(** The segments [parts], followed from [v] through the fields of objects
    and the elements of arrays, stop at an object that has no field of the
    next name, either of its own or inherited. *)
Inductive Dangling : json -> list string -> Prop :=
| Dangling_here : forall fields part rest,
    get part fields = None -> inherited part = false ->
    Dangling (JObj fields) (part :: rest)
| Dangling_field : forall fields part rest v,
    get part fields = Some v -> Dangling v rest ->
    Dangling (JObj fields) (part :: rest)
| Dangling_element : forall items part rest v,
    get part (arrayEntries items) = Some v -> Dangling v rest ->
    Dangling (JArr items) (part :: rest).

End RefSpec.

(* ===================================================================== *)
(** ** Properties of the attributes type *)
(* ===================================================================== *)

Module AttributesSpec.
Import Js TypeNodes Builder.

(** The attributes type, when there is one, is an object type that lists
    each of its properties as required. *)
Definition requiredCovers (a : option TypeDefinition) : Prop :=
  match a with
  | None => True
  | Some d =>
      exists id props req,
        defType d = TObject id props req /\
        forall name, has name props = true -> In name req
  end.

(** The properties of an object node that the attributes view keeps. *)
Definition keptAttributes (props : list (string * PropertyInfo))
  : list (string * PropertyInfo) :=
  filter (fun e : string * PropertyInfo => isTrue (isAttribute (snd e))) props.

End AttributesSpec.

(* ===================================================================== *)
(** ** The graph of a resource across the writes of the classification *)
(* ===================================================================== *)

Module GraphSpec.
Import Js TypeNodes Builder.

(** Arrays, records, unions and objects hold other nodes. *)
Definition container (t : TypeNode) : bool :=
  match t with
  | TArray _ _ _ | TRecord _ _ | TUnion _ _ | TObject _ _ _ => true
  | _ => false
  end.

(** How a property may differ after a write: when [keysFixed] it keeps its
    name, when [attributeFixed] it keeps its [isAttribute] flag, and in
    any case [isAttribute = true] is not taken back. *)
Definition Rel (keysFixed attributeFixed : bool)
  (k : string) (v : PropertyInfo) (k' : string) (v' : PropertyInfo) : Prop :=
  (keysFixed = true -> k' = k) /\
  (attributeFixed = true -> isAttribute v' = isAttribute v) /\
  (isAttribute v = Some true -> isAttribute v' = Some true).

(** [Ev R a b]: [b] is the node [a] after some writes; it has the shape of
    [a], and every property of an object of [a] is found in the object of
    [b] at the same place, under a name and with flags that [R] allows. *)
Inductive Ev (R : string -> PropertyInfo -> string -> PropertyInfo -> Prop)
  : TypeNode -> TypeNode -> Prop :=
| Ev_leaf : forall t, container t = false -> Ev R t t
| Ev_array : forall id doc items items',
    Ev R items items' -> Ev R (TArray id doc items) (TArray id doc items')
| Ev_record : forall id value value',
    Ev R value value' -> Ev R (TRecord id value) (TRecord id value')
| Ev_union : forall id items items',
    Forall2 (Ev R) items items' -> Ev R (TUnion id items) (TUnion id items')
| Ev_object : forall id props props' req,
    (forall k v,
       get k props = Some v ->
       exists k' v',
         get k' props' = Some v' /\ R k v k' v' /\ Ev R (type v) (type v')) ->
    Ev R (TObject id props req) (TObject id props' req).

(** One write to the graph: [attributes] and the type name stay, the
    properties tree and every definition change as [Ev R] allows. *)
Definition EvRoot (R : string -> PropertyInfo -> string -> PropertyInfo -> Prop)
  (r r' : ResourceType) : Prop :=
  typeName r' = typeName r /\
  attributes r' = attributes r /\
  Ev R (defType (properties r)) (defType (properties r')) /\
  Forall2 (fun d d' : string * TypeDefinition =>
             fst d' = fst d /\ Ev R (defType (snd d)) (defType (snd d')))
    (definitions r) (definitions r').

(** Any number of such writes. *)
Inductive Evolves (R : string -> PropertyInfo -> string -> PropertyInfo -> Prop)
  : ResourceType -> ResourceType -> Prop :=
| Evolves_refl : forall r, Evolves R r r
| Evolves_step : forall r1 r2 r3,
    Evolves R r1 r2 -> EvRoot R r2 r3 -> Evolves R r1 r3.

(** The properties tree, and the definitions that a node of the tree or of
    such a definition refers to. *)
Inductive OriginReachable (r : ResourceType) : Origin -> Prop :=
| OR_properties : OriginReachable r InProperties
| OR_reference : forall o path id name,
    OriginReachable r o ->
    nodeAt r (o, path) = Some (TReference id (NameString name)) ->
    OriginReachable r (InDefinition name).

(** [t], with its references resolved in [r], is made of primitives,
    constants, enums and the like, of arrays and of unions: there is no
    object and no record in it. *)
Inductive NoStructure (r : ResourceType) : TypeNode -> Prop :=
| NS_leaf : forall t,
    container t = false ->
    (forall id name, t <> TReference id name) ->
    NoStructure r t
| NS_array : forall id doc items,
    NoStructure r items -> NoStructure r (TArray id doc items)
| NS_union : forall id items,
    Forall (NoStructure r) items -> NoStructure r (TUnion id items)
| NS_reference : forall id name d,
    get name (definitions r) = Some d ->
    NoStructure r (defType d) ->
    NoStructure r (TReference id (NameString name)).

(** An entry of the attributes type is backed by the graph: it is flagged,
    [#isValidAttributeType] accepts its type, and a property of the
    properties tree or of a definition reached from it carries
    [isAttribute = true] and the same type. *)
Definition backed (fuel : nat) (r : ResourceType) (e : PropertyInfo) : Prop :=
  isAttribute e = Some true /\
  isValidAttributeType fuel r (type e) = Run.Ok true /\
  exists p info,
    OriginReachable r (fst (owner p)) /\
    propAt r p = Some info /\
    isAttribute info = Some true /\
    type info = type e.

Definition attributesBacked (fuel : nat) (r : ResourceType) : Prop :=
  match attributes r with
  | None => True
  | Some a =>
      exists id props req,
        defType a = TObject id props req /\
        forall name e, get name props = Some e -> backed fuel r e
  end.

(** The attributes type, when there is one, is an object type, and each
    of its entries is flagged, has a type without object and record, and
    is the type of a flagged property of the graph. *)
Definition entriesBacked (r : ResourceType) : Prop :=
  match attributes r with
  | None => True
  | Some a =>
      exists id props req,
        defType a = TObject id props req /\
        forall name e,
          get name props = Some e ->
          isAttribute e = Some true /\
          NoStructure r (type e) /\
          exists p info,
            OriginReachable r (fst (owner p)) /\
            propAt r p = Some info /\
            isAttribute info = Some true /\
            type info = type e
  end.

End GraphSpec.

(** ** The immediate children of a property *)

Module PromotionSpec.
Import Js TypeNodes Builder.

(** [ChildObject r loc o]: [o] is the place of an object whose properties
    are the immediate children of the type at [loc]: the type itself when
    it is an object, and otherwise what the items of an array, the value
    of a record, the definition a reference names and the members of a
    union come to. These are the objects whose properties
    [#markChildren] writes when its [maxDepth] is 1. *)
Inductive ChildObject (r : ResourceType) : Loc -> Loc -> Prop :=
| CO_object : forall loc id props req,
    nodeAt r loc = Some (TObject id props req) -> ChildObject r loc loc
| CO_items : forall loc id doc items o,
    nodeAt r loc = Some (TArray id doc items) ->
    ChildObject r (below loc AtItems) o -> ChildObject r loc o
| CO_value : forall loc id value o,
    nodeAt r loc = Some (TRecord id value) ->
    ChildObject r (below loc AtValue) o -> ChildObject r loc o
| CO_target : forall loc id name d o,
    nodeAt r loc = Some (TReference id (NameString name)) ->
    lookupDefinition r name = Some d ->
    ChildObject r (InDefinition name, []) o -> ChildObject r loc o
| CO_member : forall loc id items i o,
    nodeAt r loc = Some (TUnion id items) ->
    i < List.length items ->
    ChildObject r (below loc (AtMember i)) o -> ChildObject r loc o.

(** [q] is an immediate child of the property [p]. *)
Definition childOf (r : ResourceType) (p q : PropRef) : Prop :=
  ChildObject r (typeLoc p) (owner q).

(** [DirectObject r loc o]: [o] is the place of the one object that the
    type at [loc] is or comes to, through the items of arrays and the
    definitions that references name, with no union on the way. *)
Inductive DirectObject (r : ResourceType) : Loc -> Loc -> Prop :=
| DO_object : forall loc id props req,
    nodeAt r loc = Some (TObject id props req) -> DirectObject r loc loc
| DO_items : forall loc id doc items o,
    nodeAt r loc = Some (TArray id doc items) ->
    DirectObject r (below loc AtItems) o -> DirectObject r loc o
| DO_target : forall loc id name d o,
    nodeAt r loc = Some (TReference id (NameString name)) ->
    lookupDefinition r name = Some d ->
    DirectObject r (InDefinition name, []) o -> DirectObject r loc o.

(** [q] is an immediate child of the property [p], whose type is no
    union and holds none before its object. *)
Definition directChildOf (r : ResourceType) (p q : PropRef) : Prop :=
  DirectObject r (typeLoc p) (owner q).

End PromotionSpec.

(** ** Graphs that differ in names with dots and in [readOnly] only *)

Module WildcardSpec.
Import Js Str TypeNodes Builder GraphSpec.

(** The name of a property after [#findProperty] went by: the name it
    had, or that name with the dots that the schema had lost. *)
Definition sameName (k k' : string) : Prop :=
  k' = k \/ removeChar "." k' = k.

(** A property, later: under the same name and with the [isAttribute]
    flag it had. *)
Definition keptAs (k : string) (v : PropertyInfo) (k' : string)
  (v' : PropertyInfo) : Prop :=
  sameName k k' /\ isAttribute v' = isAttribute v.

(** A property, earlier: the other way round. *)
Definition cameFrom (k' : string) (v' : PropertyInfo) (k : string)
  (v : PropertyInfo) : Prop :=
  sameName k k' /\ isAttribute v = isAttribute v'.

(** From [r] to [r'] no property changed its [isAttribute] flag: the
    graphs have the same shape, every property of [r] is in [r'] at the
    same place with its flag, and every property of [r'] was in [r] at
    the same place with its flag. *)
Definition sameAttributeFlags (r r' : ResourceType) : Prop :=
  EvRoot keptAs r r' /\ EvRoot cameFrom r' r.

End WildcardSpec.

(* ===================================================================== *)
(** ** The schemas of the scenarios *)
(* ===================================================================== *)

Module Scenarios.
Import Js TypeNodes Run Builder.

Definition num (n : Z) : json := JPrim (JNum n).

Definition stringSchema : json := JObj [("type", jstr "string")].

(** [{ allOf: [{ minLength: 1 }, { minLength: 5 }] }] *)
Definition allOfMinLength : obj :=
  [("allOf", JArr [JObj [("minLength", num 1)]; JObj [("minLength", num 5)]])].

(** The resource schema as the round-trip scenario writes it: the
    property map and [required] nested under [properties]. *)
Definition nestedRoundTrip : obj :=
  [ ("typeName", jstr "Test::Resource");
    ("properties",
     JObj [ ("properties",
             JObj [("Name", stringSchema); ("Id", stringSchema)]);
            ("required", JArr [jstr "Name"]) ]);
    ("readOnlyProperties", JArr [jstr "/properties/Id"]) ].

(** The same resource in the shape [build] reads: [properties] is the
    property map and [required] stands beside it. *)
Definition roundTrip : obj :=
  [ ("typeName", jstr "Test::Resource");
    ("properties", JObj [("Name", stringSchema); ("Id", stringSchema)]);
    ("required", JArr [jstr "Name"]);
    ("readOnlyProperties", JArr [jstr "/properties/Id"]) ].

(** What the round-trip scenario asks of a built resource: the writable
    view of its properties is an object type with [Name], required, and
    without [Id]; its attributes type is an object type whose only
    property is [Id]. *)
Definition roundTripHolds (fuel : nat) (rt : ResourceType) : Prop :=
  (exists id props req,
     Simplifier.simplifyType rt Simplifier.ModeResource None fuel
       (defType (properties rt)) = Ok (TObject id props req) /\
     has "Name" props = true /\ mem "Name" req = true /\
     has "Id" props = false) /\
  (exists doc id props req,
     attributes rt = Some (mkTypeDefinition doc (TObject id props req)) /\
     keys props = ["Id"]).

(** Three definitions that refer to each other against the order of the
    table: [A] has a property of type [C], [C] one of type [B], and [B] is
    an enum. *)
Definition chainedDefinitions : list (string * TypeDefinition) :=
  [ ("A", mkTypeDefinition None
            (TObject "/definitions/A"
               [("p", mkPropertyInfo (Some []) None None
                        (TReference "/definitions/A/properties/p"
                           (NameString "C")))] []));
    ("B", mkTypeDefinition None
            (TEnum "/definitions/B" [JStr "x"; JStr "y"]));
    ("C", mkTypeDefinition None
            (TObject "/definitions/C"
               [("q", mkPropertyInfo (Some []) None None
                        (TReference "/definitions/C/properties/q"
                           (NameString "B")))] ["q"])) ].

Definition chainedResource : ResourceType :=
  mkResourceType "Test::Resource" None chainedDefinitions
    (mkTypeDefinition None
       (TObject "/"
          [("a", mkPropertyInfo (Some []) None None
                   (TReference "/properties/a" (NameString "A")))] [])).

(** A definition [A] that is an array of [A], and a property of type [A]. *)
Definition cyclicSchema : obj :=
  [ ("typeName", jstr "Test::Resource");
    ("properties", JObj [("a", JObj [("$ref", jstr "#/definitions/A")])]);
    ("definitions",
     JObj [("A", JObj [("type", jstr "array");
                       ("items", JObj [("$ref", jstr "#/definitions/A")])])]) ].

Definition refToA : TypeNode :=
  TReference "/definitions/A/items" (NameString "A").

Definition arrayOfA : TypeNode := TArray "/definitions/A" (Some []) refToA.

Definition cyclicResource : ResourceType :=
  mkResourceType "Test::Resource" None
    [("A", mkTypeDefinition (Some []) arrayOfA)]
    (mkTypeDefinition None
       (TObject "/"
          [("a", mkPropertyInfo (Some []) None None
                   (TReference "/properties/a" (NameString "A")))] [])).

(** A definition [A] that is an object with a property of type [A]. *)
Definition selfReferentialSchema : obj :=
  [ ("typeName", jstr "Test::Resource");
    ("properties", JObj [("a", JObj [("$ref", jstr "#/definitions/A")])]);
    ("definitions",
     JObj [("A", JObj [("type", jstr "object");
                       ("properties",
                        JObj [("p", JObj [("$ref", jstr "#/definitions/A")])])])]) ].

(** A definition [A] that is just a reference to [A]. *)
Definition aliasResource : ResourceType :=
  mkResourceType "Test::Resource" None
    [("A", mkTypeDefinition (Some [])
             (TReference "/definitions/A" (NameString "A")))]
    (mkTypeDefinition None (TObject "/" [] [])).

Definition parentSchema : json :=
  JObj [("type", jstr "object");
        ("properties", JObj [("x", stringSchema); ("y", stringSchema)])].

(** An object property [P] with two children, both listed as read-only. *)
Definition promotionSchema : obj :=
  [ ("typeName", jstr "Test::Resource");
    ("properties", JObj [("P", parentSchema)]);
    ("readOnlyProperties",
     JArr [jstr "/properties/P/x"; jstr "/properties/P/y"]) ].

(** The same, with the path of [P] itself listed too. *)
Definition parentListedSchema : obj :=
  [ ("typeName", jstr "Test::Resource");
    ("properties", JObj [("P", parentSchema)]);
    ("readOnlyProperties",
     JArr [jstr "/properties/P/x"; jstr "/properties/P/y";
           jstr "/properties/P"]) ].

(** Two properties of the type of one definition [D], whose only child is
    listed as read-only under both. *)
Definition sharedDefinitionSchema : obj :=
  [ ("typeName", jstr "Test::Resource");
    ("properties",
     JObj [("P1", JObj [("$ref", jstr "#/definitions/D")]);
           ("P2", JObj [("$ref", jstr "#/definitions/D")])]);
    ("definitions",
     JObj [("D", JObj [("type", jstr "object");
                       ("properties", JObj [("x", stringSchema)])])]);
    ("readOnlyProperties",
     JArr [jstr "/properties/P1/x"; jstr "/properties/P2/x"]) ].

(** The property named [name] of the root object. *)
Definition rootProperty (name : string) : PropRef :=
  mkPropRef (InProperties, []) name.

(** The resource of [promotionSchema] once its two listed paths have been
    applied and before the breadcrumb pass. *)
Definition beforePromotion : State :=
  mkState
    (mkResourceType "Test::Resource"
       (Some (mkTypeDefinition None
                (TObject "/attributes"
                   [("P.x", mkPropertyInfo (Some []) (Some true) None
                              (TPrimitive KString "/properties/P/properties/x"));
                    ("P.y", mkPropertyInfo (Some []) (Some true) None
                              (TPrimitive KString "/properties/P/properties/y"))]
                   ["P.x"; "P.y"])))
       []
       (mkTypeDefinition None
          (TObject "/"
             [("P", mkPropertyInfo (Some []) None None
                      (TObject "/properties/P"
                         [("x", mkPropertyInfo (Some []) (Some true) (Some true)
                                  (TPrimitive KString
                                     "/properties/P/properties/x"));
                          ("y", mkPropertyInfo (Some []) (Some true) (Some true)
                                  (TPrimitive KString
                                     "/properties/P/properties/y"))]
                         []))]
             [])))
    (mkDiag [] None RelevantKeys []).

(** The generator as [main] sets it up: the default options, the
    simplifier of the resource in its [resource] mode, no tag type. *)
Definition resourceOptions (rt : ResourceType) (fuel : nat)
  : CodeGenerator.CodeGeneratorOptions :=
  CodeGenerator.mkCodeGeneratorOptions CodeGenerator.UnknownKeyword true false
    (Some (Simplifier.simplifyType rt Simplifier.ModeResource None fuel))
    (Some CodeGenerator.defaultPropertySort) [].

(** The same with the tag type and the well-known types that [main]
    passes. *)
Definition mainOptions (rt : ResourceType) (tagType : option SymbolName)
  (wellKnown : list (string * SymbolName)) (fuel : nat)
  : CodeGenerator.CodeGeneratorOptions :=
  CodeGenerator.mkCodeGeneratorOptions CodeGenerator.UnknownKeyword true false
    (Some (Simplifier.simplifyType rt Simplifier.ModeResource tagType fuel))
    (Some CodeGenerator.defaultPropertySort) wellKnown.

(** A definition [A] that is an array of [A], a definition [B] with a
    property of type [A], and a property of type [B]. *)
Definition nestedCycleSchema : obj :=
  [ ("typeName", jstr "Test::Resource");
    ("properties", JObj [("b", JObj [("$ref", jstr "#/definitions/B")])]);
    ("definitions",
     JObj [("A", JObj [("type", jstr "array");
                       ("items", JObj [("$ref", jstr "#/definitions/A")])]);
           ("B", JObj [("type", jstr "object");
                       ("properties",
                        JObj [("p", JObj [("$ref", jstr "#/definitions/A")])])])]) ].

Definition objectOfA : TypeNode :=
  TObject "/definitions/B"
    [("p", mkPropertyInfo (Some []) None None
             (TReference "/definitions/B/properties/p" (NameString "A")))] [].

Definition nestedCycleResource : ResourceType :=
  mkResourceType "Test::Resource" None
    [("A", mkTypeDefinition (Some []) arrayOfA);
     ("B", mkTypeDefinition (Some []) objectOfA)]
    (mkTypeDefinition None
       (TObject "/"
          [("b", mkPropertyInfo (Some []) None None
                   (TReference "/properties/b" (NameString "B")))] [])).

Definition definitionSchema : json :=
  JObj [("type", jstr "object");
        ("properties", JObj [("x", stringSchema); ("y", stringSchema)])].

(** A list [L] of the definition [D], whose two children are listed as
    read-only through the items of the list. *)
Definition listSchema : obj :=
  [ ("typeName", jstr "Test::Resource");
    ("properties",
     JObj [("L", JObj [("type", jstr "array");
                       ("items", JObj [("$ref", jstr "#/definitions/D")])])]);
    ("definitions", JObj [("D", definitionSchema)]);
    ("readOnlyProperties",
     JArr [jstr "/properties/L/*/x"; jstr "/properties/L/*/y"]) ].

(** A definition [D] whose property [x] is of type [D], listed as
    read-only. *)
Definition selfChildSchema : obj :=
  [ ("typeName", jstr "Test::Resource");
    ("properties", JObj [("a", JObj [("$ref", jstr "#/definitions/D")])]);
    ("definitions",
     JObj [("D", JObj [("type", jstr "object");
                       ("properties",
                        JObj [("x", JObj [("$ref", jstr "#/definitions/D")])])])]);
    ("readOnlyProperties", JArr [jstr "/properties/a/x/x"]) ].


(** The resource of [selfChildSchema] once its listed path has been
    applied and before the breadcrumb pass. *)
Definition beforeSelfPromotion : State :=
  mkState
    (mkResourceType "Test::Resource" None
       [("D", mkTypeDefinition (Some [])
                (TObject "/definitions/D"
                   [("x", mkPropertyInfo (Some []) None (Some true)
                            (TReference "/definitions/D/properties/x"
                               (NameString "D")))]
                   []))]
       (mkTypeDefinition None
          (TObject "/"
             [("a", mkPropertyInfo (Some []) None None
                      (TReference "/properties/a" (NameString "D")))]
             [])))
    (mkDiag [] None RelevantKeys []).

(** The resource of [listSchema] once its two listed paths have been
    applied and before the breadcrumb pass. *)
Definition beforeListPromotion : State :=
  mkState
    (mkResourceType "Test::Resource" None
       [("D", mkTypeDefinition (Some [])
                (TObject "/definitions/D"
                   [("x", mkPropertyInfo (Some []) None (Some true)
                            (TPrimitive KString "/definitions/D/properties/x"));
                    ("y", mkPropertyInfo (Some []) None (Some true)
                            (TPrimitive KString "/definitions/D/properties/y"))]
                   []))]
       (mkTypeDefinition None
          (TObject "/"
             [("L", mkPropertyInfo (Some []) None None
                      (TArray "/properties/L" (Some [])
                         (TReference "/properties/L/items" (NameString "D"))))]
             [])))
    (mkDiag [] None RelevantKeys []).

(** The resource of [listSchema] as the walk of the schema leaves it,
    before any listed path is applied. *)
Definition listWalked : State :=
  mkState
    (mkResourceType "Test::Resource" None
       [("D", mkTypeDefinition (Some [])
                (TObject "/definitions/D"
                   [("x", mkPropertyInfo (Some []) None None
                            (TPrimitive KString "/definitions/D/properties/x"));
                    ("y", mkPropertyInfo (Some []) None None
                            (TPrimitive KString "/definitions/D/properties/y"))]
                   []))]
       (mkTypeDefinition None
          (TObject "/"
             [("L", mkPropertyInfo (Some []) None None
                      (TArray "/properties/L" (Some [])
                         (TReference "/properties/L/items" (NameString "D"))))]
             [])))
    (mkDiag [] None RelevantKeys []).

End Scenarios.

(* ===================================================================== *)
(** * Properties *)
(* ===================================================================== *)

Module TypeNodesFacts.
Import Js TypeNodes UnionSpec.

Section TypeNodeInduction.
Variable P : TypeNode -> Prop.
Hypothesis HAny : forall id, P (TAny id).
Hypothesis HArray : forall id d t, P t -> P (TArray id d t).
Hypothesis HConst : forall id v, P (TConst id v).
Hypothesis HEnum : forall id vs, P (TEnum id vs).
Hypothesis HObject : forall id props req,
  Forall (fun e => P (type (snd e))) props -> P (TObject id props req).
Hypothesis HPrimitive : forall k id, P (TPrimitive k id).
Hypothesis HRecord : forall id t, P t -> P (TRecord id t).
Hypothesis HReference : forall id n, P (TReference id n).
Hypothesis HUnion : forall id items, Forall P items -> P (TUnion id items).
Hypothesis HUnknown : forall id, P (TUnknown id).

Fixpoint TypeNode_nested_ind (t : TypeNode) : P t :=
  match t with
  | TAny id => HAny id
  | TArray id d t' => HArray id d (TypeNode_nested_ind t')
  | TConst id v => HConst id v
  | TEnum id vs => HEnum id vs
  | TObject id props req =>
      HObject id req
        ((fix go (l : list (string * PropertyInfo))
            : Forall (fun e => P (type (snd e))) l :=
            match l with
            | [] => Forall_nil _
            | e :: r => Forall_cons e (TypeNode_nested_ind (type (snd e))) (go r)
            end) props)
  | TPrimitive k id => HPrimitive k id
  | TRecord id t' => HRecord id (TypeNode_nested_ind t')
  | TReference id n => HReference id n
  | TUnion id items =>
      HUnion id
        ((fix go (l : list TypeNode) : Forall P l :=
            match l with
            | [] => Forall_nil _
            | e :: r => Forall_cons e (TypeNode_nested_ind e) (go r)
            end) items)
  | TUnknown id => HUnknown id
  end.

End TypeNodeInduction.

Lemma every_from_nth (A : Type) (f : A -> nat -> bool) :
  forall la k,
    every_from f k la = true <->
    (forall i x, nth_error la i = Some x -> f x (k + i) = true).
Proof.
  induction la as [|a la IH]; intros k; simpl.
  - split; [intros _ [|i] x; discriminate | reflexivity].
  - rewrite andb_true_iff, IH. split.
    + intros [Ha Hr] [|i] x Hx; simpl in Hx.
      * inversion Hx; subst. now rewrite Nat.add_0_r.
      * rewrite Nat.add_succ_r. apply (Hr i x Hx).
    + intros H. split.
      * specialize (H 0 a eq_refl). now rewrite Nat.add_0_r in H.
      * intros i x Hx. specialize (H (S i) x Hx).
        now rewrite Nat.add_succ_r in H.
Qed.

Lemma every_nth (A : Type) (f : A -> nat -> bool) la :
  every f la = true <->
  (forall i x, nth_error la i = Some x -> f x i = true).
Proof. unfold every. now rewrite every_from_nth. Qed.

(** Positional comparison of two lists of equal length can be read from
    either side. *)
Lemma every_swap (A B : Type) (R : A -> B -> bool) (R' : B -> A -> bool) la lb :
  List.length la = List.length lb ->
  (forall x y, In x la -> R x y = true -> R' y x = true) ->
  every (fun x i => match nth_error lb i with
                    | Some y => R x y | None => false end) la = true ->
  every (fun y i => match nth_error la i with
                    | Some x => R' y x | None => false end) lb = true.
Proof.
  intros Hlen Hsym H. rewrite every_nth in *. intros i y Hy.
  assert (Hi : i < List.length la).
  { rewrite Hlen. apply nth_error_Some. congruence. }
  destruct (nth_error la i) as [x|] eqn:Hx.
  - specialize (H i x Hx). simpl in H. rewrite Hy in H.
    apply Hsym; [eapply nth_error_In; eauto | assumption].
  - apply nth_error_None in Hx. lia.
Qed.

Lemma prim_eqb_sym a b : prim_eqb a b = prim_eqb b a.
Proof.
  destruct a, b; simpl; auto using Z.eqb_sym, String.eqb_sym.
  now destruct b, b0.
Qed.

Lemma prim_eqb_refl a : prim_eqb a a = true.
Proof.
  destruct a; simpl; auto using Z.eqb_refl, String.eqb_refl.
  now destruct b.
Qed.

Lemma name_eqb_sym a b : name_eqb a b = name_eqb b a.
Proof. destruct a, b; simpl; auto using String.eqb_sym, Nat.eqb_sym. Qed.

Lemma name_eqb_refl a : name_eqb a a = true.
Proof. destruct a; simpl; auto using String.eqb_refl, Nat.eqb_refl. Qed.

Ltac case_kinds :=
  repeat match goal with k : PrimitiveKind |- _ => destruct k end;
  simpl in *; try discriminate; try reflexivity.

Lemma isSameType_sym_true :
  forall a b, isSameType a b = true -> isSameType b a = true.
Proof.
  induction a as [id|id d t IHa|id v|id vs|id props req H|k id|id t IHa|id n
                  |id items H|id] using TypeNode_nested_ind; intros b Hab;
    destruct b; simpl in Hab |- *; try discriminate; try reflexivity;
    try solve [case_kinds].
  - now apply IHa.
  - now rewrite prim_eqb_sym.
  - apply andb_true_iff in Hab as [Hl He].
    apply Nat.eqb_eq in Hl. rewrite <- Hl, Nat.eqb_refl. simpl.
    revert He. apply every_swap; [assumption|].
    intros x y _ Hxy. now rewrite prim_eqb_sym.
  - apply andb_true_iff in Hab as [Hab Hp].
    apply andb_true_iff in Hab as [Hab Hr].
    apply andb_true_iff in Hab as [Hlr Hlp].
    apply Nat.eqb_eq in Hlr. apply Nat.eqb_eq in Hlp.
    rewrite <- Hlr, <- Hlp, !Nat.eqb_refl. simpl.
    apply andb_true_iff. split.
    + revert Hr. apply every_swap; [assumption|].
      intros x y _ Hxy. now rewrite String.eqb_sym.
    + revert Hp.
      apply (every_swap
               (fun (entry other : string * PropertyInfo) =>
                  String.eqb (fst other) (fst entry) &&
                  isSameType (type (snd entry)) (type (snd other)))
               (fun (other entry : string * PropertyInfo) =>
                  String.eqb (fst entry) (fst other) &&
                  isSameType (type (snd other)) (type (snd entry))));
        [assumption|].
      intros x y Hin Hxy. apply andb_true_iff in Hxy as [Hn Ht].
      rewrite Forall_forall in H. apply andb_true_iff. split.
      * now rewrite String.eqb_sym.
      * exact (H x Hin _ Ht).
  - now apply IHa.
  - now rewrite name_eqb_sym.
  - apply andb_true_iff in Hab as [Hl He].
    apply Nat.eqb_eq in Hl. rewrite <- Hl, Nat.eqb_refl. simpl.
    revert He. apply every_swap; [assumption|].
    intros x y Hin Hxy. rewrite Forall_forall in H. now apply H.
Qed.

(** [isSameType] does not depend on the order of its arguments. *)
Lemma isSameType_sym a b : isSameType a b = isSameType b a.
Proof.
  destruct (isSameType a b) eqn:Hab, (isSameType b a) eqn:Hba; auto.
  - apply isSameType_sym_true in Hab. congruence.
  - apply isSameType_sym_true in Hba. congruence.
Qed.

(** A node is the same type as itself: the identity shortcut [a === b] of
    [isSameType] agrees with the structural comparison. *)
Lemma isSameType_refl : forall a, isSameType a a = true.
Proof.
  induction a as [id|id d t IHa|id v|id vs|id props req H|k id|id t IHa|id n
                  |id items H|id] using TypeNode_nested_ind; simpl;
    auto using prim_eqb_refl, name_eqb_refl.
  - rewrite Nat.eqb_refl. simpl. apply every_nth. intros i x Hx.
    rewrite Hx. apply prim_eqb_refl.
  - rewrite !Nat.eqb_refl. simpl. apply andb_true_iff. split.
    + apply every_nth. intros i x Hx. rewrite Hx. apply String.eqb_refl.
    + apply every_nth. intros i x Hx. rewrite Hx, String.eqb_refl. simpl.
      rewrite Forall_forall in H. apply H. eapply nth_error_In; eauto.
  - now destruct k.
  - rewrite Nat.eqb_refl. simpl. apply every_nth. intros i x Hx.
    rewrite Hx. rewrite Forall_forall in H. apply H.
    eapply nth_error_In; eauto.
Qed.

(** *** The worklist loop computes [dedupInto] of the flattened members *)

Lemma unionSize_pos t : 1 <= unionSize t.
Proof. destruct t; simpl; lia. Qed.

Lemma workSize_app a b : workSize (a ++ b) = workSize a + workSize b.
Proof. unfold workSize. induction a; simpl; lia. Qed.

Lemma flatten_app a b : flatten (a ++ b) = flatten a ++ flatten b.
Proof. unfold flatten. apply flat_map_app. Qed.

Lemma simplifyLoop_push fuel items current rest :
  isUnion current = false ->
  simplifyLoop (S fuel) items (current :: rest) =
  simplifyLoop fuel (push items current) rest.
Proof.
  intros Hu. unfold push. simpl.
  destruct current; try discriminate;
    now destruct (existsb _ items).
Qed.

Lemma leaves_not_union t : isUnion t = false -> leaves t = [t].
Proof. now destruct t. Qed.

Lemma simplifyLoop_enough :
  forall fuel working items,
    workSize working <= fuel ->
    simplifyLoop fuel items working = Some (dedupInto items (flatten working)).
Proof.
  induction fuel as [|fuel IH]; intros [|current rest] items Hfuel;
    try reflexivity.
  - simpl in Hfuel. pose proof (unionSize_pos current). lia.
  - destruct (isUnion current) eqn:Hu.
    + destruct current; try discriminate. simpl simplifyLoop.
      rewrite IH.
      * f_equal. unfold flatten. simpl. now rewrite flat_map_app.
      * rewrite workSize_app. simpl in Hfuel. unfold workSize in *. lia.
    + rewrite simplifyLoop_push by assumption. rewrite IH.
      * unfold flatten. simpl. now rewrite leaves_not_union.
      * simpl in Hfuel. pose proof (unionSize_pos current). lia.
Qed.

Lemma simplifyUnionType_eq id members :
  simplifyUnionType id members = Some (collapse id (dedup (flatten members))).
Proof.
  unfold simplifyUnionType, simplifyUnionTypeFuel.
  now rewrite simplifyLoop_enough.
Qed.

(** *** Flattening leaves no union behind *)

Lemma leaves_nonunion :
  forall t, Forall (fun x => isUnion x = false) (leaves t).
Proof.
  induction t as [id|id d t IHa|id v|id vs|id props req H|k id|id t IHa|id n
                  |id items H|id] using TypeNode_nested_ind; simpl;
    try (constructor; [reflexivity|constructor]).
  induction H as [|x l Hx Hl IH]; simpl; [constructor|].
  apply Forall_app. now split.
Qed.

Lemma flatten_nonunion l : Forall (fun x => isUnion x = false) (flatten l).
Proof.
  unfold flatten. induction l; simpl; [constructor|].
  apply Forall_app. split; [apply leaves_nonunion | assumption].
Qed.

Lemma flatten_fixed l :
  Forall (fun x => isUnion x = false) l -> flatten l = l.
Proof.
  unfold flatten. induction 1 as [|x l Hx Hl IH]; simpl; [reflexivity|].
  now rewrite leaves_not_union, IH.
Qed.

(** *** Deduplication *)

Lemma push_cases items c :
  (existsb (fun x => isSameType x c) items = true /\ push items c = items) \/
  (existsb (fun x => isSameType x c) items = false /\
   push items c = items ++ [c]).
Proof. unfold push. destruct (existsb _ items); auto. Qed.

Lemma dedupInto_Forall (P : TypeNode -> Prop) l :
  forall items, Forall P items -> Forall P l -> Forall P (dedupInto items l).
Proof.
  induction l as [|c l IH]; intros items Hi Hl; simpl; [assumption|].
  inversion Hl; subst. apply IH; [|assumption].
  destruct (push_cases items c) as [[_ ->]|[_ ->]]; [assumption|].
  apply Forall_app. split; [assumption|now constructor].
Qed.

Lemma NoSame_snoc items c :
  NoSame items -> existsb (fun x => isSameType x c) items = false ->
  NoSame (items ++ [c]).
Proof.
  induction items as [|x items IH]; simpl; intros Hn He.
  - split; [constructor|exact I].
  - apply orb_false_iff in He as [Hx He]. destruct Hn as [Hf Hn]. split.
    + apply Forall_app. split; [assumption|now constructor].
    + now apply IH.
Qed.

Lemma dedupInto_NoSame l :
  forall items, NoSame items -> NoSame (dedupInto items l).
Proof.
  induction l as [|c l IH]; intros items Hn; simpl; [assumption|].
  apply IH. destruct (push_cases items c) as [[_ ->]|[He ->]];
    [assumption|now apply NoSame_snoc].
Qed.

Lemma NoSame_app_existsb items c rest :
  NoSame (items ++ c :: rest) ->
  existsb (fun x => isSameType x c) items = false.
Proof.
  induction items as [|x items IH]; simpl; intros Hn; [reflexivity|].
  destruct Hn as [Hf Hn]. apply orb_false_iff. split; [|now apply IH].
  rewrite Forall_forall in Hf. apply Hf. apply in_or_app. right. now left.
Qed.

Lemma dedupInto_fixed l :
  forall items, NoSame (items ++ l) -> dedupInto items l = items ++ l.
Proof.
  induction l as [|c l IH]; intros items Hn; simpl.
  - now rewrite app_nil_r.
  - unfold push. rewrite (NoSame_app_existsb _ _ _ Hn).
    rewrite IH; rewrite <- app_assoc; [reflexivity|assumption].
Qed.

Lemma dedupInto_Subseq l :
  forall items, exists kept,
    dedupInto items l = items ++ kept /\ Subseq kept l.
Proof.
  induction l as [|c l IH]; intros items; simpl.
  - exists []. rewrite app_nil_r. split; [reflexivity|constructor].
  - destruct (push_cases items c) as [[_ ->]|[_ ->]].
    + destruct (IH items) as (kept & -> & Hs).
      exists kept. split; [reflexivity|now constructor].
    + destruct (IH (items ++ [c])) as (kept & -> & Hs).
      exists (c :: kept). rewrite <- app_assoc. split; [reflexivity|].
      now constructor.
Qed.

Lemma dedupInto_keeps l :
  forall items x, In x items -> In x (dedupInto items l).
Proof.
  induction l as [|c l IH]; intros items x Hx; simpl; [assumption|].
  apply IH. destruct (push_cases items c) as [[_ ->]|[_ ->]];
    [assumption|apply in_or_app; now left].
Qed.

Lemma dedupInto_covers l :
  forall items c, In c l ->
    exists x, In x (dedupInto items l) /\ isSameType x c = true.
Proof.
  induction l as [|d l IH]; intros items c Hc; simpl; [contradiction|].
  destruct Hc as [->|Hc]; [|now apply IH].
  destruct (push_cases items c) as [[He ->]|[_ ->]].
  - apply existsb_exists in He as (x & Hx & Hs).
    exists x. split; [now apply dedupInto_keeps|assumption].
  - exists c. split; [|apply isSameType_refl].
    apply dedupInto_keeps, in_or_app. right. now left.
Qed.

Lemma NoSame_nth l :
  NoSame l ->
  forall i j x y, i <> j -> nth_error l i = Some x -> nth_error l j = Some y ->
    isSameType x y = false.
Proof.
  assert (Hlt : forall l, NoSame l -> forall i j x y, i < j ->
            nth_error l i = Some x -> nth_error l j = Some y ->
            isSameType x y = false).
  { clear l. induction l as [|a l IH]; intros Hn i j x y Hij Hi Hj.
    - destruct i; discriminate.
    - destruct Hn as [Hf Hn]. destruct j as [|j]; [lia|].
      destruct i as [|i]; simpl in Hi, Hj.
      + inversion Hi; subst. rewrite Forall_forall in Hf.
        apply Hf. eapply nth_error_In; eauto.
      + apply (IH Hn i j); [lia|assumption|assumption]. }
  intros Hn i j x y Hij Hi Hj.
  destruct (Nat.lt_ge_cases i j) as [Hlt'|Hge].
  - eapply Hlt; eauto.
  - rewrite isSameType_sym. eapply (Hlt l Hn j i); eauto. lia.
Qed.

End TypeNodesFacts.

(* ===================================================================== *)
(** ** Facts about the builder *)
(* ===================================================================== *)

Module BuilderFacts.
Import Js Str TypeNodes ObjectUtil Run Builder RefSpec.

Lemma bind_ok (St A B : Type) (m : ST St A) (k : A -> ST St B) st a st' :
  m st = Ok (a, st') -> bind m k st = k a st'.
Proof. unfold bind. now intros ->. Qed.

(** [#warnExtraKeys] always returns, and only ever adds to the warnings. *)
Lemma warnExtraKeys_runs resourceSchema schema type location d :
  exists d1,
    warnExtraKeys resourceSchema schema type location d = Ok (tt, d1) /\
    exists extra, warnCalls d1 = warnCalls d ++ extra.
Proof.
  unfold warnExtraKeys, bind, getState.
  destruct (mem location (ignoreExtraKeyLocations d)).
  - eexists. split; [reflexivity|]. exists []. now rewrite app_nil_r.
  - destruct type as [t|ts]; unfold setRelevantKeys, ret; cbv beta iota;
      match goal with
      | |- context [filter ?f ?l] => destruct (filter f l)
      end;
      unfold warn; eexists; (split; [reflexivity|]); simpl;
      first [ now exists []; rewrite app_nil_r | eexists; reflexivity ].
Qed.

Lemma resolvePointer_dangling v parts :
  Dangling v parts -> resolvePointer v parts = Missing.
Proof.
  induction 1 as [fields part rest Hg Hi|fields part rest v Hg _ IH
                 |items part rest v Hg _ IH]; simpl.
  - now rewrite Hg, Hi.
  - now rewrite Hg.
  - now rewrite Hg.
Qed.

(** What [#warn] leaves behind. *)
Definition warned (resourceSchema : obj) (location format : string)
  (args : list json) (d : Diag) : Diag :=
  let call := mkWarnCall (schemaTypeName resourceSchema ++ location)%string
                format args in
  mkDiag (ignoreExtraKeyLocations d)
    (option_map (fun received => received ++ [call]) (problems d))
    (relevantKeys d) (warnCalls d ++ [call]).

Lemma splitPick_rest_empty (keys : list string) (o : obj) :
  forallb (fun k => mem k keys) (Js.keys o) = true ->
  snd (splitPick o keys) = [].
Proof.
  unfold splitPick.
  assert (H : forall (o : obj) (acc : obj * obj),
            forallb (fun k => mem k keys) (Js.keys o) = true ->
            snd (fold_left
                   (fun acc kv =>
                      let '(picked, rest) := acc in
                      if mem (fst kv) keys
                      then (set (fst kv) (snd kv) picked, rest)
                      else (picked, set (fst kv) (snd kv) rest)) o acc)
            = snd acc).
  { clear o. induction o as [|[k v] o IH]; intros [picked rest] Hall; simpl in *.
    - reflexivity.
    - apply andb_true_iff in Hall as [Hk Ho]. rewrite Hk.
      now rewrite IH. }
  intros Hall. now rewrite H.
Qed.

Lemma mergeObjects_single o options :
  mergeObjects [o] options = Some (mkMergeObjectsResult None o).
Proof. reflexivity. Qed.

End BuilderFacts.

(* ===================================================================== *)
(** ** Facts about the loop that emits the referenced definitions *)
(* ===================================================================== *)

Module GenerateFacts.
Import Js TypeNodes Run CodeGenerator Generate.

Section Loop.
Variable generate : string -> TypeDefinition -> G Statement.
Variable table : list (string * TypeDefinition).

Definition names (definitions : list (string * Statement)) : list string :=
  map fst definitions.

Lemma alreadyGenerated_In definitions name :
  existsb (fun existing : string * Statement => String.eqb (fst existing) name)
    definitions = true <-> In name (names definitions).
Proof.
  unfold names. rewrite existsb_exists. split.
  - intros (e & He & Heq). apply String.eqb_eq in Heq. subst.
    now apply in_map.
  - intros Hin. apply in_map_iff in Hin as (e & <- & He).
    exists e. split; [assumption|apply String.eqb_refl].
Qed.

(** The generated definitions have distinct names, all from the table. *)
Definition Inv (definitions : list (string * Statement)) : Prop :=
  NoDup (names definitions) /\ incl (names definitions) (keys table).

Lemma Inv_length definitions :
  Inv definitions -> List.length definitions <= List.length table.
Proof.
  intros [Hnd Hincl].
  unfold names in *. rewrite <- (length_map fst definitions).
  unfold keys in Hincl. rewrite <- (length_map fst table).
  now apply NoDup_incl_length.
Qed.

(** What one visit of a table entry does. *)
Lemma passStep_spec acc entry st acc' st' :
  passStep generate acc entry st = Ok (acc', st') ->
  (acc' = acc /\ st' = st /\
   (hasName (NameString (fst entry)) (referencedNames st) = true ->
    In (fst entry) (names (fst acc)))) \/
  (exists statement,
     acc' = (fst acc ++ [(fst entry, statement)], S (snd acc)) /\
     ~ In (fst entry) (names (fst acc)) /\
     hasName (NameString (fst entry)) (referencedNames st) = true).
Proof.
  destruct acc as [definitions thisPass]. unfold passStep, bind, getState.
  destruct (hasName (NameString (fst entry)) (referencedNames st)) eqn:Href;
    simpl.
  - destruct (existsb _ definitions) eqn:Hgen; simpl.
    + intros H. inversion H; subst. left. repeat split.
      intros _. now apply alreadyGenerated_In.
    + destruct (generate (fst entry) (snd entry) st) as [[statement st1]| | |];
        try discriminate.
      intros H. inversion H; subst. right. exists statement.
      repeat split. intros Hin. apply alreadyGenerated_In in Hin. congruence.
  - intros H. inversion H; subst. left. repeat split. discriminate.
Qed.

Lemma passOver_spec entries :
  forall acc st acc' st',
    passOver generate entries acc st = Ok (acc', st') ->
    incl (keys entries) (keys table) ->
    Inv (fst acc) ->
    Inv (fst acc') /\
    exists added,
      fst acc' = fst acc ++ added /\
      snd acc' = snd acc + List.length added /\
      (forall name, In name (names added) ->
         In name (keys table) /\ ~ In name (names (fst acc))) /\
      (added = [] ->
       st' = st /\
       forall entry, In entry entries ->
         hasName (NameString (fst entry)) (referencedNames st) = true ->
         In (fst entry) (names (fst acc))).
Proof.
  induction entries as [|entry rest IH]; intros acc st acc' st' Hrun Hincl Hinv.
  - simpl in Hrun. inversion Hrun; subst. split; [assumption|].
    exists []. rewrite app_nil_r, Nat.add_0_r. repeat split; try contradiction.
  - simpl in Hrun. unfold bind in Hrun.
    destruct (passStep generate acc entry st) as [[acc1 st1]| | |] eqn:Hstep;
      try discriminate.
    assert (Hrest : incl (keys rest) (keys table)).
    { intros x Hx. apply Hincl. now right. }
    apply passStep_spec in Hstep
      as [(-> & -> & Hseen)|(statement & -> & Hnew & Href)].
    + destruct (IH _ _ _ _ Hrun Hrest Hinv) as (Hinv' & added & H1 & H2 & H3 & H4).
      split; [assumption|]. exists added. repeat split; try assumption.
      * now apply H3.
      * now apply H3.
      * now apply H4.
      * intros e [<-|He] Hr; [now apply Hseen|].
        destruct (H4 H) as [_ Hall]. now apply Hall.
    + assert (Hinv1 : Inv (fst acc ++ [(fst entry, statement)])).
      { destruct Hinv as [Hnd Hin]. unfold Inv, names in *.
        rewrite map_app. simpl. split.
        - apply NoDup_app; auto.
          + constructor; [intros []|constructor].
          + intros x Hx [<-|[]]. contradiction.
        - intros x Hx. apply in_app_or in Hx as [Hx|[<-|[]]]; auto.
          apply Hincl. now left. }
      destruct (IH _ _ _ _ Hrun Hrest Hinv1)
        as (Hinv' & added & H1 & H2 & H3 & H4).
      split; [assumption|]. exists ((fst entry, statement) :: added).
      simpl in *. rewrite H1, H2, <- app_assoc. simpl.
      repeat split; try lia; try discriminate.
      * destruct H as [<-|Hin]; [apply Hincl; now left|now apply H3].
      * destruct H as [<-|Hin]; [assumption|].
        intros Hacc. apply (H3 name Hin). unfold names. rewrite map_app.
        apply in_or_app. now left.
Qed.

(** One round: it appends to the definitions, as many as it counts; a
    round that appends nothing changes nothing, and then every referenced
    definition of the table has been generated. *)
Lemma onePass_spec definitions st r st' :
  onePass generate table definitions st = Ok (r, st') ->
  Inv definitions ->
  Inv (fst r) /\
  exists added,
    fst r = definitions ++ added /\ snd r = List.length added /\
    (forall name, In name (names added) ->
       In name (keys table) /\ ~ In name (names definitions)) /\
    (added = [] ->
     st' = st /\
     forall entry, In entry table ->
       hasName (NameString (fst entry)) (referencedNames st) = true ->
       In (fst entry) (names definitions)).
Proof.
  intros Hrun Hinv. unfold onePass in Hrun.
  apply passOver_spec in Hrun; [|apply incl_refl|assumption].
  exact Hrun.
Qed.

(** What holds of the loop's result. *)
Definition Exit (definitions : list (string * Statement)) (st : GenState)
  : Prop :=
  Inv definitions /\
  forall entry, In entry table ->
    hasName (NameString (fst entry)) (referencedNames st) = true ->
    In (fst entry) (names definitions).

Lemma emitLoop_exit passes :
  forall definitions st result st',
    emitLoop generate table passes definitions st = Ok (result, st') ->
    Inv definitions -> Exit result st'.
Proof.
  induction passes as [|passes IH]; intros definitions st result st' Hrun Hinv.
  - discriminate.
  - simpl in Hrun. unfold bind in Hrun.
    destruct (onePass generate table definitions st) as [[r st1]| | |] eqn:Hpass;
      try discriminate.
    destruct (@onePass_spec _ _ _ _ Hpass Hinv) as (Hinv' & added & H1 & H2 & _ & H4).
    destruct (Nat.ltb 0 (snd r)) eqn:Hn.
    + now apply (IH _ _ _ _ Hrun).
    + inversion Hrun; subst. apply Nat.ltb_ge in Hn.
      assert (added = []) as -> by (destruct added; simpl in *; [reflexivity|lia]).
      rewrite app_nil_r in H1. destruct (H4 eq_refl) as [-> Hall].
      rewrite H1. split; [now rewrite <- H1|assumption].
Qed.

(** Rounds beyond those the table allows for are never used. *)
Lemma emitLoop_stable passes1 :
  forall passes2 definitions st,
    Inv definitions ->
    List.length table - List.length definitions < passes1 ->
    List.length table - List.length definitions < passes2 ->
    emitLoop generate table passes1 definitions st =
    emitLoop generate table passes2 definitions st.
Proof.
  induction passes1 as [|passes1 IH]; intros passes2 definitions st Hinv H1 H2;
    [lia|].
  destruct passes2 as [|passes2]; [lia|].
  simpl. unfold bind.
  destruct (onePass generate table definitions st) as [[r st1]| | |] eqn:Hpass;
    try reflexivity.
  destruct (@onePass_spec _ _ _ _ Hpass Hinv) as (Hinv' & added & Ha & Hn & _).
  destruct (Nat.ltb 0 (snd r)) eqn:Hpos; [|reflexivity].
  apply Nat.ltb_lt in Hpos.
  pose proof (Inv_length Hinv') as Hlen.
  rewrite Ha, length_app in Hlen.
  apply IH; try assumption; rewrite Ha, length_app; lia.
Qed.

(** A round returns when every call of [generate] it makes returns. *)
Lemma passOver_runs entries :
  forall acc st,
    incl entries table ->
    (exists acc' st', passOver generate entries acc st = Ok (acc', st')) \/
    (exists name def st1,
       In (name, def) table /\
       forall statement st2, generate name def st1 <> Ok (statement, st2)).
Proof.
  induction entries as [|entry rest IH]; intros acc st Hincl.
  - left. do 2 eexists. reflexivity.
  - assert (Hrest : incl rest table) by (intros x Hx; apply Hincl; now right).
    destruct (passStep generate acc entry st) as [[acc1 st1]| | |] eqn:Hstep.
    + destruct (IH acc1 st1 Hrest) as [(acc' & st' & Hrun)|Hfail];
        [left|now right].
      exists acc', st'. simpl. unfold bind. now rewrite Hstep.
    + right. exists (fst entry), (snd entry), st.
      split; [rewrite <- surjective_pairing; apply Hincl; now left|].
      intros statement st2 Hgen. destruct acc as [definitions thisPass].
      unfold passStep, bind, getState in Hstep.
      destruct (_ && _); [|discriminate]. now rewrite Hgen in Hstep.
    + right. exists (fst entry), (snd entry), st.
      split; [rewrite <- surjective_pairing; apply Hincl; now left|].
      intros statement st2 Hgen. destruct acc as [definitions thisPass].
      unfold passStep, bind, getState in Hstep.
      destruct (_ && _); [|discriminate]. now rewrite Hgen in Hstep.
    + right. exists (fst entry), (snd entry), st.
      split; [rewrite <- surjective_pairing; apply Hincl; now left|].
      intros statement st2 Hgen. destruct acc as [definitions thisPass].
      unfold passStep, bind, getState in Hstep.
      destruct (_ && _); [|discriminate]. now rewrite Hgen in Hstep.
Qed.

Lemma emitLoop_runs passes :
  forall definitions st,
    Inv definitions ->
    List.length table - List.length definitions < passes ->
    (exists result st', emitLoop generate table passes definitions st
                        = Ok (result, st')) \/
    (exists name def st1,
       In (name, def) table /\
       forall statement st2, generate name def st1 <> Ok (statement, st2)).
Proof.
  induction passes as [|passes IH]; intros definitions st Hinv Hlt; [lia|].
  destruct (passOver_runs (definitions, 0) st (incl_refl table))
    as [(r & st1 & Hpass)|Hfail]; [|now right].
  fold (onePass generate table definitions) in Hpass.
  destruct (@onePass_spec _ _ _ _ Hpass Hinv) as (Hinv' & added & Ha & Hn & _).
  simpl. unfold bind. rewrite Hpass.
  destruct (Nat.ltb 0 (snd r)) eqn:Hpos.
  - apply Nat.ltb_lt in Hpos. pose proof (Inv_length Hinv') as Hlen.
    rewrite Ha, length_app in Hlen.
    apply IH; [assumption|]. rewrite Ha, length_app. lia.
  - left. do 2 eexists. reflexivity.
Qed.

Lemma Inv_nil : Inv [].
Proof. split; [constructor|intros x []]. Qed.

End Loop.

End GenerateFacts.

(* ===================================================================== *)
(** ** Facts about the code generator *)
(* ===================================================================== *)

Module CodeGeneratorFacts.
Import Js TypeNodes Run CodeGenerator.

(** The opening lines of [generateType]: the node it goes on with. *)
Definition simplifyStep (options : CodeGeneratorOptions) (node : TypeNode)
  (st : GenState) : Result TypeNode :=
  match simplifier options with
  | Some simplifyType =>
      if negb (existsb (node_eqb node) (stack st)) then simplifyType node
      else Ok node
  | None => Ok node
  end.

Lemma generateType_step options fuel node st :
  generateType options (S fuel) node st =
  match simplifyStep options node st with
  | Ok simplified =>
      (pushStack simplified ;;;
       result <- generateNode options (generateType options fuel) simplified ;;
       popStack simplified ;;;
       ret result) st
  | Throw msg => Throw msg
  | OutOfFuel => OutOfFuel
  | Unmodelled => Unmodelled
  end.
Proof.
  simpl. unfold simplifyStep, bind at 1, getState.
  destruct (simplifier options) as [f|]; [|reflexivity].
  destruct (negb (existsb (node_eqb node) (stack st))); [|reflexivity].
  unfold bind at 1, liftR. now destruct (f node).
Qed.

(** An array whose items cannot be generated cannot be generated. *)
Lemma generate_array_out_of_fuel options fuel id doc items st :
  generateType options fuel items
    (mkGenState (referencedNames st) (stack st ++ [TArray id doc items]))
  = OutOfFuel ->
  (pushStack (TArray id doc items) ;;;
   result <- generateNode options (generateType options fuel)
               (TArray id doc items) ;;
   popStack (TArray id doc items) ;;;
   ret result) st = OutOfFuel.
Proof.
  intros H. unfold bind at 1, pushStack at 1.
  unfold bind at 1. simpl generateNode. unfold bind at 1. now rewrite H.
Qed.

End CodeGeneratorFacts.

(* ===================================================================== *)
(** ** Facts about attribute classification *)
(* ===================================================================== *)

Module ClassifyFacts.
Import Js Str TypeNodes ObjectUtil Run Builder.

Lemma bind_ok_local (St A B : Type) (m : ST St A) (k : A -> ST St B) st a st' :
  m st = Ok (a, st') -> bind m k st = k a st'.
Proof. unfold bind. now intros ->. Qed.

(** *** Lookups after updates *)

Section AssocFacts.
Variable V : Type.

Lemma get_alter_same (f : V -> V) k (o : list (string * V)) :
  get k (alter f k o) = option_map f (get k o).
Proof.
  induction o as [|[k' v] o IH]; simpl; [reflexivity|].
  destruct (String.eqb k' k) eqn:E; simpl; rewrite E; [reflexivity|exact IH].
Qed.

Lemma get_alter_other (f : V -> V) k k' (o : list (string * V)) :
  k <> k' -> get k' (alter f k o) = get k' o.
Proof.
  intros Hne. induction o as [|[k0 v] o IH]; simpl; [reflexivity|].
  destruct (String.eqb k0 k) eqn:E; simpl.
  - apply String.eqb_eq in E. subst k0.
    destruct (String.eqb k k') eqn:E'; [|reflexivity].
    apply String.eqb_eq in E'. contradiction.
  - destruct (String.eqb k0 k'); [reflexivity|exact IH].
Qed.

Lemma keys_alter (f : V -> V) k (o : list (string * V)) :
  keys (alter f k o) = keys o.
Proof.
  unfold keys. induction o as [|[k' v] o IH]; simpl; [reflexivity|].
  destruct (String.eqb k' k); simpl; [reflexivity|now rewrite IH].
Qed.

Lemma get_set_same k (v : V) (o : list (string * V)) :
  get k (set k v o) = Some v.
Proof.
  induction o as [|[k' w] o IH]; simpl.
  - now rewrite String.eqb_refl.
  - destruct (String.eqb k' k) eqn:E; simpl; rewrite E; [reflexivity|exact IH].
Qed.

Lemma get_set_other k k' (v : V) (o : list (string * V)) :
  k <> k' -> get k' (set k v o) = get k' o.
Proof.
  intros Hne. induction o as [|[k0 w] o IH]; simpl.
  - destruct (String.eqb k k') eqn:E; [|reflexivity].
    apply String.eqb_eq in E. contradiction.
  - destruct (String.eqb k0 k) eqn:E; simpl.
    + apply String.eqb_eq in E. subst k0.
      destruct (String.eqb k k') eqn:E'; [|reflexivity].
      apply String.eqb_eq in E'. contradiction.
    + destruct (String.eqb k0 k'); [reflexivity|exact IH].
Qed.

Lemma has_set k k' (v : V) (o : list (string * V)) :
  has k' (set k v o) = true -> k' = k \/ has k' o = true.
Proof.
  unfold has. destruct (String.eqb k k') eqn:E.
  - apply String.eqb_eq in E. now left.
  - apply String.eqb_neq in E. rewrite get_set_other by assumption. now right.
Qed.

Lemma get_In k (v : V) (o : list (string * V)) :
  get k o = Some v -> In (k, v) o.
Proof.
  induction o as [|[k' w] o IH]; simpl; [discriminate|].
  destruct (String.eqb k' k) eqn:E.
  - apply String.eqb_eq in E. intros H. inversion H; subst. now left.
  - intros H. right. now apply IH.
Qed.

End AssocFacts.

Lemma nth_alterNth_same (A : Type) (f : A -> A) i (l : list A) :
  nth_error (alterNth f i l) i = option_map f (nth_error l i).
Proof.
  revert i. induction l as [|x l IH]; intros [|i]; simpl; auto.
Qed.

Lemma withType_same (p : PropertyInfo) : withType (type p) p = p.
Proof. now destruct p. Qed.

Lemma getNode_updateNode_same f steps :
  forall t, getNode steps (updateNode f steps t) = option_map f (getNode steps t).
Proof.
  induction steps as [|s steps IH]; intros t; simpl; [reflexivity|].
  destruct s, t; simpl; try reflexivity.
  - rewrite get_alter_same. destruct (get name properties0) as [p|]; simpl;
      [apply IH|reflexivity].
  - apply IH.
  - apply IH.
  - rewrite nth_alterNth_same. destruct (nth_error items i) as [m|]; simpl;
      [apply IH|reflexivity].
Qed.

Lemma getNode_app steps1 steps2 :
  forall t,
    getNode (steps1 ++ steps2) t =
    match getNode steps1 t with
    | Some n => getNode steps2 n
    | None => None
    end.
Proof.
  induction steps1 as [|s steps1 IH]; intros t; simpl; [reflexivity|].
  destruct s, t; simpl; try reflexivity.
  - destruct (get name properties0); [apply IH|reflexivity].
  - apply IH.
  - apply IH.
  - destruct (nth_error items i); [apply IH|reflexivity].
Qed.

Lemma updateNode_app f steps1 steps2 :
  forall t,
    updateNode f (steps1 ++ steps2) t =
    updateNode (updateNode f steps2) steps1 t.
Proof.
  induction steps1 as [|s steps1 IH]; intros t; simpl; [reflexivity|].
  destruct s, t; simpl; try reflexivity.
  - f_equal. induction properties0 as [|[k p] props IHp]; simpl; [reflexivity|].
    destruct (String.eqb k name); [now rewrite IH|now rewrite IHp].
  - now rewrite IH.
  - now rewrite IH.
  - f_equal. revert i. induction items as [|m ms IHm]; intros [|i]; simpl;
      try reflexivity; [now rewrite IH|now rewrite IHm].
Qed.

(** *** The node and the property at a location, after an update there *)

Lemma originType_updateAt f loc r :
  originType (updateAt f loc r) (fst loc) =
  option_map (updateNode f (snd loc)) (originType r (fst loc)).
Proof.
  destruct loc as [[|name] steps]; simpl; [reflexivity|].
  unfold lookupDefinition. simpl. rewrite get_alter_same.
  now destruct (get name (definitions r)).
Qed.

Lemma nodeAt_updateAt_same f loc r :
  nodeAt (updateAt f loc r) loc = option_map f (nodeAt r loc).
Proof.
  unfold nodeAt. rewrite originType_updateAt.
  destruct (originType r (fst loc)) as [t|]; simpl; [|reflexivity].
  apply getNode_updateNode_same.
Qed.

Lemma attributes_updateAt f loc r :
  attributes (updateAt f loc r) = attributes r.
Proof. unfold updateAt. now destruct (fst loc). Qed.

Lemma typeName_updateAt f loc r :
  typeName (updateAt f loc r) = typeName r.
Proof. unfold updateAt. now destruct (fst loc). Qed.

(** *** What a computation leaves true of [#root] *)

Section Preserves.
Variable I : ResourceType -> Prop.

Definition preserves (A : Type) (m : M A) : Prop :=
  forall st a st', I (root st) -> m st = Ok (a, st') -> I (root st').

Lemma pres_ret (A : Type) (a : A) : preserves (ret a).
Proof. intros st a' st' HI H. inversion H; subst. exact HI. Qed.

Lemma pres_throw (A : Type) msg : preserves (throw A msg).
Proof. intros st a st' _ H. discriminate. Qed.

Lemma pres_outOfFuel (A : Type) : preserves (outOfFuel A).
Proof. intros st a st' _ H. discriminate. Qed.

Lemma pres_unmodelled (A : Type) : preserves (unmodelled A).
Proof. intros st a st' _ H. discriminate. Qed.

Lemma pres_bind (A B : Type) (m : M A) (k : A -> M B) :
  preserves m -> (forall a, preserves (k a)) -> preserves (bind m k).
Proof.
  intros Hm Hk st b st' HI H. unfold bind in H.
  destruct (m st) as [[a st1]| | |] eqn:E; try discriminate.
  exact (Hk a st1 b st' (Hm st a st1 HI E) H).
Qed.

Lemma pres_assert cond msg : preserves (assert cond msg).
Proof. destruct cond; [apply pres_ret|apply pres_throw]. Qed.

Lemma pres_liftW (A : Type) (w : W A) : preserves (liftW w).
Proof.
  intros st a st' HI H. unfold liftW in H.
  destruct (w (diag st)) as [[a' d]| | |]; try discriminate.
  inversion H; subst. exact HI.
Qed.

Lemma pres_liftR (A : Type) (r : Result A) : preserves (liftR r).
Proof.
  intros st a st' HI H. unfold liftR in H.
  destruct r; try discriminate. inversion H; subst. exact HI.
Qed.

Lemma pres_getRoot : preserves getRoot.
Proof. intros st a st' HI H. inversion H; subst. exact HI. Qed.

Lemma pres_modifyRoot f :
  (forall r, I r -> I (f r)) -> preserves (modifyRoot f).
Proof. intros Hf st a st' HI H. inversion H; subst. now apply Hf. Qed.

Lemma pres_forEach (A : Type) (body : A -> M unit) xs :
  (forall x, preserves (body x)) -> preserves (forEach body xs).
Proof.
  intros Hb. induction xs as [|x xs IH]; simpl;
    [apply pres_ret|apply pres_bind; auto].
Qed.

Lemma pres_mapM (A B : Type) (f : A -> M B) xs :
  (forall x, preserves (f x)) -> preserves (mapM f xs).
Proof.
  intros Hf. induction xs as [|x xs IH]; simpl; [apply pres_ret|].
  apply pres_bind; [apply Hf|intros y].
  apply pres_bind; [apply IH|intros ys; apply pres_ret].
Qed.

Lemma pres_mapMi (A B : Type) (f : A -> nat -> M B) xs :
  (forall x i, preserves (f x i)) -> forall i, preserves (mapMi f i xs).
Proof.
  intros Hf. induction xs as [|x xs IH]; intros i; simpl; [apply pres_ret|].
  apply pres_bind; [apply Hf|intros y].
  apply pres_bind; [apply IH|intros ys; apply pres_ret].
Qed.

End Preserves.

(** Break a computation down along its binds, loops and case
    distinctions; what is left are the writes to [#root] and the calls the
    enclosing induction covers. *)
Ltac pres_steps :=
  repeat first
    [ apply pres_ret | apply pres_throw | apply pres_outOfFuel
    | apply pres_unmodelled | apply pres_assert | apply pres_liftW
    | apply pres_liftR | apply pres_getRoot
    | apply pres_bind; [|intros ?]
    | apply pres_forEach; intros ?
    | apply pres_mapM; intros ?
    | apply pres_mapMi; intros ? ?
    | match goal with
      | |- preserves _ (match ?x with _ => _ end) => destruct x
      | |- preserves _ (if ?x then _ else _) => destruct x
      end ].

(** *** Only the closing block of [#addAttribute] writes [attributes] *)

Section Attributes.
(** A property of the [attributes] field that adding an entry keeps. *)
Variable P : option TypeDefinition -> Prop.
Hypothesis P_addAttributeEntry :
  forall resourceSchema documenter name entry r,
    P (attributes r) ->
    P (attributes (addAttributeEntry resourceSchema documenter name entry r)).

Definition onAttributes (r : ResourceType) : Prop := P (attributes r).

Lemma pres_updateAt f loc : preserves onAttributes (modifyRoot (updateAt f loc)).
Proof.
  apply pres_modifyRoot. unfold onAttributes. intros r.
  now rewrite attributes_updateAt.
Qed.

Lemma pres_updateProp f p : preserves onAttributes (modifyRoot (updateProp f p)).
Proof. apply pres_updateAt. Qed.

Lemma pres_nodeAtM loc : preserves onAttributes (nodeAtM loc).
Proof. unfold nodeAtM. pres_steps. Qed.

Lemma pres_propAtM p : preserves onAttributes (propAtM p).
Proof. unfold propAtM. pres_steps. Qed.

Lemma pres_findProperty fuel :
  forall mangle loc parts,
    preserves onAttributes (findProperty fuel mangle loc parts).
Proof.
  induction fuel as [|fuel IH]; intros mangle loc parts; simpl;
    [apply pres_outOfFuel|].
  destruct parts as [|part rest]; [apply pres_ret|].
  apply pres_bind; [apply pres_assert|intros _].
  apply pres_bind; [apply pres_nodeAtM|intros node].
  destruct node; pres_steps; try apply IH; try apply pres_updateAt.
Qed.

Lemma pres_markChildren fuel :
  forall loc flag value maxDepth depth stack,
    preserves onAttributes
      (markChildren fuel loc flag value maxDepth depth stack).
Proof.
  induction fuel as [|fuel IH]; intros loc flag value maxDepth depth stack;
    simpl; [apply pres_outOfFuel|].
  destruct (existsb (loc_eqb loc) stack); [apply pres_ret|].
  apply pres_bind; [apply pres_nodeAtM|intros node].
  destruct node; pres_steps; try apply IH; try apply pres_updateProp.
Qed.

Lemma pres_eligible fuel wildcard p :
  preserves onAttributes (eligible fuel wildcard p).
Proof.
  unfold eligible. destruct wildcard; [apply pres_ret|].
  apply pres_bind; [apply pres_propAtM|intros info]. pres_steps.
Qed.

Lemma pres_addAttribute resourceSchema documenter fuel path readOnly :
  preserves onAttributes
    (addAttribute resourceSchema documenter fuel path readOnly).
Proof.
  unfold addAttribute, findPropertyPath.
  apply pres_bind.
  { destruct (startsWith path "/properties/");
      [apply pres_findProperty|apply pres_ret]. }
  intros props. destruct props as [|prop rest]; [apply pres_liftW|].
  apply pres_bind.
  { apply pres_forEach. intros p.
    apply pres_bind; [apply pres_eligible|intros valid].
    apply pres_bind.
    - destruct valid; [|apply pres_ret].
      apply pres_bind; [apply pres_updateProp|intros _].
      apply pres_markChildren.
    - intros _. destruct readOnly; [apply pres_updateProp|apply pres_ret]. }
  intros _.
  apply pres_bind; [apply pres_propAtM|intros first].
  apply pres_bind; [apply pres_mapM; intros; apply pres_propAtM|intros infos].
  apply pres_bind; [destruct (forallb _ infos); [apply pres_ret|apply pres_liftW]|].
  intros _. apply pres_bind; [apply pres_assert|intros _].
  apply pres_bind; [apply pres_eligible|intros valid].
  destruct valid; [|apply pres_ret].
  apply pres_modifyRoot. intros r. apply P_addAttributeEntry.
Qed.

Lemma pres_promote fuel p : preserves onAttributes (promote fuel p).
Proof.
  unfold promote.
  apply pres_bind; [apply pres_propAtM|intros info].
  apply pres_bind; [apply pres_getRoot|intros r].
  apply pres_bind; [apply pres_liftR|intros allReadOnly].
  apply pres_bind.
  { destruct allReadOnly; [|apply pres_ret].
    apply pres_bind; [apply pres_updateProp|intros _].
    apply pres_markChildren. }
  intros _.
  apply pres_bind; [apply pres_propAtM|intros info'].
  apply pres_bind; [apply pres_getRoot|intros r'].
  apply pres_bind; [apply pres_liftR|intros anyAttribute].
  destruct anyAttribute; [apply pres_updateProp|apply pres_ret].
Qed.

Lemma pres_analyzePaths resourceSchema documenter fuel :
  preserves onAttributes (analyzePaths resourceSchema documenter fuel).
Proof.
  unfold analyzePaths.
  apply pres_bind.
  { unfold readOnlyPropertiesOf.
    destruct (truthyField "readOnlyProperties" resourceSchema) as [v|];
      [|apply pres_ret].
    destruct v; try apply pres_unmodelled.
    apply pres_bind; [|intros; apply pres_ret].
    apply pres_mapM. intros x. destruct x as [[| | |]| |];
      first [apply pres_ret|apply pres_unmodelled]. }
  intros paths. destruct paths as [paths|]; [|apply pres_ret].
  apply pres_bind.
  { apply pres_forEach. intros path. apply pres_addAttribute. }
  intros _. apply pres_forEach. intros path.
  apply pres_bind.
  { unfold findPropertyPath. destruct (startsWith path "/properties/");
      [apply pres_findProperty|apply pres_ret]. }
  intros props. apply pres_forEach. intros p. apply pres_promote.
Qed.

Lemma pres_buildM resourceSchema documenter fuel :
  preserves onAttributes (buildM resourceSchema documenter fuel).
Proof.
  unfold buildM.
  apply pres_bind; [apply pres_liftW|intros r].
  destruct (resType r) as [type|]; [|apply pres_throw].
  apply pres_bind; [apply pres_liftW|intros t].
  apply pres_bind; [apply pres_modifyRoot; intros r0 H; exact H|intros _].
  apply pres_bind.
  { destruct (truthyField "definitions" resourceSchema); [|apply pres_ret].
    apply pres_bind; [apply pres_liftW|intros entries].
    apply pres_forEach. intros entry.
    apply pres_bind; [apply pres_liftW|intros d].
    apply pres_modifyRoot. intros r0 H. exact H. }
  intros _. apply pres_bind; [apply pres_analyzePaths|intros _].
  apply pres_bind; [|intros _; apply pres_getRoot].
  destruct (get (schemaTypeName resourceSchema) SchemaPaths.ExtraAttributes).
  - apply pres_forEach. intros name. apply pres_addAttribute.
  - destruct (inherited (schemaTypeName resourceSchema));
      [apply pres_unmodelled|apply pres_ret].
Qed.

(** What holds of no [attributes] and is kept by adding an entry holds of
    the [attributes] of every resource that [build] returns. *)
Lemma build_attributes resourceSchema documenter fuel table rt st :
  P None ->
  build resourceSchema documenter fuel table = Ok (rt, st) ->
  P (attributes rt).
Proof.
  intros Hnone Hbuild. unfold build in Hbuild.
  destruct (get "typeName" resourceSchema) as [[[| | |s]| |]|]; try discriminate.
  pose proof (@pres_buildM resourceSchema documenter fuel
                (initialState resourceSchema table)) as H.
  unfold buildM in Hbuild.
  assert (Hroot : forall st0 rt0 st1,
            buildM resourceSchema documenter fuel st0 = Ok (rt0, st1) ->
            rt0 = root st1).
  { intros st0 rt0 st1 Hb. unfold buildM, bind in Hb.
    repeat match type of Hb with
           | match ?x with _ => _ end = _ => destruct x as [[? ?]| | |]; try discriminate
           | match ?x with _ => _ end _ = _ => destruct x; try discriminate
           end.
    unfold getRoot in Hb. now inversion Hb. }
  specialize (H rt st Hnone Hbuild).
  now rewrite (Hroot _ _ _ Hbuild).
Qed.

End Attributes.

(** [Object.fromEntries] of entries with distinct keys is those entries. *)
Lemma fromEntries_NoDup (V : Type) (l : list (string * V)) :
  NoDup (keys l) -> fromEntries l = l.
Proof.
  unfold fromEntries.
  assert (H : forall l acc,
            NoDup (keys (acc ++ l)) ->
            fold_left (fun (acc : list (string * V)) kv =>
                         set (fst kv) (snd kv) acc) l acc = acc ++ l).
  { clear l. induction l as [|[k v] l IH]; intros acc Hnd; simpl.
    - now rewrite app_nil_r.
    - assert (Hset : set k v acc = acc ++ [(k, v)]).
      { unfold keys in Hnd. rewrite map_app in Hnd. simpl in Hnd.
        apply NoDup_remove_2 in Hnd.
        assert (Hk : ~ In k (map fst acc)).
        { intros Hin. apply Hnd. apply in_or_app. now left. }
        clear Hnd IH. induction acc as [|[k' w] acc IHa]; simpl; [reflexivity|].
        destruct (String.eqb k' k) eqn:E.
        - apply String.eqb_eq in E. subst. exfalso. apply Hk. now left.
        - rewrite IHa; [reflexivity|]. intros Hin. apply Hk. now right. }
      rewrite Hset. rewrite IH; rewrite <- app_assoc; [reflexivity|exact Hnd]. }
  intros Hnd. now rewrite (H l []).
Qed.

(** *** The effect of the breadcrumb step on an object-typed property *)

Lemma alter_ext (V : Type) (f g : V -> V) k (o : list (string * V)) :
  (forall x, f x = g x) -> alter f k o = alter g k o.
Proof.
  intros H. induction o as [|[k' v] o IH]; simpl; [reflexivity|].
  destruct (String.eqb k' k); [now rewrite H|now rewrite IH].
Qed.

Lemma updateAt_below f loc s r :
  updateAt f (below loc s) r = updateAt (updateNode f [s]) loc r.
Proof.
  destruct loc as [[|name] steps]; unfold below, updateAt; cbn [fst snd].
  - now rewrite updateNode_app.
  - f_equal. apply alter_ext. intros d. now rewrite updateNode_app.
Qed.

(** Apply [f] to the child [c] of an object node. *)
Definition alterChild (f : PropertyInfo -> PropertyInfo) (c : string)
  (t : TypeNode) : TypeNode :=
  match t with
  | TObject id props req => TObject id (alter f c props) req
  | _ => t
  end.

Lemma propAt_updateProp_same f p r :
  propAt (updateProp f p r) p = option_map f (propAt r p).
Proof.
  unfold propAt, updateProp. rewrite nodeAt_updateAt_same.
  destruct (nodeAt r (owner p)) as [[]|]; simpl; try reflexivity.
  apply get_alter_same.
Qed.

Lemma propAt_updateProp_child f p c r :
  propAt (updateProp f (mkPropRef (typeLoc p) c) r) p =
  option_map (fun info => withType (alterChild f c (type info)) info)
    (propAt r p).
Proof.
  unfold updateProp, typeLoc. simpl owner. simpl key.
  rewrite updateAt_below. unfold propAt. rewrite nodeAt_updateAt_same.
  destruct (nodeAt r (owner p)) as [[]|]; simpl; try reflexivity.
  rewrite get_alter_same. now destruct (get (key p) properties0).
Qed.

Lemma nodeAt_typeLoc p r :
  nodeAt r (typeLoc p) = option_map (@type TypeNode) (propAt r p).
Proof.
  unfold nodeAt, propAt, nodeAt, typeLoc, below. simpl fst. simpl snd.
  destruct (originType r (fst (owner p))) as [t|]; [|reflexivity].
  rewrite getNode_app. destruct (getNode (snd (owner p)) t) as [[]|];
    simpl; try reflexivity.
Qed.

Lemma get_keys (V : Type) k (v : V) (o : list (string * V)) :
  get k o = Some v -> In k (keys o).
Proof.
  intros H. apply get_In in H. unfold keys.
  apply in_map_iff. now exists (k, v).
Qed.

Lemma propAtM_ok p st info :
  propAt (root st) p = Some info -> propAtM p st = Ok (info, st).
Proof. intros H. unfold propAtM, bind, getRoot. now rewrite H. Qed.

End ClassifyFacts.

Module SchemaPathsFacts.
Import Js SchemaPaths.

Lemma mem_In x l : mem x l = true <-> In x l.
Proof.
  unfold mem. rewrite existsb_exists. split.
  - intros (y & Hin & E). apply String.eqb_eq in E. now subst.
  - intros Hin. exists x. split; [exact Hin|apply String.eqb_refl].
Qed.

Lemma In_insertByDepth x y sorted :
  In x (insertByDepth y sorted) <-> x = y \/ In x sorted.
Proof.
  induction sorted as [|z rest IH]; simpl.
  - intuition.
  - destruct (Nat.ltb (depth z) (depth y)); simpl; [intuition|].
    rewrite IH. intuition.
Qed.

Lemma In_sortDeepestFirst x xs : In x (sortDeepestFirst xs) <-> In x xs.
Proof.
  unfold sortDeepestFirst.
  assert (H : forall acc,
             In x (fold_left (fun sorted y => insertByDepth y sorted) xs acc)
             <-> In x acc \/ In x xs).
  { induction xs as [|y ys IH]; intros acc; simpl; [intuition|].
    rewrite IH, In_insertByDepth. intuition. }
  rewrite H. simpl. intuition.
Qed.

(** A path that is listed is never one of the breadcrumbs of the list. *)
Lemma breadcrumb_not_listed paths b :
  In b (getBreadcrumbs paths) -> ~ In b paths.
Proof.
  unfold getBreadcrumbs. rewrite In_sortDeepestFirst, filter_In.
  intros [_ Hb] Hin. apply mem_In in Hin. rewrite Hin in Hb. discriminate.
Qed.

End SchemaPathsFacts.

(* ===================================================================== *)
(** ** The attributes type and the flags of the graph *)
(* ===================================================================== *)

Module GraphFacts.
Import Js Str TypeNodes ObjectUtil Run Builder GraphSpec TypeNodesFacts
  ClassifyFacts.

(** Inversion of [Ev] at a node whose shape is known. *)
Ltac ev_inv H :=
  inversion H; subst; clear H;
  try match goal with
      | Hc : container _ = false |- _ => simpl in Hc; try discriminate Hc
      end.

Lemma get_remove_other (V : Type) k k' (o : list (string * V)) :
  k <> k' -> get k' (remove k o) = get k' o.
Proof.
  intros Hne. induction o as [|[k0 v] o IH]; simpl; [reflexivity|].
  destruct (String.eqb k0 k) eqn:E; simpl.
  - apply String.eqb_eq in E. subst k0.
    destruct (String.eqb k k') eqn:E'; [|exact IH].
    apply String.eqb_eq in E'. contradiction.
  - destruct (String.eqb k0 k'); [reflexivity|exact IH].
Qed.

Lemma Forall2_nth_error (A B : Type) (P : A -> B -> Prop) xs ys :
  Forall2 P xs ys ->
  forall i x, nth_error xs i = Some x ->
  exists y, nth_error ys i = Some y /\ P x y.
Proof.
  induction 1 as [|x0 y0 xs ys Hxy _ IH]; intros [|i] x Hx; simpl in *;
    try discriminate.
  - inversion Hx; subst. now exists y0.
  - now apply IH.
Qed.

Section Inversion.
Variable R : string -> PropertyInfo -> string -> PropertyInfo -> Prop.

Lemma Ev_leaf_inv t t' : container t = false -> Ev R t t' -> t' = t.
Proof. intros Hc H. now ev_inv H. Qed.

Lemma Ev_array_inv id doc items t' :
  Ev R (TArray id doc items) t' ->
  exists items', t' = TArray id doc items' /\ Ev R items items'.
Proof. intros H. ev_inv H. eauto. Qed.

Lemma Ev_record_inv id value t' :
  Ev R (TRecord id value) t' ->
  exists value', t' = TRecord id value' /\ Ev R value value'.
Proof. intros H. ev_inv H. eauto. Qed.

Lemma Ev_union_inv id items t' :
  Ev R (TUnion id items) t' ->
  exists items', t' = TUnion id items' /\ Forall2 (Ev R) items items'.
Proof. intros H. ev_inv H. eauto. Qed.

Lemma Ev_object_inv id props req t' :
  Ev R (TObject id props req) t' ->
  exists props',
    t' = TObject id props' req /\
    forall k v,
      get k props = Some v ->
      exists k' v',
        get k' props' = Some v' /\ R k v k' v' /\ Ev R (type v) (type v').
Proof. intros H. ev_inv H. eauto. Qed.

End Inversion.

Section Relation.
Variable R : string -> PropertyInfo -> string -> PropertyInfo -> Prop.

(** A property whose flags are unchanged under its name is allowed. *)
Hypothesis R_same :
  forall k v v',
    isAttribute v' = isAttribute v -> R k v k v'.

Lemma Ev_refl : forall t, Ev R t t.
Proof.
  induction t as [id|id d t IH|id v|id vs|id props req IH|kind id|id t IH
                 |id n|id items IH|id] using TypeNode_nested_ind;
    try (now apply Ev_leaf).
  - now apply Ev_array.
  - apply Ev_object. intros k v Hk. exists k, v. repeat split; auto.
    apply get_In in Hk. rewrite Forall_forall in IH. exact (IH (k, v) Hk).
  - now apply Ev_record.
  - apply Ev_union. induction IH; constructor; auto.
Qed.

Lemma Forall2_Ev_refl (items : list TypeNode) : Forall2 (Ev R) items items.
Proof. induction items; constructor; auto using Ev_refl. Qed.

Lemma definitions_refl (defs : list (string * TypeDefinition)) :
  Forall2 (fun d d' : string * TypeDefinition =>
             fst d' = fst d /\ Ev R (defType (snd d)) (defType (snd d')))
    defs defs.
Proof.
  induction defs; constructor; auto. split; [reflexivity|apply Ev_refl].
Qed.

Lemma EvRoot_refl r : EvRoot R r r.
Proof.
  repeat split; [apply Ev_refl|apply definitions_refl].
Qed.

(** A write below a node that is allowed where it lands is allowed of the
    node. *)
Lemma Ev_updateNode f :
  forall path t,
    (forall n, getNode path t = Some n -> Ev R n (f n)) ->
    Ev R t (updateNode f path t).
Proof.
  induction path as [|s path IH]; intros t H; simpl.
  - now apply H.
  - destruct s, t; simpl in *; try apply Ev_refl.
    + apply Ev_object. intros k v Hk.
      destruct (String.eqb name k) eqn:E.
      * apply String.eqb_eq in E. subst k.
        exists name, (withType (updateNode f path (type v)) v).
        rewrite get_alter_same. unfold PropertyInfo in *. rewrite Hk. simpl.
        repeat split; [now apply R_same|].
        apply IH. intros n Hn. apply H. now rewrite Hk.
      * apply String.eqb_neq in E. exists k, v.
        rewrite get_alter_other by assumption.
        repeat split; [assumption|now apply R_same|apply Ev_refl].
    + apply Ev_array. now apply IH.
    + apply Ev_record. now apply IH.
    + apply Ev_union. revert i H.
      induction items as [|m ms IHm]; intros [|i] H; simpl;
        try apply Forall2_Ev_refl.
      * constructor; [|apply Forall2_Ev_refl]. apply IH. apply H.
      * constructor; [apply Ev_refl|]. apply IHm. apply H.
Qed.

Lemma EvRoot_updateAt f loc r :
  (forall n, nodeAt r loc = Some n -> Ev R n (f n)) ->
  EvRoot R r (updateAt f loc r).
Proof.
  destruct loc as [[|name] path]; unfold nodeAt, updateAt; simpl; intros H.
  - repeat split; [now apply Ev_updateNode|apply definitions_refl].
  - repeat split; [apply Ev_refl|].
    unfold lookupDefinition in H.
    induction (definitions r) as [|[k d] defs IH]; simpl; [constructor|].
    simpl in H. destruct (String.eqb k name) eqn:E.
    + constructor; [|apply definitions_refl].
      split; [reflexivity|]. simpl. now apply Ev_updateNode.
    + constructor; [split; [reflexivity|apply Ev_refl]|]. now apply IH.
Qed.

End Relation.

(** *** What a write keeps *)

Section Transfer.
Variable R : string -> PropertyInfo -> string -> PropertyInfo -> Prop.

(** Writes that keep the names keep the locations. *)
Definition keepsNames : Prop := forall k v k' v', R k v k' v' -> k' = k.

Lemma definitions_get defs defs' name :
  Forall2 (fun d d' : string * TypeDefinition =>
             fst d' = fst d /\ Ev R (defType (snd d)) (defType (snd d')))
    defs defs' ->
  match get name defs, get name defs' with
  | Some d, Some d' => Ev R (defType d) (defType d')
  | None, None => True
  | _, _ => False
  end.
Proof.
  induction 1 as [|[k d] [k' d'] defs defs' [Hk Hd] _ IH]; simpl; [exact I|].
  simpl in Hk, Hd. subst k'. now destruct (String.eqb k name).
Qed.

Lemma originType_Ev r r' o t :
  EvRoot R r r' ->
  originType r o = Some t ->
  exists t', originType r' o = Some t' /\ Ev R t t'.
Proof.
  intros (_ & _ & Hp & Hd) Ht. destruct o as [|name]; simpl in *.
  - inversion Ht; subst. eauto.
  - unfold lookupDefinition in *.
    pose proof (definitions_get name Hd) as Hg.
    destruct (get name (definitions r)) as [d|]; [|discriminate].
    destruct (get name (definitions r')) as [d'|]; [|contradiction].
    simpl in *. inversion Ht; subst. eauto.
Qed.

Lemma getNode_Ev :
  forall path t t' n,
    Ev R t t' ->
    getNode path t = Some n ->
    exists path' n',
      getNode path' t' = Some n' /\ Ev R n n' /\
      (keepsNames -> path' = path).
Proof.
  induction path as [|s path IH]; intros t t' n Ht Hn; simpl in Hn.
  - inversion Hn; subst. exists [], t'. simpl. auto.
  - destruct s, t; try discriminate.
    + apply Ev_object_inv in Ht as (props' & -> & Hprops).
      destruct (get name properties0) as [p|] eqn:Hp; [|discriminate].
      destruct (Hprops name p Hp) as (k' & v' & Hk' & HR & Hv).
      destruct (IH _ _ _ Hv Hn) as (path' & n' & Hn' & He & Hsame).
      exists (AtProp k' :: path'), n'. simpl. rewrite Hk'.
      repeat split; auto. intros Hkeep.
      rewrite (Hkeep _ _ _ _ HR), (Hsame Hkeep). reflexivity.
    + apply Ev_array_inv in Ht as (items' & -> & Hi).
      destruct (IH _ _ _ Hi Hn) as (path' & n' & Hn' & He & Hsame).
      exists (AtItems :: path'), n'. simpl.
      repeat split; auto. intros Hkeep. now rewrite (Hsame Hkeep).
    + apply Ev_record_inv in Ht as (value' & -> & Hi).
      destruct (IH _ _ _ Hi Hn) as (path' & n' & Hn' & He & Hsame).
      exists (AtValue :: path'), n'. simpl.
      repeat split; auto. intros Hkeep. now rewrite (Hsame Hkeep).
    + apply Ev_union_inv in Ht as (items' & -> & Hi).
      destruct (nth_error items i) as [m|] eqn:Hm; [|discriminate].
      destruct (Forall2_nth_error Hi i Hm) as (m' & Hm' & Hmm).
      destruct (IH _ _ _ Hmm Hn) as (path' & n' & Hn' & He & Hsame).
      exists (AtMember i :: path'), n'. simpl. rewrite Hm'.
      repeat split; auto. intros Hkeep. now rewrite (Hsame Hkeep).
Qed.

Lemma nodeAt_Ev r r' o path n :
  EvRoot R r r' ->
  nodeAt r (o, path) = Some n ->
  exists path' n',
    nodeAt r' (o, path') = Some n' /\ Ev R n n' /\
    (keepsNames -> path' = path).
Proof.
  intros HE Hn. unfold nodeAt in *. simpl in *.
  destruct (originType r o) as [t|] eqn:Ht; [|discriminate].
  destruct (originType_Ev _ HE Ht) as (t' & Ht' & Htt).
  destruct (getNode_Ev _ Htt Hn) as (path' & n' & Hn' & He & Hsame).
  exists path', n'. now rewrite Ht'.
Qed.

Lemma OriginReachable_Ev r r' o :
  EvRoot R r r' -> OriginReachable r o -> OriginReachable r' o.
Proof.
  intros HE. induction 1 as [|o path id name _ IH Hn]; [constructor|].
  destruct (nodeAt_Ev _ _ HE Hn) as (path' & n' & Hn' & He & _).
  apply Ev_leaf_inv in He; [|reflexivity]. subst n'.
  eapply OR_reference; eassumption.
Qed.

Lemma propAt_Ev r r' p info :
  EvRoot R r r' ->
  propAt r p = Some info ->
  exists p' info',
    fst (owner p') = fst (owner p) /\
    propAt r' p' = Some info' /\
    R (key p) info (key p') info' /\
    Ev R (type info) (type info') /\
    (keepsNames -> p' = p).
Proof.
  intros HE Hp. unfold propAt in Hp. destruct p as [[o path] k]. simpl in *.
  destruct (nodeAt r (o, path)) as [[| | | |id props req| | | | |]|] eqn:Hn;
    try discriminate.
  destruct (nodeAt_Ev _ _ HE Hn) as (path' & n' & Hn' & He & Hsame).
  apply Ev_object_inv in He as (props' & -> & Hprops).
  destruct (Hprops k info Hp) as (k' & v' & Hk' & HR & Hv).
  exists (mkPropRef (o, path') k'), v'. unfold propAt. simpl. rewrite Hn'.
  repeat split; auto. intros Hkeep.
  now rewrite (Hsame Hkeep), (Hkeep _ _ _ _ HR).
Qed.

Lemma definitionOf_Ev r r' name :
  EvRoot R r r' ->
  match definitionOf r name, definitionOf r' name with
  | Ok (Some d), Ok (Some d') => Ev R (defType d) (defType d')
  | Ok None, Ok None => True
  | Unmodelled, Unmodelled => True
  | _, _ => False
  end.
Proof.
  intros (_ & _ & _ & Hd). unfold definitionOf, lookupDefinition.
  pose proof (definitions_get name Hd) as Hg.
  destruct (get name (definitions r)), (get name (definitions r'));
    try contradiction; [assumption|].
  now destruct (inherited name).
Qed.

Lemma everyR_Forall2 (A : Type) (f g : A -> Result bool) xs ys :
  Forall2 (fun x y => f x = g y) xs ys -> everyR f xs = everyR g ys.
Proof.
  induction 1 as [|x y xs ys Hxy _ IH]; simpl; [reflexivity|].
  rewrite Hxy. now destruct (g y) as [[|]| | |].
Qed.

(** [#isValidAttributeType] answers the same after the writes. *)
Lemma valid_Ev r r' :
  EvRoot R r r' ->
  forall fuel t t',
    Ev R t t' ->
    isValidAttributeType fuel r t = isValidAttributeType fuel r' t'.
Proof.
  intros HE. induction fuel as [|fuel IH]; intros t t' Ht; [reflexivity|].
  destruct t;
    try (apply Ev_leaf_inv in Ht; [subst t'|reflexivity]); simpl;
    try reflexivity.
  - apply Ev_array_inv in Ht as (items' & -> & Hi). now apply IH.
  - apply Ev_object_inv in Ht as (props' & -> & _). reflexivity.
  - apply Ev_record_inv in Ht as (value' & -> & _). reflexivity.
  - destruct name as [name| |]; try reflexivity.
    pose proof (definitionOf_Ev name HE) as Hd.
    destruct (definitionOf r name) as [[d|]| | |],
             (definitionOf r' name) as [[d'|]| | |];
      try contradiction; try reflexivity.
    now apply IH.
  - apply Ev_union_inv in Ht as (items' & -> & Hi).
    apply everyR_Forall2. induction Hi; constructor; auto.
Qed.

Lemma everyR_true (A : Type) (f : A -> Result bool) xs :
  everyR f xs = Ok true -> Forall (fun x => f x = Ok true) xs.
Proof.
  induction xs as [|x xs IH]; simpl; intros H; constructor.
  - destruct (f x) as [[|]| | |]; try discriminate; reflexivity.
  - apply IH. destruct (f x) as [[|]| | |]; try discriminate; assumption.
Qed.

(** A type that [#isValidAttributeType] accepts holds no property: the
    writes leave it as it is. *)
Lemma valid_Ev_eq r :
  forall fuel t t',
    isValidAttributeType fuel r t = Ok true -> Ev R t t' -> t' = t.
Proof.
  induction fuel as [|fuel IH]; intros t t' Hv Ht; [discriminate|].
  destruct t;
    try (apply Ev_leaf_inv in Ht; [assumption|reflexivity]); simpl in Hv;
    try discriminate.
  - apply Ev_array_inv in Ht as (items' & -> & Hi). f_equal. now apply IH.
  - apply Ev_union_inv in Ht as (items' & -> & Hi). f_equal.
    apply everyR_true in Hv. clear - Hv Hi IH.
    induction Hi as [|x y xs ys Hxy _ IHl]; [reflexivity|].
    inversion Hv; subst. f_equal; [now apply IH|now apply IHl].
Qed.

(** Such a type is related to itself. *)
Lemma valid_Ev_self r :
  forall fuel t, isValidAttributeType fuel r t = Ok true -> Ev R t t.
Proof.
  induction fuel as [|fuel IH]; intros t Hv; [discriminate|].
  destruct t; simpl in Hv; try discriminate; try (now apply Ev_leaf).
  - apply Ev_array. now apply IH.
  - apply Ev_union. apply everyR_true in Hv.
    induction Hv; constructor; auto.
Qed.

(** The writes do not take [isAttribute = true] back. *)
Definition keepsAttribute : Prop :=
  forall k v k' v',
    R k v k' v' -> isAttribute v = Some true -> isAttribute v' = Some true.

Lemma backed_Ev fuel r r' e :
  keepsAttribute -> EvRoot R r r' -> backed fuel r e -> backed fuel r' e.
Proof.
  intros Hmono HE (Hattr & Hvalid & p & info & Hreach & Hp & Hinfo & Htype).
  split; [assumption|split].
  - rewrite <- (valid_Ev HE fuel (valid_Ev_self _ _ _ Hvalid)). exact Hvalid.
  - destruct (propAt_Ev _ HE Hp) as (p' & info' & Ho & Hp' & HR & Hv & _).
    exists p', info'. rewrite Ho. repeat split.
    + now apply OriginReachable_Ev with (r := r).
    + assumption.
    + exact (Hmono _ _ _ _ HR Hinfo).
    + rewrite <- Htype in Hvalid. rewrite <- Htype.
      exact (valid_Ev_eq _ _ Hvalid Hv).
Qed.

Lemma attributesBacked_Ev fuel r r' :
  keepsAttribute -> EvRoot R r r' ->
  attributesBacked fuel r -> attributesBacked fuel r'.
Proof.
  intros Hmono HE. unfold attributesBacked.
  pose proof HE as (_ & Ha & _). rewrite Ha.
  destruct (attributes r) as [a|]; [|auto].
  intros (id & props & req & Ht & Hall). exists id, props, req.
  split; [assumption|]. intros name e He.
  apply backed_Ev with (r := r); eauto.
Qed.

Lemma Evolves_keeps (Q : ResourceType -> Prop) :
  (forall r r', EvRoot R r r' -> Q r -> Q r') ->
  forall r r', Evolves R r r' -> Q r -> Q r'.
Proof.
  intros Hstep r r' H. induction H as [|r1 r2 r3 _ IH Hs]; [auto|].
  intros HQ. exact (Hstep _ _ Hs (IH HQ)).
Qed.

Lemma Evolves_trans r1 r2 r3 :
  Evolves R r1 r2 -> Evolves R r2 r3 -> Evolves R r1 r3.
Proof.
  intros H12 H23. induction H23 as [|r2 r3 r4 _ IH Hs]; [assumption|].
  eapply Evolves_step; [exact (IH H12)|exact Hs].
Qed.

Lemma Evolves_one r r' : EvRoot R r r' -> Evolves R r r'.
Proof. intros H. eapply Evolves_step; [apply Evolves_refl|exact H]. Qed.

Lemma Evolves_attributes r r' :
  Evolves R r r' -> attributes r' = attributes r.
Proof.
  induction 1 as [|r1 r2 r3 _ IH (_ & Ha & _)]; [reflexivity|].
  now rewrite Ha.
Qed.

End Transfer.

(** *** The two writes of the classification *)

Lemma Rel_same kf af k v v' :
  isAttribute v' = isAttribute v -> Rel kf af k v k v'.
Proof. intros H. unfold Rel. rewrite H. auto. Qed.

Lemma Rel_keepsAttribute kf af : keepsAttribute (Rel kf af).
Proof. intros k v k' v' (_ & _ & H). exact H. Qed.

Lemma Rel_keepsNames af : keepsNames (Rel true af).
Proof. intros k v k' v' (H & _). now apply H. Qed.

(** [prop[flag] = value] may set [isAttribute] but not take it back. *)
Definition flagAllowed (af : bool) (flag : Flag) (value : bool) : Prop :=
  match flag with
  | FlagIsAttribute => value = true /\ af = false
  | FlagReadOnly => True
  end.

Lemma EvRoot_setFlag kf af flag value p r :
  flagAllowed af flag value ->
  EvRoot (Rel kf af) r (updateProp (setFlag flag value) p r).
Proof.
  intros Hflag. unfold updateProp.
  apply EvRoot_updateAt; [apply Rel_same|].
  intros n _. destruct n; try (apply Ev_refl; apply Rel_same).
  apply Ev_object. intros k v Hk.
  destruct (String.eqb (key p) k) eqn:E.
  - apply String.eqb_eq in E. subst k.
    exists (key p), (setFlag flag value v). rewrite get_alter_same.
    unfold PropertyInfo in *. rewrite Hk. simpl. split; [reflexivity|].
    split.
    + destruct flag; simpl in *.
      * destruct Hflag as [-> ->]. unfold Rel. simpl.
        repeat split; auto; discriminate.
      * now apply Rel_same.
    + destruct flag; simpl; apply Ev_refl; apply Rel_same.
  - apply String.eqb_neq in E. exists k, v.
    rewrite get_alter_other by assumption.
    split; [assumption|].
    split; [now apply Rel_same|apply Ev_refl; apply Rel_same].
Qed.

Lemma Rel_renamed af k k' v : Rel false af k v k' v.
Proof. unfold Rel. repeat split; auto; discriminate. Qed.

Lemma EvRoot_mangleRename af part mangledName loc r id props req :
  nodeAt r loc = Some (TObject id props req) ->
  get part props = None ->
  EvRoot (Rel false af) r (updateAt (mangleRename part mangledName) loc r).
Proof.
  intros Hn Hpart. apply EvRoot_updateAt; [apply Rel_same|].
  intros n Hn'. rewrite Hn in Hn'. inversion Hn'; subst n. simpl.
  unfold PropertyInfo in *.
  destruct (get mangledName props) as [prop|] eqn:Hm;
    [|apply Ev_refl; apply Rel_same].
  assert (Hne : mangledName <> part) by (intros ->; congruence).
  apply Ev_object. intros k v Hk.
  destruct (String.eqb mangledName k) eqn:E.
  - apply String.eqb_eq in E. subst k.
    assert (v = prop) by (unfold PropertyInfo in *; congruence). subst v.
    exists part, prop. rewrite get_remove_other by assumption.
    rewrite get_set_same.
    split; [reflexivity|].
    split; [apply Rel_renamed|apply Ev_refl; apply Rel_same].
  - apply String.eqb_neq in E. exists k, v.
    rewrite get_remove_other by assumption.
    rewrite get_set_other
      by (intros ->; unfold PropertyInfo in *; congruence).
    split; [assumption|].
    split; [apply Rel_renamed|apply Ev_refl; apply Rel_same].
Qed.

(** *** Runs that return *)

Lemma bind_inv (St A B : Type) (m : ST St A) (k : A -> ST St B) st b st2 :
  bind m k st = Ok (b, st2) ->
  exists a st1, m st = Ok (a, st1) /\ k a st1 = Ok (b, st2).
Proof.
  unfold bind. destruct (m st) as [[a st1]| | |]; try discriminate. eauto.
Qed.

Lemma ret_inv (St A : Type) (a b : A) (st st' : St) :
  ret a st = Ok (b, st') -> b = a /\ st' = st.
Proof. unfold ret. intros H. now inversion H. Qed.

Lemma assert_inv (St : Type) cond msg (st : St) u st' :
  assert cond msg st = Ok (u, st') -> cond = true /\ st' = st.
Proof.
  destruct cond; simpl; [|discriminate]. intros H. now inversion H.
Qed.

Lemma liftR_inv (St A : Type) (x : Result A) (st : St) a st' :
  liftR x st = Ok (a, st') -> x = Ok a /\ st' = st.
Proof. unfold liftR. destruct x; try discriminate. intros H. now inversion H. Qed.

Lemma liftW_inv (A : Type) (w : W A) st a st' :
  liftW w st = Ok (a, st') -> root st' = root st.
Proof.
  unfold liftW. destruct (w (diag st)) as [[a' d]| | |]; try discriminate.
  intros H. now inversion H.
Qed.

Lemma getRoot_inv st r st' :
  getRoot st = Ok (r, st') -> r = root st /\ st' = st.
Proof. unfold getRoot. intros H. now inversion H. Qed.

Lemma modifyRoot_inv f st u st' :
  modifyRoot f st = Ok (u, st') -> root st' = f (root st).
Proof. unfold modifyRoot. intros H. now inversion H. Qed.

Lemma nodeAtM_inv loc st n st' :
  nodeAtM loc st = Ok (n, st') -> st' = st /\ nodeAt (root st) loc = Some n.
Proof.
  unfold nodeAtM, bind, getRoot. destruct (nodeAt (root st) loc);
    [|discriminate].
  intros H. now inversion H.
Qed.

Lemma propAtM_inv p st info st' :
  propAtM p st = Ok (info, st') ->
  st' = st /\ propAt (root st) p = Some info.
Proof.
  unfold propAtM, bind, getRoot. destruct (propAt (root st) p);
    [|discriminate].
  intros H. now inversion H.
Qed.

Lemma eligible_inv fuel wildcard p st b st' :
  eligible fuel wildcard p st = Ok (b, st') ->
  st' = st /\
  (wildcard = true /\ b = false \/
   wildcard = false /\
   exists info,
     propAt (root st) p = Some info /\
     isValidAttributeType fuel (root st) (type info) = Ok b).
Proof.
  unfold eligible. destruct wildcard.
  - intros H. apply ret_inv in H as [-> ->]. auto.
  - intros H. apply bind_inv in H as (info & st1 & Hp & H).
    apply propAtM_inv in Hp as [-> Hp].
    apply bind_inv in H as (r & st1 & Hr & H).
    apply getRoot_inv in Hr as [-> ->].
    apply liftR_inv in H as [H ->]. split; [reflexivity|]. right. eauto.
Qed.

Lemma reach_Evolves R r r' o :
  Evolves R r r' -> OriginReachable r o -> OriginReachable r' o.
Proof.
  intros H. apply (@Evolves_keeps R (fun x => OriginReachable x o));
    [|exact H].
  intros a b Hab. now apply OriginReachable_Ev with (R := R).
Qed.

(** *** [#findProperty] *)

(** [#findProperty] only renames properties, and the properties it
    answers with belong to the tree or to a definition reached from it. *)
Lemma findProperty_spec af :
  forall fuel mangle loc parts st props st',
    findProperty fuel mangle loc parts st = Ok (props, st') ->
    OriginReachable (root st) (fst loc) ->
    Evolves (Rel false af) (root st) (root st') /\
    forall p, In p props -> OriginReachable (root st') (fst (owner p)).
Proof.
  induction fuel as [|fuel IH]; intros mangle loc parts st props st' H Hreach;
    [discriminate|].
  simpl in H. destruct parts as [|part rest].
  { apply ret_inv in H as [-> ->]. split; [constructor|intros p []]. }
  apply bind_inv in H as (u & st1 & Ha & H). apply assert_inv in Ha as [_ ->].
  apply bind_inv in H as (node & st1 & Hn & H).
  apply nodeAtM_inv in Hn as [-> Hn].
  assert (Hnone : forall st0 : State,
             ret (@nil PropRef) st = Ok (props, st0) ->
             Evolves (Rel false af) (root st) (root st0) /\
             forall p, In p props -> OriginReachable (root st0) (fst (owner p))).
  { intros st0 H0. apply ret_inv in H0 as [-> ->].
    split; [constructor|intros p []]. }
  destruct node as [id|id doc items|id v|id vs|id oprops req|kind id|id value
                   |id name|id items|id]; try (now apply Hnone).
  - (* array *)
    destruct (String.eqb part "*"); [|now apply Hnone].
    now apply IH in H.
  - (* object *)
    destruct (String.eqb part "*"); [now apply Hnone|].
    apply bind_inv in H as (present & st1 & Hpres & H).
    assert (Hev : Evolves (Rel false af) (root st) (root st1)).
    { destruct (get part oprops) as [found|] eqn:Hpart.
      - apply ret_inv in Hpres as [_ ->]. constructor.
      - destruct (inherited part); [discriminate|].
        destruct mangle; [|apply ret_inv in Hpres as [_ ->]; constructor].
        destruct (get (removeChar "." part) oprops) as [prop|].
        + apply bind_inv in Hpres as (u' & st2 & Hm & Hpres).
          apply ret_inv in Hpres as [_ ->].
          apply modifyRoot_inv in Hm. rewrite Hm.
          apply Evolves_one. now apply EvRoot_mangleRename with id oprops req.
        + destruct (inherited (removeChar "." part)); [discriminate|].
          apply ret_inv in Hpres as [_ ->]. constructor. }
    pose proof (reach_Evolves Hev Hreach) as Hreach1.
    destruct present.
    + destruct rest as [|next rest].
      * apply ret_inv in H as [-> ->]. split; [assumption|].
        intros p [<-|[]]. exact Hreach1.
      * apply IH in H; [|exact Hreach1]. destruct H as [Hev2 Hps].
        split; [|assumption]. exact (Evolves_trans Hev Hev2).
    + apply ret_inv in H as [-> ->]. split; [assumption|intros p []].
  - (* reference *)
    destruct name as [name| |]; try (now apply Hnone).
    apply bind_inv in H as (r & st1 & Hr & H).
    apply getRoot_inv in Hr as [-> ->].
    apply bind_inv in H as (target & st1 & Ht & H).
    apply liftR_inv in Ht as [Ht ->].
    destruct target as [d|]; [|discriminate].
    apply IH in H; [assumption|]. simpl.
    destruct loc as [o path]. eapply OR_reference; eassumption.
  - (* union *)
    apply bind_inv in H as (results & st1 & Hmap & H).
    apply ret_inv in H as [-> ->].
    assert (Hloop : forall (members : list TypeNode) i st0 results0 st2,
               mapMi (fun (_ : TypeNode) j =>
                        findProperty fuel mangle (below loc (AtMember j))
                          (part :: rest)) i members st0
               = Ok (results0, st2) ->
               OriginReachable (root st0) (fst loc) ->
               Evolves (Rel false af) (root st0) (root st2) /\
               forall ps p, In ps results0 -> In p ps ->
                 OriginReachable (root st2) (fst (owner p))).
    { induction members as [|m members IHm]; intros i st0 results0 st2 Hm Hr0;
        simpl in Hm.
      - apply ret_inv in Hm as [-> ->]. split; [constructor|intros ps p []].
      - apply bind_inv in Hm as (y & st3 & Hy & Hm).
        apply bind_inv in Hm as (ys & st4 & Hys & Hm).
        apply ret_inv in Hm as [-> ->].
        apply IH in Hy; [|exact Hr0]. destruct Hy as [Hev1 Hy].
        apply IHm in Hys; [|exact (reach_Evolves Hev1 Hr0)].
        destruct Hys as [Hev2 Hys].
        split; [exact (Evolves_trans Hev1 Hev2)|].
        intros ps p [<-|Hin] Hp.
        + exact (reach_Evolves Hev2 (Hy p Hp)).
        + exact (Hys ps p Hin Hp). }
    destruct (Hloop _ _ _ _ _ Hmap Hreach) as [Hev Hps].
    split; [assumption|]. intros p Hp.
    apply in_concat in Hp as (ps & Hin & Hp). exact (Hps ps p Hin Hp).
Qed.

Lemma preserves_apply (Q : ResourceType -> Prop) (A : Type) (m : M A)
  st a st' :
  preserves Q m -> Q (root st) -> m st = Ok (a, st') -> Q (root st').
Proof. intros H. apply H. Qed.

(** *** The writes of flags *)

Section FlagSteps.
(** What a write of a flag keeps. *)
Variable Q : ResourceType -> Prop.
Hypothesis Q_step : forall r r', EvRoot (Rel true false) r r' -> Q r -> Q r'.

Lemma pres_setFlag flag value p :
  flagAllowed false flag value ->
  preserves Q (modifyRoot (updateProp (setFlag flag value) p)).
Proof.
  intros Hflag. apply pres_modifyRoot. intros r. apply Q_step.
  now apply EvRoot_setFlag.
Qed.

Lemma pres_markChildren_flag fuel :
  forall loc flag value maxDepth depth stack,
    flagAllowed false flag value ->
    preserves Q (markChildren fuel loc flag value maxDepth depth stack).
Proof.
  induction fuel as [|fuel IH]; intros loc flag value maxDepth depth stack Hf;
    simpl; [apply pres_outOfFuel|].
  destruct (existsb (loc_eqb loc) stack); [apply pres_ret|].
  apply pres_bind; [unfold nodeAtM; pres_steps|intros node].
  destruct node; pres_steps; try (now apply IH); now apply pres_setFlag.
Qed.

Lemma pres_attributeStep fuel p (valid readOnly : bool) :
  preserves Q
    ((if valid then
        modifyRoot (updateProp (setFlag FlagIsAttribute true) p) ;;;
        markChildren fuel (typeLoc p) FlagIsAttribute true None 1 []
      else ret tt) ;;;
     if readOnly
     then modifyRoot (updateProp (setFlag FlagReadOnly true) p)
     else ret tt).
Proof.
  apply pres_bind.
  - destruct valid; [|apply pres_ret].
    apply pres_bind; [apply pres_setFlag; now split|intros _].
    apply pres_markChildren_flag. now split.
  - intros _. destruct readOnly; [|apply pres_ret].
    apply pres_setFlag. exact I.
Qed.

Lemma pres_eligible_flag fuel wildcard p :
  preserves Q (eligible fuel wildcard p).
Proof. unfold eligible, propAtM. pres_steps. Qed.

Lemma pres_promote_flag fuel p : preserves Q (promote fuel p).
Proof.
  unfold promote, propAtM. pres_steps;
    first [ apply pres_setFlag; first [exact I|now split]
          | apply pres_markChildren_flag; exact I ].
Qed.

End FlagSteps.

(** The property at [p] is an attribute. *)
Definition flaggedAt (p : PropRef) (r : ResourceType) : Prop :=
  exists info, propAt r p = Some info /\ isAttribute info = Some true.

(** [#isValidAttributeType] answers [b] on the type of the property at [p]. *)
Definition validityAt (fuel : nat) (p : PropRef) (b : bool)
  (r : ResourceType) : Prop :=
  exists info,
    propAt r p = Some info /\
    isValidAttributeType fuel r (type info) = Ok b.

(** A property stays where it is while flags are written, and stays an
    attribute once it is one. *)
Lemma flagged_step p r r' :
  EvRoot (Rel true false) r r' -> flaggedAt p r -> flaggedAt p r'.
Proof.
  intros HE (info & Hp & Hattr).
  destruct (propAt_Ev _ HE Hp) as (p' & info' & _ & Hp' & HR & _ & Hsame).
  rewrite (Hsame (@Rel_keepsNames false)) in Hp'. exists info'.
  split; [assumption|]. exact (Rel_keepsAttribute HR Hattr).
Qed.

(** Nor does the answer of [#isValidAttributeType] on its type change. *)
Lemma validity_step fuel p b r r' :
  EvRoot (Rel true false) r r' -> validityAt fuel p b r -> validityAt fuel p b r'.
Proof.
  intros HE (info & Hp & Hv).
  destruct (propAt_Ev _ HE Hp) as (p' & info' & _ & Hp' & _ & Ht & Hsame).
  rewrite (Hsame (@Rel_keepsNames false)) in Hp'. exists info'.
  split; [assumption|]. now rewrite <- (valid_Ev HE fuel Ht).
Qed.

(** *** The closing block of [#addAttribute] *)

Section SameGraph.
Variables r r' : ResourceType.
Hypothesis same_definitions : definitions r' = definitions r.
Hypothesis same_properties : properties r' = properties r.

Lemma nodeAt_graph loc : nodeAt r' loc = nodeAt r loc.
Proof.
  unfold nodeAt, originType, lookupDefinition.
  now rewrite same_definitions, same_properties.
Qed.

Lemma propAt_graph p : propAt r' p = propAt r p.
Proof. unfold propAt. now rewrite nodeAt_graph. Qed.

Lemma everyR_ext (A : Type) (f g : A -> Result bool) xs :
  (forall x, f x = g x) -> everyR f xs = everyR g xs.
Proof.
  intros H. induction xs as [|x xs IH]; simpl; [reflexivity|].
  rewrite H. now destruct (g x) as [[|]| | |].
Qed.

Lemma valid_graph :
  forall fuel t, isValidAttributeType fuel r' t = isValidAttributeType fuel r t.
Proof.
  induction fuel as [|fuel IH]; intros t; [reflexivity|].
  destruct t; simpl; try reflexivity.
  - apply IH.
  - destruct name; try reflexivity.
    unfold definitionOf, lookupDefinition. rewrite same_definitions.
    destruct (get s (definitions r)); [apply IH|].
    now destruct (inherited s).
  - now apply everyR_ext.
Qed.

Lemma OriginReachable_graph o : OriginReachable r o -> OriginReachable r' o.
Proof.
  induction 1 as [|o path id name _ IH Hn]; [constructor|].
  eapply OR_reference; [exact IH|]. rewrite nodeAt_graph. exact Hn.
Qed.

Lemma backed_graph fuel e : backed fuel r e -> backed fuel r' e.
Proof.
  intros (Hattr & Hvalid & p & info & Hreach & Hp & Hinfo & Htype).
  split; [assumption|]. split; [now rewrite valid_graph|].
  exists p, info. rewrite propAt_graph.
  repeat split; auto using OriginReachable_graph.
Qed.

End SameGraph.

Lemma attributesBacked_add resourceSchema documenter fuel name entry r :
  attributesBacked fuel r ->
  backed fuel r entry ->
  attributesBacked fuel
    (addAttributeEntry resourceSchema documenter name entry r).
Proof.
  intros HB He.
  assert (Hg : forall e, backed fuel r e ->
                 backed fuel
                   (addAttributeEntry resourceSchema documenter name entry r) e).
  { intros e. now apply backed_graph. }
  unfold attributesBacked in *. unfold addAttributeEntry at 1. simpl.
  destruct (attributes r) as [a|]; simpl.
  - destruct HB as (id & props & req & -> & Hall).
    exists id, (set name entry props), (req ++ [name]).
    split; [reflexivity|]. intros k e Hk.
    destruct (String.eqb name k) eqn:E.
    + apply String.eqb_eq in E. subst k. rewrite get_set_same in Hk.
      inversion Hk; subst. now apply Hg.
    + apply String.eqb_neq in E. rewrite get_set_other in Hk by assumption.
      apply Hg. now apply Hall with k.
  - exists "/attributes", [(name, entry)], [name]. split; [reflexivity|].
    intros k e Hk. simpl in Hk.
    destruct (String.eqb name k); [|discriminate].
    inversion Hk; subst. now apply Hg.
Qed.

Lemma mapM_propAtM_inv ps :
  forall st infos st', mapM propAtM ps st = Ok (infos, st') -> st' = st.
Proof.
  induction ps as [|p ps IH]; intros st infos st' H; simpl in H.
  - now apply ret_inv in H.
  - apply bind_inv in H as (y & st1 & Hy & H).
    apply propAtM_inv in Hy as [-> _].
    apply bind_inv in H as (ys & st2 & Hys & H).
    apply IH in Hys. subst st2. now apply ret_inv in H.
Qed.

(** *** [#addAttribute] *)

Lemma findPropertyPath_spec af fuel path mangle st props st' :
  findPropertyPath fuel path mangle st = Ok (props, st') ->
  Evolves (Rel false af) (root st) (root st') /\
  forall p, In p props -> OriginReachable (root st') (fst (owner p)).
Proof.
  unfold findPropertyPath. destruct (startsWith path "/properties/").
  - intros H. apply findProperty_spec with (af := af) in H; [assumption|].
    constructor.
  - intros H. apply ret_inv in H as [-> ->].
    split; [constructor|intros p []].
Qed.

Lemma attributesBacked_Evolves kf af fuel r r' :
  Evolves (Rel kf af) r r' ->
  attributesBacked fuel r -> attributesBacked fuel r'.
Proof.
  apply (@Evolves_keeps (Rel kf af) (attributesBacked fuel)).
  intros a b. apply attributesBacked_Ev. apply Rel_keepsAttribute.
Qed.

Lemma addAttribute_backed resourceSchema documenter fuel path readOnly st st' :
  addAttribute resourceSchema documenter fuel path readOnly st = Ok (tt, st') ->
  attributesBacked fuel (root st) ->
  attributesBacked fuel (root st').
Proof.
  unfold addAttribute. intros H HB.
  apply bind_inv in H as (props & st1 & Hfind & H).
  apply findPropertyPath_spec with (af := false) in Hfind.
  destruct Hfind as [Hev1 Hreach].
  pose proof (attributesBacked_Evolves fuel Hev1 HB) as HB1.
  destruct props as [|prop rest].
  { apply liftW_inv in H. now rewrite H. }
  set (wildcard := includesChar "*" path) in *.
  apply bind_inv in H as (u & st2 & Hloop & H).
  simpl forEach in Hloop.
  apply bind_inv in Hloop as (u1 & st1c & Hbody & Hrest).
  apply bind_inv in Hbody as (valid & st1a & Hvalid & Hbody).
  apply eligible_inv in Hvalid as [-> Hvalid].
  assert (Hround : forall Q : ResourceType -> Prop,
             (forall r r', EvRoot (Rel true false) r r' -> Q r -> Q r') ->
             Q (root st1c) -> Q (root st2)).
  { intros Q HQ Hc.
    refine (@pres_forEach Q _ _ rest _ _ _ _ Hc Hrest).
    intros p. apply pres_bind; [now apply pres_eligible_flag|intros v].
    now apply pres_attributeStep. }
  (* the first round *)
  assert (Hflagged : valid = true -> flaggedAt prop (root st1c)).
  { intros ->. apply bind_inv in Hbody as (u2 & st1b & Hmark & Hro).
    apply bind_inv in Hmark as (u3 & st1m & Hset & Hmark).
    destruct Hvalid as [[_ Hv]|(_ & info & Hp & _)]; [discriminate|].
    apply modifyRoot_inv in Hset.
    assert (H0 : flaggedAt prop (root st1m)).
    { rewrite Hset. exists (setFlag FlagIsAttribute true info).
      split; [|reflexivity].
      rewrite propAt_updateProp_same. now rewrite Hp. }
    assert (H1 : flaggedAt prop (root st1b)).
    { refine (@pres_markChildren_flag _ (@flagged_step prop) fuel
                (typeLoc prop) FlagIsAttribute true None 1 []
                (conj eq_refl eq_refl) _ _ _ H0 Hmark). }
    destruct readOnly; [|apply ret_inv in Hro as [_ ->]; exact H1].
    refine (@pres_setFlag _ (@flagged_step prop) FlagReadOnly true prop
              I _ _ _ H1 Hro). }
  assert (Hstep : forall r r' : ResourceType,
             EvRoot (Rel true false) r r' ->
             Evolves (Rel true false) (root st1) r ->
             Evolves (Rel true false) (root st1) r').
  { intros a b Hab Ha. eapply Evolves_step; eassumption. }
  assert (Hev2 : Evolves (Rel true false) (root st1) (root st2)).
  { apply (Hround _ Hstep).
    exact (@pres_attributeStep _ Hstep fuel prop valid readOnly
             _ _ _ (Evolves_refl _ _) Hbody). }
  pose proof (attributesBacked_Evolves fuel Hev2 HB1) as HB2.
  (* the closing block *)
  apply bind_inv in H as (first & st2a & Hfirst & H).
  apply propAtM_inv in Hfirst as [-> Hfirst].
  apply bind_inv in H as (infos & st3 & Hinfos & H).
  apply mapM_propAtM_inv in Hinfos. subst st3.
  apply bind_inv in H as (u4 & st4 & Hwarn & H).
  assert (Hroot4 : root st4 = root st2).
  { destruct (forallb _ infos);
      [now apply ret_inv in Hwarn as [_ ->]|now apply liftW_inv in Hwarn]. }
  apply bind_inv in H as (u5 & st5 & Hassert & H).
  apply assert_inv in Hassert as [_ ->].
  apply bind_inv in H as (valid' & st6 & Hvalid' & H).
  apply eligible_inv in Hvalid' as [-> Hvalid'].
  destruct valid'; [|apply ret_inv in H as [_ ->]; now rewrite Hroot4].
  apply modifyRoot_inv in H. rewrite H, Hroot4.
  destruct Hvalid' as [[_ Hv]|(Hw & info & Hp & Hv)]; [discriminate|].
  rewrite Hroot4 in Hp, Hv.
  assert (info = first) by congruence. subst info.
  apply attributesBacked_add; [assumption|].
  split; [reflexivity|]. split; [exact Hv|].
  exists prop, first. split; [|split; [assumption|split; [|reflexivity]]].
  - apply (reach_Evolves Hev2). apply Hreach. now left.
  - destruct Hvalid as [[Hw' _]|(_ & info1 & Hp1 & Hv1)]; [congruence|].
    assert (Hv2 : validityAt fuel prop valid (root st2)).
    { apply (@Evolves_keeps (Rel true false) (validityAt fuel prop valid))
        with (r := root st1); [|assumption|now exists info1].
      intros a b. apply validity_step. }
    destruct Hv2 as (info2 & Hp2 & Hv2).
    assert (info2 = first) by congruence. subst info2.
    assert (valid = true) by congruence. subst valid.
    destruct (Hround _ (@flagged_step prop) (Hflagged eq_refl))
      as (infoe & Hpe & Hae).
    assert (infoe = first) by congruence. now subst infoe.
Qed.

(** For a path with a wildcard, [#addAttribute] renames and writes
    [readOnly] only. *)
Lemma addAttribute_wildcard resourceSchema documenter fuel path readOnly st st' :
  includesChar "*" path = true ->
  addAttribute resourceSchema documenter fuel path readOnly st = Ok (tt, st') ->
  Evolves (Rel false true) (root st) (root st').
Proof.
  unfold addAttribute. intros Hwild H. rewrite Hwild in H.
  apply bind_inv in H as (props & st1 & Hfind & H).
  apply findPropertyPath_spec with (af := true) in Hfind.
  destruct Hfind as [Hev1 _].
  destruct props as [|prop rest].
  { apply liftW_inv in H. now rewrite H. }
  apply bind_inv in H as (u & st2 & Hloop & H).
  assert (Hev2 : Evolves (Rel false true) (root st1) (root st2)).
  { clear - Hloop. revert st1 Hloop.
    generalize (prop :: rest) as props.
    induction props as [|p props IH]; intros st1 Hloop; simpl in Hloop.
    - apply ret_inv in Hloop as [_ ->]. constructor.
    - apply bind_inv in Hloop as (u1 & st1c & Hbody & Hrest).
      apply IH in Hrest.
      refine (Evolves_trans _ Hrest).
      apply bind_inv in Hbody as (valid & st1a & Hvalid & Hbody).
      apply ret_inv in Hvalid as [-> ->].
      apply bind_inv in Hbody as (u2 & st1b & Hskip & Hro).
      apply ret_inv in Hskip as [_ ->].
      destruct readOnly; [|apply ret_inv in Hro as [_ ->]; constructor].
      apply modifyRoot_inv in Hro. rewrite Hro.
      apply Evolves_one. now apply EvRoot_setFlag. }
  apply bind_inv in H as (first & st2a & Hfirst & H).
  apply propAtM_inv in Hfirst as [-> Hfirst].
  apply bind_inv in H as (infos & st3 & Hinfos & H).
  apply mapM_propAtM_inv in Hinfos. subst st3.
  apply bind_inv in H as (u4 & st4 & Hwarn & H).
  assert (Hroot4 : root st4 = root st2).
  { destruct (forallb _ infos);
      [now apply ret_inv in Hwarn as [_ ->]|now apply liftW_inv in Hwarn]. }
  apply bind_inv in H as (u5 & st5 & Hassert & H).
  apply assert_inv in Hassert as [_ ->].
  apply bind_inv in H as (valid' & st6 & Hvalid' & H).
  apply eligible_inv in Hvalid' as [-> [[_ ->]|[Hw _]]]; [|discriminate].
  apply ret_inv in H as [_ ->]. rewrite Hroot4.
  exact (Evolves_trans Hev1 Hev2).
Qed.

(** *** [build] *)

Lemma pres_addAttribute_backed resourceSchema documenter fuel path readOnly :
  preserves (attributesBacked fuel)
    (addAttribute resourceSchema documenter fuel path readOnly).
Proof.
  intros st [] st' HB H. now apply addAttribute_backed in H.
Qed.

Lemma pres_findPropertyPath_backed fuel path mangle :
  preserves (attributesBacked fuel) (findPropertyPath fuel path mangle).
Proof.
  intros st props st' HB H.
  apply findPropertyPath_spec with (af := false) in H as [Hev _].
  exact (attributesBacked_Evolves fuel Hev HB).
Qed.

Lemma pres_analyzePaths_backed resourceSchema documenter fuel :
  preserves (attributesBacked fuel)
    (analyzePaths resourceSchema documenter fuel).
Proof.
  unfold analyzePaths.
  apply pres_bind.
  { unfold readOnlyPropertiesOf.
    destruct (truthyField "readOnlyProperties" resourceSchema) as [v|];
      [|apply pres_ret].
    destruct v; try apply pres_unmodelled.
    apply pres_bind; [|intros; apply pres_ret].
    apply pres_mapM. intros x. destruct x as [[| | |]| |];
      first [apply pres_ret|apply pres_unmodelled]. }
  intros paths. destruct paths as [paths|]; [|apply pres_ret].
  apply pres_bind.
  { apply pres_forEach. intros path. apply pres_addAttribute_backed. }
  intros _. apply pres_forEach. intros path.
  apply pres_bind; [apply pres_findPropertyPath_backed|].
  intros props. apply pres_forEach. intros p.
  apply pres_promote_flag. intros r r'.
  apply attributesBacked_Ev. apply Rel_keepsAttribute.
Qed.

(** In every resource that [build] returns, the entries of the attributes
    type are backed by the graph. *)
Lemma build_backed resourceSchema documenter fuel table rt st :
  build resourceSchema documenter fuel table = Ok (rt, st) ->
  attributesBacked fuel rt.
Proof.
  unfold build.
  destruct (get "typeName" resourceSchema) as [[[| | |s]| |]|];
    try discriminate.
  unfold buildM. intros H.
  apply bind_inv in H as (r0 & st1 & H1 & H). apply liftW_inv in H1.
  destruct (resType r0) as [type|]; [|discriminate].
  apply bind_inv in H as (t & st2 & H2 & H). apply liftW_inv in H2.
  apply bind_inv in H as (u3 & st3 & H3 & H). apply modifyRoot_inv in H3.
  apply bind_inv in H as (u4 & st4 & H4 & H).
  assert (Hnone : attributes (root st4) = None).
  { assert (Hnone3 : attributes (root st3) = None)
      by now rewrite H3, H2, H1.
    revert Hnone3 H4.
    apply (@preserves_apply (fun r => attributes r = None)).
    destruct (truthyField "definitions" resourceSchema); [|apply pres_ret].
    apply pres_bind; [apply pres_liftW|intros entries].
    apply pres_forEach. intros entry.
    apply pres_bind; [apply pres_liftW|intros d].
    apply pres_modifyRoot. intros r Hr. exact Hr. }
  assert (HB4 : attributesBacked fuel (root st4)).
  { unfold attributesBacked. now rewrite Hnone. }
  apply bind_inv in H as (u5 & st5 & H5 & H).
  pose proof (@pres_analyzePaths_backed resourceSchema documenter fuel
                _ _ _ HB4 H5) as HB5.
  apply bind_inv in H as (u6 & st6 & H6 & H).
  apply getRoot_inv in H as [-> ->].
  revert HB5 H6. apply (@preserves_apply (attributesBacked fuel)).
  destruct (get (schemaTypeName resourceSchema) SchemaPaths.ExtraAttributes).
  - apply pres_forEach. intros name. apply pres_addAttribute_backed.
  - destruct (inherited (schemaTypeName resourceSchema));
      [apply pres_unmodelled|apply pres_ret].
Qed.

(** What [#isValidAttributeType] accepts has no object and no record in
    it. *)
Lemma valid_NoStructure r :
  forall fuel t,
    isValidAttributeType fuel r t = Ok true -> NoStructure r t.
Proof.
  induction fuel as [|fuel IH]; intros t Hv; [discriminate|].
  destruct t; simpl in Hv; try discriminate;
    try (apply NS_leaf; [reflexivity|discriminate]).
  - apply NS_array. now apply IH.
  - destruct name as [name| |]; try discriminate.
    unfold definitionOf, lookupDefinition in Hv.
    destruct (get name (definitions r)) as [d|] eqn:Hd.
    + apply NS_reference with d; [assumption|now apply IH].
    + destruct (inherited name); discriminate.
  - apply NS_union. apply everyR_true in Hv.
    induction Hv; constructor; auto.
Qed.

End GraphFacts.

(* ===================================================================== *)
(** ** Facts about the breadcrumb pass *)
(* ===================================================================== *)

Module PromotionFacts.
Import Js TypeNodes Run Builder ClassifyFacts PromotionSpec.

(** *** The graph without its [readOnly] flags *)

Definition eraseInfo (erase : TypeNode -> TypeNode) (e : string * PropertyInfo)
  : string * PropertyInfo :=
  (fst e,
   mkPropertyInfo (documentation (snd e)) (isAttribute (snd e)) None
     (erase (type (snd e)))).

Fixpoint eraseReadOnly (t : TypeNode) : TypeNode :=
  match t with
  | TArray id doc items => TArray id doc (eraseReadOnly items)
  | TObject id props req => TObject id (map (eraseInfo eraseReadOnly) props) req
  | TRecord id value => TRecord id (eraseReadOnly value)
  | TUnion id items => TUnion id (map eraseReadOnly items)
  | _ => t
  end.

Definition eraseDefinition (d : TypeDefinition) : TypeDefinition :=
  withDefType (eraseReadOnly (defType d)) d.

Definition eraseRoot (r : ResourceType) : ResourceType :=
  mkResourceType (typeName r) (attributes r)
    (map (fun d => (fst d, eraseDefinition (snd d))) (definitions r))
    (eraseDefinition (properties r)).

(** Two graphs that differ in [readOnly] flags only. *)
Definition sameButReadOnly (r r' : ResourceType) : Prop :=
  eraseRoot r' = eraseRoot r.

Lemma get_map (V W : Type) (g : V -> W) k (o : list (string * V)) :
  get k (map (fun e => (fst e, g (snd e))) o) = option_map g (get k o).
Proof.
  induction o as [|[k' v] o IH]; simpl; [reflexivity|].
  destruct (String.eqb k' k); [reflexivity|exact IH].
Qed.

Lemma get_eraseInfo erase k (props : list (string * PropertyInfo)) :
  get k (map (eraseInfo erase) props)
  = option_map (fun i => snd (eraseInfo erase (k, i))) (get k props).
Proof.
  induction props as [|[k' v] o IH]; simpl; [reflexivity|].
  destruct (String.eqb k' k); [reflexivity|exact IH].
Qed.

Lemma getNode_erase steps :
  forall t,
    getNode steps (eraseReadOnly t) = option_map eraseReadOnly (getNode steps t).
Proof.
  induction steps as [|s steps IH]; intros t; simpl; [reflexivity|].
  destruct s, t; simpl; try reflexivity.
  - rewrite get_eraseInfo. unfold PropertyInfo in *.
    destruct (get name properties0) as [p|]; simpl; [apply IH|reflexivity].
  - apply IH.
  - apply IH.
  - rewrite nth_error_map. destruct (nth_error items i) as [m|]; simpl;
      [apply IH|reflexivity].
Qed.

Lemma lookupDefinition_erase r name :
  lookupDefinition (eraseRoot r) name
  = option_map eraseDefinition (lookupDefinition r name).
Proof. unfold lookupDefinition, eraseRoot. simpl. apply get_map. Qed.

Lemma originType_erase r o :
  originType (eraseRoot r) o = option_map eraseReadOnly (originType r o).
Proof.
  destruct o as [|name]; simpl; [reflexivity|].
  rewrite lookupDefinition_erase. now destruct (lookupDefinition r name).
Qed.

Lemma nodeAt_erase r loc :
  nodeAt (eraseRoot r) loc = option_map eraseReadOnly (nodeAt r loc).
Proof.
  unfold nodeAt. rewrite originType_erase.
  destruct (originType r (fst loc)) as [t|]; simpl; [|reflexivity].
  apply getNode_erase.
Qed.

Lemma propAt_erase r q :
  propAt (eraseRoot r) q
  = option_map (fun i => snd (eraseInfo eraseReadOnly (key q, i))) (propAt r q).
Proof.
  unfold propAt. rewrite nodeAt_erase.
  destruct (nodeAt r (owner q)) as [[]|]; simpl; try reflexivity.
  apply get_eraseInfo.
Qed.

Lemma definitionOf_erase r name :
  definitionOf (eraseRoot r) name
  = match definitionOf r name with
    | Ok (Some d) => Ok (Some (eraseDefinition d))
    | other => other
    end.
Proof.
  unfold definitionOf. rewrite lookupDefinition_erase.
  destruct (lookupDefinition r name); simpl; [reflexivity|].
  now destruct (inherited name).
Qed.

Lemma everyR_map (A B : Type) (g : A -> B) (f : B -> Result bool) xs :
  everyR f (map g xs) = everyR (fun x => f (g x)) xs.
Proof.
  induction xs as [|x xs IH]; simpl; [reflexivity|]. now rewrite IH.
Qed.

Lemma everyR_ext_all (A : Type) (f g : A -> Result bool) xs :
  (forall x, f x = g x) -> everyR f xs = everyR g xs.
Proof.
  intros H. induction xs as [|x xs IH]; simpl; [reflexivity|].
  now rewrite H, IH.
Qed.

Section Checks.
(** An answer of [childrenCheck] on objects that does not look at
    [readOnly]. *)
Variable atObject : list PropertyInfo -> bool.
Hypothesis atObject_erase :
  forall props : list (string * PropertyInfo),
    atObject (values (map (eraseInfo eraseReadOnly) props))
    = atObject (values props).

Lemma childrenCheck_erase fuel :
  forall r t,
    childrenCheck atObject fuel (eraseRoot r) (eraseReadOnly t)
    = childrenCheck atObject fuel r t.
Proof.
  induction fuel as [|fuel IH]; intros r t; [reflexivity|].
  destruct t; simpl; try reflexivity.
  - apply IH.
  - now rewrite atObject_erase.
  - destruct name as [name| |]; try reflexivity.
    rewrite definitionOf_erase.
    destruct (definitionOf r name) as [[d|]| | |]; try reflexivity.
    apply (IH r (defType d)).
  - rewrite everyR_map. apply everyR_ext_all. intros x. apply IH.
Qed.

Lemma childrenCheck_same fuel r r' t t' :
  sameButReadOnly r r' -> eraseReadOnly t' = eraseReadOnly t ->
  childrenCheck atObject fuel r' t' = childrenCheck atObject fuel r t.
Proof.
  intros Hr Ht. rewrite <- (childrenCheck_erase fuel r' t').
  rewrite <- (childrenCheck_erase fuel r t). now rewrite Hr, Ht.
Qed.

End Checks.


(** *** Writing a [readOnly] flag changes nothing else *)

Lemma map_alter_same (V W : Type) (h : string * V -> W) (f : V -> V) k
  (o : list (string * V)) :
  (forall k' v, h (k', f v) = h (k', v)) ->
  map h (alter f k o) = map h o.
Proof.
  intros H. induction o as [|[k' v] o IH]; simpl; [reflexivity|].
  destruct (String.eqb k' k); simpl; [now rewrite H|now rewrite IH].
Qed.

Lemma map_alterNth_same (A B : Type) (h : A -> B) (f : A -> A) i :
  forall l, (forall x, In x l -> h (f x) = h x) ->
            map h (alterNth f i l) = map h l.
Proof.
  induction i as [|i IH]; intros [|x l] H; simpl; try reflexivity.
  - rewrite H; [reflexivity|now left].
  - rewrite IH; [reflexivity|]. intros y Hy. apply H. now right.
Qed.

Lemma erase_updateNode f steps :
  (forall n, eraseReadOnly (f n) = eraseReadOnly n) ->
  forall t, eraseReadOnly (updateNode f steps t) = eraseReadOnly t.
Proof.
  intros Hf. induction steps as [|s steps IH]; intros t; simpl; [apply Hf|].
  destruct s, t; simpl; try reflexivity.
  - f_equal. apply map_alter_same. intros k' v. unfold eraseInfo. simpl.
    now rewrite IH.
  - now rewrite IH.
  - now rewrite IH.
  - f_equal. apply map_alterNth_same. intros x _. apply IH.
Qed.

Lemma erase_updateAt f loc r :
  (forall n, eraseReadOnly (f n) = eraseReadOnly n) ->
  eraseRoot (updateAt f loc r) = eraseRoot r.
Proof.
  intros Hf. unfold updateAt, eraseRoot. destruct (fst loc) as [|name]; simpl.
  - unfold eraseDefinition, withDefType. simpl.
    now rewrite erase_updateNode.
  - f_equal. apply map_alter_same. intros k' d.
    unfold eraseDefinition, withDefType. simpl. now rewrite erase_updateNode.
Qed.

Lemma erase_setReadOnly value p r :
  sameButReadOnly r (updateProp (setFlag FlagReadOnly value) p r).
Proof.
  unfold sameButReadOnly, updateProp. apply erase_updateAt.
  intros [] ; simpl; try reflexivity.
  f_equal. apply map_alter_same. intros k' v. reflexivity.
Qed.

Lemma sameButReadOnly_refl r : sameButReadOnly r r.
Proof. reflexivity. Qed.

Lemma sameButReadOnly_trans r1 r2 r3 :
  sameButReadOnly r1 r2 -> sameButReadOnly r2 r3 -> sameButReadOnly r1 r3.
Proof. unfold sameButReadOnly. congruence. Qed.

Lemma sameButReadOnly_sym r1 r2 :
  sameButReadOnly r1 r2 -> sameButReadOnly r2 r1.
Proof. unfold sameButReadOnly. congruence. Qed.

(** *** What two such graphs share *)

Lemma nodeAt_same r r' loc n :
  sameButReadOnly r r' -> nodeAt r loc = Some n ->
  exists n', nodeAt r' loc = Some n' /\ eraseReadOnly n' = eraseReadOnly n.
Proof.
  intros Hr Hn. pose proof (nodeAt_erase r' loc) as H'.
  rewrite Hr, nodeAt_erase, Hn in H'. simpl in H'.
  destruct (nodeAt r' loc) as [n'|]; [|discriminate].
  exists n'. split; [reflexivity|]. simpl in H'. congruence.
Qed.

Lemma propAt_same r r' q info :
  sameButReadOnly r r' -> propAt r q = Some info ->
  exists info',
    propAt r' q = Some info' /\
    isAttribute info' = isAttribute info /\
    documentation info' = documentation info /\
    eraseReadOnly (type info') = eraseReadOnly (type info).
Proof.
  intros Hr Hq. pose proof (propAt_erase r' q) as H'.
  rewrite Hr, propAt_erase, Hq in H'. simpl in H'.
  destruct (propAt r' q) as [info'|]; [|discriminate].
  exists info'. split; [reflexivity|]. simpl in H'.
  inversion H'. repeat split; congruence.
Qed.

Lemma lookupDefinition_same r r' name d :
  sameButReadOnly r r' -> lookupDefinition r name = Some d ->
  exists d', lookupDefinition r' name = Some d' /\
             eraseReadOnly (defType d') = eraseReadOnly (defType d).
Proof.
  intros Hr Hd. pose proof (lookupDefinition_erase r' name) as H'.
  rewrite Hr, lookupDefinition_erase, Hd in H'. simpl in H'.
  destruct (lookupDefinition r' name) as [d'|]; [|discriminate].
  exists d'. split; [reflexivity|]. simpl in H'. inversion H'. reflexivity.
Qed.

Lemma erase_object t id props req :
  eraseReadOnly t = eraseReadOnly (TObject id props req) ->
  exists props', t = TObject id props' req.
Proof. destruct t; simpl; intros H; inversion H. eauto. Qed.

Lemma erase_array t id doc items :
  eraseReadOnly t = eraseReadOnly (TArray id doc items) ->
  exists items', t = TArray id doc items' /\
                 eraseReadOnly items' = eraseReadOnly items.
Proof. destruct t; simpl; intros H; inversion H. eauto. Qed.

Lemma erase_record t id value :
  eraseReadOnly t = eraseReadOnly (TRecord id value) ->
  exists value', t = TRecord id value' /\
                 eraseReadOnly value' = eraseReadOnly value.
Proof. destruct t; simpl; intros H; inversion H. eauto. Qed.

Lemma erase_reference t id name :
  eraseReadOnly t = eraseReadOnly (TReference id name) ->
  t = TReference id name.
Proof. destruct t; simpl; intros H; inversion H. reflexivity. Qed.

Lemma erase_union t id items :
  eraseReadOnly t = eraseReadOnly (TUnion id items) ->
  exists items', t = TUnion id items' /\
                 map eraseReadOnly items' = map eraseReadOnly items.
Proof. destruct t; simpl; intros H; inversion H. eauto. Qed.

Lemma ChildObject_same r r' loc o :
  sameButReadOnly r r' -> ChildObject r loc o -> ChildObject r' loc o.
Proof.
  intros Hr H. induction H as
    [loc id props req Hn
    |loc id doc items o Hn _ IH
    |loc id value o Hn _ IH
    |loc id name d o Hn Hd _ IH
    |loc id items i o Hn Hi _ IH].
  - destruct (nodeAt_same _ Hr Hn) as (n' & Hn' & He).
    apply erase_object in He as (props' & ->). eapply CO_object; eauto.
  - destruct (nodeAt_same _ Hr Hn) as (n' & Hn' & He).
    apply erase_array in He as (items' & -> & _). eapply CO_items; eauto.
  - destruct (nodeAt_same _ Hr Hn) as (n' & Hn' & He).
    apply erase_record in He as (value' & -> & _). eapply CO_value; eauto.
  - destruct (nodeAt_same _ Hr Hn) as (n' & Hn' & He).
    apply erase_reference in He as ->.
    destruct (lookupDefinition_same _ Hr Hd) as (d' & Hd' & _).
    eapply CO_target; eauto.
  - destruct (nodeAt_same _ Hr Hn) as (n' & Hn' & He).
    apply erase_union in He as (items' & -> & Hm).
    eapply CO_member; eauto.
    rewrite <- (length_map eraseReadOnly items'), Hm, length_map. exact Hi.
Qed.


(** *** The types [#allReadOnlyChildren] can say yes to *)

(** [childrenCheck] comes down to objects everywhere within [fuel]. *)
Definition shaped (fuel : nat) (r : ResourceType) (t : TypeNode) : Prop :=
  childrenCheck (fun _ => true) fuel r t = Ok true.

Lemma everyR_all (A : Type) (f : A -> Result bool) xs :
  everyR f xs = Ok true <-> Forall (fun x => f x = Ok true) xs.
Proof.
  induction xs as [|x xs IH]; simpl.
  - split; [constructor|reflexivity].
  - split.
    + intros H. destruct (f x) as [[|]| | |] eqn:E; try discriminate.
      constructor; [exact E|now apply IH].
    + intros H. inversion H as [|? ? Hx Hxs]; subst. rewrite Hx.
      now apply IH.
Qed.

Lemma everyR_returns (A : Type) (f : A -> Result bool) xs :
  Forall (fun x => exists b, f x = Ok b) xs -> exists b, everyR f xs = Ok b.
Proof.
  induction 1 as [|x xs (b & Hb) _ IH]; simpl; [eauto|].
  rewrite Hb. destruct b; [exact IH|eauto].
Qed.

Lemma check_shaped atObject fuel :
  forall r t, childrenCheck atObject fuel r t = Ok true -> shaped fuel r t.
Proof.
  unfold shaped. induction fuel as [|fuel IH]; intros r t H; [discriminate|].
  destruct t; simpl in *; try discriminate.
  - now apply IH.
  - reflexivity.
  - destruct name as [name| |]; try discriminate.
    destruct (definitionOf r name) as [[d|]| | |]; try discriminate.
    now apply IH.
  - apply everyR_all. apply everyR_all in H.
    eapply Forall_impl; [|exact H]. intros x Hx. now apply IH.
Qed.

Lemma shaped_returns atObject fuel :
  forall r t, shaped fuel r t -> exists b, childrenCheck atObject fuel r t = Ok b.
Proof.
  unfold shaped. induction fuel as [|fuel IH]; intros r t H; [discriminate|].
  destruct t; simpl in *; try discriminate.
  - now apply IH.
  - eauto.
  - destruct name as [name| |]; try discriminate.
    destruct (definitionOf r name) as [[d|]| | |]; try discriminate.
    now apply IH.
  - apply everyR_returns. apply everyR_all in H.
    eapply Forall_impl; [|exact H]. intros x Hx. now apply IH.
Qed.

Lemma shaped_S fuel :
  forall r t, shaped fuel r t -> shaped (S fuel) r t.
Proof.
  unfold shaped. induction fuel as [|fuel IH]; intros r t H; [discriminate|].
  destruct t; try discriminate.
  - simpl in H. change (childrenCheck (fun _ => true) (S fuel) r t = Ok true).
    now apply IH.
  - reflexivity.
  - destruct name as [name| |]; try discriminate.
    simpl in H.
    change (match definitionOf r name with
            | Ok (Some target) =>
                childrenCheck (fun _ => true) (S fuel) r (defType target)
            | Ok None => Throw "unexpected invalid reference name"
            | Throw msg => Throw msg
            | OutOfFuel => OutOfFuel
            | Unmodelled => Unmodelled
            end = Ok true).
    destruct (definitionOf r name) as [[d|]| | |]; try discriminate.
    now apply IH.
  - simpl in H.
    change (everyR (childrenCheck (fun _ => true) (S fuel) r) items = Ok true).
    apply everyR_all. apply everyR_all in H.
    eapply Forall_impl; [|exact H]. intros x Hx. now apply IH.
Qed.

Lemma shaped_le fuel fuel' r t :
  fuel <= fuel' -> shaped fuel r t -> shaped fuel' r t.
Proof.
  induction 1 as [|fuel' _ IH]; intros H; [assumption|].
  apply shaped_S. now apply IH.
Qed.

Lemma shaped_dec fuel r t : shaped fuel r t \/ ~ shaped fuel r t.
Proof.
  unfold shaped.
  destruct (childrenCheck (fun _ => true) fuel r t) as [[|]| | |];
    [now left|right|right|right|right]; discriminate.
Qed.

(** The least fuel that is enough. *)
Lemma shaped_least fuel :
  forall r t,
    shaped fuel r t ->
    exists k, S k <= fuel /\ shaped (S k) r t /\ ~ shaped k r t.
Proof.
  induction fuel as [|fuel IH]; intros r t H; [discriminate|].
  destruct (shaped_dec fuel r t) as [Hless|Hnot].
  - destruct (IH r t Hless) as (k & Hk & H1 & H2).
    exists k. repeat split; try assumption. lia.
  - exists fuel. repeat split; try assumption. lia.
Qed.

Lemma shaped_same fuel r r' t t' :
  sameButReadOnly r r' -> eraseReadOnly t' = eraseReadOnly t ->
  shaped fuel r t -> shaped fuel r' t'.
Proof.
  unfold shaped. intros Hr Ht H.
  rewrite (@childrenCheck_same (fun _ => true) (fun _ => eq_refl)
             fuel r r' t t' Hr Ht).
  exact H.
Qed.

Lemma anyAttribute_same fuel r r' t t' :
  sameButReadOnly r r' -> eraseReadOnly t' = eraseReadOnly t ->
  anyAttributeChildren fuel r' t' = anyAttributeChildren fuel r t.
Proof.
  intros Hr Ht. unfold anyAttributeChildren.
  apply childrenCheck_same; try assumption.
  intros props. unfold values.
  induction props as [|[k v] props IH]; simpl; [reflexivity|].
  now rewrite IH.
Qed.


(** *** A property after a write to another one *)

Lemma nth_alterNth_other (A : Type) (f : A -> A) i j :
  forall l : list A, i <> j -> nth_error (alterNth f i l) j = nth_error l j.
Proof.
  revert j. induction i as [|i IH]; intros [|j] [|x l] H; simpl;
    try reflexivity; try congruence.
  apply IH. congruence.
Qed.

(** The property [k] of the object at [steps] below [t]. *)
Definition propIn (steps : list Step) (k : string) (t : TypeNode)
  : option PropertyInfo :=
  match getNode steps t with
  | Some (TObject _ props _) => get k props
  | _ => None
  end.

Section OtherProperty.
Variable A : Type.
(** What is read of a property: one of its flags, not its type. *)
Variable view : PropertyInfo -> A.
Hypothesis view_withType : forall t i, view (withType t i) = view i.
Variable f : PropertyInfo -> PropertyInfo.
Hypothesis f_type : forall i, type (f i) = type i.

Lemma propIn_other kq kp :
  forall sq sp t,
    (sq, kq) <> (sp, kp) ->
    option_map view (propIn sq kq (updateNode (alterChild f kp) sp t))
    = option_map view (propIn sq kq t).
Proof.
  unfold propIn.
  induction sq as [|a sq IH]; intros sp t Hne.
  - destruct sp as [|b sp].
    + simpl. destruct t; simpl; try reflexivity.
      rewrite get_alter_other; [reflexivity|]. congruence.
    + simpl. destruct b, t; simpl; try reflexivity.
      destruct (String.eqb name kq) eqn:E.
      * apply String.eqb_eq in E. subst name. rewrite get_alter_same.
        unfold PropertyInfo in *.
        destruct (get kq properties0); simpl; [|reflexivity].
        now rewrite view_withType.
      * rewrite get_alter_other; [reflexivity|].
        intros ->. now rewrite String.eqb_refl in E.
  - destruct sp as [|b sp].
    + simpl updateNode. destruct t; simpl; try reflexivity.
      destruct a; try reflexivity.
      destruct (String.eqb kp name) eqn:E.
      * apply String.eqb_eq in E. subst name. rewrite get_alter_same.
        unfold PropertyInfo in *.
        destruct (get kp properties0); simpl; [|reflexivity].
        now rewrite f_type.
      * rewrite get_alter_other; [reflexivity|].
        intros ->. now rewrite String.eqb_refl in E.
    + destruct b, t; try reflexivity; destruct a; try reflexivity.
      * simpl. destruct (String.eqb name name0) eqn:E.
        -- apply String.eqb_eq in E. subst name0. rewrite get_alter_same.
           unfold PropertyInfo in *.
           destruct (get name properties0) as [p|]; simpl; [|reflexivity].
           apply IH. congruence.
        -- rewrite get_alter_other; [reflexivity|].
           intros ->. now rewrite String.eqb_refl in E.
      * simpl. apply IH. congruence.
      * simpl. apply IH. congruence.
      * simpl. destruct (Nat.eq_dec i i0) as [->|Hi].
        -- rewrite nth_alterNth_same.
           destruct (nth_error items i0) as [m|]; simpl; [|reflexivity].
           apply IH. congruence.
        -- now rewrite nth_alterNth_other.
Qed.

Lemma origin_dec (a b : Origin) : a = b \/ a <> b.
Proof.
  destruct a as [|x], b as [|y]; try (right; discriminate); [now left|].
  destruct (string_dec x y) as [->|H]; [now left|right; congruence].
Qed.

Lemma originType_updateAt_other g loc r o :
  fst loc <> o -> originType (updateAt g loc r) o = originType r o.
Proof.
  intros Hne. destruct loc as [[|name] steps], o as [|name']; simpl in *;
    try reflexivity; try congruence.
  unfold lookupDefinition. simpl. rewrite get_alter_other; [reflexivity|].
  congruence.
Qed.

Lemma propAt_updateProp_other p q r :
  q <> p ->
  option_map view (propAt (updateProp f p r) q) = option_map view (propAt r q).
Proof.
  intros Hne. destruct p as [[op sp] kp], q as [[oq sq] kq].
  unfold propAt, updateProp, nodeAt. cbn [owner key fst snd].
  destruct (origin_dec op oq) as [->|Ho].
  - rewrite (@originType_updateAt _ (oq, sp) r). cbn [fst snd].
    destruct (originType r oq) as [t|]; simpl; [|reflexivity].
    apply (@propIn_other kq kp sq sp t). congruence.
  - rewrite originType_updateAt_other by exact Ho. reflexivity.
Qed.

End OtherProperty.

Lemma readOnly_other flag value p q r :
  q <> p ->
  option_map (@readOnly TypeNode) (propAt (updateProp (setFlag flag value) p r) q)
  = option_map (@readOnly TypeNode) (propAt r q).
Proof.
  apply propAt_updateProp_other; [reflexivity|]. now destruct flag.
Qed.

Lemma isAttribute_other flag value p q r :
  q <> p ->
  option_map (@isAttribute TypeNode)
    (propAt (updateProp (setFlag flag value) p r) q)
  = option_map (@isAttribute TypeNode) (propAt r q).
Proof.
  apply propAt_updateProp_other; [reflexivity|]. now destruct flag.
Qed.

Lemma propRef_dec (p q : PropRef) : p = q \/ p <> q.
Proof.
  assert (Hstep : forall a b : Step, {a = b} + {a <> b}).
  { decide equality; [apply string_dec|apply Nat.eq_dec]. }
  assert (Horigin : forall a b : Origin, {a = b} + {a <> b}).
  { decide equality. apply string_dec. }
  destruct p as [[op sp] kp], q as [[oq sq] kq].
  destruct (Horigin op oq) as [->|H]; [|right; congruence].
  destruct (list_eq_dec Hstep sp sq) as [->|H]; [|right; congruence].
  destruct (string_dec kp kq) as [->|H]; [now left|right; congruence].
Qed.

Lemma steps_eqb_eq a : forall b, steps_eqb a b = true -> a = b.
Proof.
  induction a as [|x a IH]; intros [|y b] H; simpl in H; try discriminate;
    [reflexivity|].
  apply andb_prop in H as [Hx Hr]. f_equal; [|now apply IH].
  destruct x, y; simpl in Hx; try discriminate; try reflexivity.
  - apply String.eqb_eq in Hx. now subst.
  - apply Nat.eqb_eq in Hx. now subst.
Qed.

Lemma loc_eqb_eq (a b : Loc) : loc_eqb a b = true -> a = b.
Proof.
  destruct a as [oa sa], b as [ob sb]. unfold loc_eqb. simpl. intros H.
  apply andb_prop in H as [Ho Hs]. apply steps_eqb_eq in Hs. subst sb.
  destruct oa, ob; simpl in Ho; try discriminate; [reflexivity|].
  apply String.eqb_eq in Ho. now subst.
Qed.


(** *** What [#markChildren] does to the [readOnly] flags *)

(** From [r] to [r'] nothing but [readOnly] flags changed, and a flag
    either stayed or became [false]. *)
Definition fades (r r' : ResourceType) : Prop :=
  sameButReadOnly r r' /\
  forall q info info',
    propAt r q = Some info -> propAt r' q = Some info' ->
    readOnly info' = readOnly info \/ readOnly info' = Some false.

(** From [r] to [r'] the properties in [T] got [readOnly = false] and
    the others kept their flag. *)
Definition clears (T : PropRef -> Prop) (r r' : ResourceType) : Prop :=
  fades r r' /\
  (forall q info', T q -> propAt r' q = Some info' ->
                   readOnly info' = Some false) /\
  (forall q, ~ T q ->
             option_map (@readOnly TypeNode) (propAt r' q)
             = option_map (@readOnly TypeNode) (propAt r q)).

Lemma fades_refl r : fades r r.
Proof.
  split; [reflexivity|]. intros q info info' H H'. left. congruence.
Qed.

Lemma fades_trans r1 r2 r3 : fades r1 r2 -> fades r2 r3 -> fades r1 r3.
Proof.
  intros [Hs1 H1] [Hs2 H2]. split; [eapply sameButReadOnly_trans; eauto|].
  intros q info info' Hq Hq'.
  destruct (propAt_same q Hs1 Hq) as (info2 & Hq2 & _).
  destruct (H1 _ _ _ Hq Hq2) as [E1|E1], (H2 _ _ _ Hq2 Hq') as [E2|E2];
    try (right; congruence). left. congruence.
Qed.

Lemma clears_none r : clears (fun _ => False) r r.
Proof.
  split; [apply fades_refl|]. split; [intros q info' []|reflexivity].
Qed.

Lemma clears_iff (T T' : PropRef -> Prop) r r' :
  (forall q, T q <-> T' q) -> clears T r r' -> clears T' r r'.
Proof.
  intros HT (Hf & Hc & Hu). split; [exact Hf|]. split.
  - intros q info' Hq. apply Hc. now apply HT.
  - intros q Hq. apply Hu. intros H. apply Hq. now apply HT.
Qed.

Lemma clears_among (T T' : PropRef -> Prop) r r' :
  (forall q, T q -> T' q) ->
  (forall q info', T' q -> propAt r' q = Some info' -> T q) ->
  clears T r r' -> clears T' r r'.
Proof.
  intros Hin Hout (Hf & Hc & Hu). split; [exact Hf|]. split.
  - intros q info' Hq Hq'. apply (Hc q); [|exact Hq']. eapply Hout; eauto.
  - intros q Hq. apply Hu. intros H. apply Hq. now apply Hin.
Qed.

Lemma clears_seq (T1 T2 : PropRef -> Prop) r r1 r2 :
  clears T1 r r1 -> clears T2 r1 r2 ->
  clears (fun q => T1 q \/ T2 q) r r2.
Proof.
  intros (Hf1 & Hc1 & Hu1) (Hf2 & Hc2 & Hu2).
  split; [eapply fades_trans; eauto|]. split.
  - intros q info' [Hq|Hq] Hq'; [|now apply (Hc2 q)].
    destruct Hf2 as [Hs2 Hf2].
    destruct (propAt_same q (sameButReadOnly_sym Hs2) Hq')
      as (info1 & Hq1 & _).
    destruct (Hf2 _ _ _ Hq1 Hq') as [E|E]; [|exact E].
    rewrite E. now apply (Hc1 q).
  - intros q Hq. rewrite Hu2, Hu1; [reflexivity| |]; tauto.
Qed.

Lemma clears_write t r :
  clears (fun q => q = t) r (updateProp (setFlag FlagReadOnly false) t r).
Proof.
  split; [split|split].
  - apply erase_setReadOnly.
  - intros q info info' Hq Hq'. destruct (propRef_dec q t) as [->|Hne].
    + right. rewrite propAt_updateProp_same, Hq in Hq'. simpl in Hq'.
      inversion Hq'. reflexivity.
    + left. pose proof (@readOnly_other FlagReadOnly false t q r Hne) as H.
      rewrite Hq, Hq' in H. simpl in H. congruence.
  - intros q info' -> Hq'. rewrite propAt_updateProp_same in Hq'.
    destruct (propAt r t); simpl in Hq'; [|discriminate].
    inversion Hq'. reflexivity.
  - intros q Hq. now apply readOnly_other.
Qed.

Lemma clears_fold loc names :
  forall r,
    clears (fun q => owner q = loc /\ In (key q) names) r
      (fold_left (fun r name =>
                    updateProp (setFlag FlagReadOnly false)
                      (mkPropRef loc name) r) names r).
Proof.
  induction names as [|name names IH]; intros r; simpl.
  - eapply clears_iff; [|apply clears_none]. intros q. tauto.
  - eapply clears_iff; [|eapply clears_seq; [apply clears_write|apply IH]].
    intros [o k]. simpl. split.
    + intros [H|[H1 H2]]; [inversion H; subst; tauto|tauto].
    + intros [-> [<-|H]]; [now left|right; tauto].
Qed.

Lemma nodeAt_below r loc s :
  nodeAt r (below loc s)
  = match nodeAt r loc with
    | Some n => getNode [s] n
    | None => None
    end.
Proof.
  unfold nodeAt, below. cbn [fst snd].
  destruct (originType r (fst loc)) as [t|]; [|reflexivity].
  apply getNode_app.
Qed.

Lemma nodeAt_definition r name d :
  lookupDefinition r name = Some d ->
  nodeAt r (InDefinition name, []) = Some (defType d).
Proof. intros H. unfold nodeAt. simpl. now rewrite H. Qed.

Lemma definitionOf_lookup r name d :
  definitionOf r name = Ok (Some d) -> lookupDefinition r name = Some d.
Proof.
  unfold definitionOf. destruct (lookupDefinition r name); [congruence|].
  now destruct (inherited name).
Qed.

(** The children of each kind of type. *)
Lemma child_object r loc id props req o :
  nodeAt r loc = Some (TObject id props req) ->
  (ChildObject r loc o <-> o = loc).
Proof.
  intros Hn. split.
  - intros H. inversion H; subst; try congruence.
  - intros ->. eapply CO_object; eauto.
Qed.

Lemma child_array r loc id doc items o :
  nodeAt r loc = Some (TArray id doc items) ->
  (ChildObject r loc o <-> ChildObject r (below loc AtItems) o).
Proof.
  intros Hn. split.
  - intros H. inversion H; subst; try congruence.
  - intros H. eapply CO_items; eauto.
Qed.

Lemma child_reference r loc id name d o :
  nodeAt r loc = Some (TReference id (NameString name)) ->
  lookupDefinition r name = Some d ->
  (ChildObject r loc o <-> ChildObject r (InDefinition name, []) o).
Proof.
  intros Hn Hd. split.
  - intros H. inversion H; subst; congruence.
  - intros H. eapply CO_target; eauto.
Qed.

Lemma child_union r loc id items o :
  nodeAt r loc = Some (TUnion id items) ->
  (ChildObject r loc o <->
   exists i, In i (seq 0 (List.length items)) /\
             ChildObject r (below loc (AtMember i)) o).
Proof.
  intros Hn. split.
  - intros H. inversion H; subst; try congruence.
    match goal with
    | H1 : nodeAt r loc = Some (TUnion _ _) |- _ =>
        rewrite Hn in H1; inversion H1; subst
    end.
    exists i. split; [apply in_seq; lia|assumption].
  - intros (i & Hi & H). apply in_seq in Hi. eapply CO_member; eauto. lia.
Qed.

(** The immediate children of the type at [loc], as properties. *)
Definition childProp (r : ResourceType) (loc : Loc) (q : PropRef) : Prop :=
  ChildObject r loc (owner q).

Lemma markObject_runs loc names :
  forall st,
    forEach
      (fun name =>
         modifyRoot (updateProp (setFlag FlagReadOnly false)
                       (mkPropRef loc name)) ;;;
         ret tt)
      names st
    = Ok (tt, mkState
                (fold_left (fun r name =>
                              updateProp (setFlag FlagReadOnly false)
                                (mkPropRef loc name) r) names (root st))
                (diag st)).
Proof.
  induction names as [|name names IH]; intros st; simpl.
  - now destruct st.
  - unfold bind at 1, bind at 1, modifyRoot at 1. unfold ret at 1.
    rewrite IH. reflexivity.
Qed.

Lemma markChildren_clears :
  forall m fuel loc node stack st,
    m <= fuel ->
    nodeAt (root st) loc = Some node ->
    shaped m (root st) node ->
    (forall s n, In s stack -> nodeAt (root st) s = Some n ->
                 ~ shaped m (root st) n) ->
    exists st',
      markChildren fuel loc FlagReadOnly false (Some 1) 1 stack st
      = Ok (tt, st') /\
      clears (childProp (root st) loc) (root st) (root st').
Proof.
  induction m as [m IH] using lt_wf_ind.
  intros fuel loc node stack st Hle Hnode Hshaped Hstack.
  destruct (shaped_least Hshaped) as (k & Hk & Hsk & Hnk).
  destruct fuel as [|fuel]; [lia|].
  assert (Hfree : existsb (loc_eqb loc) stack = false).
  { destruct (existsb (loc_eqb loc) stack) eqn:E; [|reflexivity].
    apply existsb_exists in E as (s & Hs & Heq). apply loc_eqb_eq in Heq.
    subst s. exfalso. exact (Hstack loc node Hs Hnode Hshaped). }
  assert (Hstack' : forall s n,
            In s (stack ++ [loc]) -> nodeAt (root st) s = Some n ->
            ~ shaped k (root st) n).
  { intros s n Hs Hn Hsh. apply in_app_or in Hs as [Hs|[<-|[]]].
    - apply (Hstack s n Hs Hn). eapply shaped_le; [|exact Hsh]. lia.
    - rewrite Hnode in Hn. inversion Hn; subst. contradiction. }
  simpl markChildren. rewrite Hfree. unfold bind at 1, nodeAtM, bind at 1, getRoot.
  rewrite Hnode. unfold ret at 1.
  destruct node; try discriminate.
  - (* array *)
    unfold shaped in Hsk. simpl in Hsk. fold (shaped k (root st) node) in Hsk.
    assert (Hitems : nodeAt (root st) (below loc AtItems) = Some node).
    { rewrite nodeAt_below, Hnode. reflexivity. }
    assert (Hfuel : k <= fuel) by lia.
    destruct (IH k ltac:(lia) fuel (below loc AtItems) node (stack ++ [loc]) st
                Hfuel Hitems Hsk Hstack')
      as (st' & Hrun & Hclears).
    exists st'. split; [exact Hrun|].
    eapply clears_iff; [|exact Hclears]. intros q. unfold childProp.
    symmetry. eapply child_array; eauto.
  - (* object *)
    rewrite markObject_runs. eexists. split; [reflexivity|]. simpl root.
    pose proof (clears_fold loc (keys properties0) (root st)) as Hclears.
    eapply clears_among; [| |exact Hclears].
    + intros q [Hq _]. unfold childProp.
      apply (@child_object _ _ _ _ _ (owner q) Hnode). exact Hq.
    + intros q info' Hq Hq'. unfold childProp in Hq.
      apply (@child_object _ _ _ _ _ (owner q) Hnode) in Hq. split; [exact Hq|].
      destruct Hclears as [[Hsame _] _].
      destruct (propAt_same q (sameButReadOnly_sym Hsame) Hq')
        as (info & Hinfo & _).
      unfold propAt in Hinfo. rewrite Hq, Hnode in Hinfo.
      eapply get_keys; eauto.
  - (* reference *)
    destruct name as [name| |]; try discriminate.
    unfold shaped in Hsk. simpl in Hsk.
    destruct (definitionOf (root st) name) as [[d|]| | |] eqn:Hdef;
      try discriminate.
    fold (shaped k (root st) (defType d)) in Hsk.
    unfold bind at 1. unfold bind at 1, liftR at 1. rewrite Hdef.
    pose proof (@definitionOf_lookup _ _ _ Hdef) as Hd.
    assert (Hfuel : k <= fuel) by lia.
    destruct (IH k ltac:(lia) fuel (InDefinition name, []) (defType d)
                (stack ++ [loc]) st Hfuel (@nodeAt_definition _ _ _ Hd) Hsk
                Hstack')
      as (st' & Hrun & Hclears).
    exists st'. split; [exact Hrun|].
    eapply clears_iff; [|exact Hclears]. intros q. unfold childProp.
    symmetry. eapply child_reference; eauto.
  - (* union *)
    unfold shaped in Hsk. simpl in Hsk. apply everyR_all in Hsk.
    assert (Hfuel : k <= fuel) by lia.
    assert (Hmembers :
      forall idx st1,
        (forall i, In i idx -> i < List.length items) ->
        sameButReadOnly (root st) (root st1) ->
        exists st',
          forEach
            (fun i =>
               markChildren fuel (below loc (AtMember i)) FlagReadOnly false
                 (Some 1) 1 (stack ++ [loc])) idx st1 = Ok (tt, st') /\
          clears (fun q => exists i, In i idx /\
                                     childProp (root st)
                                       (below loc (AtMember i)) q)
            (root st1) (root st')).
    { induction idx as [|i idx IHidx]; intros st1 Hidx Hsame.
      - exists st1. split; [reflexivity|].
        eapply clears_iff; [|apply clears_none].
        intros q. split; [intros []|intros (i & [] & _)].
      - assert (Hi : i < List.length items) by (apply Hidx; now left).
        destruct (nth_error items i) as [member|] eqn:Hnth;
          [|apply nth_error_None in Hnth; lia].
        assert (Hmember : nodeAt (root st) (below loc (AtMember i))
                          = Some member).
        { rewrite nodeAt_below, Hnode. simpl. now rewrite Hnth. }
        destruct (nodeAt_same _ Hsame Hmember) as (member' & Hmember' & He).
        assert (Hsh : shaped k (root st1) member').
        { apply (@shaped_same k (root st) (root st1) member member' Hsame He).
          apply (proj1 (Forall_forall _ _) Hsk member).
          eapply nth_error_In; eauto. }
        assert (Hstack1 : forall s n,
                  In s (stack ++ [loc]) -> nodeAt (root st1) s = Some n ->
                  ~ shaped k (root st1) n).
        { intros s n Hs Hn Hshn.
          destruct (nodeAt_same _ (sameButReadOnly_sym Hsame) Hn)
            as (n0 & Hn0 & He0).
          apply (Hstack' s n0 Hs Hn0).
          apply (@shaped_same k (root st1) (root st) n n0
                   (sameButReadOnly_sym Hsame) He0 Hshn). }
        destruct (IH k ltac:(lia) fuel (below loc (AtMember i)) member'
                    (stack ++ [loc]) st1 Hfuel Hmember' Hsh Hstack1)
          as (st2 & Hrun2 & Hclears2).
        assert (Hsame2 : sameButReadOnly (root st) (root st2)).
        { eapply sameButReadOnly_trans; [exact Hsame|].
          exact (proj1 (proj1 Hclears2)). }
        destruct (IHidx st2 (fun j Hj => Hidx j (or_intror Hj)) Hsame2)
          as (st' & Hrun & Hclears).
        exists st'. split.
        + simpl. unfold bind. rewrite Hrun2. exact Hrun.
        + eapply clears_iff; [|eapply clears_seq; [exact Hclears2|exact Hclears]].
          intros q. unfold childProp. split.
          * intros [H|(j & Hj & H)].
            -- exists i. split; [now left|].
               eapply ChildObject_same; [|exact H].
               now apply sameButReadOnly_sym.
            -- exists j. split; [now right|exact H].
          * intros (j & [<-|Hj] & H).
            -- left. eapply ChildObject_same; [exact Hsame|exact H].
            -- right. exists j. split; assumption. }
    destruct (Hmembers (seq 0 (List.length items)) st) as (st' & Hrun & Hclears).
    { intros i Hi. apply in_seq in Hi. lia. }
    { apply sameButReadOnly_refl. }
    exists st'. split; [exact Hrun|].
    eapply clears_iff; [|exact Hclears]. intros q. unfold childProp.
    symmetry. eapply child_union; eauto.
Qed.


(** What a yes of [#allReadOnlyChildren] says of the children. *)
Lemma allReadOnly_children r loc o :
  ChildObject r loc o ->
  forall fuel t,
    nodeAt r loc = Some t ->
    allReadOnlyChildren fuel r t = Ok true ->
    forall k info,
      propAt r (mkPropRef o k) = Some info -> readOnly info = Some true.
Proof.
  unfold allReadOnlyChildren.
  induction 1 as
    [loc id props req Hn
    |loc id doc items o Hn _ IH
    |loc id value o Hn _ IH
    |loc id name d o Hn Hd _ IH
    |loc id items i o Hn Hi _ IH];
    intros [|fuel] t Ht Hall k info Hk; try discriminate;
    rewrite Hn in Ht; inversion Ht; subst t; simpl in Hall.
  - unfold propAt in Hk. simpl in Hk. rewrite Hn in Hk.
    assert (Hforall : forallb (fun x : PropertyInfo => isTrue (readOnly x))
                        (values props) = true) by congruence.
    rewrite forallb_forall in Hforall.
    apply (@get_In _ k info props) in Hk.
    assert (Hin : In info (values props)).
    { unfold values. apply in_map_iff. now exists (k, info). }
    specialize (Hforall info Hin). destruct (readOnly info) as [[|]|];
      try discriminate. reflexivity.
  - refine (IH fuel items _ Hall k info Hk).
    rewrite nodeAt_below, Hn. reflexivity.
  - discriminate.
  - unfold definitionOf in Hall. rewrite Hd in Hall.
    refine (IH fuel (defType d) _ Hall k info Hk).
    now apply nodeAt_definition.
  - apply everyR_all in Hall.
    destruct (nth_error items i) as [member|] eqn:Hnth;
      [|apply nth_error_None in Hnth; lia].
    refine (IH fuel member _ _ k info Hk).
    + rewrite nodeAt_below, Hn. simpl. now rewrite Hnth.
    + apply (proj1 (Forall_forall _ _) Hall member).
      eapply nth_error_In; eauto.
Qed.

Lemma DirectObject_child r loc o :
  DirectObject r loc o -> ChildObject r loc o.
Proof.
  induction 1 as [loc id props req Hn
                 |loc id doc items o Hn _ IH
                 |loc id name d o Hn Hd _ IH].
  - eapply CO_object; eauto.
  - eapply CO_items; eauto.
  - eapply CO_target; eauto.
Qed.

(** With no union on the way, one child that is an attribute is enough
    for a yes of [#anyAttributeChildren]. *)
Lemma anyAttribute_direct r loc o :
  DirectObject r loc o ->
  forall fuel t,
    nodeAt r loc = Some t ->
    allReadOnlyChildren fuel r t = Ok true ->
    forall k info,
      propAt r (mkPropRef o k) = Some info ->
      isAttribute info = Some true ->
      anyAttributeChildren fuel r t = Ok true.
Proof.
  unfold allReadOnlyChildren, anyAttributeChildren.
  induction 1 as [loc id props req Hn
                 |loc id doc items o Hn _ IH
                 |loc id name d o Hn Hd _ IH];
    intros [|fuel] t Ht Hall k info Hk Hattr; try discriminate;
    rewrite Hn in Ht; inversion Ht; subst t; simpl in Hall; simpl.
  - unfold propAt in Hk. simpl in Hk. rewrite Hn in Hk.
    apply (@get_In _ k info props) in Hk. f_equal.
    apply existsb_exists. exists info. split.
    + unfold values. apply in_map_iff. now exists (k, info).
    + now rewrite Hattr.
  - refine (IH fuel items _ Hall k info Hk Hattr).
    rewrite nodeAt_below, Hn. reflexivity.
  - unfold definitionOf in *. rewrite Hd in *.
    refine (IH fuel (defType d) _ Hall k info Hk Hattr).
    now apply nodeAt_definition.
Qed.

(** *** The body of the breadcrumb loop *)

Lemma promote_clears fuel st p info :
  propAt (root st) p = Some info ->
  allReadOnlyChildren fuel (root st) (type info) = Ok true ->
  exists st' info' attribute,
    promote fuel p st = Ok (tt, st') /\
    propAt (root st') p = Some info' /\
    anyAttributeChildren fuel (root st) (type info) = Ok attribute /\
    isAttribute info'
    = (if attribute then Some true else isAttribute info) /\
    (~ childOf (root st) p p -> readOnly info' = Some true) /\
    (forall q child,
       childOf (root st) p q -> propAt (root st') q = Some child ->
       readOnly child = Some false) /\
    (forall q before,
       propAt (root st) q = Some before ->
       exists after,
         propAt (root st') q = Some after /\
         (q <> p -> isAttribute after = isAttribute before) /\
         (q <> p -> ~ childOf (root st) p q ->
          readOnly after = readOnly before)).
Proof.
  intros Hinfo Hall.
  set (info1 := setFlag FlagReadOnly true info).
  set (r1 := updateProp (setFlag FlagReadOnly true) p (root st)).
  set (st1 := mkState r1 (diag st)).
  assert (Hsame1 : sameButReadOnly (root st) r1) by apply erase_setReadOnly.
  assert (H1 : propAt r1 p = Some info1).
  { unfold r1. now rewrite propAt_updateProp_same, Hinfo. }
  assert (Hnode : nodeAt (root st1) (typeLoc p) = Some (type info)).
  { simpl. rewrite nodeAt_typeLoc, H1. reflexivity. }
  assert (Hshaped : shaped fuel (root st1) (type info)).
  { apply (@shaped_same fuel (root st) r1 (type info) (type info) Hsame1
             eq_refl).
    eapply check_shaped. exact Hall. }
  destruct (@markChildren_clears fuel fuel (typeLoc p) (type info) [] st1
              (le_n _) Hnode Hshaped (fun s n (H : In s []) => False_ind _ H))
    as (st2 & Hrun2 & (Hfades & Hcleared & Hkept)).
  simpl root in Hfades, Hcleared, Hkept.
  assert (Hsame2 : sameButReadOnly (root st) (root st2)).
  { eapply sameButReadOnly_trans; [exact Hsame1|exact (proj1 Hfades)]. }
  assert (Hchild : forall q, childOf (root st) p q <->
                             childProp r1 (typeLoc p) q).
  { intros q. unfold childOf, childProp. split; apply ChildObject_same;
      [exact Hsame1|now apply sameButReadOnly_sym]. }
  destruct (propAt_same p Hsame2 Hinfo) as (info2 & H2 & Hattr2 & _ & Htype2).
  assert (Hany : anyAttributeChildren fuel (root st2) (type info2)
                 = anyAttributeChildren fuel (root st) (type info)).
  { now apply anyAttribute_same. }
  destruct (@shaped_returns
              (existsb (fun x : PropertyInfo => isTrue (isAttribute x)))
              fuel (root st) (type info)
              (check_shaped _ _ _ _ Hall)) as (attribute & Hattribute).
  fold anyAttributeChildren in Hattribute.
  assert (Hread2 : ~ childOf (root st) p p -> readOnly info2 = Some true).
  { intros Hnot. pose proof (Hkept p) as Hp. rewrite H2, H1 in Hp.
    simpl in Hp. assert (Hn : ~ childProp r1 (typeLoc p) p).
    { intros H. apply Hnot. now apply Hchild. }
    specialize (Hp Hn). inversion Hp. reflexivity. }
  assert (Hframe2 : forall q before,
            propAt (root st) q = Some before ->
            exists after,
              propAt (root st2) q = Some after /\
              isAttribute after = isAttribute before /\
              (q <> p -> ~ childOf (root st) p q ->
               readOnly after = readOnly before)).
  { intros q before Hq.
    destruct (propAt_same q Hsame2 Hq) as (after & Hafter & Ha & _).
    exists after. split; [exact Hafter|]. split; [exact Ha|].
    intros Hne Hnot.
    assert (Hn : ~ childProp r1 (typeLoc p) q).
    { intros H. apply Hnot. now apply Hchild. }
    pose proof (Hkept q Hn) as Hk. rewrite Hafter in Hk.
    pose proof (@readOnly_other FlagReadOnly true p q (root st) Hne) as Ho.
    fold r1 in Ho. rewrite Hq in Ho. rewrite Ho in Hk. simpl in Hk.
    now inversion Hk. }
  assert (Hprefix :
    promote fuel p st =
    (anyAttribute <- liftR (anyAttributeChildren fuel (root st2) (type info2)) ;;
     if anyAttribute
     then modifyRoot (updateProp (setFlag FlagIsAttribute true) p)
     else ret tt) st2).
  { unfold promote.
    rewrite (@bind_ok_local _ _ _ (propAtM p) _ st info st
               (@propAtM_ok p st info Hinfo)).
    unfold bind at 1, getRoot at 1.
    unfold bind at 1, liftR at 1. rewrite Hall.
    unfold bind at 1. unfold bind at 1, modifyRoot at 1.
    fold r1. fold st1. rewrite Hrun2.
    rewrite (@bind_ok_local _ _ _ (propAtM p) _ st2 info2 st2
               (@propAtM_ok p st2 info2 H2)).
    unfold bind at 1, getRoot at 1. reflexivity. }
  rewrite Hprefix. unfold bind, liftR. rewrite Hany, Hattribute.
  destruct attribute.
  - exists (mkState (updateProp (setFlag FlagIsAttribute true) p (root st2))
              (diag st2)),
           (setFlag FlagIsAttribute true info2), true.
    split; [reflexivity|].
    split; [simpl; now rewrite propAt_updateProp_same, H2|].
    split; [reflexivity|]. split; [reflexivity|].
    split; [exact Hread2|]. split.
    + intros q child Hq Hchild2. simpl root in Hchild2.
      destruct (propRef_dec q p) as [->|Hne].
      * rewrite propAt_updateProp_same, H2 in Hchild2. simpl in Hchild2.
        inversion Hchild2. simpl.
        apply (Hcleared p info2); [now apply Hchild|exact H2].
      * pose proof (@readOnly_other FlagIsAttribute true p q (root st2) Hne)
          as Ho.
        rewrite Hchild2 in Ho.
        destruct (propAt (root st2) q) as [c2|] eqn:Hc2; [|discriminate].
        simpl in Ho. inversion Ho as [Hro]. rewrite Hro.
        apply (Hcleared q c2); [now apply Hchild|exact Hc2].
    + intros q before Hq.
      destruct (Hframe2 q before Hq) as (mid & Hmid & Ha & Hr).
      destruct (propRef_dec q p) as [->|Hne].
      * exists (setFlag FlagIsAttribute true mid).
        split; [simpl; now rewrite propAt_updateProp_same, Hmid|].
        split; intros; congruence.
      * pose proof (@readOnly_other FlagIsAttribute true p q (root st2) Hne)
          as Ho.
        pose proof (@isAttribute_other FlagIsAttribute true p q (root st2) Hne)
          as Hi.
        rewrite Hmid in Ho, Hi. simpl root.
        destruct (propAt (updateProp (setFlag FlagIsAttribute true) p
                            (root st2)) q) as [after|]; [|discriminate].
        simpl in Ho, Hi. inversion Ho. inversion Hi.
        exists after. split; [reflexivity|]. split; intros.
        -- congruence.
        -- rewrite <- Hr by assumption. congruence.
  - exists st2, info2, false.
    split; [reflexivity|]. split; [exact H2|].
    split; [reflexivity|]. split; [exact Hattr2|].
    split; [exact Hread2|]. split.
    + intros q child Hq Hc. apply (Hcleared q child); [now apply Hchild|exact Hc].
    + intros q before Hq.
      destruct (Hframe2 q before Hq) as (after & Hafter & Ha & Hr).
      exists after. split; [exact Hafter|]. split; [intros _; exact Ha|exact Hr].
Qed.

End PromotionFacts.

(* ===================================================================== *)
(** ** Facts about wildcard paths *)
(* ===================================================================== *)

Module WildcardFacts.
Import Js Str TypeNodes ObjectUtil Run Builder GraphSpec TypeNodesFacts
  ClassifyFacts GraphFacts WildcardSpec.

Lemma removeChar_twice c s : removeChar c (removeChar c s) = removeChar c s.
Proof.
  unfold removeChar, chars, unchars.
  rewrite list_ascii_of_string_of_list_ascii. f_equal.
  induction (list_ascii_of_string s) as [|x l IH]; simpl; [reflexivity|].
  destruct (negb (Ascii.eqb x c)) eqn:E; simpl; [rewrite E|]; now rewrite IH.
Qed.

Lemma sameName_refl k : sameName k k.
Proof. now left. Qed.

Lemma sameName_trans k1 k2 k3 :
  sameName k1 k2 -> sameName k2 k3 -> sameName k1 k3.
Proof.
  unfold sameName. intros [->|<-] [->|<-]; auto.
  right. symmetry. apply removeChar_twice.
Qed.

Section Transitive.
Variable R : string -> PropertyInfo -> string -> PropertyInfo -> Prop.
Hypothesis R_trans :
  forall k1 v1 k2 v2 k3 v3, R k1 v1 k2 v2 -> R k2 v2 k3 v3 -> R k1 v1 k3 v3.

Lemma Ev_trans : forall a b c, Ev R a b -> Ev R b c -> Ev R a c.
Proof.
  induction a as [id|id d t IH|id v|id vs|id props req IH|kind id|id t IH
                 |id n|id items IH|id] using TypeNode_nested_ind;
    intros b c Hab Hbc;
    try (apply Ev_leaf_inv in Hab; [subst b; exact Hbc|reflexivity]).
  - apply Ev_array_inv in Hab as (t' & -> & Hab).
    apply Ev_array_inv in Hbc as (t'' & -> & Hbc).
    apply Ev_array. eapply IH; eauto.
  - apply Ev_object_inv in Hab as (props' & -> & Hab).
    apply Ev_object_inv in Hbc as (props'' & -> & Hbc).
    apply Ev_object. intros k v Hk.
    destruct (Hab k v Hk) as (k' & v' & Hk' & HR & Hv).
    destruct (Hbc k' v' Hk') as (k'' & v'' & Hk'' & HR' & Hv').
    exists k'', v''. split; [exact Hk''|]. split; [eapply R_trans; eauto|].
    apply get_In in Hk. rewrite Forall_forall in IH.
    exact (IH (k, v) Hk _ _ Hv Hv').
  - apply Ev_record_inv in Hab as (t' & -> & Hab).
    apply Ev_record_inv in Hbc as (t'' & -> & Hbc).
    apply Ev_record. eapply IH; eauto.
  - apply Ev_union_inv in Hab as (items' & -> & Hab).
    apply Ev_union_inv in Hbc as (items'' & -> & Hbc).
    apply Ev_union. revert items'' Hbc.
    induction Hab as [|x y xs ys Hxy Hrest IHrest]; intros items'' Hbc.
    + inversion Hbc. constructor.
    + inversion Hbc as [|? z ? zs Hyz Hrest']; subst.
      inversion IH as [|? ? Hx Hxs]; subst.
      constructor; [eapply Hx; eauto|]. now apply IHrest.
Qed.

Lemma EvRoot_trans r1 r2 r3 : EvRoot R r1 r2 -> EvRoot R r2 r3 -> EvRoot R r1 r3.
Proof.
  intros (Hn1 & Ha1 & Hp1 & Hd1) (Hn2 & Ha2 & Hp2 & Hd2).
  split; [congruence|]. split; [congruence|].
  split; [eapply Ev_trans; eauto|].
  revert Hd2. generalize (definitions r3).
  induction Hd1 as [|d1 d2 ds1 ds2 [Hk Hd] _ IH]; intros ds3 Hd2.
  - inversion Hd2. constructor.
  - inversion Hd2 as [|? d3 ? ds3' [Hk' Hd'] Hrest]; subst.
    constructor; [|now apply IH].
    split; [congruence|eapply Ev_trans; eauto].
Qed.

End Transitive.

Section Backwards.
Variable R : string -> PropertyInfo -> string -> PropertyInfo -> Prop.
Hypothesis R_same :
  forall k v v', isAttribute v' = isAttribute v -> R k v k v'.

(** A write, read from the node it made to the node it was made on. *)
Lemma Ev_updateNode_back f :
  forall path t,
    (forall n, getNode path t = Some n -> Ev R (f n) n) ->
    Ev R (updateNode f path t) t.
Proof.
  induction path as [|s path IH]; intros t H; simpl.
  - now apply H.
  - destruct s, t; simpl in *; try (apply Ev_refl; exact R_same).
    + apply Ev_object. intros k v' Hk.
      destruct (String.eqb name k) eqn:E.
      * apply String.eqb_eq in E. subst k.
        rewrite get_alter_same in Hk. unfold PropertyInfo in *.
        destruct (get name properties0) as [v|] eqn:Hv; [|discriminate].
        simpl in Hk. inversion Hk; subst v'.
        exists name, v. split; [exact Hv|].
        split; [now apply R_same|]. simpl.
        apply IH. intros n Hn. apply H. exact Hn.
      * apply String.eqb_neq in E.
        rewrite get_alter_other in Hk by assumption.
        exists k, v'. split; [assumption|].
        split; [now apply R_same|apply Ev_refl; exact R_same].
    + apply Ev_array. now apply IH.
    + apply Ev_record. now apply IH.
    + apply Ev_union. revert i H.
      induction items as [|m ms IHm]; intros [|i] H; simpl;
        try (apply Forall2_Ev_refl; exact R_same).
      * constructor; [|apply Forall2_Ev_refl; exact R_same]. apply IH. apply H.
      * constructor; [apply Ev_refl; exact R_same|]. apply IHm. apply H.
Qed.

Lemma EvRoot_updateAt_back f loc r :
  (forall n, nodeAt r loc = Some n -> Ev R (f n) n) ->
  EvRoot R (updateAt f loc r) r.
Proof.
  destruct loc as [[|name] path]; unfold nodeAt, updateAt; simpl; intros H.
  - repeat split; [now apply Ev_updateNode_back
                  |apply definitions_refl; exact R_same].
  - repeat split; [apply Ev_refl; exact R_same|].
    unfold lookupDefinition in H.
    induction (definitions r) as [|[k d] defs IH]; simpl; [constructor|].
    simpl in H. destruct (String.eqb k name) eqn:E.
    + constructor; [|apply definitions_refl; exact R_same].
      split; [reflexivity|]. simpl. now apply Ev_updateNode_back.
    + constructor; [split; [reflexivity|apply Ev_refl; exact R_same]|].
      now apply IH.
Qed.

End Backwards.


(** *** The two relations *)

Lemma keptAs_same k v v' : isAttribute v' = isAttribute v -> keptAs k v k v'.
Proof. intros H. split; [apply sameName_refl|exact H]. Qed.

Lemma cameFrom_same k v v' : isAttribute v' = isAttribute v -> cameFrom k v k v'.
Proof. intros H. split; [apply sameName_refl|now symmetry]. Qed.

Lemma keptAs_trans k1 v1 k2 v2 k3 v3 :
  keptAs k1 v1 k2 v2 -> keptAs k2 v2 k3 v3 -> keptAs k1 v1 k3 v3.
Proof.
  intros [Hn1 Ha1] [Hn2 Ha2].
  split; [eapply sameName_trans; eauto|congruence].
Qed.

Lemma cameFrom_trans k1 v1 k2 v2 k3 v3 :
  cameFrom k1 v1 k2 v2 -> cameFrom k2 v2 k3 v3 -> cameFrom k1 v1 k3 v3.
Proof.
  intros [Hn1 Ha1] [Hn2 Ha2].
  split; [eapply sameName_trans; eauto|congruence].
Qed.

Lemma sameAttributeFlags_refl r : sameAttributeFlags r r.
Proof.
  split; apply EvRoot_refl; [apply keptAs_same|apply cameFrom_same].
Qed.

Lemma sameAttributeFlags_trans r1 r2 r3 :
  sameAttributeFlags r1 r2 -> sameAttributeFlags r2 r3 ->
  sameAttributeFlags r1 r3.
Proof.
  intros [Hf1 Hb1] [Hf2 Hb2]. split.
  - exact (EvRoot_trans keptAs_trans Hf1 Hf2).
  - exact (EvRoot_trans cameFrom_trans Hb2 Hb1).
Qed.

Lemma sameAttributeFlags_root st st' :
  root st' = root st -> sameAttributeFlags (root st) (root st').
Proof. intros ->. apply sameAttributeFlags_refl. Qed.

(** *** The two writes of a wildcard path *)

Lemma flags_setReadOnly value p r :
  sameAttributeFlags r (updateProp (setFlag FlagReadOnly value) p r).
Proof.
  unfold updateProp. split.
  - apply EvRoot_updateAt; [apply keptAs_same|].
    intros n _. destruct n; try (apply Ev_refl; apply keptAs_same).
    apply Ev_object. intros k v Hk.
    destruct (String.eqb (key p) k) eqn:E.
    + apply String.eqb_eq in E. subst k.
      exists (key p), (setFlag FlagReadOnly value v). rewrite get_alter_same.
      unfold PropertyInfo in *. rewrite Hk. simpl. split; [reflexivity|].
      split; [now apply keptAs_same|apply Ev_refl; apply keptAs_same].
    + apply String.eqb_neq in E. exists k, v.
      rewrite get_alter_other by assumption.
      split; [assumption|].
      split; [now apply keptAs_same|apply Ev_refl; apply keptAs_same].
  - apply EvRoot_updateAt_back; [apply cameFrom_same|].
    intros n _. destruct n; try (apply Ev_refl; apply cameFrom_same).
    apply Ev_object. intros k v' Hk.
    destruct (String.eqb (key p) k) eqn:E.
    + apply String.eqb_eq in E. subst k.
      rewrite get_alter_same in Hk. unfold PropertyInfo in *.
      destruct (get (key p) properties0) as [v|] eqn:Hv; [|discriminate].
      simpl in Hk. inversion Hk; subst v'.
      exists (key p), v. split; [exact Hv|].
      split; [now apply cameFrom_same|apply Ev_refl; apply cameFrom_same].
    + apply String.eqb_neq in E.
      rewrite get_alter_other in Hk by assumption.
      exists k, v'. split; [assumption|].
      split; [now apply cameFrom_same|apply Ev_refl; apply cameFrom_same].
Qed.

Lemma get_remove_same (V : Type) k (o : list (string * V)) :
  get k (remove k o) = None.
Proof.
  induction o as [|[k0 v] o IH]; simpl; [reflexivity|].
  destruct (String.eqb k0 k) eqn:E; [exact IH|]. simpl. now rewrite E.
Qed.

Lemma flags_rename r loc id props req part prop :
  nodeAt r loc = Some (TObject id props req) ->
  get part props = None ->
  get (removeChar "." part) props = Some prop ->
  sameAttributeFlags r
    (updateAt (mangleRename part (removeChar "." part)) loc r).
Proof.
  intros Hn Hpart Hm.
  assert (Hne : removeChar "." part <> part).
  { intros Heq. rewrite Heq in Hm. unfold PropertyInfo in *. congruence. }
  split.
  - apply EvRoot_updateAt; [apply keptAs_same|].
    intros n Hn'. rewrite Hn in Hn'. inversion Hn'; subst n. simpl.
    unfold PropertyInfo in *. rewrite Hm.
    apply Ev_object. intros k v Hk.
    destruct (String.eqb (removeChar "." part) k) eqn:E.
    + apply String.eqb_eq in E. subst k.
      assert (v = prop) by (unfold PropertyInfo in *; congruence). subst v.
      exists part, prop. rewrite get_remove_other by assumption.
      rewrite get_set_same. split; [reflexivity|].
      split; [|apply Ev_refl; apply keptAs_same].
      split; [now right|reflexivity].
    + apply String.eqb_neq in E. exists k, v.
      rewrite get_remove_other by assumption.
      rewrite get_set_other
        by (intros ->; unfold PropertyInfo in *; congruence).
      split; [assumption|].
      split; [now apply keptAs_same|apply Ev_refl; apply keptAs_same].
  - apply EvRoot_updateAt_back; [apply cameFrom_same|].
    intros n Hn'. rewrite Hn in Hn'. inversion Hn'; subst n. simpl.
    unfold PropertyInfo in *. rewrite Hm.
    apply Ev_object. intros k v' Hk.
    destruct (String.eqb (removeChar "." part) k) eqn:E.
    + apply String.eqb_eq in E. subst k.
      rewrite get_remove_same in Hk. discriminate.
    + apply String.eqb_neq in E.
      rewrite get_remove_other in Hk by assumption.
      destruct (String.eqb part k) eqn:E'.
      * apply String.eqb_eq in E'. subst k.
        rewrite get_set_same in Hk. inversion Hk; subst v'.
        exists (removeChar "." part), prop. split; [exact Hm|].
        split; [|apply Ev_refl; apply cameFrom_same].
        split; [now right|reflexivity].
      * apply String.eqb_neq in E'.
        rewrite get_set_other in Hk by assumption.
        exists k, v'. split; [assumption|].
        split; [now apply cameFrom_same|apply Ev_refl; apply cameFrom_same].
Qed.

(** *** [#findProperty] and [#addAttribute] on a wildcard path *)

Lemma findProperty_flags :
  forall fuel mangle loc parts st props st',
    findProperty fuel mangle loc parts st = Ok (props, st') ->
    sameAttributeFlags (root st) (root st').
Proof.
  induction fuel as [|fuel IH]; intros mangle loc parts st props st' H;
    [discriminate|].
  simpl in H. destruct parts as [|part rest].
  { apply ret_inv in H as [_ ->]. apply sameAttributeFlags_refl. }
  apply bind_inv in H as (u & st1 & Ha & H). apply assert_inv in Ha as [_ ->].
  apply bind_inv in H as (node & st1 & Hn & H).
  apply nodeAtM_inv in Hn as [-> Hn].
  assert (Hnone : forall st0 : State,
             ret (@nil PropRef) st = Ok (props, st0) ->
             sameAttributeFlags (root st) (root st0)).
  { intros st0 H0. apply ret_inv in H0 as [_ ->].
    apply sameAttributeFlags_refl. }
  destruct node as [id|id doc items|id v|id vs|id oprops req|kind id|id value
                   |id name|id items|id]; try (now apply Hnone).
  - (* array *)
    destruct (String.eqb part "*"); [|now apply Hnone].
    now apply IH in H.
  - (* object *)
    destruct (String.eqb part "*"); [now apply Hnone|].
    apply bind_inv in H as (present & st1 & Hpres & H).
    assert (Hev : sameAttributeFlags (root st) (root st1)).
    { destruct (get part oprops) as [found|] eqn:Hpart.
      - apply ret_inv in Hpres as [_ ->]. apply sameAttributeFlags_refl.
      - destruct (inherited part); [discriminate|].
        destruct mangle;
          [|apply ret_inv in Hpres as [_ ->]; apply sameAttributeFlags_refl].
        destruct (get (removeChar "." part) oprops) as [prop|] eqn:Hm.
        + apply bind_inv in Hpres as (u' & st2 & Hw & Hpres).
          apply ret_inv in Hpres as [_ ->].
          apply modifyRoot_inv in Hw. rewrite Hw.
          eapply flags_rename; eauto.
        + destruct (inherited (removeChar "." part)); [discriminate|].
          apply ret_inv in Hpres as [_ ->]. apply sameAttributeFlags_refl. }
    destruct present.
    + destruct rest as [|next rest].
      * apply ret_inv in H as [_ ->]. exact Hev.
      * apply IH in H. exact (sameAttributeFlags_trans Hev H).
    + apply ret_inv in H as [_ ->]. exact Hev.
  - (* reference *)
    destruct name as [name| |]; try (now apply Hnone).
    apply bind_inv in H as (r & st1 & Hr & H).
    apply getRoot_inv in Hr as [-> ->].
    apply bind_inv in H as (target & st1 & Ht & H).
    apply liftR_inv in Ht as [Ht ->].
    destruct target as [d|]; [|discriminate].
    now apply IH in H.
  - (* union *)
    apply bind_inv in H as (results & st1 & Hmap & H).
    apply ret_inv in H as [_ ->].
    assert (Hloop : forall (members : list TypeNode) i st0 results0 st2,
               mapMi (fun (_ : TypeNode) j =>
                        findProperty fuel mangle (below loc (AtMember j))
                          (part :: rest)) i members st0
               = Ok (results0, st2) ->
               sameAttributeFlags (root st0) (root st2)).
    { induction members as [|m members IHm]; intros i st0 results0 st2 Hm;
        simpl in Hm.
      - apply ret_inv in Hm as [_ ->]. apply sameAttributeFlags_refl.
      - apply bind_inv in Hm as (y & st3 & Hy & Hm).
        apply bind_inv in Hm as (ys & st4 & Hys & Hm).
        apply ret_inv in Hm as [_ ->].
        apply IH in Hy. apply IHm in Hys.
        exact (sameAttributeFlags_trans Hy Hys). }
    exact (Hloop _ _ _ _ _ Hmap).
Qed.

(** For a path with a wildcard, [#addAttribute] changes the
    [isAttribute] flag of no property. *)
Lemma addAttribute_wildcard_flags resourceSchema documenter fuel path readOnly
  st st' :
  includesChar "*" path = true ->
  addAttribute resourceSchema documenter fuel path readOnly st = Ok (tt, st') ->
  sameAttributeFlags (root st) (root st').
Proof.
  unfold addAttribute. intros Hwild H. rewrite Hwild in H.
  apply bind_inv in H as (props & st1 & Hfind & H).
  assert (Hev1 : sameAttributeFlags (root st) (root st1)).
  { unfold findPropertyPath in Hfind.
    destruct (startsWith path "/properties/").
    - now apply findProperty_flags in Hfind.
    - apply ret_inv in Hfind as [_ ->]. apply sameAttributeFlags_refl. }
  destruct props as [|prop rest].
  { apply liftW_inv in H. rewrite H. exact Hev1. }
  apply bind_inv in H as (u & st2 & Hloop & H).
  assert (Hev2 : sameAttributeFlags (root st1) (root st2)).
  { clear - Hloop. revert st1 Hloop.
    generalize (prop :: rest) as props.
    induction props as [|p props IH]; intros st1 Hloop; simpl in Hloop.
    - apply ret_inv in Hloop as [_ ->]. apply sameAttributeFlags_refl.
    - apply bind_inv in Hloop as (u1 & st1c & Hbody & Hrest).
      apply IH in Hrest.
      refine (sameAttributeFlags_trans _ Hrest).
      apply bind_inv in Hbody as (valid & st1a & Hvalid & Hbody).
      apply ret_inv in Hvalid as [-> ->].
      apply bind_inv in Hbody as (u2 & st1b & Hskip & Hro).
      apply ret_inv in Hskip as [_ ->].
      destruct readOnly;
        [|apply ret_inv in Hro as [_ ->]; apply sameAttributeFlags_refl].
      apply modifyRoot_inv in Hro. rewrite Hro. apply flags_setReadOnly. }
  apply bind_inv in H as (first & st2a & Hfirst & H).
  apply propAtM_inv in Hfirst as [-> Hfirst].
  apply bind_inv in H as (infos & st3 & Hinfos & H).
  apply mapM_propAtM_inv in Hinfos. subst st3.
  apply bind_inv in H as (u4 & st4 & Hwarn & H).
  assert (Hroot4 : root st4 = root st2).
  { destruct (forallb _ infos);
      [now apply ret_inv in Hwarn as [_ ->]|now apply liftW_inv in Hwarn]. }
  apply bind_inv in H as (u5 & st5 & Hassert & H).
  apply assert_inv in Hassert as [_ ->].
  apply bind_inv in H as (valid' & st6 & Hvalid' & H).
  apply eligible_inv in Hvalid' as [-> [[_ ->]|[Hw _]]]; [|discriminate].
  apply ret_inv in H as [_ ->]. rewrite Hroot4.
  exact (sameAttributeFlags_trans Hev1 Hev2).
Qed.

End WildcardFacts.

(* ===================================================================== *)
(** ** Facts about the loop of [main] *)
(* ===================================================================== *)

Module LoopFacts.
Import Js TypeNodes Run CodeGenerator Generate GenerateFacts.

Section Stuck.
Variable generate : string -> TypeDefinition -> G Statement.

Lemma passStep_skips acc entry st :
  hasName (NameString (fst entry)) (referencedNames st) = false ->
  passStep generate acc entry st = Ok (acc, st).
Proof.
  intros H. destruct acc as [definitions thisPass].
  unfold passStep, bind, getState. now rewrite H.
Qed.

(** A round does not return when the first referenced entry it comes to
    is one that is not generated yet and on which [generate] does not
    return; nor does the loop, when that is in its first round. *)
Lemma passOver_stuck skipped :
  forall entry rest acc st,
    (forall e, In e skipped ->
       hasName (NameString (fst e)) (referencedNames st) = false) ->
    hasName (NameString (fst entry)) (referencedNames st) = true ->
    existsb (fun existing : string * Statement =>
               String.eqb (fst existing) (fst entry)) (fst acc) = false ->
    generate (fst entry) (snd entry) st = OutOfFuel ->
    passOver generate (skipped ++ entry :: rest) acc st = OutOfFuel.
Proof.
  induction skipped as [|e skipped IH];
    intros entry rest acc st Hskip Href Hnew Hgen.
  - simpl. unfold bind. destruct acc as [definitions thisPass].
    unfold passStep, bind, getState. simpl in Hnew.
    rewrite Href, Hnew. simpl. now rewrite Hgen.
  - simpl. unfold bind. rewrite passStep_skips by (apply Hskip; now left).
    apply IH; try assumption. intros e' He'. apply Hskip. now right.
Qed.

Lemma passOver_out_of_fuel table st :
  (exists skipped entry rest,
     table = skipped ++ entry :: rest /\
     (forall e, In e skipped ->
        hasName (NameString (fst e)) (referencedNames st) = false) /\
     hasName (NameString (fst entry)) (referencedNames st) = true /\
     generate (fst entry) (snd entry) st = OutOfFuel) ->
  emitDefinitions generate table st = OutOfFuel.
Proof.
  intros (skipped & entry & rest & -> & Hskip & Href & Hgen).
  unfold emitDefinitions. simpl emitLoop. unfold bind, onePass.
  now rewrite passOver_stuck.
Qed.

End Stuck.

Section Returning.
Variable generate : string -> TypeDefinition -> G Statement.
Variable table : list (string * TypeDefinition).
(** What holds of the generator between two calls of [generate]. *)
Variable J : GenState -> Prop.
Hypothesis generate_returns :
  forall name def st,
    In (name, def) table -> J st ->
    exists statement st', generate name def st = Ok (statement, st') /\ J st'.

Lemma passStep_returns acc entry st :
  In entry table -> J st ->
  exists acc' st', passStep generate acc entry st = Ok (acc', st') /\ J st'.
Proof.
  intros Hin Hj. destruct acc as [definitions thisPass].
  unfold passStep, bind, getState.
  destruct (_ && _).
  - destruct entry as [name def].
    destruct (@generate_returns name def st Hin Hj) as (statement & st' & Hgen & Hj').
    simpl. rewrite Hgen. do 2 eexists. split; [reflexivity|assumption].
  - do 2 eexists. split; [reflexivity|assumption].
Qed.

Lemma passOver_returns entries :
  forall acc st,
    incl entries table -> J st ->
    exists acc' st', passOver generate entries acc st = Ok (acc', st') /\ J st'.
Proof.
  induction entries as [|entry rest IH]; intros acc st Hincl Hj.
  - do 2 eexists. split; [reflexivity|assumption].
  - destruct (@passStep_returns acc entry st) as (acc1 & st1 & Hstep & Hj1);
      [apply Hincl; now left|assumption|].
    destruct (IH acc1 st1) as (acc' & st' & Hrun & Hj');
      [intros x Hx; apply Hincl; now right|assumption|].
    exists acc', st'. simpl. unfold bind. rewrite Hstep. now split.
Qed.

Lemma emitLoop_returns passes :
  forall definitions st,
    Inv table definitions -> J st ->
    List.length table - List.length definitions < passes ->
    exists result st',
      emitLoop generate table passes definitions st = Ok (result, st') /\
      J st'.
Proof.
  induction passes as [|passes IH]; intros definitions st Hinv Hj Hlt; [lia|].
  destruct (@passOver_returns table (definitions, 0) st (incl_refl table) Hj)
    as (r & st1 & Hpass & Hj1).
  fold (onePass generate table definitions) in Hpass.
  destruct (@onePass_spec _ _ _ _ _ _ Hpass Hinv)
    as (Hinv' & added & Ha & Hn & _).
  simpl. unfold bind. rewrite Hpass.
  destruct (Nat.ltb 0 (snd r)) eqn:Hpos.
  - apply Nat.ltb_lt in Hpos. pose proof (Inv_length Hinv') as Hlen.
    rewrite Ha, length_app in Hlen.
    apply IH; [assumption|assumption|]. rewrite Ha, length_app. lia.
  - do 2 eexists. split; [reflexivity|assumption].
Qed.

End Returning.

End LoopFacts.

(* ===================================================================== *)
(** * The claims *)
(* ===================================================================== *)

Module Claims.
Import Js TypeNodes UnionSpec TypeNodesFacts Run Builder Scenarios
  PromotionSpec.
Open Scope run_scope.

(** C4. [simplifyUnionType] always returns. Writing [items] for the
    flattened members with later same-type members dropped: the result is
    [unknown] for no item, the item itself for one, and a union of [items]
    for two or more; [items] keeps the order of the flattened members,
    covers each of them by a same-type member, and holds no two members
    that [isSameType] equates; and when the result is a union, simplifying
    that union again returns it unchanged. *)
Theorem simplifyUnionType_idempotent_nodup :
  forall id members,
    let items := dedup (flatten members) in
    simplifyUnionType id members = Some (collapse id items) /\
    (items = [] -> simplifyUnionType id members = Some (TUnknown id)) /\
    (forall only, items = [only] -> simplifyUnionType id members = Some only) /\
    (2 <= List.length items ->
     simplifyUnionType id members = Some (TUnion id items)) /\
    Subseq items (flatten members) /\
    (forall c, In c (flatten members) ->
       exists x, In x items /\ isSameType x c = true) /\
    (forall i j x y, i <> j ->
       nth_error items i = Some x -> nth_error items j = Some y ->
       isSameType x y = false) /\
    (forall id' items',
       simplifyUnionType id members = Some (TUnion id' items') ->
       simplifyUnionType id' items' = Some (TUnion id' items')).
Proof.
  intros id members items.
  assert (Hn : NoSame items) by (apply dedupInto_NoSame; exact I).
  assert (Hu : Forall (fun x => isUnion x = false) items).
  { apply dedupInto_Forall; [constructor|apply flatten_nonunion]. }
  pose proof (simplifyUnionType_eq id members) as Heq. fold items in Heq.
  split; [assumption|].
  split; [intros H; now rewrite Heq, H|].
  split; [intros only H; now rewrite Heq, H|].
  split.
  { intros H. rewrite Heq. destruct items as [|a [|b rest]]; simpl in *;
      try lia; reflexivity. }
  split.
  { destruct (dedupInto_Subseq (flatten members) []) as (kept & Hk & Hs).
    unfold items, dedup. now rewrite Hk. }
  split; [intros c Hc; now apply dedupInto_covers|].
  split; [now apply NoSame_nth|].
  intros id' items' H. rewrite Heq in H.
  assert (Hitems : items' = items /\ id' = id).
  { destruct items as [|a [|b rest]]; simpl in H; try discriminate.
    - inversion H; subst. inversion Hu; subst. discriminate.
    - inversion H; subst. auto. }
  destruct Hitems as [-> ->].
  rewrite simplifyUnionType_eq. rewrite (flatten_fixed Hu).
  unfold dedup. rewrite dedupInto_fixed by assumption. simpl.
  destruct items as [|a [|b rest]]; simpl in *;
    try discriminate; try reflexivity.
  injection H as Ha. inversion Hu as [|? ? Hua _].
  rewrite Ha in Hua. discriminate.
Qed.

(** The union [string | (string | integer) | integer] simplifies to
    [string | integer], and simplifying that again changes nothing. *)
Lemma simplifyUnionType_idempotent_nodup_witness :
  simplifyUnionType "/u"
    [TPrimitive KString "/a";
     TUnion "/b" [TPrimitive KString "/c"; TPrimitive KInteger "/d"];
     TPrimitive KInteger "/e"]
  = Some (TUnion "/u" [TPrimitive KString "/a"; TPrimitive KInteger "/d"]) /\
  simplifyUnionType "/u" [TPrimitive KString "/a"; TPrimitive KInteger "/d"]
  = Some (TUnion "/u" [TPrimitive KString "/a"; TPrimitive KInteger "/d"]).
Proof.
  pose proof (simplifyUnionType_idempotent_nodup "/u"
    [TPrimitive KString "/a";
     TUnion "/b" [TPrimitive KString "/c"; TPrimitive KInteger "/d"];
     TPrimitive KInteger "/e"]) as H.
  cbv zeta in H.
  destruct H as (_ & _ & _ & H2 & _ & _ & _ & Hidem).
  split.
  - apply H2. vm_compute. lia.
  - apply Hidem. apply H2. vm_compute. lia.
Defined.

(** C1. Merging [{ minLength: 1 }] and [{ minLength: 5 }] through [allOf]
    finds one conflict, for [minLength], and calls [#warn] once with it;
    the merged schema holds [minLength = 5], the value of the last
    fragment, and the reporter receives nothing. *)
Theorem mergeAllOf_minLength_keeps_last :
  forall (resourceSchema : obj) (table : Tag -> list string),
    ObjectUtil.mergeObjects
      [[]; [("minLength", num 1)]; [("minLength", num 5)]] allOfOptions
    = Some (ObjectUtil.mkMergeObjectsResult (Some ["minLength"])
              [("minLength", num 5)]) /\
    mergeAllOf resourceSchema allOfMinLength "/"
      (diag (initialState resourceSchema table))
    = Ok ([("minLength", num 5)],
          mkDiag [] None table
            [mkWarnCall (schemaTypeName resourceSchema ++ "/")%string
               "found conflicts while merging schemas for keys"
               [JArr [jstr "minLength"]]]).
Proof. intros. split; reflexivity. Qed.

(** C2, as stated. On the schema written with [properties] and [required]
    nested under [properties], no run of [build] gives what the scenario
    asks: the properties type has the two properties [properties] and
    [required], and there is no attributes type. *)
Lemma roundTrip_nested_fails :
  ~ exists fuel rt st,
      build nestedRoundTrip noDocumenter fuel RelevantKeys = Ok (rt, st) /\
      roundTripHolds fuel rt.
Proof.
  intros (fuel & rt & st & Hb & _ & (doc & id & props & req & Ha & _)).
  destruct fuel as [|[|[|fuel]]]; try (vm_compute in Hb; discriminate).
  vm_compute in Hb. inversion Hb; subst. discriminate.
Qed.

(** C2, amended. On the schema with the property map under [properties]
    and [required] beside it, [build] returns a resource whose writable
    view is an object type with [Name], required, and without [Id], and
    whose attributes type is an object type with the one property [Id]. *)
Theorem roundTrip_build :
  exists rt st,
    build roundTrip noDocumenter 3 RelevantKeys = Ok (rt, st) /\
    roundTripHolds 3 rt /\
    Simplifier.simplifyType rt Simplifier.ModeResource None 3
      (defType (properties rt))
    = Ok (TObject "/"
            [("Name", mkPropertyInfo (Some []) None None
                        (TPrimitive KString "/properties/Name"))]
            ["Name"]) /\
    attributes rt
    = Some (mkTypeDefinition None
              (TObject "/attributes"
                 [("Id", mkPropertyInfo (Some []) (Some true) None
                           (TPrimitive KString "/properties/Id"))]
                 ["Id"])).
Proof.
  eexists. eexists. split; [vm_compute; reflexivity|].
  split; [|split; reflexivity].
  split.
  - do 3 eexists. split; [vm_compute; reflexivity|]. repeat split.
  - do 4 eexists. split; reflexivity.
Qed.

(** C3, as stated. [#/definitions/Missing] names no location of a document
    that has no definitions, yet the walker answers with a reference type,
    not with [unknown], and calls [#warn] for nothing. *)
Lemma walkRefType_dangling_definition_is_reference :
  let doc : obj := [("typeName", jstr "Test::Resource")] in
  let schema : obj := [("$ref", jstr "#/definitions/Missing")] in
  let run := walkRefType doc (walkers doc noDocumenter 3) schema
               "/properties/P" (diag (initialState doc RelevantKeys)) in
  RefSpec.Dangling (JObj doc) ["definitions"; "Missing"] /\
  (exists d,
     run = Ok (TReference "/properties/P" (NameString "Missing"), d) /\
     warnCalls d = []) /\
  ~ exists d, run = Ok (TUnknown "/properties/P", d).
Proof.
  cbv zeta. split; [|split].
  - apply RefSpec.Dangling_here; reflexivity.
  - eexists. split; reflexivity.
  - intros [d Hd]. vm_compute in Hd. discriminate.
Qed.

(** C3, amended. For a fragment whose [$ref] is a non-empty string,
    [#walkRefType] first runs [#warnExtraKeys], which returns. If the
    reference has the form [#/definitions/<name>] the result is the
    reference type of that name, whether or not the definition exists.
    Otherwise, if the reference does not start with [#/], or its segments
    stop at an object of the document that lacks the next one, the result
    is [unknown] at the fragment's location and [#warn] is called once
    more, with "invalid reference" and the reference. *)
Theorem walkRefType_invalid_reference :
  forall (resourceSchema : obj) (w : Walkers) (schema : obj)
         (location ref : string) (d : Diag),
    get "$ref" schema = Some (jstr ref) ->
    ref <> "" ->
    exists d1,
      warnExtraKeys resourceSchema schema (inl TagReference) location d
      = Ok (tt, d1) /\
      (forall name,
         matchDefinitionRef ref = Some name ->
         walkRefType resourceSchema w schema location d
         = Ok (TReference location (NameString name), d1)) /\
      (matchDefinitionRef ref = None ->
       Str.startsWith ref "#/" = false \/
       RefSpec.Dangling (JObj resourceSchema)
         (Str.split Str.slash (Str.sliceFrom 2 ref)) ->
       walkRefType resourceSchema w schema location d
       = Ok (TUnknown location,
             BuilderFacts.warned resourceSchema location "invalid reference"
               [jstr ref] d1)).
Proof.
  intros resourceSchema w schema location ref d Href Hne.
  destruct (BuilderFacts.warnExtraKeys_runs resourceSchema schema
              (inl TagReference) location d) as (d1 & Hw & _).
  exists d1. split; [assumption|].
  assert (Hstart : walkRefType resourceSchema w schema location d =
    match matchDefinitionRef ref with
    | Some name => Ok (TReference location (NameString name), d1)
    | None =>
        (if negb (Str.startsWith ref "#/") then
           warn resourceSchema location "invalid reference" [jstr ref] ;;;
           ret (TUnknown location)
         else
           match resolvePointer (JObj resourceSchema)
                   (Str.split Str.slash (Str.sliceFrom 2 ref)) with
           | Resolved v =>
               target <- asSchema v ;;
               walkTypeW w target (Str.sliceFrom 1 ref)
           | Missing =>
               warn resourceSchema location "invalid reference" [jstr ref] ;;;
               ret (TUnknown location)
           | InOnPrimitive => throw _ "TypeError: Cannot use 'in' operator"
           | NotInDocument => unmodelled _
           end) d1
    end).
  { unfold walkRefType. rewrite Href. unfold jstr.
    assert (He : String.eqb ref "" = false) by now apply String.eqb_neq.
    rewrite He. simpl negb. unfold assert.
    unfold bind at 1. unfold ret at 1. unfold bind at 1. rewrite Hw.
    now destruct (matchDefinitionRef ref). }
  split.
  - intros name Hm. now rewrite Hstart, Hm.
  - intros Hm Hbad. rewrite Hstart, Hm. destruct Hbad as [Hs|Hd].
    + rewrite Hs. reflexivity.
    + destruct (Str.startsWith ref "#/"); [|reflexivity]. simpl negb.
      cbv iota. now rewrite (BuilderFacts.resolvePointer_dangling Hd).
Qed.

(** In a document without a field [nope], [#/nope/x] is answered with
    [unknown] and one more call of [#warn]. *)
Lemma walkRefType_invalid_reference_witness :
  let doc : obj := [("typeName", jstr "Test::Resource")] in
  exists d1,
    walkRefType doc (walkers doc noDocumenter 3) [("$ref", jstr "#/nope/x")]
      "/properties/P" (diag (initialState doc RelevantKeys))
    = Ok (TUnknown "/properties/P",
          BuilderFacts.warned doc "/properties/P" "invalid reference"
            [jstr "#/nope/x"] d1).
Proof.
  cbv zeta.
  destruct (walkRefType_invalid_reference
              [("typeName", jstr "Test::Resource")]
              (walkers [("typeName", jstr "Test::Resource")] noDocumenter 3)
              [("$ref", jstr "#/nope/x")] "/properties/P" (ref := "#/nope/x")
              (diag (initialState [("typeName", jstr "Test::Resource")]
                       RelevantKeys))
              eq_refl ltac:(discriminate)) as (d1 & _ & _ & H).
  exists d1. apply H; [reflexivity|].
  right. apply RefSpec.Dangling_here; reflexivity.
Defined.

(** C10. When the root fragment picked from a resource schema, after the
    [allOf] merge, has documentation fields only, [build] throws the
    assertion error that names the resource; it returns no
    [ResourceType]. *)
Theorem build_throws_without_type_shape :
  forall (resourceSchema : obj) (documenter : ResourceDocumenter)
         (fuel : nat) (table : Tag -> list string) (name : string)
         (merged : obj) (d : Diag),
    get "typeName" resourceSchema = Some (jstr name) ->
    mergeAllOf resourceSchema (ObjectUtil.pick resourceSchema rootKeys) "/"
      (mkDiag [] None table []) = Ok (merged, d) ->
    forallb (fun k => mem k SchemaDocumentationKeys) (keys merged) = true ->
    build resourceSchema documenter (S fuel) table
    = Throw ("expected type to have a value for resource "
             ++ Str.quoted name)%string.
Proof.
  intros resourceSchema documenter fuel table name merged d Hname Hmerge Hdoc.
  unfold build. rewrite Hname. unfold jstr, buildM.
  assert (Hex : exists r d',
             extractDocumentation resourceSchema documenter (S fuel)
               (ObjectUtil.pick resourceSchema rootKeys) "/"
               (mkDiag [] None table []) = Ok (r, d') /\ resType r = None).
  { simpl extractDocumentation. unfold bind at 1. rewrite Hmerge.
    pose proof (BuilderFacts.splitPick_rest_empty SchemaDocumentationKeys
                  merged Hdoc) as Hrest.
    destruct (ObjectUtil.splitPick merged SchemaDocumentationKeys)
      as [documentation0 type0]. simpl in Hrest. subst type0.
    simpl. unfold bind, ret. simpl.
    do 2 eexists. split; reflexivity. }
  destruct Hex as (r & d' & Hex & Hnone).
  unfold bind at 1, liftW. simpl diag. rewrite Hex, Hnone.
  unfold throw, schemaTypeName. now rewrite Hname.
Qed.

(** A resource schema that has only a type name, and one whose [allOf]
    fragment has only a description, both make [build] throw. *)
Lemma build_throws_without_type_shape_witness :
  build [("typeName", jstr "Test::Resource");
         ("allOf", JArr [JObj [("description", jstr "nothing else")]])]
    noDocumenter 1 RelevantKeys
  = Throw ("expected type to have a value for resource "
           ++ Str.quoted "Test::Resource")%string.
Proof.
  apply (build_throws_without_type_shape
           [("typeName", jstr "Test::Resource");
            ("allOf", JArr [JObj [("description", jstr "nothing else")]])]
           noDocumenter 0 RelevantKeys (name := "Test::Resource")
           (merged := [("description", jstr "nothing else")])
           (d := mkDiag [] None RelevantKeys []));
    reflexivity.
Defined.

(** C8. The loop that emits the referenced definitions does not return on
    every finite table. The schema has a property of type [B], a
    definition [B] with a property of type [A], and a definition [A] that
    is an array of [A]. [build] accepts it; the properties type is
    generated and makes [B] referenced; and the loop then comes to [B],
    whose generation replaces the reference to [A] by the array it names,
    again and again: whatever the fuel of the generator and of the
    simplifier, the tag type, the well-known types and the other names
    referenced so far, the loop does not return. *)
Theorem emitDefinitions_never_returns_on_array_cycle :
  (exists st,
     build nestedCycleSchema noDocumenter 5 RelevantKeys
     = Ok (nestedCycleResource, st)) /\
  (exists statement,
     CodeGenerator.generateTypeDefinition
       (mainOptions nestedCycleResource None [] 5) 5 "TestResourceProps"
       (properties nestedCycleResource) (CodeGenerator.mkGenState [] [])
     = Ok (statement, CodeGenerator.mkGenState [NameString "B"] [])) /\
  (forall tagType wellKnown simplifierFuel fuel before after,
     Generate.emitDefinitions
       (CodeGenerator.generateTypeDefinition
          (mainOptions nestedCycleResource tagType wellKnown simplifierFuel)
          fuel)
       (definitions nestedCycleResource)
       (CodeGenerator.mkGenState (before ++ NameString "B" :: after) [])
     = OutOfFuel).
Proof.
  split; [|split].
  - eexists. vm_compute. reflexivity.
  - eexists. vm_compute. reflexivity.
  - intros tagType wellKnown simplifierFuel fuel before after.
    set (names := before ++ NameString "B" :: after).
    assert (HB : CodeGenerator.hasName (NameString "B") names = true).
    { unfold CodeGenerator.hasName, names. rewrite existsb_app. simpl.
      now rewrite orb_true_r. }
    set (options := mainOptions nestedCycleResource tagType wellKnown
                      simplifierFuel).
    assert (Harray : forall n,
              Simplifier.simplifyType nestedCycleResource
                Simplifier.ModeResource tagType (S n) arrayOfA = Ok arrayOfA)
      by reflexivity.
    assert (Href : forall n id,
              Simplifier.simplifyType nestedCycleResource
                Simplifier.ModeResource tagType (S (S n))
                (TReference id (NameString "A")) = Ok arrayOfA).
    { intros n id. destruct tagType; reflexivity. }
    assert (Hobject : forall n,
              Simplifier.simplifyType nestedCycleResource
                Simplifier.ModeResource tagType (S n) objectOfA = Ok objectOfA)
      by reflexivity.
    assert (Hloop : forall fuel names stack id,
              existsb (CodeGenerator.node_eqb (TReference id (NameString "A")))
                stack = false ->
              existsb (CodeGenerator.node_eqb refToA) stack = false ->
              CodeGenerator.generateType options fuel
                (TReference id (NameString "A"))
                (CodeGenerator.mkGenState names stack) = OutOfFuel).
    { clear fuel. induction fuel as [|fuel IH];
        intros names0 stack id Hfree Hitems; [reflexivity|].
      assert (Hfree' : existsb (CodeGenerator.node_eqb refToA)
                         (stack ++ [arrayOfA]) = false).
      { rewrite existsb_app, Hitems. reflexivity. }
      pose proof (IH names0 (stack ++ [arrayOfA]) _ Hfree' Hfree') as Hr.
      rewrite CodeGeneratorFacts.generateType_step.
      unfold CodeGeneratorFacts.simplifyStep.
      change (CodeGenerator.simplifier options)
        with (Some (Simplifier.simplifyType nestedCycleResource
                      Simplifier.ModeResource tagType simplifierFuel)).
      change (CodeGenerator.stack (CodeGenerator.mkGenState names0 stack))
        with stack.
      rewrite Hfree. simpl negb. cbv iota.
      destruct simplifierFuel as [|[|n]];
        [reflexivity|destruct tagType; reflexivity|].
      rewrite Href.
      apply CodeGeneratorFacts.generate_array_out_of_fuel. exact Hr. }
    assert (Hdef : forall fuel names,
              CodeGenerator.generateTypeDefinition options fuel "B"
                (mkTypeDefinition (Some []) objectOfA)
                (CodeGenerator.mkGenState names []) = OutOfFuel).
    { clear fuel. intros fuel names0.
      unfold CodeGenerator.generateTypeDefinition, bind.
      change (defType (mkTypeDefinition (Some []) objectOfA)) with objectOfA.
      destruct fuel as [|fuel]; [reflexivity|].
      rewrite CodeGeneratorFacts.generateType_step.
      unfold CodeGeneratorFacts.simplifyStep.
      change (CodeGenerator.simplifier options)
        with (Some (Simplifier.simplifyType nestedCycleResource
                      Simplifier.ModeResource tagType simplifierFuel)).
      simpl existsb. simpl negb. cbv iota.
      destruct simplifierFuel as [|n]; [reflexivity|].
      rewrite Hobject.
      unfold bind at 1, CodeGenerator.pushStack at 1.
      unfold bind at 1.
      simpl CodeGenerator.generateNode.
      unfold CodeGenerator.generateObjectType.
      unfold bind at 1.
      change (CodeGenerator.sortProperties options)
        with (Some CodeGenerator.defaultPropertySort).
      simpl CodeGenerator.sortBy.
      simpl mapM. unfold bind at 1. unfold bind at 1.
      unfold CodeGenerator.generateOptionalPropertyType at 1.
      unfold bind at 1.
      change (CodeGenerator.wellKnownName options _)
        with (@None SymbolName).
      cbv iota. cbv beta iota delta [type].
      rewrite Hloop; reflexivity. }
    unfold Generate.emitDefinitions.
    change (definitions nestedCycleResource)
      with [("A", mkTypeDefinition (Some []) arrayOfA);
            ("B", mkTypeDefinition (Some []) objectOfA)].
    assert (Ha : forall names,
              CodeGenerator.generateTypeDefinition options fuel "A"
                (mkTypeDefinition (Some []) arrayOfA)
                (CodeGenerator.mkGenState names []) = OutOfFuel).
    { intros names'.
      assert (Hg : CodeGenerator.generateType options fuel arrayOfA
                     (CodeGenerator.mkGenState names' []) = OutOfFuel).
      { destruct fuel as [|fuel]; [reflexivity|].
        rewrite CodeGeneratorFacts.generateType_step.
        unfold CodeGeneratorFacts.simplifyStep.
        change (CodeGenerator.simplifier options)
          with (Some (Simplifier.simplifyType nestedCycleResource
                        Simplifier.ModeResource tagType simplifierFuel)).
        simpl existsb. simpl negb. cbv iota.
        destruct simplifierFuel as [|n]; [reflexivity|].
        rewrite Harray.
        apply CodeGeneratorFacts.generate_array_out_of_fuel.
        apply Hloop; reflexivity. }
      unfold CodeGenerator.generateTypeDefinition, bind.
      change (defType (mkTypeDefinition (Some []) arrayOfA)) with arrayOfA.
      now rewrite Hg. }
    apply LoopFacts.passOver_out_of_fuel.
    destruct (CodeGenerator.hasName (NameString "A") names) eqn:HA.
    + exists [], ("A", mkTypeDefinition (Some []) arrayOfA),
        [("B", mkTypeDefinition (Some []) objectOfA)].
      split; [reflexivity|]. split; [intros e []|].
      split; [exact HA|apply Ha].
    + exists [("A", mkTypeDefinition (Some []) arrayOfA)],
        ("B", mkTypeDefinition (Some []) objectOfA), [].
      split; [reflexivity|]. split; [intros e [<-|[]]; exact HA|].
      split; [exact HB|apply Hdef].
Qed.

(** C7. A definition [A] that is an object with a property of type [A] is
    rendered as a type that names itself. A definition [A] that is an array
    of [A] is not: [generateType] replaces the reference by the array it
    names before it pushes anything on its stack, so the reference is
    never found there, and no amount of fuel lets the call return. Nor
    does [simplifyType] return on a definition that is a reference to
    itself. *)
Theorem generateType_array_cycle_never_returns :
  (exists rt st,
     build selfReferentialSchema noDocumenter 5 RelevantKeys = Ok (rt, st) /\
     exists def st',
       get "A" (definitions rt) = Some def /\
       CodeGenerator.generateTypeDefinition (resourceOptions rt 5) 5 "A" def
         (CodeGenerator.mkGenState [NameString "A"] [])
       = Ok (CodeGenerator.TypeAliasDeclaration "A"
               (CodeGenerator.TypeLiteralNode
                  [CodeGenerator.mkPropertySignature
                     (CodeGenerator.Identifier "p") true
                     (CodeGenerator.UnionTypeNode
                        [CodeGenerator.TypeReferenceNode "A" None;
                         CodeGenerator.KeywordType
                           CodeGenerator.UndefinedKeyword])
                     (Some [])])
               (Some []), st')) /\
  (exists st,
     build cyclicSchema noDocumenter 5 RelevantKeys = Ok (cyclicResource, st)) /\
  (forall simplifierFuel fuel,
     CodeGenerator.generateTypeDefinition
       (resourceOptions cyclicResource simplifierFuel) fuel "A"
       (mkTypeDefinition (Some []) arrayOfA)
       (CodeGenerator.mkGenState [NameString "A"] [])
     = OutOfFuel) /\
  (forall fuel id,
     Simplifier.simplifyType aliasResource Simplifier.ModeResource None fuel
       (TReference id (NameString "A"))
     = OutOfFuel).
Proof.
  split; [|split; [|split]].
  - do 2 eexists. split; [vm_compute; reflexivity|].
    do 2 eexists. split; [reflexivity|]. vm_compute. reflexivity.
  - eexists. vm_compute. reflexivity.
  - intros simplifierFuel fuel.
    assert (Harray : forall n,
              Simplifier.simplifyType cyclicResource Simplifier.ModeResource
                None (S n) arrayOfA = Ok arrayOfA) by reflexivity.
    assert (Href : forall n,
              Simplifier.simplifyType cyclicResource Simplifier.ModeResource
                None (S (S n)) refToA = Ok arrayOfA) by reflexivity.
    assert (Hloop : forall fuel names stack,
              existsb (CodeGenerator.node_eqb refToA) stack = false ->
              CodeGenerator.generateType
                (resourceOptions cyclicResource simplifierFuel) fuel arrayOfA
                (CodeGenerator.mkGenState names stack) = OutOfFuel /\
              CodeGenerator.generateType
                (resourceOptions cyclicResource simplifierFuel) fuel refToA
                (CodeGenerator.mkGenState names stack) = OutOfFuel).
    { clear fuel. induction fuel as [|fuel IH]; intros names stack Hfree;
        [split; reflexivity|].
      assert (Hfree' : existsb (CodeGenerator.node_eqb refToA)
                         (stack ++ [arrayOfA]) = false).
      { rewrite existsb_app, Hfree. reflexivity. }
      destruct (IH names (stack ++ [arrayOfA]) Hfree') as [_ Hr].
      assert (Hbody :
        (CodeGenerator.pushStack arrayOfA ;;;
         result <- CodeGenerator.generateNode
                     (resourceOptions cyclicResource simplifierFuel)
                     (CodeGenerator.generateType
                        (resourceOptions cyclicResource simplifierFuel) fuel)
                     arrayOfA ;;
         CodeGenerator.popStack arrayOfA ;;;
         ret result) (CodeGenerator.mkGenState names stack) = OutOfFuel).
      { apply CodeGeneratorFacts.generate_array_out_of_fuel. exact Hr. }
      split; rewrite CodeGeneratorFacts.generateType_step;
        unfold CodeGeneratorFacts.simplifyStep;
        change (CodeGenerator.simplifier
                  (resourceOptions cyclicResource simplifierFuel))
          with (Some (Simplifier.simplifyType cyclicResource
                        Simplifier.ModeResource None simplifierFuel));
        change (CodeGenerator.stack (CodeGenerator.mkGenState names stack))
          with stack.
      - destruct (existsb (CodeGenerator.node_eqb arrayOfA) stack);
          simpl negb; cbv iota; [exact Hbody|].
        destruct simplifierFuel as [|n]; [reflexivity|].
        rewrite Harray. exact Hbody.
      - rewrite Hfree. simpl negb. cbv iota.
        destruct simplifierFuel as [|[|n]]; [reflexivity|reflexivity|].
        rewrite Href. exact Hbody. }
    unfold CodeGenerator.generateTypeDefinition, bind.
    change (defType (mkTypeDefinition (Some []) arrayOfA)) with arrayOfA.
    destruct (Hloop fuel [NameString "A"] [] eq_refl) as [Ha _].
    now rewrite Ha.
  - induction fuel as [|fuel IH]; intros id; [reflexivity|].
    simpl. apply IH.
Qed.

(** C9. In every resource that [build] returns, the attributes type, when
    present, is an object type whose every property name is in its
    [required] list. And the attributes view of an object node (its keys
    distinct, as those of an object are) is the object of its properties
    flagged [isAttribute], with exactly their names as [required]. *)
Theorem attributes_are_required :
  forall (resourceSchema : obj) (documenter : ResourceDocumenter) (fuel : nat)
         (table : Tag -> list string) (rt : ResourceType) (st : State),
    build resourceSchema documenter fuel table = Ok (rt, st) ->
    AttributesSpec.requiredCovers (attributes rt) /\
    (forall (resource : ResourceType) (tagType : option SymbolName)
            (fuel' : nat) (id : string) (props : list (string * PropertyInfo))
            (req : list string),
       NoDup (keys props) ->
       Simplifier.simplifyType resource Simplifier.ModeAttributes tagType
         (S fuel') (TObject id props req)
       = Ok (TObject id (AttributesSpec.keptAttributes props)
               (keys (AttributesSpec.keptAttributes props)))).
Proof.
  intros resourceSchema documenter fuel table rt st Hbuild. split.
  - apply (ClassifyFacts.build_attributes AttributesSpec.requiredCovers)
      with (resourceSchema := resourceSchema) (documenter := documenter)
           (fuel := fuel) (table := table) (st := st);
      [|exact I|exact Hbuild].
    intros rs doc name entry r Hr. unfold addAttributeEntry. simpl.
    destruct (attributes r) as [d|]; simpl in *.
    + destruct Hr as (id & props & req & -> & Hreq).
      exists id, (set name entry props), (req ++ [name]).
      split; [reflexivity|]. intros k Hk. apply in_or_app.
      apply ClassifyFacts.has_set in Hk as [->|Hk];
        [right; now left|left; now apply Hreq].
    + exists "/attributes", [(name, entry)], [name].
      split; [reflexivity|]. intros k Hk. unfold has in Hk. simpl in Hk.
      destruct (String.eqb name k) eqn:E; [|discriminate].
      apply String.eqb_eq in E. now left.
  - intros resource tagType fuel' id props req Hnd. simpl.
    fold (AttributesSpec.keptAttributes props).
    rewrite ClassifyFacts.fromEntries_NoDup; [reflexivity|].
    unfold AttributesSpec.keptAttributes, keys in *.
    clear - Hnd. induction props as [|[k p] props IH]; simpl; [constructor|].
    inversion Hnd as [|? ? Hk Hrest]; subst.
    destruct (isTrue (isAttribute p)); simpl; [|now apply IH].
    constructor; [|now apply IH].
    intros Hin. apply Hk. apply in_map_iff in Hin as ([k' p'] & Heq & Hin).
    simpl in Heq. subst k'. apply filter_In in Hin as [Hin _].
    apply in_map_iff. now exists (k, p').
Qed.

(** The attributes type built for the round-trip resource lists its one
    property, [Id], as required. *)
Lemma attributes_are_required_witness :
  exists rt st,
    build roundTrip noDocumenter 3 RelevantKeys = Ok (rt, st) /\
    AttributesSpec.requiredCovers (attributes rt).
Proof.
  eexists. eexists. split; [vm_compute; reflexivity|].
  refine (proj1 (attributes_are_required roundTrip noDocumenter 3
                   RelevantKeys (st := _) _)).
  vm_compute. reflexivity.
Defined.




(** C6, as stated. The property [P] of [promotionSchema] has an object
    type, and the breadcrumb pass marks it [isAttribute = true] all the
    same, whatever the fuel: its two children are attributes. *)
Lemma object_parent_is_marked_attribute :
  (forall fuel rt st,
     build promotionSchema noDocumenter fuel RelevantKeys = Ok (rt, st) ->
     exists info id props req,
       propAt rt (rootProperty "P") = Some info /\
       isAttribute info = Some true /\
       type info = TObject id props req /\
       ~ GraphSpec.NoStructure rt (type info)) /\
  (exists rt st,
     build promotionSchema noDocumenter 5 RelevantKeys = Ok (rt, st)).
Proof.
  split.
  - intros fuel rt st H.
    destruct fuel as [|[|[|[|[|fuel]]]]]; vm_compute in H;
      try discriminate H.
    injection H as <- _. do 4 eexists.
    split; [vm_compute; reflexivity|].
    split; [reflexivity|]. split; [reflexivity|].
    intros Hns. inversion Hns. discriminate.
  - eexists. eexists. vm_compute. reflexivity.
Qed.

(** C6, amended. In every resource that [build] returns, the attributes
    type, when present, is an object type; each of its entries is flagged
    [isAttribute], has a type that, with its references resolved, holds
    no object and no record, and is the type of a property flagged
    [isAttribute] in the properties tree or in a definition reached from
    it. And [#addAttribute] with a path that contains a wildcard leaves
    the attributes type as it is and changes the [isAttribute] flag of no
    property: the graph keeps its shape, every property is found again at
    its place, under its name or under that name with its dots, with the
    flag it had, and every property there is afterwards was there before,
    with the flag it has. *)
Theorem attributes_backed_by_marked_properties :
  forall (resourceSchema : obj) (documenter : ResourceDocumenter) (fuel : nat)
         (table : Tag -> list string) (rt : ResourceType) (st : State),
    build resourceSchema documenter fuel table = Ok (rt, st) ->
    GraphSpec.entriesBacked rt /\
    (forall path readOnly st1 st2,
       Str.includesChar "*" path = true ->
       addAttribute resourceSchema documenter fuel path readOnly st1
       = Ok (tt, st2) ->
       attributes (root st2) = attributes (root st1) /\
       WildcardSpec.sameAttributeFlags (root st1) (root st2) /\
       (forall p info,
          propAt (root st1) p = Some info ->
          exists p' info',
            propAt (root st2) p' = Some info' /\
            WildcardSpec.sameName (key p) (key p') /\
            isAttribute info' = isAttribute info) /\
       (forall p' info',
          propAt (root st2) p' = Some info' ->
          exists p info,
            propAt (root st1) p = Some info /\
            WildcardSpec.sameName (key p) (key p') /\
            isAttribute info' = isAttribute info)).
Proof.
  intros resourceSchema documenter fuel table rt st Hbuild. split.
  - pose proof (@GraphFacts.build_backed _ _ _ _ _ _ Hbuild) as HB.
    unfold GraphSpec.attributesBacked in HB. unfold GraphSpec.entriesBacked.
    destruct (attributes rt) as [a|]; [|exact I].
    destruct HB as (id & props & req & Ht & Hall).
    exists id, props, req. split; [assumption|].
    intros name e He. destruct (Hall name e He) as (Hattr & Hvalid & Hp).
    split; [assumption|]. split; [|assumption].
    exact (@GraphFacts.valid_NoStructure _ _ _ Hvalid).
  - intros path readOnly st1 st2 Hwild Hrun.
    pose proof (@WildcardFacts.addAttribute_wildcard_flags _ _ _ _ _ _ _
                  Hwild Hrun) as [Hf Hb].
    split; [exact (proj1 (proj2 Hf))|]. split; [split; assumption|]. split.
    + intros p info Hp.
      destruct (GraphFacts.propAt_Ev _ Hf Hp)
        as (p' & info' & _ & Hp' & [Hname Hattr] & _).
      exists p', info'. repeat split; assumption.
    + intros p' info' Hp'.
      destruct (GraphFacts.propAt_Ev _ Hb Hp')
        as (p & info & _ & Hp & [Hname Hattr] & _).
      exists p, info. repeat split; try assumption. now symmetry.
Qed.

(** The attributes type built for [promotionSchema] has the entries [P.x]
    and [P.y]; both are backed by the properties [x] and [y] of [P]. And
    [#addAttribute] with the wildcard path of [listSchema] marks [x] of
    the definition read-only and leaves every [isAttribute] flag as it
    was. *)
Lemma attributes_backed_by_marked_properties_witness :
  (exists rt st,
     build promotionSchema noDocumenter 5 RelevantKeys = Ok (rt, st) /\
     GraphSpec.entriesBacked rt) /\
  (exists st2 info,
     addAttribute listSchema noDocumenter 6 "/properties/L/*/x" true listWalked
     = Ok (tt, st2) /\
     propAt (root st2) (mkPropRef (InDefinition "D", []) "x") = Some info /\
     readOnly info = Some true /\
     WildcardSpec.sameAttributeFlags (root listWalked) (root st2)).
Proof.
  split.
  - eexists. eexists. split; [vm_compute; reflexivity|].
    refine (proj1 (attributes_backed_by_marked_properties promotionSchema
                     noDocumenter 5 RelevantKeys (st := _) _)).
    vm_compute. reflexivity.
  - eexists. eexists. split; [vm_compute; reflexivity|].
    split; [vm_compute; reflexivity|]. split; [reflexivity|].
    refine (proj1 (proj2 (proj2 (attributes_backed_by_marked_properties
                     listSchema noDocumenter 6 RelevantKeys (st := _) _)
                     "/properties/L/*/x" true listWalked _ eq_refl _))).
    + vm_compute. reflexivity.
    + vm_compute. reflexivity.
Defined.


End Claims.

From Stdlib Require Import Sorted Permutation.

(* ===================================================================== *)
(** ** Objects, paths, types and the simplifier: further facts *)
(* ===================================================================== *)

Module ExtraFacts.
Import Js Str TypeNodes ObjectUtil Run Builder TypeNodesFacts ClassifyFacts
  GraphFacts
  SchemaPathsFacts.

(** *** Objects as lists of entries *)

Lemma get_None_keys (V : Type) k (o : list (string * V)) :
  get k o = None <-> ~ In k (keys o).
Proof.
  unfold keys. induction o as [|[k' v] o IH]; simpl; [tauto|].
  destruct (String.eqb k' k) eqn:E.
  - apply String.eqb_eq in E. subst. split; [discriminate|]. tauto.
  - apply String.eqb_neq in E. rewrite IH. tauto.
Qed.

Lemma set_absent (V : Type) k (v : V) (o : list (string * V)) :
  get k o = None -> set k v o = o ++ [(k, v)].
Proof.
  induction o as [|[k' w] o IH]; simpl; [reflexivity|].
  destruct (String.eqb k' k); [discriminate|]. intros H. now rewrite IH.
Qed.

Lemma get_app (V : Type) k (a b : list (string * V)) :
  get k (a ++ b) = match get k a with Some v => Some v | None => get k b end.
Proof.
  induction a as [|[k' w] a IH]; simpl; [reflexivity|].
  now destruct (String.eqb k' k).
Qed.

Lemma get_filter (V : Type) (f : string -> bool) k (o : list (string * V)) :
  get k (filter (fun kv => f (fst kv)) o) = if f k then get k o else None.
Proof.
  induction o as [|[k' w] o IH]; simpl; [now destruct (f k)|].
  destruct (f k') eqn:Hf; simpl; destruct (String.eqb k' k) eqn:E; try exact IH.
  - apply String.eqb_eq in E. subst. now rewrite Hf.
  - apply String.eqb_eq in E. subst. rewrite Hf in IH |- *. exact IH.
Qed.

(** [pick] read by key. *)
Lemma pick_fold_get (o : obj) k :
  forall (ks : list string) acc,
    get k (fold_left
             (fun result key =>
                match get key o with
                | Some value => set key value result
                | None => result
                end) ks acc)
    = if mem k ks
      then match get k o with Some v => Some v | None => get k acc end
      else get k acc.
Proof.
  induction ks as [|x ks IH]; intros acc; simpl; [reflexivity|].
  rewrite IH. unfold mem in *. simpl.
  destruct (String.eqb k x) eqn:E; simpl.
  - apply String.eqb_eq in E. subst x.
    destruct (get k o) as [v|] eqn:Hk.
    + rewrite get_set_same. now destruct (existsb (String.eqb k) ks).
    + now destruct (existsb (String.eqb k) ks).
  - apply String.eqb_neq in E.
    destruct (get x o) as [v|]; [|reflexivity].
    rewrite get_set_other by congruence. reflexivity.
Qed.

Lemma splitPick_fold (keys : list string) :
  forall (o p r : obj),
    NoDup (Js.keys o) ->
    (forall k, In k (Js.keys o) -> get k p = None /\ get k r = None) ->
    fold_left
      (fun (acc : obj * obj) (kv : string * json) =>
         let '(picked, rest) := acc in
         if mem (fst kv) keys then (set (fst kv) (snd kv) picked, rest)
         else (picked, set (fst kv) (snd kv) rest)) o (p, r)
    = (p ++ filter (fun kv => mem (fst kv) keys) o,
       r ++ filter (fun kv => negb (mem (fst kv) keys)) o).
Proof.
  induction o as [|[k v] o IH]; intros p r Hnd Hfresh; simpl.
  - now rewrite !app_nil_r.
  - simpl in Hnd. inversion Hnd as [|? ? Hk Hrest]; subst.
    destruct (Hfresh k (or_introl eq_refl)) as [Hp Hr].
    destruct (mem k keys) eqn:Hm; simpl.
    + rewrite set_absent by assumption. rewrite IH; [|assumption|].
      * now rewrite <- app_assoc.
      * intros k' Hk'. destruct (Hfresh k' (or_intror Hk')) as [Hp' Hr'].
        split; [|assumption]. rewrite get_app, Hp'. simpl.
        destruct (String.eqb k k') eqn:E; [|reflexivity].
        apply String.eqb_eq in E. subst. contradiction.
    + rewrite set_absent by assumption. rewrite IH; [|assumption|].
      * now rewrite <- app_assoc.
      * intros k' Hk'. destruct (Hfresh k' (or_intror Hk')) as [Hp' Hr'].
        split; [assumption|]. rewrite get_app, Hr'. simpl.
        destruct (String.eqb k k') eqn:E; [|reflexivity].
        apply String.eqb_eq in E. subst. contradiction.
Qed.

(** One object assigned onto a target, read by key. *)
Lemma assign_one_get (o : obj) k :
  NoDup (keys o) ->
  forall t,
    get k (fold_left (fun t kv => set (fst kv) (snd kv) t) o t)
    = match get k o with Some v => Some v | None => get k t end.
Proof.
  induction o as [|[k' v] o IH]; intros Hnd t; simpl; [reflexivity|].
  simpl in Hnd. inversion Hnd as [|? ? Hk Hrest]; subst.
  rewrite (IH Hrest). destruct (String.eqb k' k) eqn:E.
  - apply String.eqb_eq in E. subst k'.
    apply get_None_keys in Hk. rewrite Hk. apply get_set_same.
  - apply String.eqb_neq in E. rewrite get_set_other by assumption.
    reflexivity.
Qed.

Lemma pop_snoc (A : Type) (l : list A) x : pop (l ++ [x]) = Some (x, l).
Proof. unfold pop. rewrite rev_app_distr. simpl. now rewrite rev_involutive. Qed.

(** *** [mergeObjects] *)

Lemma has_set_keeps (V : Type) k k' (v : V) (o : list (string * V)) :
  has k o = true -> has k (set k' v o) = true.
Proof.
  unfold has. destruct (String.eqb k' k) eqn:E.
  - apply String.eqb_eq in E. subst. now rewrite get_set_same.
  - apply String.eqb_neq in E. now rewrite get_set_other.
Qed.

Lemma has_set_cases (V : Type) k k' (v : V) (o : list (string * V)) :
  has k (set k' v o) = true -> k = k' \/ has k o = true.
Proof. intros H. apply has_set in H. tauto. Qed.

Section MergeFold.
Variable S : Type.
Variable mergeValues : json -> json -> string -> S -> json * S.

Lemma mergeEntry_has acc entry k :
  has k (fst (mergeEntry mergeValues acc entry)) = true <->
  k = fst entry \/ has k (fst acc) = true.
Proof.
  destruct acc as [result st], entry as [key value]. simpl.
  destruct (get key result) as [existing|] eqn:Hg.
  - destruct (mergeValues existing value key st) as [merged st']. simpl.
    split.
    + intros H. apply has_set_cases in H. tauto.
    + intros [->|H]; [unfold has; now rewrite get_set_same|].
      now apply has_set_keeps.
  - simpl. split.
    + intros H. apply has_set_cases in H. tauto.
    + intros [->|H]; [unfold has; now rewrite get_set_same|].
      now apply has_set_keeps.
Qed.

Lemma mergeObject_has (object : obj) k :
  forall acc,
    has k (fst (fold_left (mergeEntry mergeValues) object acc)) = true <->
    has k object = true \/ has k (fst acc) = true.
Proof.
  induction object as [|[key value] object IH]; intros acc; simpl.
  - unfold has at 2. simpl. intuition discriminate.
  - rewrite IH, mergeEntry_has. simpl. unfold has at 1 3. simpl.
    destruct (String.eqb key k) eqn:E.
    + apply String.eqb_eq in E. subst. intuition.
    + apply String.eqb_neq in E. fold (has k object).
      split; [intros [H|[H|H]]; auto; congruence|intros [H|H]; auto].
Qed.

Lemma mergeObjects_has (objects : list obj) k :
  forall acc,
    has k (fst (fold_left
                  (fun acc object => fold_left (mergeEntry mergeValues) object acc)
                  objects acc)) = true <->
    (exists o, In o objects /\ has k o = true) \/ has k (fst acc) = true.
Proof.
  induction objects as [|o objects IH]; intros acc; simpl.
  - split; [auto|intros [(o & [] & _)|H]; exact H].
  - rewrite IH, mergeObject_has. split.
    + intros [(o' & Hin & Ho')|[H|H]]; eauto.
    + intros [(o' & [<-|Hin] & Ho')|H]; eauto.
Qed.

End MergeFold.

(** *** [getBreadcrumbs] *)

Lemma unique_spec xs :
  forall seen,
    NoDup (SchemaPaths.unique seen xs) /\
    forall x, In x (SchemaPaths.unique seen xs) <-> In x xs /\ ~ In x seen.
Proof.
  induction xs as [|a xs IH]; intros seen; simpl.
  - split; [constructor|]. intros x. tauto.
  - destruct (mem a seen) eqn:Hm.
    + apply mem_In in Hm. destruct (IH seen) as [Hnd Hin].
      split; [assumption|]. intros x. rewrite Hin. split.
      * intros [Hx Hs]. auto.
      * intros [[<-|Hx] Hs]; [contradiction|auto].
    + assert (Ha : ~ In a seen).
      { intros Hin. apply mem_In in Hin. congruence. }
      destruct (IH (a :: seen)) as [Hnd Hin]. split.
      * constructor; [|assumption]. rewrite Hin. simpl. tauto.
      * intros x. simpl. rewrite Hin. simpl. split.
        -- intros [<-|[Hx Hs]]; [auto|]. split; [auto|tauto].
        -- intros [[<-|Hx] Hs]; [auto|].
           destruct (string_dec a x) as [->|Hne]; [auto|]. right.
           split; [assumption|]. intros [H|H]; auto.
Qed.

Lemma NoDup_insertByDepth x sorted :
  ~ In x sorted -> NoDup sorted -> NoDup (SchemaPaths.insertByDepth x sorted).
Proof.
  induction sorted as [|y rest IH]; simpl; intros Hx Hnd.
  - constructor; [auto|constructor].
  - destruct (Nat.ltb (SchemaPaths.depth y) (SchemaPaths.depth x)).
    + constructor; assumption.
    + inversion Hnd as [|? ? Hy Hrest]; subst. constructor.
      * rewrite SchemaPathsFacts.In_insertByDepth. intros [->|H]; tauto.
      * apply IH; tauto.
Qed.

Lemma NoDup_sortDeepestFirst xs :
  NoDup xs -> NoDup (SchemaPaths.sortDeepestFirst xs).
Proof.
  unfold SchemaPaths.sortDeepestFirst.
  assert (H : forall acc,
             NoDup acc -> NoDup xs -> (forall x, In x xs -> ~ In x acc) ->
             NoDup (fold_left
                      (fun sorted x => SchemaPaths.insertByDepth x sorted)
                      xs acc)).
  { induction xs as [|a xs IH]; intros acc Hacc Hxs Hdis; simpl;
      [assumption|].
    inversion Hxs as [|? ? Ha Hrest]; subst. apply IH; [|assumption|].
    - apply NoDup_insertByDepth; [|assumption]. apply Hdis. now left.
    - intros x Hx. rewrite SchemaPathsFacts.In_insertByDepth.
      intros [->|H]; [contradiction|]. apply (Hdis x); [now right|assumption]. }
  intros Hxs. apply H; [constructor|assumption|]. intros x _ [].
Qed.

(** Deeper paths come first. *)
Definition deeperFirst (a b : string) : Prop :=
  SchemaPaths.depth b <= SchemaPaths.depth a.

Lemma sorted_insertByDepth x sorted :
  StronglySorted deeperFirst sorted ->
  StronglySorted deeperFirst (SchemaPaths.insertByDepth x sorted).
Proof.
  induction 1 as [|y rest Hrest IH Hy]; simpl.
  - constructor; constructor.
  - destruct (Nat.ltb (SchemaPaths.depth y) (SchemaPaths.depth x)) eqn:E.
    + apply Nat.ltb_lt in E. constructor; [now constructor|].
      constructor; [unfold deeperFirst; lia|].
      rewrite Forall_forall in *. intros z Hz. specialize (Hy z Hz).
      unfold deeperFirst in *. lia.
    + apply Nat.ltb_ge in E. constructor; [assumption|].
      rewrite Forall_forall in *. intros z Hz.
      apply SchemaPathsFacts.In_insertByDepth in Hz as [->|Hz];
        [exact E|now apply Hy].
Qed.

Lemma sorted_sortDeepestFirst xs :
  StronglySorted deeperFirst (SchemaPaths.sortDeepestFirst xs).
Proof.
  unfold SchemaPaths.sortDeepestFirst.
  assert (H : forall acc,
             StronglySorted deeperFirst acc ->
             StronglySorted deeperFirst
               (fold_left
                  (fun sorted x => SchemaPaths.insertByDepth x sorted)
                  xs acc)).
  { induction xs as [|a xs IH]; intros acc Hacc; simpl; [assumption|].
    apply IH. now apply sorted_insertByDepth. }
  apply H. constructor.
Qed.

(** [dirname] applied [n] times. *)
Fixpoint ancestor (n : nat) (path : string) : string :=
  match n with
  | O => path
  | S n' => ancestor n' (dirname path)
  end.

Lemma parentsOf_spec fuel :
  forall current b,
    In b (SchemaPaths.parentsOf fuel current) ->
    b <> "/properties" /\ basename b <> "*" /\
    exists n, b = ancestor (S n) current.
Proof.
  induction fuel as [|fuel IH]; intros current b Hb; simpl in Hb;
    [contradiction|].
  destruct (String.eqb (dirname current) "/properties" ||
            String.eqb (dirname current) current) eqn:Hstop;
    [contradiction|].
  apply orb_false_iff in Hstop as [Hp _]. apply String.eqb_neq in Hp.
  assert (Hrec : In b (SchemaPaths.parentsOf fuel (dirname current)) ->
                 b <> "/properties" /\ basename b <> "*" /\
                 exists n, b = ancestor (S n) current).
  { intros Hin. destruct (IH _ _ Hin) as (H1 & H2 & n & Hn).
    split; [assumption|]. split; [assumption|]. exists (S n). exact Hn. }
  destruct (negb (String.eqb (basename (dirname current)) "*")) eqn:Hstar.
  - destruct Hb as [<-|Hb]; [|now apply Hrec].
    split; [assumption|]. split.
    + apply negb_true_iff in Hstar. now apply String.eqb_neq.
    + exists 0. reflexivity.
  - now apply Hrec.
Qed.

(** *** [#findProperty] *)

Lemma findProperty_answer :
  forall fuel mangle loc parts st props st',
    findProperty fuel mangle loc parts st = Ok (props, st') ->
    (mangle = false -> st' = st) /\
    forall p, In p props -> key p = last parts "".
Proof.
  induction fuel as [|fuel IH]; intros mangle loc parts st props st' H;
    [discriminate|].
  simpl in H. destruct parts as [|part rest].
  { apply ret_inv in H as [-> ->]. split; [auto|intros p []]. }
  apply bind_inv in H as (u & st1 & Ha & H). apply assert_inv in Ha as [_ ->].
  apply bind_inv in H as (node & st1 & Hn & H).
  apply nodeAtM_inv in Hn as [-> Hn].
  assert (Hnone : forall st0 : State,
             ret (@nil PropRef) st = Ok (props, st0) ->
             (mangle = false -> st0 = st) /\
             forall p, In p props -> key p = last (part :: rest) "").
  { intros st0 H0. apply ret_inv in H0 as [-> ->].
    split; [auto|intros p []]. }
  destruct node as [id|id doc items|id v|id vs|id oprops req|kind id|id value
                   |id name|id items|id]; try (now apply Hnone).
  - destruct (String.eqb part "*") eqn:Estar; [|now apply Hnone].
    destruct rest as [|next rest].
    + (* the last segment is the wildcard: nothing is answered *)
      destruct fuel; [discriminate|]. simpl in H.
      apply ret_inv in H as [-> ->]. split; [auto|intros p []].
    + now apply IH in H.
  - destruct (String.eqb part "*"); [now apply Hnone|].
    apply bind_inv in H as (present & st1 & Hpres & H).
    assert (Hsame : mangle = false -> st1 = st).
    { intros ->. destruct (get part oprops).
      - now apply ret_inv in Hpres as [_ ->].
      - destruct (inherited part); [discriminate|].
        now apply ret_inv in Hpres as [_ ->]. }
    destruct present.
    + destruct rest as [|next rest].
      * apply ret_inv in H as [-> ->]. split; [assumption|].
        intros p [<-|[]]. reflexivity.
      * apply IH in H as [Hst Hkeys]. split.
        -- intros Hm. rewrite (Hst Hm). now apply Hsame.
        -- assumption.
    + apply ret_inv in H as [-> ->]. split; [assumption|intros p []].
  - destruct name as [name| |]; try (now apply Hnone).
    apply bind_inv in H as (r & st1 & Hr & H).
    apply getRoot_inv in Hr as [-> ->].
    apply bind_inv in H as (target & st1 & Ht & H).
    apply liftR_inv in Ht as [Ht ->].
    destruct target as [d|]; [|discriminate].
    now apply IH in H.
  - apply bind_inv in H as (results & st1 & Hmap & H).
    apply ret_inv in H as [-> ->].
    assert (Hloop : forall (members : list TypeNode) i st0 results0 st2,
               mapMi (fun (_ : TypeNode) j =>
                        findProperty fuel mangle (below loc (AtMember j))
                          (part :: rest)) i members st0
               = Ok (results0, st2) ->
               (mangle = false -> st2 = st0) /\
               forall ps p, In ps results0 -> In p ps ->
                 key p = last (part :: rest) "").
    { induction members as [|m members IHm]; intros i st0 results0 st2 Hm;
        simpl in Hm.
      - apply ret_inv in Hm as [-> ->]. split; [auto|intros ps p []].
      - apply bind_inv in Hm as (y & st3 & Hy & Hm).
        apply bind_inv in Hm as (ys & st4 & Hys & Hm).
        apply ret_inv in Hm as [-> ->].
        apply IH in Hy as [Hst1 Hy]. apply IHm in Hys as [Hst2 Hys].
        split.
        + intros Hm. rewrite (Hst2 Hm). now apply Hst1.
        + intros ps p [<-|Hin] Hp; [now apply Hy|now apply (Hys ps)]. }
    destruct (Hloop _ _ _ _ _ Hmap) as [Hst Hps].
    split; [assumption|]. intros p Hp.
    apply in_concat in Hp as (ps & Hin & Hp). exact (Hps ps p Hin Hp).
Qed.

(** *** [#warnExtraKeys] *)

(** The keys that a call of [#warn] made by [#warnExtraKeys] names. *)
Definition reportedKeys (call : WarnCall) : list json :=
  match warnArgs call with
  | JArr ks :: _ => ks
  | _ => []
  end.

Lemma mem_app x a b : mem x (a ++ b) = mem x a || mem x b.
Proof. unfold mem. apply existsb_app. Qed.

(** *** [isSameType] *)

Lemma every_trans (A B C : Type) (R1 : A -> B -> bool) (R2 : B -> C -> bool)
  (R3 : A -> C -> bool) la lb lc :
  (forall x y z, In x la -> R1 x y = true -> R2 y z = true -> R3 x z = true) ->
  every (fun x i => match nth_error lb i with
                    | Some y => R1 x y | None => false end) la = true ->
  every (fun y i => match nth_error lc i with
                    | Some z => R2 y z | None => false end) lb = true ->
  every (fun x i => match nth_error lc i with
                    | Some z => R3 x z | None => false end) la = true.
Proof.
  intros Htrans H1 H2. rewrite every_nth in *. intros i x Hx.
  specialize (H1 i x Hx). simpl in H1.
  destruct (nth_error lb i) as [y|] eqn:Hy; [|discriminate].
  specialize (H2 i y Hy). simpl in H2.
  destruct (nth_error lc i) as [z|]; [|discriminate].
  apply Htrans with y; [eapply nth_error_In; eauto|assumption|assumption].
Qed.

Lemma prim_eqb_eq a b : prim_eqb a b = true -> a = b.
Proof.
  destruct a, b; simpl; try discriminate; intros H; try reflexivity.
  - destruct b, b0; try discriminate; reflexivity.
  - apply Z.eqb_eq in H. now subst.
  - apply String.eqb_eq in H. now subst.
Qed.

Lemma name_eqb_trans a b c :
  name_eqb a b = true -> name_eqb b c = true -> name_eqb a c = true.
Proof.
  destruct a, b, c; simpl; try discriminate; intros H1 H2;
    first [ apply String.eqb_eq in H1; apply String.eqb_eq in H2; subst;
            apply String.eqb_refl
          | apply Nat.eqb_eq in H1; apply Nat.eqb_eq in H2; subst;
            apply Nat.eqb_refl ].
Qed.

Lemma isSameType_trans :
  forall a b c,
    isSameType a b = true -> isSameType b c = true -> isSameType a c = true.
Proof.
  induction a as [id|id d t IHa|id v|id vs|id props req H|k id|id t IHa|id n
                  |id items H|id] using TypeNode_nested_ind; intros b c Hab Hbc;
    destruct b; simpl in Hab; try discriminate; try solve [case_kinds];
    destruct c; simpl in Hbc |- *; try discriminate; try reflexivity;
    try solve [case_kinds].
  - now apply IHa with b.
  - apply prim_eqb_eq in Hab. now subst.
  - apply andb_true_iff in Hab as [Hl1 He1].
    apply andb_true_iff in Hbc as [Hl2 He2].
    apply Nat.eqb_eq in Hl1. apply Nat.eqb_eq in Hl2.
    rewrite Hl1, Hl2, Nat.eqb_refl. simpl.
    revert He1 He2.
    apply (every_trans (fun x y => prim_eqb y x) (fun y z => prim_eqb z y)
             (fun x z => prim_eqb z x)).
    intros x y z _ H1 H2. apply prim_eqb_eq in H1. apply prim_eqb_eq in H2.
    subst. apply prim_eqb_refl.
  - apply andb_true_iff in Hab as [Hab Hp1].
    apply andb_true_iff in Hab as [Hab Hr1].
    apply andb_true_iff in Hab as [Hlr1 Hlp1].
    apply andb_true_iff in Hbc as [Hbc Hp2].
    apply andb_true_iff in Hbc as [Hbc Hr2].
    apply andb_true_iff in Hbc as [Hlr2 Hlp2].
    apply Nat.eqb_eq in Hlr1, Hlp1, Hlr2, Hlp2.
    rewrite Hlr1, Hlr2, Hlp1, Hlp2, !Nat.eqb_refl. simpl.
    apply andb_true_iff. split.
    + revert Hr1 Hr2.
      apply (every_trans (fun x y => String.eqb y x)
               (fun y z => String.eqb z y) (fun x z => String.eqb z x)).
      intros x y z _ H1 H2. apply String.eqb_eq in H1, H2. subst.
      apply String.eqb_refl.
    + revert Hp1 Hp2.
      apply (every_trans
               (fun (entry other : string * PropertyInfo) =>
                  String.eqb (fst other) (fst entry) &&
                  isSameType (type (snd entry)) (type (snd other)))
               (fun (entry other : string * PropertyInfo) =>
                  String.eqb (fst other) (fst entry) &&
                  isSameType (type (snd entry)) (type (snd other)))
               (fun (entry other : string * PropertyInfo) =>
                  String.eqb (fst other) (fst entry) &&
                  isSameType (type (snd entry)) (type (snd other)))).
      intros x y z Hin H1 H2.
      apply andb_true_iff in H1 as [Hn1 Ht1].
      apply andb_true_iff in H2 as [Hn2 Ht2].
      apply String.eqb_eq in Hn1, Hn2. apply andb_true_iff. split.
      * rewrite Hn2, Hn1. apply String.eqb_refl.
      * rewrite Forall_forall in H. exact (H x Hin _ _ Ht1 Ht2).
  - now apply IHa with b.
  - now apply name_eqb_trans with name.
  - apply andb_true_iff in Hab as [Hl1 He1].
    apply andb_true_iff in Hbc as [Hl2 He2].
    apply Nat.eqb_eq in Hl1. apply Nat.eqb_eq in Hl2.
    rewrite Hl1, Hl2, Nat.eqb_refl. simpl.
    revert He1 He2.
    apply (every_trans (fun x y => isSameType x y) (fun y z => isSameType y z)
             (fun x z => isSameType x z)).
    intros x y z Hin H1 H2. rewrite Forall_forall in H.
    exact (H x Hin _ _ H1 H2).
Qed.

(** *** [simplifyType] *)

Lemma mapR_Forall2 (A B : Type) (f : A -> Result B) xs :
  forall ys, Simplifier.mapR f xs = Ok ys ->
             Forall2 (fun x y => f x = Ok y) xs ys.
Proof.
  induction xs as [|x xs IH]; intros ys H; simpl in H.
  - inversion H. constructor.
  - destruct (f x) as [y| | |] eqn:Hx; try discriminate.
    destruct (Simplifier.mapR f xs) as [ys'| | |]; try discriminate.
    inversion H; subst. constructor; auto.
Qed.

Lemma dedupInto_In l :
  forall items x, In x (UnionSpec.dedupInto items l) -> In x items \/ In x l.
Proof.
  induction l as [|c l IH]; intros items x Hx; simpl in Hx; [now left|].
  apply IH in Hx as [Hx|Hx]; [|right; now right].
  destruct (push_cases items c) as [[_ Hp]|[_ Hp]]; rewrite Hp in Hx;
    [now left|].
  apply in_app_or in Hx as [Hx|[<-|[]]]; [now left|right; now left].
Qed.

Lemma keys_filter_NoDup (V : Type) (f : string * V -> bool)
  (o : list (string * V)) :
  NoDup (keys o) -> NoDup (keys (filter f o)).
Proof.
  unfold keys. induction o as [|[k v] o IH]; simpl; intros Hnd;
    [constructor|].
  inversion Hnd as [|? ? Hk Hrest]; subst.
  destruct (f (k, v)); simpl; [|now apply IH].
  constructor; [|now apply IH].
  intros Hin. apply Hk. apply in_map_iff in Hin as ([k' v'] & Heq & Hin).
  simpl in Heq. subst k'. apply filter_In in Hin as [Hin _].
  apply in_map_iff. now exists (k, v').
Qed.

(** The resource view of an object node with distinct keys. *)
Lemma resource_view_eq resource tagType fuel id
  (props : list (string * PropertyInfo)) req :
  NoDup (keys props) ->
  Simplifier.simplifyType resource Simplifier.ModeResource tagType
    (S fuel) (TObject id props req)
  = Ok (TObject id
          (filter (fun e : string * PropertyInfo =>
                     negb (isTrue (readOnly (snd e)))) props)
          (filter (fun x =>
                     js_in x (filter (fun e : string * PropertyInfo =>
                                        negb (isTrue (readOnly (snd e))))
                                props)) req)).
Proof.
  intros Hnd. simpl. rewrite fromEntries_NoDup; [reflexivity|].
  now apply keys_filter_NoDup.
Qed.

(** A reference that [simplifyType] would replace by its target. *)
Definition inlinable (resource : ResourceType)
  (mode : Simplifier.ResourceTypeSimplifierMode) (t : TypeNode) : Prop :=
  exists id name d,
    t = TReference id (NameString name) /\
    get name (definitions resource) = Some d /\
    Simplifier.shouldInline mode (defType d) = true.

Lemma simplifyType_leaves resource mode :
  forall fuel node result,
    Simplifier.simplifyType resource mode None fuel node = Ok result ->
    Forall (fun x => ~ inlinable resource mode x) (UnionSpec.leaves result).
Proof.
  assert (Hother : forall t, (forall i n, t <> TReference i n) ->
                             (forall i l, t <> TUnion i l) ->
            Forall (fun x => ~ inlinable resource mode x) (UnionSpec.leaves t)).
  { intros t Hr Hu. destruct t; simpl;
      try (constructor; [intros (i & n & d & Heq & _); discriminate|constructor]).
    - exfalso. eapply Hr. reflexivity.
    - exfalso. eapply Hu. reflexivity. }
  induction fuel as [|fuel IH]; intros node result H; [discriminate|].
  destruct node; simpl in H;
    try (inversion H; subst; apply Hother; intros; discriminate).
  - (* object *)
    destruct mode; inversion H; subst; apply Hother; intros; discriminate.
  - (* reference *)
    destruct name as [name| |];
      try (inversion H; subst; simpl; constructor; [|constructor];
           intros (i & n & d & Heq & _); discriminate).
    unfold definitionOf, lookupDefinition in H.
    destruct (get name (definitions resource)) as [def|] eqn:Hdef.
    + destruct (Simplifier.shouldInline mode (defType def)) eqn:Hin.
      * now apply IH in H.
      * inversion H; subst. simpl. constructor; [|constructor].
        intros (i & n & d & Heq & Hd & Hs). inversion Heq; subst. congruence.
    + destruct (inherited name); [discriminate|]. inversion H; subst.
      simpl. constructor; [|constructor].
      intros (i & n & d & Heq & Hd & Hs). inversion Heq; subst. congruence.
  - (* union *)
    destruct (Simplifier.mapR _ items) as [simplified| | |] eqn:Hmap;
      try discriminate.
    rewrite simplifyUnionType_eq in H. inversion H; subst. clear H.
    apply mapR_Forall2 in Hmap.
    assert (Hflat : Forall (fun x => ~ inlinable resource mode x)
                      (UnionSpec.flatten simplified)).
    { unfold UnionSpec.flatten. clear - Hmap IH.
      induction Hmap; simpl; [constructor|].
      apply Forall_app. split; eauto. }
    pose proof (@dedupInto_Forall _ (UnionSpec.flatten simplified)
                  [] (Forall_nil _) Hflat) as Hitems.
    pose proof (@dedupInto_Forall _ (UnionSpec.flatten simplified)
                  [] (Forall_nil _)
                  (flatten_nonunion simplified)) as Hplain.
    fold (UnionSpec.dedup (UnionSpec.flatten simplified)) in Hitems, Hplain.
    destruct (UnionSpec.dedup (UnionSpec.flatten simplified)) as [|a [|b rest]].
    + simpl. constructor; [|constructor].
      intros (i & n & d & Heq & _); discriminate.
    + simpl. inversion Hplain; subst.
      rewrite leaves_not_union by assumption. assumption.
    + change (Forall (fun x => ~ inlinable resource mode x)
                (UnionSpec.flatten (a :: b :: rest))).
      now rewrite flatten_fixed.
Qed.

End ExtraFacts.

Module Extras.
Import Js Str TypeNodes ObjectUtil Run Builder TypeNodesFacts ClassifyFacts
  GraphFacts ExtraFacts
  SchemaPathsFacts.

(** X1. [pick(object, keys)] holds, under each of [keys] that [object]
    has, the value [object] has there, and nothing else. The keys are
    names that no object inherits: for an inherited name [object[key]] is
    the inherited member. *)
Theorem pick_holds_the_listed_keys :
  forall (object : obj) (keys : list string) (k : string),
    forallb (fun x => negb (inherited x)) keys = true ->
    get k (pick object keys) = if mem k keys then get k object else None.
Proof.
  intros object keys k _. unfold pick. rewrite pick_fold_get. simpl.
  destruct (mem k keys); [|reflexivity]. now destruct (get k object).
Qed.

Lemma pick_holds_the_listed_keys_witness :
  get "b" (pick [("a", JPrim JNull); ("b", JPrim (JBool true))] ["b"; "c"])
  = Some (JPrim (JBool true)).
Proof.
  exact (pick_holds_the_listed_keys
           [("a", JPrim JNull); ("b", JPrim (JBool true))] ["b"; "c"] "b"
           eq_refl).
Defined.

(** X2. [splitPick(object, keys)] splits the entries of [object], in their
    order, into those whose key is one of [keys] and the others; and
    [assign] of the second part onto the first has every entry of
    [object] again. The object has no own key [__proto__]: an entry under
    that key is assigned to the prototype of its part and is in neither. *)
Theorem splitPick_partitions :
  forall (object : obj) (keys : list string),
    NoDup (Js.keys object) ->
    ~ In "__proto__" (Js.keys object) ->
    splitPick object keys
    = (filter (fun kv => mem (fst kv) keys) object,
       filter (fun kv => negb (mem (fst kv) keys)) object) /\
    forall k,
      get k (assign (fst (splitPick object keys))
               [snd (splitPick object keys)])
      = get k object.
Proof.
  intros object keys Hnd _.
  assert (Hs : splitPick object keys
               = (filter (fun kv => mem (fst kv) keys) object,
                  filter (fun kv => negb (mem (fst kv) keys)) object)).
  { unfold splitPick. rewrite splitPick_fold; [reflexivity|assumption|].
    intros k _. split; reflexivity. }
  split; [exact Hs|]. intros k. rewrite Hs. unfold assign. simpl.
  rewrite assign_one_get.
  - rewrite (get_filter (fun x => negb (mem x keys))).
    rewrite (get_filter (fun x => mem x keys)).
    destruct (mem k keys); simpl; [reflexivity|].
    now destruct (get k object).
  - unfold Js.keys in *. clear - Hnd.
    induction object as [|[k v] o IH]; simpl; [constructor|].
    inversion Hnd as [|? ? Hk Hrest]; subst.
    destruct (negb (mem k keys)); simpl; [|now apply IH].
    constructor; [|now apply IH].
    intros Hin. apply Hk. apply in_map_iff in Hin as ([k' v'] & Heq & Hin).
    simpl in Heq. subst. apply filter_In in Hin as [Hin _].
    apply in_map_iff. now exists (k, v').
Qed.

Lemma splitPick_partitions_witness :
  splitPick [("a", JPrim JNull); ("b", JPrim (JBool true))] ["b"]
  = ([("b", JPrim (JBool true))], [("a", JPrim JNull)]).
Proof.
  refine (proj1 (splitPick_partitions
                   [("a", JPrim JNull); ("b", JPrim (JBool true))] ["b"] _ _)).
  - repeat constructor; simpl; intuition discriminate.
  - simpl. intuition discriminate.
Defined.

(** X3. [assign(target, ...objects)]: the last of [objects] that holds a
    key decides its value, and a key that none of them holds keeps the
    value of [target]. None of the objects has an own key [__proto__],
    whose value would become the prototype of [target] and no entry
    of it. *)
Theorem assign_last_holder_decides :
  forall (target : obj) (objects : list obj) (last : obj) (k : string),
    NoDup (keys last) ->
    (forall o, In o (objects ++ [last]) -> ~ In "__proto__" (keys o)) ->
    get k (assign target (objects ++ [last]))
    = match get k last with
      | Some v => Some v
      | None => get k (assign target objects)
      end.
Proof.
  intros target objects last k Hnd _. unfold assign.
  rewrite fold_left_app. simpl. now apply assign_one_get.
Qed.

Lemma assign_last_holder_decides_witness :
  get "a" (assign [("a", JPrim JNull)]
             ([[("a", JPrim (JBool false))]] ++ [[("a", JPrim (JBool true))]]))
  = Some (JPrim (JBool true)).
Proof.
  refine (assign_last_holder_decides [("a", JPrim JNull)]
            [[("a", JPrim (JBool false))]] [("a", JPrim (JBool true))] "a"
            _ _).
  - repeat constructor; simpl; intuition.
  - intros o [<-|[<-|[]]]; simpl; intuition discriminate.
Defined.

(** X4. What [mergeObjects] returns has the keys of the objects it was
    given, all of them and no other. The keys of the objects are names
    that no object inherits, [__proto__] among them: under an inherited
    name [result[key]] is the inherited member, never [undefined]. *)
Theorem mergeObjects_keeps_every_key :
  forall (objects : list obj) (options : MergeObjectsOptions)
         (result : MergeObjectsResult) (k : string),
    (forall o, In o objects ->
               forallb (fun x => negb (inherited x)) (keys o) = true) ->
    mergeObjects objects options = Some result ->
    (has k (value result) = true <->
     exists o, In o objects /\ has k o = true).
Proof.
  intros objects options result k _ H.
  unfold mergeObjects, mergeObjectsWith in H.
  destruct (pop objects) as [[first others]|] eqn:Hpop; [|discriminate].
  assert (Hobjects : objects = others ++ [first]).
  { unfold pop in Hpop. destruct (rev objects) as [|x l] eqn:Hr;
      [discriminate|]. inversion Hpop; subst.
    rewrite <- (rev_involutive objects), Hr. reflexivity. }
  match type of H with
  | context [fold_left ?f others ?a] =>
      destruct (fold_left f others a) as [v conflicts] eqn:Hf
  end.
  assert (Hv : value result = v).
  { destruct conflicts; inversion H; reflexivity. }
  rewrite Hv.
  pose proof (mergeObjects_has (mergeValue options) others k (first, nil))
    as Hk.
  rewrite Hf in Hk. simpl in Hk. rewrite Hk, Hobjects. split.
  - intros [(o & Hin & Ho)|Hfirst].
    + exists o. split; [apply in_or_app; now left|assumption].
    + exists first. split; [apply in_or_app; right; now left|assumption].
  - intros (o & Hin & Ho). apply in_app_or in Hin as [Hin|[<-|[]]]; eauto.
Qed.

Lemma mergeObjects_keeps_every_key_witness :
  exists result,
    mergeObjects [[("a", JPrim JNull)]; [("b", JPrim JNull)]]
      defaultMergeOptions = Some result /\
    has "a" (value result) = true.
Proof.
  eexists. split; [reflexivity|].
  refine (proj2 (@mergeObjects_keeps_every_key
                   [[("a", JPrim JNull)]; [("b", JPrim JNull)]]
                   defaultMergeOptions _ "a" _ eq_refl) _).
  - intros o [<-|[<-|[]]]; reflexivity.
  - exists [("a", JPrim JNull)]. split; [now left|reflexivity].
Defined.

(** X5. With [overwriteValues: true] and no merging of arrays,
    [mergeObjects] is [assign] onto the last of the objects: it reports
    no conflict, and the objects before the last overwrite it, in their
    order. *)
Theorem mergeObjects_overwrite_is_assign :
  forall (others : list obj) (last : obj) (unique : bool),
    mergeObjects (others ++ [last])
      (mkMergeObjectsOptions ChoiceUndefined (ChoiceBool true) unique)
    = Some (mkMergeObjectsResult None (assign last others)).
Proof.
  intros others last unique. unfold mergeObjects, mergeObjectsWith.
  rewrite pop_snoc.
  set (options := mkMergeObjectsOptions ChoiceUndefined (ChoiceBool true) unique).
  assert (Hentry : forall (o result : obj),
             fold_left (mergeEntry (mergeValue options)) o (result, [])
             = (fold_left (fun t kv => set (fst kv) (snd kv) t) o result, [])).
  { induction o as [|[key v] o IH]; intros result; simpl; [reflexivity|].
    destruct (get key result); simpl; apply IH. }
  assert (Hall : forall (os : list obj) (result : obj),
             fold_left (fun acc object =>
                          fold_left (mergeEntry (mergeValue options)) object acc)
               os (result, [])
             = (assign result os, [])).
  { induction os as [|o os IH]; intros result; simpl; [reflexivity|].
    rewrite Hentry. apply IH. }
  now rewrite Hall.
Qed.

(** X6. [getBreadcrumbs] lists no path twice, and lists deeper paths
    before shallower ones. *)
Theorem getBreadcrumbs_distinct_deepest_first :
  forall paths : list string,
    NoDup (SchemaPaths.getBreadcrumbs paths) /\
    StronglySorted
      (fun a b => SchemaPaths.depth b <= SchemaPaths.depth a)
      (SchemaPaths.getBreadcrumbs paths).
Proof.
  intros paths. unfold SchemaPaths.getBreadcrumbs. split.
  - apply NoDup_sortDeepestFirst. apply NoDup_filter.
    apply (unique_spec _ []).
  - apply sorted_sortDeepestFirst.
Qed.

(** X7. Every path that [getBreadcrumbs] answers with is reached from one
    of the paths given by taking the parent directory one or more times;
    it is not [/properties], and its last segment is not a wildcard. *)
Theorem getBreadcrumbs_are_proper_ancestors :
  forall (paths : list string) (b : string),
    In b (SchemaPaths.getBreadcrumbs paths) ->
    b <> "/properties" /\
    basename b <> "*" /\
    exists path n, In path paths /\ b = ancestor (S n) path.
Proof.
  intros paths b Hb. unfold SchemaPaths.getBreadcrumbs in Hb.
  rewrite SchemaPathsFacts.In_sortDeepestFirst in Hb.
  apply filter_In in Hb as [Hb _].
  apply (unique_spec _ []) in Hb as [Hb _].
  apply in_flat_map in Hb as (path & Hpath & Hb).
  destruct (parentsOf_spec _ _ _ Hb) as (H1 & H2 & n & Hn).
  split; [assumption|]. split; [assumption|]. now exists path, n.
Qed.

Lemma getBreadcrumbs_are_proper_ancestors_witness :
  exists path n,
    In path ["/properties/A/B/c"] /\ "/properties/A" = ancestor (S n) path.
Proof.
  refine (proj2 (proj2 (getBreadcrumbs_are_proper_ancestors
                          ["/properties/A/B/c"] "/properties/A" _))).
  vm_compute. auto.
Defined.

(** X8. [#findProperty(path)] answers only with properties named by the
    last segment of the path; called without [mangle], it leaves the
    builder as it was. *)
Theorem findProperty_names_last_segment :
  forall (fuel : nat) (path : string) (mangle : bool) (st : State)
         (props : list PropRef) (st' : State),
    findPropertyPath fuel path mangle st = Ok (props, st') ->
    (mangle = false -> st' = st) /\
    forall p, In p props -> key p = last (split slash (sliceFrom 12 path)) "".
Proof.
  intros fuel path mangle st props st'. unfold findPropertyPath.
  destruct (startsWith path "/properties/").
  - apply findProperty_answer.
  - intros H. apply ret_inv in H as [-> ->]. split; [auto|intros p []].
Qed.

Lemma findProperty_names_last_segment_witness :
  exists props,
    findPropertyPath 3 "/properties/P/x" false Scenarios.beforePromotion
    = Ok (props, Scenarios.beforePromotion) /\
    forall p, In p props -> key p = "x".
Proof.
  eexists. split; [vm_compute; reflexivity|].
  refine (proj2 (findProperty_names_last_segment 3 "/properties/P/x" false
                   Scenarios.beforePromotion (st' := _) _)).
  vm_compute. reflexivity.
Defined.

(** X9. [#warnExtraKeys] returns, and it only adds to the table
    [RelevantKeys]: a key allowed for a type stays allowed. Called for a
    single type on a fragment with [additionalProperties: false], at a
    location that is not ignored, it leaves [additionalProperties] in the
    table for that type. And the keys it warns about are keys of the
    fragment that the table did not allow for the type. *)
Theorem warnExtraKeys_allowed_keys_accumulate :
  forall (resourceSchema schema : obj) (type : Tag + list Tag)
         (location : string) (d : Diag),
    exists d' calls,
      warnExtraKeys resourceSchema schema type location d = Ok (tt, d') /\
      warnCalls d' = warnCalls d ++ calls /\
      (forall t k,
         mem k (relevantKeys d t) = true -> mem k (relevantKeys d' t) = true) /\
      (forall t,
         type = inl t ->
         mem location (ignoreExtraKeyLocations d) = false ->
         get "additionalProperties" schema = Some (JPrim (JBool false)) ->
         mem "additionalProperties" (relevantKeys d' t) = true) /\
      (forall call k,
         In call calls -> In (jstr k) (reportedKeys call) ->
         In k (keys schema) /\
         forall t, type = inl t -> mem k (relevantKeys d t) = false).
Proof.
  intros resourceSchema schema type location d.
  unfold warnExtraKeys, bind, getState.
  destruct (mem location (ignoreExtraKeyLocations d)) eqn:Hig.
  { exists d, []. rewrite app_nil_r.
    split; [reflexivity|]. split; [reflexivity|]. split; [auto|].
    split; [intros t _ H; discriminate H|intros call k []]. }
  set (allowed :=
         match type with
         | inl t => relevantKeys d t
         | inr ts => flat_map (relevantKeys d) ts
         end ++ _).
  assert (Hextra : forall k,
             In k (filter (fun x => negb (mem x allowed)) (keys schema)) ->
             In k (keys schema) /\
             forall t, type = inl t -> mem k (relevantKeys d t) = false).
  { intros k Hk. apply filter_In in Hk as [Hin Hk]. split; [assumption|].
    intros t ->. apply negb_true_iff in Hk. subst allowed.
    rewrite mem_app in Hk. now apply orb_false_iff in Hk as [Hk _]. }
  assert (Hreported : forall extraKeys more call k,
             extraKeys
             = filter (fun x => negb (mem x allowed)) (keys schema) ->
             warnArgs call = JArr (map jstr extraKeys) :: more ->
             In (jstr k) (reportedKeys call) ->
             In k (keys schema) /\
             forall t, type = inl t -> mem k (relevantKeys d t) = false).
  { intros extraKeys more call k -> Hargs Hk. unfold reportedKeys in Hk.
    rewrite Hargs in Hk. apply Hextra.
    apply in_map_iff in Hk as (x & Hx & Hin). inversion Hx. now subst. }
  destruct type as [t0|ts]; unfold setRelevantKeys, ret; cbv beta iota.
  - assert (Htable : forall t k,
               mem k (relevantKeys d t) = true ->
               mem k (if tag_eqb t t0 then allowed else relevantKeys d t)
               = true).
    { intros t k Hk. destruct (tag_eqb t t0) eqn:E; [|exact Hk].
      assert (t = t0) by (destruct t, t0; simpl in E; congruence). subst t0.
      subst allowed. rewrite mem_app, Hk. reflexivity. }
    assert (Hleak : forall t,
               @inl Tag (list Tag) t0 = inl t ->
               get "additionalProperties" schema
               = Some (JPrim (JBool false)) ->
               mem "additionalProperties"
                 (if tag_eqb t t0 then allowed else relevantKeys d t) = true).
    { intros t Ht Hap. inversion Ht; subst t.
      assert (E : tag_eqb t0 t0 = true) by now destruct t0. rewrite E.
      subst allowed. rewrite Hap. rewrite !mem_app. simpl.
      rewrite !orb_true_r. reflexivity. }
    destruct (filter (fun x => negb (mem x allowed)) (keys schema))
      as [|key extraKeys] eqn:Hf.
    + eexists. exists []. rewrite app_nil_r.
      split; [reflexivity|]. simpl. split; [reflexivity|].
      split; [exact Htable|]. split; [auto|]. intros call k [].
    + unfold warn. eexists. eexists. split; [reflexivity|]. simpl.
      split; [reflexivity|]. split; [exact Htable|]. split; [auto|].
      intros call k [<-|[]] Hk.
      eapply Hreported; [reflexivity| |exact Hk]. simpl. reflexivity.
  - destruct (filter (fun x => negb (mem x allowed)) (keys schema))
      as [|key extraKeys] eqn:Hf.
    + exists d, []. rewrite app_nil_r.
      split; [reflexivity|]. split; [reflexivity|]. split; [auto|].
      split; [intros t H; discriminate H|intros call k []].
    + unfold warn. eexists. eexists. split; [reflexivity|]. simpl.
      split; [reflexivity|]. split; [auto|].
      split; [intros t H; discriminate H|].
      intros call k [<-|[]] Hk.
      eapply Hreported; [reflexivity| |exact Hk]. simpl. reflexivity.
Qed.

(** X10. [isSameType] is an equivalence of nodes: a node is the same type
    as itself, the order of the two arguments does not matter, and two
    nodes that are the same type as a third are the same type. *)
Theorem isSameType_is_an_equivalence :
  (forall a, isSameType a a = true) /\
  (forall a b, isSameType a b = isSameType b a) /\
  (forall a b c,
     isSameType a b = true -> isSameType b c = true ->
     isSameType a c = true).
Proof.
  split; [exact isSameType_refl|].
  split; [exact isSameType_sym|exact isSameType_trans].
Qed.

(** X11. A simplifier without a tag type inlines to the end: what
    [simplifyType] returns is never a reference to a definition that
    [shouldInline] accepts, and no member of a union it returns is one. *)
Theorem simplifyType_inlines_to_the_end :
  forall (resource : ResourceType)
         (mode : Simplifier.ResourceTypeSimplifierMode) (fuel : nat)
         (node result : TypeNode),
    Simplifier.simplifyType resource mode None fuel node = Ok result ->
    ~ inlinable resource mode result /\
    forall id items, result = TUnion id items ->
                     Forall (fun x => ~ inlinable resource mode x) items.
Proof.
  intros resource mode fuel node result H.
  apply simplifyType_leaves in H. split.
  - intros Hbad. pose proof Hbad as (i & n & d & -> & _).
    simpl in H. inversion H; subst. contradiction.
  - intros id items ->. simpl in H. apply Forall_forall. intros x Hx Hbad.
    pose proof Hbad as (i & n & d & -> & _).
    rewrite Forall_forall in H. apply (H (TReference i (NameString n))); [|exact Hbad].
    apply in_flat_map. eexists. split; [exact Hx|]. simpl. now left.
Qed.

Lemma simplifyType_inlines_to_the_end_witness :
  Simplifier.simplifyType Scenarios.cyclicResource Simplifier.ModeResource
    None 2 (TReference "/properties/a" (NameString "A"))
  = Ok Scenarios.arrayOfA /\
  ~ inlinable Scenarios.cyclicResource Simplifier.ModeResource
      Scenarios.arrayOfA.
Proof.
  split; [reflexivity|].
  exact (proj1 (simplifyType_inlines_to_the_end Scenarios.cyclicResource
                  Simplifier.ModeResource 2
                  (TReference "/properties/a" (NameString "A")) eq_refl)).
Defined.

End Extras.

(* ===================================================================== *)
(** ** The code generator: order of members, the stack, recorded names *)
(* ===================================================================== *)

Module EmitFacts.
Import Js Str TypeNodes Run Builder CodeGenerator TypeNodesFacts
  CodeGeneratorFacts SchemaPathsFacts GraphFacts ExtraFacts.

(** *** Byte order of strings *)

Lemma ascii_compare_N a b :
  Ascii.compare a b = N.compare (N_of_ascii a) (N_of_ascii b).
Proof. reflexivity. Qed.

Lemma ascii_compare_eq a b : Ascii.compare a b = Eq -> a = b.
Proof. apply Ascii.compare_eq_iff. Qed.

Lemma ascii_compare_lt_trans a b c :
  Ascii.compare a b = Lt -> Ascii.compare b c = Lt -> Ascii.compare a c = Lt.
Proof.
  rewrite !ascii_compare_N, !N.compare_lt_iff. lia.
Qed.

Lemma string_compare_lt_trans :
  forall a b c,
    String.compare a b = Lt -> String.compare b c = Lt ->
    String.compare a c = Lt.
Proof.
  induction a as [|x a IH]; intros [|y b] [|z c] Hab Hbc; simpl in *;
    try discriminate; try reflexivity.
  destruct (Ascii.compare x y) eqn:Hxy; try discriminate.
  - apply ascii_compare_eq in Hxy. subst y.
    destruct (Ascii.compare x z); try discriminate; [|reflexivity].
    now apply IH with b.
  - destruct (Ascii.compare y z) eqn:Hyz; try discriminate.
    + apply ascii_compare_eq in Hyz. subst z. now rewrite Hxy.
    + now rewrite (ascii_compare_lt_trans _ _ _ Hxy Hyz).
Qed.

Lemma string_compare_refl a : String.compare a a = Eq.
Proof.
  pose proof (String.compare_antisym a a) as H.
  destruct (String.compare a a); simpl in H; congruence.
Qed.

(** [a <= b] in byte order, as [asciiCompare] tells it. *)
Definition inOrder (a b : string) : Prop := (asciiCompare a b <= 0)%Z.

Lemma asciiCompare_cases a b :
  (a = b /\ asciiCompare a b = 0%Z) \/
  (String.compare a b = Lt /\ asciiCompare a b = (-1)%Z) \/
  (String.compare a b = Gt /\ asciiCompare a b = 1%Z).
Proof.
  unfold asciiCompare, String.ltb.
  destruct (String.eqb a b) eqn:E.
  - apply String.eqb_eq in E. now left.
  - right. destruct (String.compare a b) eqn:C; [|now left|now right].
    apply String.compare_eq_iff in C. subst. now rewrite String.eqb_refl in E.
Qed.

Lemma asciiCompare_flip a b : asciiCompare b a = (- asciiCompare a b)%Z.
Proof.
  destruct (asciiCompare_cases a b) as [[-> H]|[[C H]|[C H]]].
  - now rewrite H.
  - rewrite H.
    destruct (asciiCompare_cases b a) as [[-> H']|[[C' H']|[C' H']]];
      [|rewrite String.compare_antisym, C' in C; discriminate|now rewrite H'].
    rewrite string_compare_refl in C. discriminate.
  - rewrite H.
    destruct (asciiCompare_cases b a) as [[-> H']|[[C' H']|[C' H']]];
      [|now rewrite H'|rewrite String.compare_antisym, C' in C; discriminate].
    rewrite string_compare_refl in C. discriminate.
Qed.

Lemma inOrder_trans a b c : inOrder a b -> inOrder b c -> inOrder a c.
Proof.
  unfold inOrder. intros Hab Hbc.
  destruct (asciiCompare_cases a b) as [[-> H]|[[C H]|[C H]]];
    [assumption| |lia].
  destruct (asciiCompare_cases b c) as [[<- H']|[[C' H']|[C' H']]];
    [assumption| |lia].
  destruct (asciiCompare_cases a c) as [[-> H'']|[[C'' H'']|[C'' H'']]];
    try lia.
  rewrite (string_compare_lt_trans _ _ _ C C') in C''. discriminate.
Qed.

(** *** [sort] *)

Section Sorting.
Variable A : Type.
Variable compare : A -> A -> Z.

Lemma insertSorted_Permutation x sorted :
  Permutation (x :: sorted) (insertSorted compare x sorted).
Proof.
  induction sorted as [|y rest IH]; simpl; [constructor; constructor|].
  destruct (Z.ltb 0 (compare y x)); [apply Permutation_refl|].
  eapply perm_trans; [apply perm_swap|]. now constructor.
Qed.

Lemma sortBy_fold xs :
  forall acc,
    Permutation (acc ++ xs)
      (fold_left (fun sorted x => insertSorted compare x sorted) xs acc).
Proof.
  induction xs as [|x xs IH]; intros acc; simpl.
  - rewrite app_nil_r. apply Permutation_refl.
  - eapply perm_trans; [|apply IH].
    pose proof (Permutation_app_tail xs (insertSorted_Permutation x acc))
      as Hp.
    eapply perm_trans; [|exact Hp]. simpl.
    apply Permutation_sym, Permutation_middle.
Qed.

Lemma sortBy_Permutation xs : Permutation xs (sortBy compare xs).
Proof. exact (sortBy_fold xs []). Qed.

Variable le : A -> A -> Prop.
Hypothesis le_trans : forall a b c, le a b -> le b c -> le a c.
Hypothesis compare_le : forall a b, (compare a b <= 0)%Z -> le a b.
Hypothesis compare_gt : forall a b, (0 < compare a b)%Z -> le b a.

Lemma insertSorted_sorted x sorted :
  StronglySorted le sorted -> StronglySorted le (insertSorted compare x sorted).
Proof.
  induction 1 as [|y rest Hs IH Hall]; simpl; [repeat constructor|].
  destruct (Z.ltb 0 (compare y x)) eqn:E.
  - apply Z.ltb_lt in E. constructor; [now constructor|].
    constructor; [now apply compare_gt|].
    eapply Forall_impl; [|exact Hall]. intros z Hz.
    apply le_trans with y; [now apply compare_gt|assumption].
  - apply Z.ltb_ge in E. constructor; [assumption|].
    apply (Permutation_Forall (insertSorted_Permutation x rest)).
    constructor; [now apply compare_le|assumption].
Qed.

Lemma sortBy_sorted xs : StronglySorted le (sortBy compare xs).
Proof.
  unfold sortBy.
  assert (H : forall acc, StronglySorted le acc ->
            StronglySorted le
              (fold_left (fun sorted x => insertSorted compare x sorted) xs acc)).
  { induction xs as [|x xs' IH]; intros acc Ha; simpl; [assumption|].
    apply IH. now apply insertSorted_sorted. }
  apply H. constructor.
Qed.

End Sorting.

(** *** What a generator run leaves behind *)

(** [st'] has the stack of [st] and its recorded names, in their order,
    with names added behind them. *)
Definition grows (st st' : GenState) : Prop :=
  stack st' = stack st /\
  exists added, referencedNames st' = referencedNames st ++ added.

Definition orderly (A : Type) (m : G A) : Prop :=
  forall st a st', m st = Ok (a, st') -> grows st st'.

Lemma grows_refl st : grows st st.
Proof. split; [reflexivity|]. exists []. now rewrite app_nil_r. Qed.

Lemma grows_trans a b c : grows a b -> grows b c -> grows a c.
Proof.
  intros [S1 (x & N1)] [S2 (y & N2)]. split; [congruence|].
  exists (x ++ y). now rewrite N2, N1, app_assoc.
Qed.

Lemma orderly_ret (A : Type) (a : A) : orderly (ret a).
Proof. intros st b st' H. inversion H; subst. apply grows_refl. Qed.

Lemma orderly_throw (A : Type) msg : orderly (throw (St := GenState) A msg).
Proof. intros st b st' H. discriminate. Qed.

Lemma orderly_bind (A B : Type) (m : G A) (k : A -> G B) :
  orderly m -> (forall a, orderly (k a)) -> orderly (bind m k).
Proof.
  intros Hm Hk st b st' H. unfold bind in H.
  destruct (m st) as [[a st1]| | |] eqn:E; try discriminate.
  eapply grows_trans; [eapply Hm; eassumption|eapply Hk; eassumption].
Qed.

Lemma orderly_mapM (A B : Type) (f : A -> G B) xs :
  (forall x, orderly (f x)) -> orderly (mapM f xs).
Proof.
  intros Hf. induction xs as [|x xs IH]; simpl; [apply orderly_ret|].
  apply orderly_bind; [apply Hf|]. intros y.
  apply orderly_bind; [exact IH|]. intros ys. apply orderly_ret.
Qed.

Lemma orderly_addReferenced name : orderly (addReferenced name).
Proof.
  intros st [] st' H. unfold addReferenced in H. inversion H; subst; clear H.
  split; [reflexivity|]. simpl.
  destruct (hasName name (referencedNames st)); [exists []|exists [name]];
    now rewrite ?app_nil_r.
Qed.

Lemma orderly_createTypeReference name :
  forall args, orderly (createTypeReference name args).
Proof.
  induction name as [text|i m imported t|i inner IH indexes]; intros args;
    simpl; apply orderly_bind; try apply orderly_addReferenced; intros _;
    try apply orderly_ret.
  apply orderly_bind; [apply IH|]. intros t. apply orderly_ret.
Qed.

Section Generated.
Variable options : CodeGeneratorOptions.
Variable generateTypeRec : TypeNode -> G TypeNodeTs.
Hypothesis rec_orderly : forall node, orderly (generateTypeRec node).

Lemma orderly_generateOptionalPropertyType info required :
  orderly (generateOptionalPropertyType options generateTypeRec info required).
Proof.
  unfold generateOptionalPropertyType. apply orderly_bind.
  - destruct (wellKnownName options info);
      [apply orderly_createTypeReference|apply rec_orderly].
  - intros t. destruct (_ || _); [apply orderly_ret|].
    destruct t; apply orderly_ret.
Qed.

Lemma orderly_generateObjectType props required :
  orderly (generateObjectType options generateTypeRec props required).
Proof.
  unfold generateObjectType. destruct props as [|p props]; [apply orderly_ret|].
  apply orderly_bind; [|intros; apply orderly_ret].
  apply orderly_mapM. intros entry.
  apply orderly_bind; [apply orderly_generateOptionalPropertyType|].
  intros t. apply orderly_ret.
Qed.

Lemma orderly_generateNode node :
  orderly (generateNode options generateTypeRec node).
Proof.
  destruct node; simpl; try apply orderly_ret.
  - apply orderly_bind; [apply rec_orderly|intros; apply orderly_ret].
  - apply orderly_generateObjectType.
  - destruct kind; try apply orderly_ret. apply orderly_throw.
  - apply orderly_bind; [apply rec_orderly|intros; apply orderly_ret].
  - apply orderly_createTypeReference.
  - apply orderly_bind; [|intros; apply orderly_ret].
    now apply orderly_mapM.
Qed.

End Generated.

Lemma orderly_generateType options :
  forall fuel node, orderly (generateType options fuel node).
Proof.
  induction fuel as [|fuel IH]; intros node st t st' H; [discriminate|].
  rewrite generateType_step in H.
  destruct (simplifyStep options node st) as [simplified| | |]; try discriminate.
  unfold bind at 1, pushStack at 1 in H. unfold bind at 1 in H.
  destruct (generateNode options (generateType options fuel) simplified _)
    as [[result st1]| | |] eqn:Hnode; try discriminate.
  apply (@orderly_generateNode options _ IH) in Hnode
    as [Hstack (added & Hnames)].
  simpl in Hstack, Hnames.
  unfold bind, popStack in H. rewrite Hstack, rev_app_distr in H. simpl in H.
  destruct (node_eqb simplified simplified); [|discriminate].
  inversion H; subst; clear H. split; simpl.
  - apply rev_involutive.
  - now exists added.
Qed.

(** *** Members of an object type *)

Lemma mapM_Forall2 (St A B : Type) (f : A -> ST St B) (P : A -> B -> Prop) :
  (forall x st y st', f x st = Ok (y, st') -> P x y) ->
  forall xs st ys st', mapM f xs st = Ok (ys, st') -> Forall2 P xs ys.
Proof.
  intros Hf. induction xs as [|x xs IH]; intros st ys st' H; simpl in H.
  - inversion H. constructor.
  - unfold bind in H.
    destruct (f x st) as [[y st1]| | |] eqn:Hx; try discriminate.
    destruct (mapM f xs st1) as [[ys' st2]| | |] eqn:Hxs; try discriminate.
    inversion H; subst. constructor; eauto.
Qed.

Lemma undefined_last types :
  shouldAddUndefined (UnionTypeNode (types ++ [KeywordType UndefinedKeyword]))
  = false.
Proof.
  change (forallb shouldAddUndefined
            (types ++ [KeywordType UndefinedKeyword]) = false).
  rewrite forallb_app. simpl. now rewrite andb_false_r.
Qed.

Lemma optional_accepts_undefined options rec info st ty st' :
  exactOptionalPropertyTypes options = true ->
  generateOptionalPropertyType options rec info false st = Ok (ty, st') ->
  shouldAddUndefined ty = false.
Proof.
  intros Hexact H. unfold generateOptionalPropertyType, bind in H.
  rewrite Hexact in H. simpl in H.
  assert (Hend : forall t0 s,
            (if negb (shouldAddUndefined t0) then ret t0
             else match t0 with
                  | UnionTypeNode types =>
                      ret (UnionTypeNode
                             (types ++ [KeywordType UndefinedKeyword]))
                  | _ => ret (UnionTypeNode [t0; KeywordType UndefinedKeyword])
                  end) s = Ok (ty, st') ->
            shouldAddUndefined ty = false).
  { intros t0 s Hs. destruct (shouldAddUndefined t0) eqn:Hu; simpl in Hs.
    - destruct t0; inversion Hs; subst;
        first [apply undefined_last | apply (undefined_last [_])].
    - inversion Hs; subst. exact Hu. }
  destruct (wellKnownName options info) as [name|].
  - destruct (createTypeReference name None st) as [[t0 s]| | |];
      try discriminate. now apply Hend with t0 s.
  - destruct (rec (type info) st) as [[t0 s]| | |];
      try discriminate. now apply Hend with t0 s.
Qed.

(** The members [generateObjectType] makes of the entries it is given. *)
Lemma object_signatures options rec
  (props : list (string * PropertyInfo)) required st st' t :
  props <> [] ->
  generateObjectType options rec props required st = Ok (t, st') ->
  exists members,
    t = TypeLiteralNode members /\
    Forall2 (fun (entry : string * PropertyInfo) member =>
               sigName member = quoteName (fst entry) /\
               sigQuestionToken member = negb (mem (fst entry) required) /\
               (exactOptionalPropertyTypes options = true ->
                sigQuestionToken member = true ->
                shouldAddUndefined (sigType member) = false))
      match sortProperties options with
      | Some compare => sortBy compare props
      | None => props
      end members.
Proof.
  intros Hne H.
  set (entries := match sortProperties options with
                  | Some compare => sortBy compare props
                  | None => props
                  end).
  unfold generateObjectType in H. destruct props as [|p props]; [congruence|].
  fold entries in H. unfold bind at 1 in H.
  match type of H with
  | context [mapM ?f entries st] =>
      destruct (mapM f entries st) as [[members st1]| | |] eqn:Hmap;
        try discriminate
  end.
  inversion H; subst; clear H. exists members. split; [reflexivity|].
  eapply mapM_Forall2; [|exact Hmap].
  intros entry s member s' Hm. cbv beta in Hm. unfold bind at 1 in Hm.
  destruct (generateOptionalPropertyType options rec (snd entry)
              (mem (fst entry) required) s) as [[ty s1]| | |] eqn:Hty;
    try discriminate.
  inversion Hm; subst; clear Hm. simpl.
  split; [reflexivity|]. split; [reflexivity|].
  intros Hexact Hopt. apply negb_true_iff in Hopt. rewrite Hopt in Hty.
  exact (optional_accepts_undefined _ _ _ _ Hexact Hty).
Qed.


Lemma Forall2_In_impl (A B : Type) (P Q : A -> B -> Prop) xs ys :
  (forall x y, In x xs -> P x y -> Q x y) ->
  Forall2 P xs ys -> Forall2 Q xs ys.
Proof.
  intros Himp H. induction H as [|x y xs ys Hxy _ IH]; constructor.
  - apply Himp; [now left|exact Hxy].
  - apply IH. intros a b Ha. apply Himp. now right.
Qed.

Lemma mem_filter f x l : mem x (filter f l) = mem x l && f x.
Proof.
  induction l as [|y l IH]; simpl; [reflexivity|].
  destruct (f y) eqn:Hy; simpl; rewrite IH.
  - destruct (String.eqb x y) eqn:E; simpl; [|reflexivity].
    apply String.eqb_eq in E. subst. now rewrite Hy.
  - destruct (String.eqb x y) eqn:E; simpl; [|reflexivity].
    apply String.eqb_eq in E. subst. rewrite Hy. now rewrite andb_false_r.
Qed.

Lemma names_have (name : SymbolName) names :
  hasName name (names ++ [name]) = true.
Proof.
  unfold hasName. rewrite existsb_app. simpl.
  now rewrite name_eqb_refl, orb_true_r.
Qed.

Lemma hasName_app n names added :
  hasName n names = true -> hasName n (names ++ added) = true.
Proof. unfold hasName. rewrite existsb_app. now intros ->. Qed.

(** [#warnExtraKeys] always returns. *)
Lemma warnExtraKeys_returns resourceSchema schema type location d :
  exists d', warnExtraKeys resourceSchema schema type location d = Ok (tt, d').
Proof.
  unfold warnExtraKeys, bind, getState.
  destruct (mem location (ignoreExtraKeyLocations d));
    [eexists; reflexivity|].
  destruct type as [t|ts]; unfold setRelevantKeys, ret; cbv beta iota;
    match goal with
    | |- context [filter ?f (keys schema)] =>
        destruct (filter f (keys schema)); eexists; reflexivity
    end.
Qed.

End EmitFacts.

Module EmitExtras.
Import Js Str TypeNodes Run Builder CodeGenerator TypeNodesFacts
  CodeGeneratorFacts SchemaPathsFacts GraphFacts ExtraFacts EmitFacts.

(** X12. [asciiCompare] is the comparison of a total order: swapping its
    arguments negates it, it is zero for equal strings only, and being at
    most zero is transitive. *)
Theorem asciiCompare_orders_strings :
  (forall a b, asciiCompare b a = (- asciiCompare a b)%Z) /\
  (forall a b, asciiCompare a b = 0%Z <-> a = b) /\
  (forall a b c, (asciiCompare a b <= 0)%Z -> (asciiCompare b c <= 0)%Z ->
                 (asciiCompare a c <= 0)%Z).
Proof.
  split; [exact asciiCompare_flip|]. split; [|exact inOrder_trans].
  intros a b. destruct (asciiCompare_cases a b) as [[-> H]|[[C H]|[C H]]];
    rewrite H; split; try discriminate; try reflexivity;
    intros ->; rewrite string_compare_refl in C; discriminate.
Qed.

(** X13. Sorting the properties of an object with the default order gives
    the same properties, every one as often as before, with their names
    in ascending byte order. *)
Theorem sortBy_default_order :
  forall props : list (string * PropertyInfo),
    Permutation props (sortBy defaultPropertySort props) /\
    StronglySorted (fun a b => (asciiCompare (fst a) (fst b) <= 0)%Z)
      (sortBy defaultPropertySort props).
Proof.
  intros props. split; [apply sortBy_Permutation|].
  apply sortBy_sorted.
  - intros a b c. apply inOrder_trans.
  - intros a b H. exact H.
  - intros a b H. unfold defaultPropertySort in H.
    rewrite asciiCompare_flip. lia.
Qed.

(** X14. A call of [generateType] that returns leaves the stack as it
    found it, and the names recorded before are still recorded, in their
    order, before any it added. *)
Theorem generateType_restores_stack :
  forall (options : CodeGeneratorOptions) (fuel : nat) (node : TypeNode)
         (st st' : GenState) (t : TypeNodeTs),
    generateType options fuel node st = Ok (t, st') ->
    stack st' = stack st /\
    exists added, referencedNames st' = referencedNames st ++ added.
Proof. intros options fuel node st st' t H. exact (@orderly_generateType options fuel node st t st' H).
Qed.

Lemma generateType_restores_stack_witness :
  exists t st',
    generateType (Scenarios.resourceOptions Scenarios.chainedResource 3) 3
      (defType (properties Scenarios.chainedResource))
      (mkGenState [NameString "Z"] [])
    = Ok (t, st') /\
    stack st' = [] /\
    exists added, referencedNames st' = [NameString "Z"] ++ added.
Proof.
  do 2 eexists. split; [vm_compute; reflexivity|].
  refine (generateType_restores_stack
            (Scenarios.resourceOptions Scenarios.chainedResource 3) 3
            (defType (properties Scenarios.chainedResource))
            (mkGenState [NameString "Z"] []) _).
  vm_compute. reflexivity.
Defined.

(** X15. [createTypeReference] always returns, with the name it was given
    recorded, nothing that was recorded forgotten and the stack as it
    was. *)
Theorem createTypeReference_records_the_name :
  forall (name : SymbolName) (args : option (list TypeNodeTs)) (st : GenState),
    exists t st',
      createTypeReference name args st = Ok (t, st') /\
      hasName name (referencedNames st') = true /\
      (forall n, hasName n (referencedNames st) = true ->
                 hasName n (referencedNames st') = true) /\
      stack st' = stack st.
Proof.
  assert (Hadd : forall name st,
            exists st1, addReferenced name st = Ok (tt, st1) /\
                        hasName name (referencedNames st1) = true).
  { intros name st. eexists. split; [reflexivity|]. simpl.
    destruct (hasName name (referencedNames st)) eqn:E; [exact E|].
    apply names_have. }
  assert (Hret : forall name args st,
            exists t st', createTypeReference name args st = Ok (t, st')).
  { induction name as [text|i m imported t|i inner IH indexes]; intros args st;
      simpl; unfold bind; simpl; try (do 2 eexists; reflexivity).
    destruct (IH args (mkGenState
                (if hasName (NameIndexed i inner indexes) (referencedNames st)
                 then referencedNames st
                 else referencedNames st ++ [NameIndexed i inner indexes])
                (stack st))) as (t & st' & ->).
    do 2 eexists. reflexivity. }
  intros name args st. destruct (Hret name args st) as (t & st' & H).
  exists t, st'. split; [exact H|].
  pose proof (@orderly_createTypeReference name args _ _ _ H) as [Hs (added & Hn)].
  assert (Hkeep : forall n, hasName n (referencedNames st) = true ->
                            hasName n (referencedNames st') = true).
  { intros n Hin. rewrite Hn. now apply hasName_app. }
  split; [|split; assumption].
  destruct (Hadd name st) as (st1 & H1 & Hhas).
  destruct name as [text|i m imported tp|i inner indexes]; simpl in H;
    unfold bind in H; rewrite H1 in H.
  - inversion H; subst. exact Hhas.
  - inversion H; subst. exact Hhas.
  - destruct (createTypeReference inner args st1) as [[t1 st2]| | |] eqn:E;
      try discriminate.
    inversion H; subst.
    pose proof (@orderly_createTypeReference inner args _ _ _ E) as [_ (more & Hm)].
    rewrite Hm. now apply hasName_app.
Qed.

(** X16. The members of the type literal [generateObjectType] makes of an
    object with properties: one per property, in the order the options
    ask for, named by [quoteName], optional when its name is not required;
    and under [exactOptionalPropertyTypes] the type of an optional member
    needs no [undefined] added. *)
Theorem generateObjectType_members :
  forall (options : CodeGeneratorOptions)
         (generateTypeRec : TypeNode -> G TypeNodeTs)
         (props : list (string * PropertyInfo)) (required : list string)
         (st st' : GenState) (t : TypeNodeTs),
    props <> [] ->
    generateObjectType options generateTypeRec props required st
    = Ok (t, st') ->
    let entries :=
      match sortProperties options with
      | Some compare => sortBy compare props
      | None => props
      end in
    exists members,
      t = TypeLiteralNode members /\
      Forall2 (fun (entry : string * PropertyInfo) member =>
                 sigName member = quoteName (fst entry) /\
                 sigQuestionToken member = negb (mem (fst entry) required) /\
                 (exactOptionalPropertyTypes options = true ->
                  sigQuestionToken member = true ->
                  shouldAddUndefined (sigType member) = false))
        entries members.
Proof.
  intros options rec props required st st' t Hne H entries.
  exact (@object_signatures options rec props required st st' t Hne H).
Qed.

Lemma generateObjectType_members_witness :
  exists t st' members,
    generateObjectType (Scenarios.resourceOptions Scenarios.chainedResource 3)
      (generateType (Scenarios.resourceOptions Scenarios.chainedResource 3) 2)
      [("b", mkPropertyInfo None None None (TPrimitive KString "/b"));
       ("a", mkPropertyInfo None None None (TAny "/a"))] ["a"]
      (mkGenState [] [])
    = Ok (t, st') /\
    t = TypeLiteralNode members /\
    map (fun m : PropertySignatureOf TypeNodeTs => sigName m) members
    = [Identifier "a"; Identifier "b"].
Proof.
  destruct (@generateObjectType_members
              (Scenarios.resourceOptions Scenarios.chainedResource 3)
              (generateType (Scenarios.resourceOptions Scenarios.chainedResource 3) 2)
              [("b", mkPropertyInfo None None None (TPrimitive KString "/b"));
               ("a", mkPropertyInfo None None None (TAny "/a"))] ["a"]
              (mkGenState [] []) _ _ ltac:(discriminate) eq_refl)
    as (members & Ht & _).
  do 2 eexists. exists members. split; [vm_compute; reflexivity|].
  split; [exact Ht|]. inversion Ht. reflexivity.
Defined.

(** X17. A schema of type [null] is walked into a node that the generator
    has no branch for: [#walkNullType] returns a [null] node, and
    [generateType] throws on it, with any options whose simplifier, if
    there is one, leaves the node as it is. *)
Theorem null_schema_is_built_but_not_generated :
  forall (resourceSchema schema : obj) (location : string) (d : Diag)
         (options : CodeGeneratorOptions) (fuel : nat) (st : GenState),
    isStr (get "type" schema) "null" = true ->
    (forall simplifyType,
       simplifier options = Some simplifyType ->
       simplifyType (TPrimitive KNull location)
       = Ok (TPrimitive KNull location)) ->
    (exists d',
       walkNullType resourceSchema schema location d
       = Ok (TPrimitive KNull location, d')) /\
    generateType options (S fuel) (TPrimitive KNull location) st
    = Throw ("unknown node type " ++ Str.quoted "null")%string.
Proof.
  intros resourceSchema schema location d options fuel st Hnull Hsimp. split.
  - unfold walkNullType, bind. rewrite Hnull. simpl.
    destruct (warnExtraKeys_returns resourceSchema schema (inl TagNull)
                location d) as (d' & ->).
    now exists d'.
  - rewrite generateType_step. unfold simplifyStep.
    destruct (simplifier options) as [f|] eqn:Hf.
    + rewrite (Hsimp f eq_refl).
      now destruct (negb (existsb _ (stack st))).
    + reflexivity.
Qed.

Lemma null_schema_is_built_but_not_generated_witness :
  generateType (Scenarios.resourceOptions Scenarios.chainedResource 3) 1
    (TPrimitive KNull "/properties/a") (mkGenState [] [])
  = Throw ("unknown node type " ++ Str.quoted "null")%string.
Proof.
  refine (proj2 (@null_schema_is_built_but_not_generated
                   [] [("type", jstr "null")] "/properties/a"
                   (mkDiag [] None RelevantKeys [])
                   (Scenarios.resourceOptions Scenarios.chainedResource 3)
                   0 (mkGenState [] []) eq_refl _)).
  intros f Hf. inversion Hf. reflexivity.
Defined.

(** X18. The type generated for an object node by a generator whose
    simplifier is that of a resource in its [resource] mode and which
    sorts by the default order, the node having distinct keys and not
    being on the stack: no member stands for a read-only property. The
    members are the other properties in ascending byte order of their
    names, optional unless the node requires them; and with no such
    property the type is [Record<string, never>]. *)
Theorem generated_resource_type_omits_readOnly :
  forall (options : CodeGeneratorOptions) (rt : ResourceType)
         (tagType : option SymbolName) (depth fuel : nat) (id : string)
         (props : list (string * PropertyInfo)) (req : list string)
         (st st' : GenState) (t : TypeNodeTs),
    simplifier options
    = Some (Simplifier.simplifyType rt Simplifier.ModeResource tagType
              (S depth)) ->
    sortProperties options = Some defaultPropertySort ->
    NoDup (keys props) ->
    existsb (node_eqb (TObject id props req)) (stack st) = false ->
    generateType options (S fuel) (TObject id props req) st = Ok (t, st') ->
    match filter (fun e : string * PropertyInfo =>
                    negb (isTrue (readOnly (snd e)))) props with
    | [] =>
        t = TypeReferenceNode "Record"
              (Some [KeywordType StringKeyword; KeywordType NeverKeyword])
    | kept =>
        exists members,
          t = TypeLiteralNode members /\
          Forall2 (fun (entry : string * PropertyInfo) member =>
                     sigName member = quoteName (fst entry) /\
                     sigQuestionToken member = negb (mem (fst entry) req))
            (sortBy defaultPropertySort kept) members
    end.
Proof.
  intros options rt tagType depth fuel id props req st st' t Hsimp Hsort Hnd
    Hstack H.
  rewrite generateType_step in H. unfold simplifyStep in H.
  rewrite Hsimp, Hstack in H. cbv beta iota in H. simpl negb in H.
  cbv iota in H.
  rewrite (@resource_view_eq rt tagType depth id props req Hnd) in H.
  set (kept := filter (fun e : string * PropertyInfo =>
                         negb (isTrue (readOnly (snd e)))) props) in *.
  apply bind_inv in H as (u & st1 & _ & H).
  apply bind_inv in H as (result & st2 & Hnode & H).
  apply bind_inv in H as (u' & st3 & _ & H).
  apply ret_inv in H as [-> _].
  change (generateObjectType options (generateType options fuel)
            kept (filter (fun x => js_in x kept) req) st1
          = Ok (result, st2)) in Hnode.
  destruct kept as [|entry kept'] eqn:Hkept.
  - simpl in Hnode. apply ret_inv in Hnode as [-> _]. reflexivity.
  - rewrite <- Hkept in *.
    assert (Hne : kept <> []) by (rewrite Hkept; discriminate).
    destruct (@object_signatures _ _ _ _ _ _ _ Hne Hnode)
      as (members & -> & Hall).
    exists members. split; [reflexivity|].
    rewrite Hsort in Hall.
    eapply Forall2_In_impl; [|exact Hall].
    intros e m He (Hname & Hq & _). split; [exact Hname|].
    rewrite Hq, mem_filter.
    assert (Hin : js_in (fst e) kept = true).
    { apply (Permutation_in _ (Permutation_sym (sortBy_Permutation _ kept)))
        in He.
      unfold js_in, has. destruct e as [k v]. simpl.
      destruct (get k kept) eqn:Hg; [reflexivity|].
      apply get_None_keys in Hg. exfalso. apply Hg.
      apply in_map_iff. now exists (k, v). }
    now rewrite Hin, andb_true_r.
Qed.

Lemma generated_resource_type_omits_readOnly_witness :
  exists t st' members,
    generateType (Scenarios.resourceOptions Scenarios.chainedResource 1) 2
      (TObject "/"
         [("b", mkPropertyInfo None None None (TPrimitive KString "/b"));
          ("id", mkPropertyInfo None None (Some true) (TAny "/id"));
          ("a", mkPropertyInfo None None None (TAny "/a"))] ["a"; "id"])
      (mkGenState [] [])
    = Ok (t, st') /\
    t = TypeLiteralNode members /\
    map (fun m : PropertySignatureOf TypeNodeTs => sigName m) members
    = [Identifier "a"; Identifier "b"].
Proof.
  pose proof (@generated_resource_type_omits_readOnly
                (Scenarios.resourceOptions Scenarios.chainedResource 1)
                Scenarios.chainedResource None 0 1 "/"
                [("b", mkPropertyInfo None None None (TPrimitive KString "/b"));
                 ("id", mkPropertyInfo None None (Some true) (TAny "/id"));
                 ("a", mkPropertyInfo None None None (TAny "/a"))]
                ["a"; "id"] (mkGenState [] []) _ _ eq_refl eq_refl
                ltac:(repeat constructor; simpl; intuition discriminate)
                eq_refl eq_refl) as (members & Ht & _).
  do 2 eexists. exists members. split; [vm_compute; reflexivity|].
  split; [exact Ht|]. inversion Ht. reflexivity.
Defined.

End EmitExtras.

(* ===================================================================== *)
(** ** The console reporter, [joinStr] and the template builder *)
(* ===================================================================== *)

Module TemplateFacts.
Import Js Str ObjectUtil ClassifyFacts SchemaPathsFacts Problems Intrinsics
  TemplateBuilder.

(** *** The console *)

Section Console.
Variable Args : Type.
Variable render : Severity -> string -> Args -> string.

(** The line a call asks for. *)
Definition lineOf (x : Severity * string * Args) : string :=
  render (fst (fst x)) (snd (fst x)) (snd x).

Lemma call_report c x : call render c x = report (lineOf x) c.
Proof. destruct x as [[[] location] args]; reflexivity. Qed.

Definition tidy (c : Console) : Prop :=
  written c = reported c /\ NoDup (written c).

Lemma report_tidy message c :
  tidy c ->
  tidy (report message c) /\
  forall m, In m (written (report message c)) <->
            In m (written c) \/ m = message.
Proof.
  intros [Hw Hnd]. unfold report.
  destruct (mem message (reported c)) eqn:E.
  - split; [now split|]. intros m. split; [now left|].
    intros [H| ->]; [assumption|]. rewrite Hw. now apply mem_In.
  - simpl. split.
    + split; [now rewrite Hw|].
      apply NoDup_app; [assumption|repeat constructor; intros []|].
      intros m Hm [<-|[]]. rewrite Hw in Hm. apply mem_In in Hm. congruence.
    + intros m. rewrite in_app_iff. simpl. intuition.
Qed.

Lemma calls_from xs :
  forall c, tidy c ->
    tidy (fold_left (call render) xs c) /\
    forall m, In m (written (fold_left (call render) xs c)) <->
              In m (written c) \/ In m (map lineOf xs).
Proof.
  induction xs as [|x xs IH]; intros c Hc; simpl.
  - split; [assumption|]. intuition.
  - rewrite call_report.
    destruct (report_tidy (lineOf x) Hc) as [Ht Hm].
    destruct (IH _ Ht) as [Ht' Hm']. split; [assumption|].
    intros m. rewrite Hm', Hm. intuition.
Qed.

End Console.

(** *** [joinStr] *)

(** The text of a template literal: its literals with the texts of the
    values between them. *)
Fixpoint templateText (literals values : list string) : string :=
  match literals with
  | [] => ""
  | literal :: rest =>
      match values with
      | [] => literal ++ templateText rest []
      | value :: more => literal ++ value ++ templateText rest more
      end
  end.

(** [parts.join("")] *)
Definition joined (parts : list string) : string := fold_right append "" parts.

Lemma append_empty s : (s ++ "")%string = s.
Proof. induction s; simpl; congruence. Qed.

Lemma append_assoc a b c : ((a ++ b) ++ c)%string = (a ++ (b ++ c))%string.
Proof. induction a; simpl; congruence. Qed.

Lemma joined_app a b : joined (a ++ b) = (joined a ++ joined b)%string.
Proof.
  unfold joined. induction a as [|x a IH]; simpl; [reflexivity|].
  now rewrite IH, append_assoc.
Qed.

Lemma joinParts_shift literals :
  forall i value values,
    joinParts (S i) literals (value :: values) = joinParts i literals values.
Proof.
  induction literals as [|literal rest IH]; intros i value values; simpl;
    [reflexivity|].
  now rewrite IH.
Qed.

Lemma joinParts_none literals :
  forall i j, joinParts i literals [] = joinParts j literals [].
Proof.
  induction literals as [|literal rest IH]; intros i j; simpl; [reflexivity|].
  rewrite (IH (S i) (S j)). now destruct i, j.
Qed.

(** *** [#set] *)

Lemma set_same_value (V : Type) k (v : V) (o : list (string * V)) :
  get k o = Some v -> set k v o = o.
Proof.
  induction o as [|[k' w] o IH]; simpl; [discriminate|].
  destruct (String.eqb k' k) eqn:E.
  - intros H. inversion H. reflexivity.
  - intros H. now rewrite IH.
Qed.

(** The walk neither stores nor finds anything below a primitive or an
    array. *)
Lemma setIn_object parents leaf value o node :
  setIn parents leaf value o = Stored node \/
  setIn parents leaf value o = Found node ->
  exists fields, o = JObj fields.
Proof.
  destruct o as [p|items|fields]; [| |eauto];
    destruct parents; simpl; intros [H|H]; discriminate.
Qed.

Lemma under_inv key fields o node :
  under key fields o = Stored node ->
  exists child, o = Stored child /\ node = JObj (set key child fields).
Proof. destruct o; simpl; intros H; inversion H; eauto. Qed.

Lemma under_found_inv key fields o node :
  under key fields o = Found node ->
  exists child, o = Found child /\ node = JObj (set key child fields).
Proof. destruct o; simpl; intros H; inversion H; eauto. Qed.

Lemma getPath_app a :
  forall b o, getPath (a ++ b) o =
              match getPath a o with
              | Some at_a => getPath b at_a
              | None => None
              end.
Proof.
  induction a as [|k a IH]; intros b o; simpl; [reflexivity|].
  destruct o as [p|items|fields]; try reflexivity.
  destruct (get k fields); [apply IH|reflexivity].
Qed.

(** What was stored is at the end of the keys, and nothing was there. *)
Lemma setIn_stored parents :
  forall leaf value o node,
    setIn parents leaf value o = Stored node ->
    getPath (parents ++ [leaf]) node = Some value /\
    getPath (parents ++ [leaf]) o = None /\
    inherited leaf = false.
Proof.
  induction parents as [|key rest IH]; intros leaf value o node H;
    destruct o as [p|items|fields]; simpl in H; try discriminate.
  - unfold js_in, has in H.
    destruct (get leaf fields) eqn:Hg; simpl in H; [discriminate|].
    destruct (inherited leaf) eqn:Hi; [discriminate|].
    inversion H; subst. simpl. now rewrite get_set_same, Hg.
  - destruct (get key fields) as [child|] eqn:Hg.
    + apply under_inv in H as (child' & Hc & ->).
      apply IH in Hc as (H1 & H2 & H3). simpl.
      now rewrite get_set_same, Hg.
    + destruct (inherited key); [discriminate|].
      apply under_inv in H as (child' & Hc & ->).
      apply IH in Hc as (H1 & H2 & H3). simpl.
      now rewrite get_set_same, Hg.
Qed.

(** Two chains of keys that part ways: a common start, then two different
    keys. *)
Definition apart (a b : list string) : Prop :=
  exists common x xs y ys,
    a = common ++ x :: xs /\ b = common ++ y :: ys /\ x <> y.

Lemma apart_cons k a b : apart a b -> apart (k :: a) (k :: b).
Proof.
  intros (c & x & xs & y & ys & -> & -> & Hne).
  now exists (k :: c), x, xs, y, ys.
Qed.

Lemma apart_cases a b :
  apart a b ->
  match a, b with
  | x :: xs, y :: ys => x <> y \/ (x = y /\ apart xs ys)
  | _, _ => False
  end.
Proof.
  intros ([|c cs] & x & xs & y & ys & -> & -> & Hne); simpl.
  - now left.
  - right. split; [reflexivity|]. now exists cs, x, xs, y, ys.
Qed.

(** A walk that ends leaves every chain of keys that parts ways with its
    own as it was. *)
Lemma setIn_frame parents :
  forall leaf value o node other,
    setIn parents leaf value o = Stored node \/
    setIn parents leaf value o = Found node ->
    apart other (parents ++ [leaf]) ->
    getPath other node = getPath other o.
Proof.
  induction parents as [|key rest IH]; intros leaf value o node other H Hap;
    destruct (setIn_object _ _ _ _ H) as (fields & ->);
    apply apart_cases in Hap; destruct other as [|k other]; try contradiction;
    simpl in Hap, H.
  - destruct (js_in leaf fields).
    + destruct H as [H|H]; inversion H; subst. reflexivity.
    + destruct H as [H|H]; inversion H; subst. simpl.
      destruct Hap as [Hne|[_ Hap]].
      * rewrite get_set_other by congruence. reflexivity.
      * apply apart_cases in Hap. now destruct other.
  - assert (Hstep : forall child0 child,
              (get key fields = Some child0 \/
               (get key fields = None /\ child0 = JObj [])) ->
              setIn rest leaf value child0 = Stored child \/
              setIn rest leaf value child0 = Found child ->
              getPath (k :: other) (JObj (set key child fields))
              = getPath (k :: other) (JObj fields)).
    { intros child0 child Hc0 Hc. simpl.
      destruct Hap as [Hne|[-> Hap]].
      - rewrite get_set_other by congruence. reflexivity.
      - rewrite get_set_same.
        rewrite (IH _ _ _ _ _ Hc Hap).
        destruct Hc0 as [-> |[-> ->]]; [reflexivity|].
        destruct other; [now apply apart_cases in Hap|reflexivity]. }
    destruct (get key fields) as [child0|] eqn:Hg.
    + destruct H as [H|H];
        [apply under_inv in H as (child & Hc & ->)
        |apply under_found_inv in H as (child & Hc & ->)];
        apply (Hstep child0); auto.
    + destruct (inherited key); [destruct H; discriminate|].
      destruct H as [H|H];
        [apply under_inv in H as (child & Hc & ->)
        |apply under_found_inv in H as (child & Hc & ->)];
        apply (Hstep (JObj [])); auto.
Qed.

(** A walk to keys that hold a value finds it and changes nothing. *)
Lemma setIn_found parents :
  forall leaf value o existing,
    getPath parents o <> None ->
    getPath (parents ++ [leaf]) o = Some existing ->
    setIn parents leaf value o = Found o.
Proof.
  induction parents as [|key rest IH]; intros leaf value o existing Hp H;
    destruct o as [p|items|fields]; simpl in H; try discriminate.
  - simpl. unfold js_in, has. destruct (get leaf fields); [reflexivity|].
    discriminate.
  - simpl. simpl in Hp. destruct (get key fields) as [child|] eqn:Hg;
      [|discriminate].
    rewrite (IH _ value _ _ Hp H). simpl. now rewrite set_same_value.
Qed.

Lemma getPath_prefix a :
  forall b o v, getPath (a ++ b) o = Some v -> getPath a o <> None.
Proof.
  intros b o v H. rewrite getPath_app in H.
  destruct (getPath a o); [discriminate|discriminate].
Qed.

Lemma pop_last (A : Type) (l : list A) x : pop (l ++ [x]) = Some (x, l).
Proof. unfold pop. rewrite rev_app_distr. simpl. now rewrite rev_involutive. Qed.

Lemma pop_inv (A : Type) (l : list A) x before :
  pop l = Some (x, before) -> l = before ++ [x].
Proof.
  unfold pop. destruct (rev l) as [|y ys] eqn:E; [discriminate|].
  intros H. inversion H; subst.
  rewrite <- (rev_involutive l), E. reflexivity.
Qed.

(** What [#set] has done when it returns. *)
Lemma setKeys_ok keys value template template' :
  setKeys keys value template = SetOk template' ->
  exists parents leaf,
    keys = parents ++ [leaf] /\ leaf <> "" /\ parents <> [] /\
    setIn parents leaf value template = Stored template'.
Proof.
  unfold setKeys. destruct (pop keys) as [[leaf parents]|] eqn:Hpop;
    [|discriminate].
  apply pop_inv in Hpop. subst keys.
  destruct (String.eqb leaf "") eqn:El; [discriminate|].
  destruct parents as [|p ps]; [discriminate|].
  change (negb false && Nat.ltb 0 (List.length (p :: ps))) with true.
  cbv iota.
  destruct (setIn (p :: ps) leaf value template) eqn:Hs; try discriminate.
  intros H. inversion H; subst. exists (p :: ps), leaf.
  split; [reflexivity|]. split; [|split; [discriminate|assumption]].
  intros ->. discriminate.
Qed.

End TemplateFacts.

Module TemplateExtras.
Import Js Str ObjectUtil ClassifyFacts SchemaPathsFacts Problems Intrinsics
  TemplateBuilder TemplateFacts.

(** X19. Whatever calls of [error] and [warn] a console reporter gets, it
    writes each line once: the lines written are the set of reported
    lines, none is there twice, and a line is written exactly when some
    call asked for it. *)
Theorem console_writes_each_line_once :
  forall (Args : Type) (render : Severity -> string -> Args -> string)
         (xs : list (Severity * string * Args)),
    written (calls render xs) = reported (calls render xs) /\
    NoDup (written (calls render xs)) /\
    forall line, In line (written (calls render xs)) <->
                 exists severity location args,
                   In (severity, location, args) xs /\
                   line = render severity location args.
Proof.
  intros Args render xs.
  assert (H0 : tidy newConsole) by (split; [reflexivity|constructor]).
  destruct (calls_from render xs H0) as [[Hw Hnd] Hm].
  fold (calls render xs) in Hw, Hnd, Hm.
  split; [assumption|]. split; [assumption|].
  intros line. rewrite Hm. simpl. split.
  - intros [[]|Hin]. apply in_map_iff in Hin as ([[s l] a] & <- & Hin).
    now exists s, l, a.
  - intros (s & l & a & Hin & ->). right.
    apply in_map_iff. now exists (s, l, a).
Qed.

(** X20. A template literal with one literal more than it has values, as
    every tagged template has: joining the parts of [joinStr] with the
    empty delimiter, each value standing for a text, gives the literals
    with the texts of the values between them. *)
Theorem joinStr_spells_the_template :
  forall (resolve : json -> string) (literals : list string)
         (values : list json),
    (forall s, resolve (JPrim (JStr s)) = s) ->
    List.length literals = S (List.length values) ->
    joinStr literals values
    = JObj [("Fn::Join",
             JArr [JPrim (JStr ""); JArr (joinParts 0 literals values)])] /\
    joined (map resolve (joinParts 0 literals values))
    = templateText literals (map resolve values).
Proof.
  intros resolve literals values Hres Hlen. split; [reflexivity|].
  clear Hlen. revert values.
  induction literals as [|literal rest IH]; intros values; [reflexivity|].
  assert (Hl : joined (map resolve
                 (if String.eqb literal "" then []
                  else [JPrim (JStr literal)])) = literal).
  { destruct (String.eqb literal "") eqn:E; simpl.
    - apply String.eqb_eq in E. now subst.
    - now rewrite Hres, append_empty. }
  destruct values as [|value more]; simpl joinParts.
  - rewrite !map_app, !joined_app, Hl. simpl.
    specialize (IH []). simpl in IH.
    now rewrite (joinParts_none rest 1 0), IH.
  - rewrite !map_app, !joined_app, Hl, joinParts_shift. simpl.
    now rewrite IH.
Qed.

Lemma joinStr_spells_the_template_witness :
  joined (map (fun v => match v with
                        | JPrim (JStr s) => s
                        | _ => "<arn>"
                        end)
            (joinParts 0 ["arn:"; ""; "/x"]
               [JObj [("Ref", JPrim (JStr "A"))]; JPrim (JStr "b")]))
  = "arn:<arn>b/x".
Proof.
  exact (proj2 (joinStr_spells_the_template
                  (fun v => match v with
                            | JPrim (JStr s) => s
                            | _ => "<arn>"
                            end)
                  ["arn:"; ""; "/x"]
                  [JObj [("Ref", JPrim (JStr "A"))]; JPrim (JStr "b")]
                  (fun s => eq_refl) eq_refl)).
Defined.

(** X21. When [#set] returns, the value is at the end of the keys, where
    nothing was before, and every chain of keys that parts ways with the
    given one leads to what it led to. *)
Theorem setKeys_stores_and_keeps :
  forall (keys : list string) (value template template' : json),
    setKeys keys value template = SetOk template' ->
    getPath keys template' = Some value /\
    getPath keys template = None /\
    forall other, apart other keys ->
                  getPath other template' = getPath other template.
Proof.
  intros keys value template template' H.
  apply setKeys_ok in H as (parents & leaf & -> & Hl & Hp & Hs).
  destruct (setIn_stored _ _ _ _ Hs) as (H1 & H2 & _).
  split; [assumption|]. split; [assumption|].
  intros other Hap. eapply setIn_frame; [left; exact Hs|exact Hap].
Qed.

Lemma setKeys_stores_and_keeps_witness :
  exists template',
    addResource "Queue" "AWS::SQS::Queue" (JObj []) None newTemplate
    = SetOk template' /\
    getPath ["Resources"; "Queue"] template'
    = Some (resourceDefinition "AWS::SQS::Queue" (JObj []) None).
Proof.
  eexists. split; [reflexivity|].
  refine (proj1 (setKeys_stores_and_keeps ["Resources"; "Queue"]
                   (resourceDefinition "AWS::SQS::Queue" (JObj []) None)
                   newTemplate _)).
  reflexivity.
Defined.

(** X22. Keys that [#set] has stored a value at cannot be set again: the
    second call, whatever its value, ends in the error for a duplicate,
    named after the first key and the others joined by dots, and leaves
    the template as the first call left it. *)
Theorem setKeys_twice_is_a_duplicate :
  forall (keys : list string) (first second template template' : json),
    setKeys keys first template = SetOk template' ->
    setKeys keys second template'
    = DuplicateTemplateEntityError (hd "" keys) (join "." (tl keys)) template'.
Proof.
  intros keys first second template template' H.
  apply setKeys_ok in H as (parents & leaf & -> & Hl & Hp & Hs).
  destruct (setIn_stored _ _ _ _ Hs) as (H1 & _ & _).
  unfold setKeys. rewrite pop_last.
  apply String.eqb_neq in Hl. rewrite Hl.
  destruct parents as [|p ps]; [congruence|]. simpl negb. simpl Nat.ltb.
  cbv beta iota. simpl andb. cbv iota.
  rewrite (@setIn_found (p :: ps) leaf second template' first
             (getPath_prefix _ _ _ H1) H1).
  reflexivity.
Qed.

Lemma setKeys_twice_is_a_duplicate_witness :
  exists template',
    addMapping "M" (JPrim (JStr "eu")) (Some (JPrim (JStr "ami")))
      (Some (JPrim (JStr "a"))) newTemplate = SetOk template' /\
    addMapping "M" (JPrim (JStr "eu")) (Some (JPrim (JStr "ami")))
      (Some (JPrim (JStr "b"))) template'
    = DuplicateTemplateEntityError "Mappings" "M.eu.ami" template'.
Proof.
  eexists. split; [reflexivity|].
  refine (setKeys_twice_is_a_duplicate ["Mappings"; "M"; "eu"; "ami"]
            (JPrim (JStr "a")) (JPrim (JStr "b")) newTemplate _).
  reflexivity.
Defined.

(** X23. An entity named like a member that every object inherits
    ([toString], [constructor], ...) cannot be added to a section that is
    an object: the call ends in the error for a duplicate although the
    section holds no entity of that name, and the template is as it
    was. *)
Theorem addSection_rejects_inherited_names :
  forall (sectionName name : string) (definition : json)
         (fields entities : list (string * json)),
    inherited name = true ->
    get sectionName fields = Some (JObj entities) ->
    addSection sectionName name definition (JObj fields)
    = DuplicateTemplateEntityError sectionName name (JObj fields).
Proof.
  intros sectionName name definition fields entities Hin Hsec.
  unfold addSection, setKeys.
  change (pop [sectionName; name]) with (Some (name, [sectionName])).
  assert (Hne : String.eqb name "" = false).
  { destruct (String.eqb name "") eqn:E; [|reflexivity].
    apply String.eqb_eq in E. subst. discriminate. }
  cbv iota beta. rewrite Hne. simpl. rewrite Hsec. simpl.
  unfold js_in. rewrite Hin, orb_true_r. simpl.
  now rewrite set_same_value.
Qed.

Lemma addSection_rejects_inherited_names_witness :
  addResource "toString" "AWS::SQS::Queue" (JObj []) None newTemplate
  = DuplicateTemplateEntityError "Resources" "toString" newTemplate /\
  getPath ["Resources"; "toString"] newTemplate = None.
Proof.
  split; [|reflexivity].
  exact (addSection_rejects_inherited_names "Resources" "toString"
           (resourceDefinition "AWS::SQS::Queue" (JObj []) None)
           [("Resources", JObj [])] eq_refl eq_refl).
Defined.

(** X24. The three forms of [addMapping] agree on a template that has no
    mapping of the name: giving the whole mapping, giving one top-level
    key with its object, and giving one value by its two keys leave the
    same template. *)
Theorem addMapping_forms_agree :
  forall (name top second : string) (value : json)
         (fields mappings : list (string * json)),
    get "Mappings" fields = Some (JObj mappings) ->
    js_in name mappings = false ->
    inherited top = false -> inherited second = false ->
    name <> "" -> top <> "" -> second <> "" ->
    exists template',
      addMapping name (JPrim (JStr top)) (Some (JPrim (JStr second)))
        (Some value) (JObj fields) = SetOk template' /\
      addMapping name (JPrim (JStr top)) (Some (JObj [(second, value)])) None
        (JObj fields) = SetOk template' /\
      addMapping name (JObj [(top, JObj [(second, value)])]) None None
        (JObj fields) = SetOk template'.
Proof.
  intros name top second value fields mappings Hm Hname Htop Hsecond Hne Ht Hs.
  apply String.eqb_neq in Hne, Ht, Hs.
  pose proof Hname as Hn. unfold js_in in Hn.
  apply orb_false_iff in Hn as [Hhas Hinh]. unfold has in Hhas.
  destruct (get name mappings) eqn:Hg; [discriminate|].
  eexists. split; [|split].
  - unfold addMapping. simpl typeofObject. cbv iota.
    destruct second as [|c second']; [discriminate|].
    unfold setKeys.
    change (pop ["Mappings"; name; top; String c second'])
      with (Some (String c second', ["Mappings"; name; top])).
    cbv iota beta. rewrite Hs. simpl.
    rewrite Hm. simpl. rewrite Hg, Hinh. simpl.
    rewrite Htop. simpl. unfold js_in. simpl. rewrite Hsecond. simpl.
    reflexivity.
  - unfold addMapping. simpl typeofObject. cbv iota.
    unfold setKeys.
    change (pop ["Mappings"; name; top])
      with (Some (top, ["Mappings"; name])).
    cbv iota beta. rewrite Ht. simpl.
    rewrite Hm. simpl. rewrite Hg, Hinh. simpl.
    unfold js_in. simpl. rewrite Htop. simpl. reflexivity.
  - unfold addMapping. simpl typeofObject. cbv iota.
    unfold addSection, setKeys.
    change (pop ["Mappings"; name]) with (Some (name, ["Mappings"])).
    cbv iota beta. rewrite Hne. simpl.
    rewrite Hm. simpl. rewrite Hname. simpl. reflexivity.
Qed.

Lemma addMapping_forms_agree_witness :
  exists template',
    addMapping "M" (JPrim (JStr "eu")) (Some (JPrim (JStr "ami")))
      (Some (JPrim (JStr "a"))) (JObj [("Mappings", JObj [])])
    = SetOk template' /\
    addMapping "M" (JObj [("eu", JObj [("ami", JPrim (JStr "a"))])]) None None
      (JObj [("Mappings", JObj [])])
    = SetOk template'.
Proof.
  destruct (@addMapping_forms_agree "M" "eu" "ami" (JPrim (JStr "a"))
              [("Mappings", JObj [])] [] eq_refl eq_refl eq_refl eq_refl
              ltac:(discriminate) ltac:(discriminate) ltac:(discriminate))
    as (template' & H1 & _ & H3).
  exists template'. now split.
Defined.

End TemplateExtras.

(* ===================================================================== *)
(** ** What a build keeps: the reporter, the names *)
(* ===================================================================== *)

Module BuildFacts.
Import Js Str TypeNodes ObjectUtil Run Builder ClassifyFacts GraphFacts.

(** *** What a computation leaves true of its state *)

Section Keeps.
Variable St : Type.
Variable J : St -> Prop.

Definition keeps (A : Type) (m : ST St A) : Prop :=
  forall st a st', J st -> m st = Ok (a, st') -> J st'.

Lemma keeps_ret (A : Type) (a : A) : keeps (ret a).
Proof. intros st a' st' HJ H. inversion H; subst. exact HJ. Qed.

Lemma keeps_throw (A : Type) msg : keeps (throw A msg).
Proof. intros st a st' _ H. discriminate. Qed.

Lemma keeps_outOfFuel (A : Type) : keeps (outOfFuel A).
Proof. intros st a st' _ H. discriminate. Qed.

Lemma keeps_unmodelled (A : Type) : keeps (unmodelled A).
Proof. intros st a st' _ H. discriminate. Qed.

Lemma keeps_getState : keeps getState.
Proof. intros st a st' HJ H. inversion H; subst. exact HJ. Qed.

Lemma keeps_bind (A B : Type) (m : ST St A) (k : A -> ST St B) :
  keeps m -> (forall a, keeps (k a)) -> keeps (bind m k).
Proof.
  intros Hm Hk st b st' HJ H. unfold bind in H.
  destruct (m st) as [[a st1]| | |] eqn:E; try discriminate.
  exact (Hk a st1 b st' (Hm st a st1 HJ E) H).
Qed.

Lemma keeps_assert cond msg : keeps (assert cond msg).
Proof. destruct cond; [apply keeps_ret|apply keeps_throw]. Qed.

Lemma keeps_liftR (A : Type) (r : Result A) : keeps (liftR r).
Proof.
  intros st a st' HJ H. unfold liftR in H.
  destruct r; try discriminate. inversion H; subst. exact HJ.
Qed.

Lemma keeps_forEach (A : Type) (body : A -> ST St unit) xs :
  (forall x, keeps (body x)) -> keeps (forEach body xs).
Proof.
  intros Hb. induction xs as [|x xs IH]; simpl;
    [apply keeps_ret|apply keeps_bind; auto].
Qed.

Lemma keeps_mapM (A B : Type) (f : A -> ST St B) xs :
  (forall x, keeps (f x)) -> keeps (mapM f xs).
Proof.
  intros Hf. induction xs as [|x xs IH]; simpl; [apply keeps_ret|].
  apply keeps_bind; [apply Hf|intros y].
  apply keeps_bind; [apply IH|intros ys; apply keeps_ret].
Qed.

Lemma keeps_mapMi (A B : Type) (f : A -> nat -> ST St B) xs :
  (forall x i, keeps (f x i)) -> forall i, keeps (mapMi f i xs).
Proof.
  intros Hf. induction xs as [|x xs IH]; intros i; simpl; [apply keeps_ret|].
  apply keeps_bind; [apply Hf|intros y].
  apply keeps_bind; [apply IH|intros ys; apply keeps_ret].
Qed.

End Keeps.

Ltac keeps_by leaf :=
  repeat first
    [ leaf | apply keeps_ret | apply keeps_throw | apply keeps_outOfFuel
    | apply keeps_unmodelled | apply keeps_assert | apply keeps_liftR
    | apply keeps_getState
    | apply keeps_bind; [|intros ?]
    | apply keeps_forEach; intros ?
    | apply keeps_mapM; intros ?
    | apply keeps_mapMi; intros ? ?
    | match goal with
      | |- keeps _ (match ?x with _ => _ end) => destruct x
      | |- keeps _ (if ?x then _ else _) => destruct x
      | |- keeps _ (let '(_, _) := ?x in _) => destruct x
      end ].

Ltac keeps_steps := keeps_by fail.

Lemma getState_inv (St : Type) (st a st' : St) :
  getState st = Ok (a, st') -> a = st /\ st' = st.
Proof. unfold getState. intros H. now inversion H. Qed.

(** *** What the walk keeps of the diagnostics *)

(** A schema with a key that no type allows. *)
Definition warnedSchema : obj :=
  [ ("typeName", jstr "Test::Resource");
    ("properties",
     JObj [("a", JObj [("type", jstr "string"); ("bogus", jstr "x")])]) ].

(** A property of two types, of which the second has a key that the
    first does not allow. *)
Definition multiTypeSchema : obj :=
  [ ("typeName", jstr "Test::Resource");
    ("properties",
     JObj [("a", JObj [("type", JArr [jstr "string"; jstr "integer"]);
                       ("minimum", JPrim (JNum 1))])]) ].

(** [#ignoreExtraKeyLocations.add(location)] and [.delete(location)] *)
Definition ignoring (location : string) (d : Diag) : Diag :=
  mkDiag (if mem location (ignoreExtraKeyLocations d)
          then ignoreExtraKeyLocations d
          else ignoreExtraKeyLocations d ++ [location])
    (problems d) (relevantKeys d) (warnCalls d).

Definition heeding (location : string) (d : Diag) : Diag :=
  mkDiag (filter (fun l => negb (String.eqb l location))
            (ignoreExtraKeyLocations d))
    (problems d) (relevantKeys d) (warnCalls d).

Section Walked.
Variable resourceSchema : obj.
Variable documenter : ResourceDocumenter.
(** What is kept, given the locations that a walk further out ignores. *)
Variable JD : list string -> Diag -> Prop.
Hypothesis JD_warn : forall outer location format args,
  keeps (JD outer) (warn resourceSchema location format args).
Hypothesis JD_warnExtraKeys : forall outer schema type location,
  keeps (JD outer) (warnExtraKeys resourceSchema schema type location).
Hypothesis JD_ignoring : forall outer location d,
  JD outer d -> JD (location :: outer) (ignoring location d).
Hypothesis JD_heeding : forall outer location d,
  JD (location :: outer) d -> JD outer (heeding location d).

Lemma walked_asSchema outer v : keeps (JD outer) (asSchema v).
Proof. unfold asSchema. keeps_steps. Qed.

Lemma walked_entriesOf outer v : keeps (JD outer) (entriesOf v).
Proof. unfold entriesOf. keeps_steps. Qed.

Lemma walked_requiredOf outer schema : keeps (JD outer) (requiredOf schema).
Proof. unfold requiredOf. keeps_steps. Qed.

Lemma walked_simplifyUnion outer id items :
  keeps (JD outer) (simplifyUnion id items).
Proof. unfold simplifyUnion. keeps_steps. Qed.

Lemma walked_mergeSchemas outer objects options location :
  keeps (JD outer) (mergeSchemas resourceSchema objects options location).
Proof. unfold mergeSchemas. keeps_by ltac:(apply JD_warn). Qed.

Lemma walked_mergeAllOf outer schema location :
  keeps (JD outer) (mergeAllOf resourceSchema schema location).
Proof.
  unfold mergeAllOf.
  keeps_by ltac:(first [apply walked_asSchema|apply walked_mergeSchemas]).
Qed.

Lemma walked_extractDocumentation outer fuel :
  forall schema location,
    keeps (JD outer)
      (extractDocumentation resourceSchema documenter fuel schema location).
Proof.
  induction fuel as [|fuel IH]; intros schema location; simpl;
    [apply keeps_outOfFuel|].
  keeps_by ltac:(first [apply walked_mergeAllOf|apply walked_mergeSchemas
                       |apply walked_asSchema|apply IH]).
Qed.

Section Walkers.
Variable w : Walkers.
Variable fuel : nat.
Hypothesis w_type : forall outer schema location,
  keeps (JD outer) (walkTypeW w schema location).
Hypothesis w_object : forall outer schema location,
  keeps (JD outer) (walkObjectTypeW w schema location).

Ltac walked_leaves :=
  first [ apply JD_warn | apply JD_warnExtraKeys
        | apply walked_asSchema | apply walked_entriesOf
        | apply walked_requiredOf | apply walked_simplifyUnion
        | apply walked_mergeSchemas | apply walked_mergeAllOf
        | apply walked_extractDocumentation
        | apply w_type | apply w_object ].

Lemma walked_walkRefType outer schema location :
  keeps (JD outer) (walkRefType resourceSchema w schema location).
Proof. unfold walkRefType. keeps_by walked_leaves. Qed.

Lemma walked_walkArrayType outer schema location :
  keeps (JD outer)
    (walkArrayType resourceSchema documenter w fuel schema location).
Proof. unfold walkArrayType. keeps_by walked_leaves. Qed.

Lemma walked_walkBooleanType outer schema location :
  keeps (JD outer) (walkBooleanType resourceSchema schema location).
Proof. unfold walkBooleanType. keeps_by walked_leaves. Qed.

Lemma walked_walkConstType outer schema location :
  keeps (JD outer) (walkConstType resourceSchema schema location).
Proof. unfold walkConstType. keeps_by walked_leaves. Qed.

Lemma walked_walkEnumType outer schema location :
  keeps (JD outer) (walkEnumType resourceSchema schema location).
Proof. unfold walkEnumType. keeps_by walked_leaves. Qed.

(** The walk of the members of a multi-type, between the [add] and the
    [delete] of its location. *)
Lemma walked_walkMultiType outer schema location :
  keeps (JD outer) (walkMultiType resourceSchema w schema location).
Proof.
  unfold walkMultiType.
  destruct (get "type" schema) as [[p|[|only [|second types]]|fields]|];
    try apply keeps_throw; [apply w_type|].
  intros d t d' HJ H.
  apply bind_inv in H as (st & d0 & Hget & H).
  apply getState_inv in Hget as [-> ->].
  apply bind_inv in H as (u & d1 & Hadd & H).
  assert (d1 = ignoring location d) as ->
    by (unfold setIgnored in Hadd; now inversion Hadd).
  apply bind_inv in H as (items & d2 & Hitems & H).
  assert (H2 : JD (location :: outer) d2).
  { refine (@keeps_mapM _ (JD (location :: outer)) _ _ _ _ _ _ _ _
              (JD_ignoring location HJ) Hitems).
    intros type. apply w_type. }
  apply bind_inv in H as (st' & d3 & Hget & H).
  apply getState_inv in Hget as [-> ->].
  apply bind_inv in H as (u' & d4 & Hdel & H).
  assert (d4 = heeding location d2) as ->
    by (unfold setIgnored in Hdel; now inversion Hdel).
  apply JD_heeding in H2.
  apply bind_inv in H as (u'' & d5 & Hwarn & H).
  pose proof (@JD_warnExtraKeys outer _ _ _ _ _ _ H2 Hwarn) as H5.
  exact (@walked_simplifyUnion outer _ _ _ _ _ H5 H).
Qed.

Lemma walked_walkNullType outer schema location :
  keeps (JD outer) (walkNullType resourceSchema schema location).
Proof. unfold walkNullType. keeps_by walked_leaves. Qed.

Lemma walked_walkNumberType outer schema location :
  keeps (JD outer) (walkNumberType resourceSchema schema location).
Proof. unfold walkNumberType. keeps_by walked_leaves. Qed.

Lemma walked_walkStringType outer schema location :
  keeps (JD outer) (walkStringType resourceSchema schema location).
Proof. unfold walkStringType. keeps_by walked_leaves. Qed.

Lemma walked_walkProperty outer propertySchema location :
  keeps (JD outer)
    (walkProperty resourceSchema documenter w fuel propertySchema location).
Proof. unfold walkProperty. keeps_by walked_leaves. Qed.

Lemma walked_walkDefinition outer definition location :
  keeps (JD outer)
    (walkDefinition resourceSchema documenter w fuel definition location).
Proof. unfold walkDefinition. keeps_by walked_leaves. Qed.

Lemma walked_walkRecordType outer schema location :
  keeps (JD outer) (walkRecordType resourceSchema w schema location).
Proof. unfold walkRecordType. keeps_by walked_leaves. Qed.

Lemma walked_walkObjectBranches outer key branches schema location :
  keeps (JD outer)
    (walkObjectBranches resourceSchema w key branches schema location).
Proof. unfold walkObjectBranches. keeps_by walked_leaves. Qed.

Lemma walked_walkObjectType outer schema location :
  keeps (JD outer)
    (walkObjectType resourceSchema documenter w fuel schema location).
Proof.
  unfold walkObjectType.
  keeps_by ltac:(first [ apply walked_walkObjectBranches
                       | apply walked_walkRecordType
                       | apply walked_walkProperty | walked_leaves ]).
Qed.

Lemma walked_walkUnionBranches outer key schema location :
  keeps (JD outer) (walkUnionBranches w key schema location).
Proof. unfold walkUnionBranches. keeps_by walked_leaves. Qed.

Lemma walked_walkUnion outer schema location :
  keeps (JD outer) (walkUnion resourceSchema w schema location).
Proof.
  unfold walkUnion.
  keeps_by ltac:(first [apply walked_walkUnionBranches|walked_leaves]).
Qed.

Lemma walked_repeatsRootType outer key schema :
  keeps (JD outer) (repeatsRootType key schema).
Proof. unfold repeatsRootType. keeps_steps. Qed.

Lemma walked_walkType outer schema location :
  keeps (JD outer)
    (walkType resourceSchema documenter w fuel schema location).
Proof.
  unfold walkType. destruct schema as [|entry schema]; [apply keeps_ret|].
  keeps_by ltac:(first
    [ apply walked_repeatsRootType | apply walked_walkRefType
    | apply walked_walkConstType | apply walked_walkEnumType
    | apply walked_walkArrayType | apply walked_walkMultiType
    | apply walked_walkBooleanType | apply walked_walkNumberType
    | apply walked_walkNullType | apply walked_walkStringType
    | apply walked_walkUnion | walked_leaves ]).
Qed.

End Walkers.

Lemma walked_walkers fuel :
  (forall outer schema location,
     keeps (JD outer)
       (walkTypeW (walkers resourceSchema documenter fuel) schema location)) /\
  (forall outer schema location,
     keeps (JD outer)
       (walkObjectTypeW (walkers resourceSchema documenter fuel) schema
          location)).
Proof.
  induction fuel as [|fuel [IHt IHo]]; simpl.
  - split; intros; apply keeps_outOfFuel.
  - split; intros outer schema location.
    + now apply walked_walkType.
    + now apply walked_walkObjectType.
Qed.

End Walked.

(** *** The builder's state *)

Section Classification.
Variable resourceSchema : obj.
Variable documenter : ResourceDocumenter.
(** What is kept of the diagnostics and of [#root]. *)
Variable JD : Diag -> Prop.
Variable I : ResourceType -> Prop.
Hypothesis JD_warn : forall location format args,
  keeps JD (warn resourceSchema location format args).
Hypothesis I_updateAt : forall f loc r, I r -> I (updateAt f loc r).
Hypothesis I_addAttributeEntry : forall name entry r,
  I r -> I (addAttributeEntry resourceSchema documenter name entry r).

Definition both (st : State) : Prop := JD (diag st) /\ I (root st).

Lemma both_liftW (A : Type) (m : W A) : keeps JD m -> keeps both (liftW m).
Proof.
  intros Hm st a st' [HJ HI] H. unfold liftW in H.
  destruct (m (diag st)) as [[a' d]| | |] eqn:E; try discriminate.
  inversion H; subst. split; [exact (Hm _ _ _ HJ E)|exact HI].
Qed.

Lemma both_getRoot : keeps both getRoot.
Proof. intros st a st' HJ H. inversion H; subst. exact HJ. Qed.

Lemma both_modifyRoot f :
  (forall r, I r -> I (f r)) -> keeps both (modifyRoot f).
Proof.
  intros Hf st a st' [HJ HI] H. inversion H; subst. split; [exact HJ|].
  now apply Hf.
Qed.

Lemma both_updateAt f loc : keeps both (modifyRoot (updateAt f loc)).
Proof. apply both_modifyRoot. intros r. apply I_updateAt. Qed.

Lemma both_updateProp f p : keeps both (modifyRoot (updateProp f p)).
Proof. apply both_updateAt. Qed.

Ltac both_leaves :=
  first [ apply both_getRoot | apply both_updateProp | apply both_updateAt
        | apply both_liftW; apply JD_warn ].

Lemma both_nodeAtM loc : keeps both (nodeAtM loc).
Proof. unfold nodeAtM. keeps_by both_leaves. Qed.

Lemma both_propAtM p : keeps both (propAtM p).
Proof. unfold propAtM. keeps_by both_leaves. Qed.

Lemma both_findProperty fuel :
  forall mangle loc parts, keeps both (findProperty fuel mangle loc parts).
Proof.
  induction fuel as [|fuel IH]; intros mangle loc parts; simpl;
    [apply keeps_outOfFuel|].
  destruct parts as [|part rest]; [apply keeps_ret|].
  apply keeps_bind; [apply keeps_assert|intros _].
  apply keeps_bind; [apply both_nodeAtM|intros node].
  destruct node;
    keeps_by ltac:(first [apply IH|apply both_nodeAtM|both_leaves]).
Qed.

Lemma both_findPropertyPath fuel path mangle :
  keeps both (findPropertyPath fuel path mangle).
Proof.
  unfold findPropertyPath. destruct (startsWith path "/properties/");
    [apply both_findProperty|apply keeps_ret].
Qed.

Lemma both_markChildren fuel :
  forall loc flag value maxDepth depth stack,
    keeps both (markChildren fuel loc flag value maxDepth depth stack).
Proof.
  induction fuel as [|fuel IH]; intros loc flag value maxDepth depth stack;
    simpl; [apply keeps_outOfFuel|].
  destruct (existsb (loc_eqb loc) stack); [apply keeps_ret|].
  apply keeps_bind; [apply both_nodeAtM|intros node].
  destruct node;
    keeps_by ltac:(first [apply IH|apply both_nodeAtM|both_leaves]).
Qed.

Lemma both_eligible fuel wildcard p : keeps both (eligible fuel wildcard p).
Proof.
  unfold eligible. destruct wildcard; [apply keeps_ret|].
  apply keeps_bind; [apply both_propAtM|intros info]. keeps_by both_leaves.
Qed.

Lemma both_addAttribute fuel path readOnly :
  keeps both (addAttribute resourceSchema documenter fuel path readOnly).
Proof.
  unfold addAttribute.
  apply keeps_bind; [apply both_findPropertyPath|intros props].
  destruct props as [|prop rest]; [apply both_liftW, JD_warn|].
  apply keeps_bind.
  { apply keeps_forEach. intros p.
    apply keeps_bind; [apply both_eligible|intros valid].
    apply keeps_bind.
    - destruct valid; [|apply keeps_ret].
      apply keeps_bind; [apply both_updateProp|intros _].
      apply both_markChildren.
    - intros _. destruct readOnly; [apply both_updateProp|apply keeps_ret]. }
  intros _.
  apply keeps_bind; [apply both_propAtM|intros first].
  apply keeps_bind; [apply keeps_mapM; intros; apply both_propAtM|intros infos].
  apply keeps_bind;
    [destruct (forallb _ infos);
       [apply keeps_ret|apply both_liftW, JD_warn]|].
  intros _. apply keeps_bind; [apply keeps_assert|intros _].
  apply keeps_bind; [apply both_eligible|intros valid].
  destruct valid; [|apply keeps_ret].
  apply both_modifyRoot. intros r. apply I_addAttributeEntry.
Qed.

Lemma both_promote fuel p : keeps both (promote fuel p).
Proof.
  unfold promote.
  apply keeps_bind; [apply both_propAtM|intros info].
  apply keeps_bind; [apply both_getRoot|intros r].
  apply keeps_bind; [apply keeps_liftR|intros allReadOnly].
  apply keeps_bind.
  { destruct allReadOnly; [|apply keeps_ret].
    apply keeps_bind; [apply both_updateProp|intros _].
    apply both_markChildren. }
  intros _.
  apply keeps_bind; [apply both_propAtM|intros info'].
  apply keeps_bind; [apply both_getRoot|intros r'].
  apply keeps_bind; [apply keeps_liftR|intros anyAttribute].
  destruct anyAttribute; [apply both_updateProp|apply keeps_ret].
Qed.

Lemma both_analyzePaths fuel :
  keeps both (analyzePaths resourceSchema documenter fuel).
Proof.
  unfold analyzePaths.
  apply keeps_bind.
  { unfold readOnlyPropertiesOf.
    destruct (truthyField "readOnlyProperties" resourceSchema) as [v|];
      [|apply keeps_ret].
    destruct v; try apply keeps_unmodelled.
    apply keeps_bind; [|intros; apply keeps_ret].
    apply keeps_mapM. intros x. destruct x as [[| | |]| |];
      first [apply keeps_ret|apply keeps_unmodelled]. }
  intros paths. destruct paths as [paths|]; [|apply keeps_ret].
  apply keeps_bind.
  { apply keeps_forEach. intros path. apply both_addAttribute. }
  intros _. apply keeps_forEach. intros path.
  apply keeps_bind; [apply both_findPropertyPath|].
  intros props. apply keeps_forEach. intros p. apply both_promote.
Qed.

(** The part of [build] that follows the walk of the definitions. *)
Definition classify (fuel : nat) : M ResourceType :=
  analyzePaths resourceSchema documenter fuel ;;;
  match get (schemaTypeName resourceSchema) SchemaPaths.ExtraAttributes with
  | Some names =>
      forEach
        (fun name =>
           addAttribute resourceSchema documenter fuel
             ("/properties/" ++ name)%string false)
        names
  | None =>
      if inherited (schemaTypeName resourceSchema) then unmodelled _
      else ret tt
  end ;;;
  getRoot.

Lemma both_classify fuel : keeps both (classify fuel).
Proof.
  unfold classify.
  apply keeps_bind; [apply both_analyzePaths|intros _].
  apply keeps_bind; [|intros _; apply both_getRoot].
  destruct (get (schemaTypeName resourceSchema) SchemaPaths.ExtraAttributes).
  - apply keeps_forEach. intros name. apply both_addAttribute.
  - destruct (inherited (schemaTypeName resourceSchema));
      [apply keeps_unmodelled|apply keeps_ret].
Qed.

Lemma classify_root fuel st rt st' :
  classify fuel st = Ok (rt, st') -> rt = root st'.
Proof.
  unfold classify. intros H.
  apply bind_inv in H as (u & st1 & _ & H).
  apply bind_inv in H as (u' & st2 & _ & H).
  now apply getRoot_inv in H as [-> ->].
Qed.

End Classification.

(** *** The walk of the definitions *)

Section Definitions.
Variable resourceSchema : obj.
Variable documenter : ResourceDocumenter.

(** [Object.entries(this.#resourceSchema.definitions)], when [build]
    reads them. *)
Definition definitionEntries : obj :=
  match truthyField "definitions" resourceSchema with
  | Some (JObj fields) => fields
  | Some (JArr items) => arrayEntries items
  | _ => []
  end.

Lemma keys_set (V W : Type) k (v : V) (v' : W) :
  forall (o : list (string * V)) (o' : list (string * W)),
    keys o = keys o' -> keys (set k v o) = keys (set k v' o').
Proof.
  unfold keys. induction o as [|[k1 w1] o IH]; intros [|[k2 w2] o'] H;
    simpl in *; try discriminate; [reflexivity|].
  inversion H; subst. destruct (String.eqb k2 k); simpl; [congruence|].
  f_equal. now apply IH.
Qed.

Lemma walk_definitions fuel (entries : obj) :
  forall (acc : obj) st st',
    forEach
      (fun entry : string * json =>
         d <- liftW (walkDefinition resourceSchema documenter
                       (walkers resourceSchema documenter fuel) fuel
                       (snd entry) ("/definitions/" ++ fst entry)%string) ;;
         setDefinition (fst entry) d)
      entries st = Ok (tt, st') ->
    keys (definitions (root st)) = keys acc ->
    typeName (root st') = typeName (root st) /\
    keys (definitions (root st'))
    = keys (fold_left (fun o kv => set (fst kv) (snd kv) o) entries acc).
Proof.
  induction entries as [|entry entries IH]; intros acc st st' H Hacc;
    simpl in H.
  - apply ret_inv in H as [_ ->]. now split.
  - apply bind_inv in H as (u & st1 & Hstep & Hrest).
    apply bind_inv in Hstep as (d & st0 & Hwalk & Hset).
    apply liftW_inv in Hwalk. apply modifyRoot_inv in Hset.
    destruct (IH (set (fst entry) (snd entry) acc) _ _ Hrest) as [Hn Hk].
    + rewrite Hset. simpl. rewrite Hwalk. now apply keys_set.
    + simpl. split; [|exact Hk]. rewrite Hn, Hset. simpl. now rewrite Hwalk.
Qed.

(** [build] is the walk of the root and of the definitions, followed by
    the classification; the walk names the resource and its
    definitions. *)
Lemma buildM_walk fuel st rt st' :
  buildM resourceSchema documenter fuel st = Ok (rt, st') ->
  definitions (root st) = [] ->
  exists st1,
    classify resourceSchema documenter fuel st1 = Ok (rt, st') /\
    typeName (root st1) = typeName (root st) /\
    keys (definitions (root st1)) = keys (fromEntries definitionEntries).
Proof.
  unfold buildM. intros H Hnone.
  apply bind_inv in H as (r & sta & Hdoc & H). apply liftW_inv in Hdoc.
  destruct (resType r) as [type|]; [|discriminate].
  apply bind_inv in H as (t & stb & Hwalk & H). apply liftW_inv in Hwalk.
  apply bind_inv in H as (u & stc & Hroot & H).
  apply modifyRoot_inv in Hroot.
  apply bind_inv in H as (u' & st1 & Hdefs & H).
  exists st1. split; [exact H|].
  assert (Hc : typeName (root stc) = typeName (root st) /\
               definitions (root stc) = []).
  { rewrite Hroot. simpl. now rewrite Hwalk, Hdoc. }
  destruct Hc as [Hname Hempty]. unfold definitionEntries, fromEntries.
  destruct (truthyField "definitions" resourceSchema) as [v|].
  - apply bind_inv in Hdefs as (entries & std & Hentries & Hloop).
    pose proof (liftW_inv _ _ Hentries) as Hd.
    destruct u'.
    destruct (@walk_definitions fuel entries [] std st1 Hloop) as [Hn Hk].
    { now rewrite Hd, Hempty. }
    rewrite Hn, Hd. split; [exact Hname|]. rewrite Hk.
    unfold liftW, entriesOf in Hentries.
    destruct v as [p|items|fields]; simpl in Hentries;
      [discriminate| |]; inversion Hentries; reflexivity.
  - apply ret_inv in Hdefs as [_ ->]. split; [exact Hname|].
    now rewrite Hempty.
Qed.

End Definitions.

(** *** The whole build *)

Section Built.
Variable resourceSchema : obj.
Variable documenter : ResourceDocumenter.
Variable JD : list string -> Diag -> Prop.
Hypothesis JD_warn : forall outer location format args,
  keeps (JD outer) (warn resourceSchema location format args).
Hypothesis JD_warnExtraKeys : forall outer schema type location,
  keeps (JD outer) (warnExtraKeys resourceSchema schema type location).
Hypothesis JD_ignoring : forall outer location d,
  JD outer d -> JD (location :: outer) (ignoring location d).
Hypothesis JD_heeding : forall outer location d,
  JD (location :: outer) d -> JD outer (heeding location d).

Definition diagnosed : State -> Prop := both (JD []) (fun _ => True).

Lemma diagnosed_buildM fuel :
  keeps diagnosed (buildM resourceSchema documenter fuel).
Proof.
  assert (Hm : forall f, keeps diagnosed (modifyRoot f)).
  { intros f. now apply both_modifyRoot. }
  pose proof (@walked_walkers resourceSchema documenter JD JD_warn
                JD_warnExtraKeys JD_ignoring JD_heeding fuel) as [Ht Ho].
  unfold buildM.
  apply keeps_bind;
    [apply both_liftW; apply walked_extractDocumentation; assumption
    |intros r].
  destruct (resType r) as [type|]; [|apply keeps_throw].
  apply keeps_bind; [apply both_liftW, Ht|intros t].
  apply keeps_bind; [apply Hm|intros _].
  apply keeps_bind.
  { destruct (truthyField "definitions" resourceSchema); [|apply keeps_ret].
    apply keeps_bind; [apply both_liftW, walked_entriesOf|intros entries].
    apply keeps_forEach. intros entry.
    apply keeps_bind; [|intros d; apply Hm].
    apply both_liftW. apply walked_walkDefinition; assumption. }
  intros _.
  apply (@both_classify resourceSchema documenter (JD []) (fun _ => True));
    auto.
Qed.

Lemma diagnosed_build fuel table rt st :
  JD [] (mkDiag [] None table []) ->
  build resourceSchema documenter fuel table = Ok (rt, st) ->
  JD [] (diag st).
Proof.
  intros H0 H. unfold build in H.
  destruct (get "typeName" resourceSchema) as [[[| | |s]| |]|];
    try discriminate.
  exact (proj1 (@diagnosed_buildM fuel (initialState resourceSchema table)
                  rt st (conj H0 Logic.I) H)).
Qed.

End Built.

Lemma tag_eqb_true a b : tag_eqb a b = true -> a = b.
Proof. destruct a, b; simpl; intros H; try discriminate; reflexivity. Qed.

(** The rows of [RelevantKeys] as a call of [#warnExtraKeys] leaves
    them. *)
Lemma warnExtraKeys_rows resourceSchema schema type location d u d' :
  warnExtraKeys resourceSchema schema type location d = Ok (u, d') ->
  ignoreExtraKeyLocations d' = ignoreExtraKeyLocations d /\
  problems d' = option_map (fun received =>
                              received ++ skipn (List.length (warnCalls d))
                                            (warnCalls d'))
                  (problems d) /\
  forall t, exists added, relevantKeys d' t = relevantKeys d t ++ added.
Proof.
  unfold warnExtraKeys, bind, getState.
  assert (Hsame : forall t, exists added : list string,
            relevantKeys d t = relevantKeys d t ++ added).
  { intros t. exists []. now rewrite app_nil_r. }
  assert (Hnone : problems d
                  = option_map (fun received =>
                                  received ++ skipn (List.length (warnCalls d))
                                                (warnCalls d))
                      (problems d)).
  { rewrite skipn_all. destruct (problems d); simpl;
      now rewrite ?app_nil_r. }
  destruct (mem location (ignoreExtraKeyLocations d)).
  { intros H. inversion H; subst. auto. }
  assert (Hone : forall (l : list WarnCall) call,
            skipn (List.length l) (l ++ [call]) = [call]).
  { intros l call. rewrite skipn_app, skipn_all, Nat.sub_diag. reflexivity. }
  destruct type as [t0|ts]; unfold setRelevantKeys, ret; cbv beta iota;
    match goal with
    | |- context [filter ?f (keys schema)] =>
        destruct (filter f (keys schema))
    end; unfold warn; intros H; inversion H; subst; clear H; simpl;
    (split; [reflexivity|]);
    (split; [first [exact Hnone | destruct (problems d); simpl;
                                  now rewrite ?Hone]|]);
    try exact Hsame;
    intros t; destruct (tag_eqb t t0) eqn:E; try apply Hsame;
    apply tag_eqb_true in E; subst t; eexists; reflexivity.
Qed.

End BuildFacts.

Module BuildExtras.
Import Js Str TypeNodes ObjectUtil Run Builder ClassifyFacts GraphFacts
  BuildFacts.

(** X25. No warning of a build reaches a reporter: the constructor leaves
    [#problems] without one, and when [build] returns the field still
    holds none, whatever was passed to [#warn] on the way. *)
Theorem build_warnings_reach_no_reporter :
  forall (resourceSchema : obj) (documenter : ResourceDocumenter)
         (fuel : nat) (table : Tag -> list string)
         (rt : ResourceType) (st : State),
    build resourceSchema documenter fuel table = Ok (rt, st) ->
    problems (diag st) = None.
Proof.
  intros resourceSchema documenter fuel table rt st H.
  refine (@diagnosed_build resourceSchema documenter
            (fun _ d => problems d = None) _ _ _ _ fuel table rt st eq_refl H).
  - intros outer location format args d a d' Hd E.
    unfold warn in E. inversion E; subst. simpl. now rewrite Hd.
  - intros outer schema type location d a d' Hd E.
    apply warnExtraKeys_rows in E as (_ & -> & _). now rewrite Hd.
  - intros outer location d Hd. exact Hd.
  - intros outer location d Hd. exact Hd.
Qed.

Lemma build_warnings_reach_no_reporter_witness :
  exists rt st,
    build warnedSchema noDocumenter 4 RelevantKeys = Ok (rt, st) /\
    List.length (warnCalls (diag st)) = 1 /\
    problems (diag st) = None.
Proof.
  do 2 eexists. split; [vm_compute; reflexivity|].
  split; [reflexivity|].
  refine (build_warnings_reach_no_reporter warnedSchema noDocumenter 4
            RelevantKeys _).
  vm_compute. reflexivity.
Defined.

(** X26. The resource that [build] returns is named after the schema, and
    its definitions are those of the schema, under their names and in
    their order: the classification of attributes, which renames
    properties, adds no definition, drops none and renames none. No
    definition of the schema is named [__proto__]: one of that name
    becomes the prototype of the definitions and is stored under no
    key. *)
Theorem build_keeps_the_names :
  forall (resourceSchema : obj) (documenter : ResourceDocumenter)
         (fuel : nat) (table : Tag -> list string)
         (rt : ResourceType) (st : State),
    ~ In "__proto__" (keys (definitionEntries resourceSchema)) ->
    build resourceSchema documenter fuel table = Ok (rt, st) ->
    get "typeName" resourceSchema = Some (JPrim (JStr (typeName rt))) /\
    keys (definitions rt)
    = keys (fromEntries (definitionEntries resourceSchema)).
Proof.
  intros resourceSchema documenter fuel table rt st _ H. unfold build in H.
  destruct (get "typeName" resourceSchema) as [[[| | |s]| |]|] eqn:Hname;
    try discriminate.
  apply buildM_walk in H as (st1 & Hclass & Hn & Hk); [|reflexivity].
  simpl in Hn. unfold schemaTypeName in Hn. rewrite Hname in Hn.
  pose proof (classify_root _ _ _ _ Hclass) as ->.
  assert (Hkeeps :
            keeps (both (fun _ => True)
                     (fun r => typeName r = s /\
                               keys (definitions r)
                               = keys (fromEntries
                                         (definitionEntries resourceSchema))))
              (classify resourceSchema documenter fuel)).
  { apply both_classify.
    - intros location format args d a d' _ _. exact Logic.I.
    - intros f loc r [H1 H2]. rewrite typeName_updateAt. split; [exact H1|].
      rewrite <- H2. unfold updateAt. destruct (fst loc); simpl;
        [reflexivity|apply keys_alter].
    - intros name entry r [H1 H2]. now split. }
  destruct (Hkeeps st1 _ st (conj Logic.I (conj Hn Hk)) Hclass)
    as [_ [H1 H2]].
  split; [now rewrite H1|exact H2].
Qed.

Lemma build_keeps_the_names_witness :
  exists rt st,
    build Scenarios.sharedDefinitionSchema noDocumenter 5 RelevantKeys
    = Ok (rt, st) /\
    typeName rt = "Test::Resource" /\
    keys (definitions rt) = ["D"].
Proof.
  do 2 eexists. split; [vm_compute; reflexivity|].
  split; [reflexivity|].
  refine (proj2 (build_keeps_the_names Scenarios.sharedDefinitionSchema
                   noDocumenter 5 RelevantKeys _ _)).
  - vm_compute. intuition discriminate.
  - vm_compute. reflexivity.
Defined.

(** X27. The locations whose extra keys go unreported are a matter of the
    walk of a multi-type only: when [build] returns,
    [#ignoreExtraKeyLocations] is empty again. *)
Theorem build_stops_ignoring :
  forall (resourceSchema : obj) (documenter : ResourceDocumenter)
         (fuel : nat) (table : Tag -> list string)
         (rt : ResourceType) (st : State),
    build resourceSchema documenter fuel table = Ok (rt, st) ->
    ignoreExtraKeyLocations (diag st) = [].
Proof.
  intros resourceSchema documenter fuel table rt st H.
  assert (Hincl : incl (ignoreExtraKeyLocations (diag st)) []).
  { refine (@diagnosed_build resourceSchema documenter
              (fun outer d => incl (ignoreExtraKeyLocations d) outer)
              _ _ _ _ fuel table rt st _ H).
    - intros outer location format args d a d' Hd E.
      unfold warn in E. inversion E; subst. exact Hd.
    - intros outer schema type location d a d' Hd E.
      apply warnExtraKeys_rows in E as (-> & _). exact Hd.
    - intros outer location d Hd x Hx. unfold ignoring in Hx. simpl in Hx.
      destruct (mem location (ignoreExtraKeyLocations d)).
      + right. now apply Hd.
      + apply in_app_or in Hx as [Hx|[<-|[]]]; [right; now apply Hd|now left].
    - intros outer location d Hd x Hx. unfold heeding in Hx. simpl in Hx.
      apply filter_In in Hx as [Hx Hne].
      destruct (Hd x Hx) as [<-|Hin]; [|exact Hin].
      now rewrite String.eqb_refl in Hne.
    - intros x []. }
  destruct (ignoreExtraKeyLocations (diag st)) as [|x l]; [reflexivity|].
  destruct (Hincl x (or_introl eq_refl)).
Qed.

Lemma build_stops_ignoring_witness :
  exists rt st,
    build multiTypeSchema noDocumenter 5 RelevantKeys = Ok (rt, st) /\
    ignoreExtraKeyLocations (diag st) = [].
Proof.
  do 2 eexists. split; [vm_compute; reflexivity|].
  refine (build_stops_ignoring multiTypeSchema noDocumenter 5
            RelevantKeys _).
  vm_compute. reflexivity.
Defined.

(** X28. A build only ever adds to the rows of the table [RelevantKeys],
    which all builders share: when [build] returns, every row starts with
    the row the build found. *)
Theorem build_only_extends_RelevantKeys :
  forall (resourceSchema : obj) (documenter : ResourceDocumenter)
         (fuel : nat) (table : Tag -> list string)
         (rt : ResourceType) (st : State),
    build resourceSchema documenter fuel table = Ok (rt, st) ->
    forall t, exists added, relevantKeys (diag st) t = table t ++ added.
Proof.
  intros resourceSchema documenter fuel table rt st H.
  refine (@diagnosed_build resourceSchema documenter
            (fun _ d => forall t, exists added,
                          relevantKeys d t = table t ++ added)
            _ _ _ _ fuel table rt st _ H).
  - intros outer location format args d a d' Hd E.
    unfold warn in E. inversion E; subst. exact Hd.
  - intros outer schema type location d a d' Hd E t.
    apply warnExtraKeys_rows in E as (_ & _ & Hrows).
    destruct (Hrows t) as (more & ->). destruct (Hd t) as (added & ->).
    exists (added ++ more). now rewrite app_assoc.
  - intros outer location d Hd. exact Hd.
  - intros outer location d Hd. exact Hd.
  - intros t. exists []. now rewrite app_nil_r.
Qed.

Lemma build_only_extends_RelevantKeys_witness :
  exists rt st,
    build warnedSchema noDocumenter 4 RelevantKeys = Ok (rt, st) /\
    exists added,
      relevantKeys (diag st) TagString = RelevantKeys TagString ++ added /\
      added <> [].
Proof.
  do 2 eexists. split; [vm_compute; reflexivity|].
  destruct (@build_only_extends_RelevantKeys warnedSchema noDocumenter 4
              RelevantKeys _ _ eq_refl TagString) as (added & Hadded).
  exists added. split; [exact Hadded|].
  intros ->. vm_compute in Hadded. discriminate.
Defined.

End BuildExtras.

Module LoopExtras.
Import Js TypeNodes Run CodeGenerator Generate Scenarios.

(** X29. The loop of [main] that emits the referenced definitions, for a
    generator whose calls on the definitions of the table return. [J] is
    what holds of the generator between two calls. The loop returns, and
    the generated definitions then have distinct names of the table and
    are no more than the table has, and every definition of the table
    whose name is referenced is among them; rounds beyond one more than
    the table has entries are never run; a visit of a table entry appends
    its definition only when its name is referenced and not generated
    yet, and changes nothing otherwise; and a round appends as many
    definitions as it counts, none of them generated before, and leaves
    the generator as it was when it appends none. *)
Theorem emit_loop_returns_when_generate_does :
  forall (generate : string -> TypeDefinition -> G Statement)
         (table : list (string * TypeDefinition))
         (J : GenState -> Prop) (st0 : GenState),
    J st0 ->
    (forall name def st,
       In (name, def) table -> J st ->
       exists statement st',
         generate name def st = Ok (statement, st') /\ J st') ->
    (exists definitions st',
       emitDefinitions generate table st0 = Ok (definitions, st') /\
       J st' /\
       NoDup (map fst definitions) /\
       incl (map fst definitions) (keys table) /\
       List.length definitions <= List.length table /\
       forall name def,
         In (name, def) table ->
         hasName (NameString name) (referencedNames st') = true ->
         In name (map fst definitions)) /\
    (forall extra,
       emitLoop generate table (S (List.length table) + extra) [] st0
       = emitDefinitions generate table st0) /\
    (forall acc entry st acc' st',
       passStep generate acc entry st = Ok (acc', st') ->
       (acc' = acc /\ st' = st) \/
       (exists statement,
          acc' = (fst acc ++ [(fst entry, statement)], S (snd acc)) /\
          ~ In (fst entry) (map fst (fst acc)) /\
          hasName (NameString (fst entry)) (referencedNames st) = true)) /\
    (forall definitions st definitions' thisPass st',
       GenerateFacts.Inv table definitions ->
       onePass generate table definitions st
       = Ok ((definitions', thisPass), st') ->
       GenerateFacts.Inv table definitions' /\
       exists added,
         definitions' = definitions ++ added /\
         thisPass = List.length added /\
         (forall name, In name (map fst added) ->
            In name (keys table) /\ ~ In name (map fst definitions)) /\
         (thisPass = 0 -> st' = st)).
Proof.
  intros generate table J st0 Hj Hret. split; [|split; [|split]].
  - destruct (@LoopFacts.emitLoop_returns generate table J Hret
                (S (List.length table)) [] st0)
      as (definitions & st' & Hrun & Hj');
      [apply GenerateFacts.Inv_nil|assumption|simpl; lia|].
    exists definitions, st'. split; [exact Hrun|]. split; [exact Hj'|].
    apply GenerateFacts.emitLoop_exit in Hrun; [|apply GenerateFacts.Inv_nil].
    destruct Hrun as [Hinv Hall]. pose proof (GenerateFacts.Inv_length Hinv).
    destruct Hinv as [Hnd Hincl]. repeat split; try assumption.
    intros name def Hin Href. apply (Hall (name, def) Hin Href).
  - intros extra. unfold emitDefinitions.
    apply GenerateFacts.emitLoop_stable;
      [apply GenerateFacts.Inv_nil|simpl; lia|simpl; lia].
  - intros acc entry st acc' st' Hstep.
    apply GenerateFacts.passStep_spec in Hstep
      as [(-> & -> & _)|(statement & -> & Hnew & Href)].
    + now left.
    + right. exists statement. repeat split; assumption.
  - intros definitions st definitions' thisPass st' Hinv Hpass.
    destruct (@GenerateFacts.onePass_spec _ _ _ _ _ _ Hpass Hinv)
      as (Hinv' & added & Ha & Hn & Hnew & Hnone).
    simpl in *. split; [assumption|]. exists added.
    repeat split; try assumption; try (now apply Hnew).
    intros Hz. apply Hnone. destruct added; [reflexivity|simpl in *; lia].
Qed.

(** With [A] referenced from the properties, the loop of [main] over the
    table [A], [B], [C] generates [A] and [C] in its first round and [B]
    in its second. *)
Lemma emit_loop_returns_when_generate_does_witness :
  exists definitions st',
    emitDefinitions
      (generateTypeDefinition (resourceOptions chainedResource 5) 5)
      chainedDefinitions (mkGenState [NameString "A"] [])
    = Ok (definitions, st') /\
    map fst definitions = ["A"; "C"; "B"] /\
    NoDup (map fst definitions).
Proof.
  destruct (@emit_loop_returns_when_generate_does
              (generateTypeDefinition (resourceOptions chainedResource 5) 5)
              chainedDefinitions (fun st => stack st = [])
              (mkGenState [NameString "A"] []) eq_refl)
    as ((definitions & st' & Hrun & _ & Hnd & _) & _).
  - intros name def [names stack] Hin Hst. simpl in Hst. subst stack.
    destruct Hin as [Heq|[Heq|[Heq|[]]]]; inversion Heq; subst;
      do 2 eexists; split; try (vm_compute; reflexivity); reflexivity.
  - exists definitions, st'. split; [exact Hrun|]. split; [|exact Hnd].
    vm_compute in Hrun. inversion Hrun. reflexivity.
Defined.

End LoopExtras.

Module PromotionExtras.
Import Js TypeNodes Run Builder Scenarios.

(** X30. The breadcrumb pass depends on the order of its visits. Of the
    two properties [P1] and [P2] of [sharedDefinitionSchema], both of the
    type of the one definition [D] whose only child [x] is listed under
    both, [build] marks [P1] read-only and not [P2], whatever the fuel:
    the visit of [P1] sets [x] back to [readOnly = false], and
    [#allReadOnlyChildren] then says no for [P2]. *)
Theorem shared_definition_promotes_the_first_only :
  forall (fuel : nat) (rt : ResourceType) (st : State),
    build sharedDefinitionSchema noDocumenter fuel RelevantKeys
    = Ok (rt, st) ->
    exists first second child,
      propAt rt (rootProperty "P1") = Some first /\
      readOnly first = Some true /\
      propAt rt (rootProperty "P2") = Some second /\
      readOnly second = None /\
      propAt rt (mkPropRef (InDefinition "D", []) "x") = Some child /\
      readOnly child = Some false /\
      allReadOnlyChildren 2 rt (type second) = Ok false.
Proof.
  intros fuel rt st H.
  destruct fuel as [|[|[|[|[|fuel]]]]]; vm_compute in H;
    try discriminate H.
  all: injection H as <- _; vm_compute; repeat eexists.
Qed.

Lemma shared_definition_promotes_the_first_only_witness :
  exists rt st,
    build sharedDefinitionSchema noDocumenter 5 RelevantKeys = Ok (rt, st) /\
    exists first second,
      propAt rt (rootProperty "P1") = Some first /\
      readOnly first = Some true /\
      propAt rt (rootProperty "P2") = Some second /\
      readOnly second = None.
Proof.
  destruct (build sharedDefinitionSchema noDocumenter 5 RelevantKeys)
    as [[rt st]| | |] eqn:E; try (vm_compute in E; discriminate E).
  exists rt, st. split; [reflexivity|].
  destruct (@shared_definition_promotes_the_first_only 5 rt st E)
    as (first & second & child & H1 & H2 & H3 & H4 & _).
  exists first, second. repeat split; assumption.
Defined.

End PromotionExtras.
